(** * LLMWS inference client (llmws-runner): shallow embedding and verification

    The development follows the TypeScript module that drives one
    request/response exchange with a local WebSocket model server:
    target resolution, the message queue of one connection, the attempt
    state machine with its token-budget retry, the failover loop over the
    resolved targets, the prompt assembly and the transcript append; and
    what prepares a call: the runtime settings, the history block, the
    context files, the media payload and the memory block.

    Conventions of the embedding:
    - a JavaScript string is a [string] of 8-bit code units (the Latin-1
      range of UTF-16); [JS.trim], [JS.toLowerCase] and the [\s] class are
      the ECMAScript ones restricted to that range;
    - a finite JavaScript number is the rational [Q] it stands for (the
      sign of zero is not told apart); a non-finite one is [JNonFinite];
      sums and products are rounded to binary64 ([JS.add], [JS.multiply]);
      millisecond clocks and timeouts are integers [Z];
    - [Record<string, unknown>] is an association list of fields;
    - a thrown value is a [JsError]; a function that can throw returns a
      sum, state (clock, socket, file) is passed explicitly. *)

From Stdlib Require Import String Ascii List ZArith QArith Qround Qabs Lia Bool.
From Stdlib Require Import Permutation Sorted DecimalString.
Import ListNotations.

Set Warnings "-register-all".
Close Scope Q_scope.
Open Scope string_scope.
Open Scope list_scope.

(** ** Platform primitives (ECMAScript built-ins used by the module) *)

Module JS.

(** [WhiteSpace] and [LineTerminator] code units below 256; the same set
    is the regular-expression class [\s]. *)
Definition isWhiteSpace (c : ascii) : bool :=
  let n := nat_of_ascii c in
  (Nat.eqb n 9 || Nat.eqb n 10 || Nat.eqb n 11 || Nat.eqb n 12
   || Nat.eqb n 13 || Nat.eqb n 32 || Nat.eqb n 160)%bool.

Fixpoint trimStart (s : string) : string :=
  match s with
  | EmptyString => EmptyString
  | String c r => if isWhiteSpace c then trimStart r else s
  end.

Fixpoint trimEnd (s : string) : string :=
  match s with
  | EmptyString => EmptyString
  | String c r =>
      match trimEnd r with
      | EmptyString => if isWhiteSpace c then EmptyString else String c EmptyString
      | r' => String c r'
      end
  end.

(** [String.prototype.trim] *)
Definition trim (s : string) : string := trimEnd (trimStart s).

Definition lowerChar (c : ascii) : ascii :=
  let n := nat_of_ascii c in
  if ((Nat.leb 65 n && Nat.leb n 90)
      || (Nat.leb 192 n && Nat.leb n 222 && negb (Nat.eqb n 215)))%bool
  then ascii_of_nat (n + 32) else c.

(** [String.prototype.toLowerCase] *)
Fixpoint toLowerCase (s : string) : string :=
  match s with
  | EmptyString => EmptyString
  | String c r => String (lowerChar c) (toLowerCase r)
  end.

(** [String.prototype.toUpperCase] *)
Definition upperChar (c : ascii) : ascii :=
  let n := nat_of_ascii c in
  if ((Nat.leb 97 n && Nat.leb n 122)
      || (Nat.leb 224 n && Nat.leb n 254 && negb (Nat.eqb n 247)))%bool
  then ascii_of_nat (n - 32) else c.

Fixpoint toUpperCase (s : string) : string :=
  match s with
  | EmptyString => EmptyString
  | String c r => String (upperChar c) (toUpperCase r)
  end.

(** [Array.prototype.join] on strings *)
Fixpoint join (sep : string) (l : list string) : string :=
  match l with
  | [] => ""
  | [x] => x
  | x :: r => x ++ sep ++ join sep r
  end.

(** [String.prototype.includes] *)
Fixpoint includes (s sub : string) : bool :=
  if String.prefix sub s then true
  else match s with
       | EmptyString => false
       | String _ r => includes r sub
       end.

(** [String.prototype.endsWith] for a one-character suffix *)
Fixpoint endsWithChar (s : string) (c : ascii) : bool :=
  match s with
  | EmptyString => false
  | String d EmptyString => Ascii.eqb d c
  | String _ r => endsWithChar r c
  end.

(** Decimal rendering of an integer, as a template literal does. *)
Definition ofZ (z : Z) : string := NilEmpty.string_of_int (Z.to_int z).

(** The line feed, as a string. *)
Definition LF : string := String (ascii_of_nat 10) EmptyString.

(** A string is truthy when it is not empty. *)
Definition truthy (s : string) : bool := negb (String.eqb s "").

(** *** Numbers

    The result of an arithmetic operation on finite numbers: a finite
    binary64 value, given by the rational it stands for, or an infinity
    (such an operation never gives [NaN]). *)
Inductive number : Type :=
| Num (q : Q)
| PosInf
| NegInf.

(** [2 ** e] *)
Definition pow2 (e : Z) : Q :=
  if (0 <=? e)%Z then inject_Z (2 ^ e) else (1 # Z.to_pos (2 ^ (- e)))%Q.

(** The integer part of the binary logarithm of a rational above 0: with
    [k] the difference of the logarithms of numerator and denominator it
    is [k] or [k - 1]. *)
Definition ilog2 (q : Q) : Z :=
  let k := (Z.log2 (Qnum q) - Z.log2 (Zpos (Qden q)))%Z in
  if Qle_bool (pow2 k) q then k else (k - 1)%Z.

(** The nearest integer, the even one of the two when both are as near. *)
Definition nearestEven (q : Q) : Z :=
  let f := Qfloor q in
  match Qcompare (q - inject_Z f) (1 # 2) with
  | Lt => f
  | Gt => (f + 1)%Z
  | Eq => if Z.even f then f else (f + 1)%Z
  end.

(** The binary64 value nearest to a rational, ties to even: a significand
    of 53 bits, the exponent of the last bit at least -1074, and an
    infinity from [2 ** 1024] on. *)
Definition roundReduced (q : Q) : number :=
  match Qcompare q 0 with
  | Eq => Num 0
  | sign =>
      let a := Qabs q in
      let e := Z.max (ilog2 a - 52) (-1074) in
      let r := (inject_Z (nearestEven (a / pow2 e)) * pow2 e)%Q in
      if Qle_bool (pow2 1024) r
      then match sign with Gt => PosInf | _ => NegInf end
      else Num (Qred match sign with Gt => r | _ => (- r)%Q end)
  end.

Definition roundToDouble (q : Q) : number := roundReduced (Qred q).

(** [a + b] and [a * b] on finite numbers *)
Definition add (a b : Q) : number := roundToDouble (a + b).
Definition multiply (a b : Q) : number := roundToDouble (a * b).

(** [x + b] where [x] is the result of an operation *)
Definition plus (x : number) (b : Q) : number :=
  match x with
  | Num a => add a b
  | _ => x
  end.

(** [Math.floor] *)
Definition floor (x : number) : number :=
  match x with
  | Num q => Num (inject_Z (Qfloor q))
  | _ => x
  end.

(** [x > 0] *)
Definition greaterThanZero (x : number) : bool :=
  match x with
  | Num q => negb (Qle_bool q 0)
  | PosInf => true
  | NegInf => false
  end.

End JS.

(** ** JSON values and typed readers *)

Inductive JValue : Type :=
| JNull
| JBool (b : bool)
| JNum (q : Q)
| JNonFinite
| JStr (s : string)
| JArr (items : list JValue)
| JObj (fields : list (string * JValue)).

(** [Record<string, unknown>] *)
Definition JRecord := list (string * JValue).

(** [record[key]]; a missing key reads as [undefined] ([None]).  A record
    binds a key once; of two bindings the first is the one read. *)
Fixpoint getField (record : JRecord) (key : string) : option JValue :=
  match record with
  | [] => None
  | (k, v) :: r => if String.eqb k key then Some v else getField r key
  end.

(** [isRecord] of utils: a non-null object that is not an array. *)
Definition isRecord (v : JValue) : option JRecord :=
  match v with
  | JObj fields => Some fields
  | _ => None
  end.

Definition readString (record : JRecord) (key : string) : option string :=
  match getField record key with
  | Some (JStr value) =>
      let trimmed := JS.trim value in
      if JS.truthy trimmed then Some trimmed else None
  | _ => None
  end.

Definition readNumber (record : JRecord) (key : string) : option Q :=
  match getField record key with
  | Some (JNum value) => Some value
  | _ => None
  end.

Definition readBoolean (record : JRecord) (key : string) : option bool :=
  match getField record key with
  | Some (JBool value) => Some value
  | _ => None
  end.

Definition readStringList (record : JRecord) (key : string) : list string :=
  match getField record key with
  | Some (JArr value) =>
      filter (fun entry => negb (Nat.eqb (String.length entry) 0))
        (map (fun entry => match entry with
                           | JStr s => JS.trim s
                           | _ => ""
                           end) value)
  | _ => []
  end.

(** A thrown [Error]: its message and, for socket errors, its [code]. *)
Record JsError : Type := mkError { message : string; code : option string }.

Definition newError (msg : string) : JsError := mkError msg None.

(** ** The message queue of one connection ([LlmwsMessageQueue]) *)

Definition LlmwsParsedMessage := JRecord.

(** What the socket delivers to the handlers the queue registers.  A
    [WsMessage] carries the JSON values of the payload's non-empty lines
    that [JSON.parse] accepts, in order. *)
Inductive WsEvent : Type :=
| WsMessage (parsedLines : list JValue)
| WsError (err : JsError)
| WsClose (closeCode : Z) (reason : string).

Module MessageQueue.

(** A pending [next()] call: who waits, and the timeout its timer was
    armed with. *)
Record Waiter : Type := mkWaiter { waiterId : nat; waiterTimeoutMs : Z }.

Record t : Type := mk {
  queue : list LlmwsParsedMessage;
  waiters : list Waiter;
  terminalError : option JsError
}.

Definition empty : t := mk [] [] None.

(** How the promise of a [next()] call is settled. *)
Inductive Settlement : Type :=
| Resolved (item : LlmwsParsedMessage)
| Rejected (err : JsError).

Inductive NextResult : Type :=
| Now (s : Settlement)
| Suspended.

Definition next (q : t) (id : nat) (timeoutMs : Z) : t * NextResult :=
  match queue q with
  | item :: rest => (mk rest (waiters q) (terminalError q), Now (Resolved item))
  | [] =>
      match terminalError q with
      | Some err => (q, Now (Rejected err))
      | None =>
          (mk (queue q) (waiters q ++ [mkWaiter id timeoutMs]) (terminalError q),
           Suspended)
      end
  end.

Definition readTimeoutError (timeoutMs : Z) : JsError :=
  newError ("LLMWS read timeout (" ++ JS.ofZ timeoutMs ++ "ms)").

Fixpoint removeWaiter (id : nat) (ws : list Waiter) : option (Waiter * list Waiter) :=
  match ws with
  | [] => None
  | w :: r =>
      if Nat.eqb (waiterId w) id then Some (w, r)
      else match removeWaiter id r with
           | Some (found, r') => Some (found, w :: r')
           | None => None
           end
  end.

(** The timer callback of waiter [id].  [clearTimeout] disarms the timer
    of a waiter that was settled, so it runs for a pending waiter only. *)
Definition timerFired (q : t) (id : nat) : t * list (nat * Settlement) :=
  match removeWaiter id (waiters q) with
  | Some (w, rest) =>
      (mk (queue q) rest (terminalError q),
       [(id, Rejected (readTimeoutError (waiterTimeoutMs w)))])
  | None => (q, [])
  end.

Definition push (q : t) (message : LlmwsParsedMessage) : t * list (nat * Settlement) :=
  match waiters q with
  | w :: rest => (mk (queue q) rest (terminalError q), [(waiterId w, Resolved message)])
  | [] => (mk (queue q ++ [message]) [] (terminalError q), [])
  end.

Definition firstError (q : t) (error : JsError) : JsError :=
  match terminalError q with
  | Some recorded => recorded
  | None => error
  end.

Definition fail (q : t) (error : JsError) : t * list (nat * Settlement) :=
  let err := firstError q error in
  (mk (queue q) [] (Some err),
   map (fun w => (waiterId w, Rejected err)) (waiters q)).

Fixpoint onRawData (q : t) (parsedLines : list JValue) : t * list (nat * Settlement) :=
  match parsedLines with
  | [] => (q, [])
  | parsed :: rest =>
      match isRecord parsed with
      | None => onRawData q rest
      | Some message =>
          let '(q1, s1) := push q message in
          let '(q2, s2) := onRawData q1 rest in
          (q2, s1 ++ s2)
      end
  end.

Definition socketClosedError (closeCode : Z) (reason : string) : JsError :=
  newError ("LLMWS socket closed (" ++ JS.ofZ closeCode ++ "): " ++ reason).

(** The three handlers installed by the constructor. *)
Definition dispatch (q : t) (ev : WsEvent) : t * list (nat * Settlement) :=
  match ev with
  | WsMessage parsedLines => onRawData q parsedLines
  | WsError err => fail q err
  | WsClose closeCode reason => fail q (socketClosedError closeCode reason)
  end.

(** Everything that can happen to a queue, for reasoning about arbitrary
    interleavings of consumers, socket events and timers. *)
Inductive Op : Type :=
| OpNext (id : nat) (timeoutMs : Z)
| OpEvent (ev : WsEvent)
| OpTimer (id : nat).

Definition step (q : t) (op : Op) : t * list (nat * Settlement) :=
  match op with
  | OpNext id timeoutMs =>
      match next q id timeoutMs with
      | (q', Now s) => (q', [(id, s)])
      | (q', Suspended) => (q', [])
      end
  | OpEvent ev => dispatch q ev
  | OpTimer id => timerFired q id
  end.

Fixpoint run (q : t) (ops : list Op) : t * list (nat * Settlement) :=
  match ops with
  | [] => (q, [])
  | op :: rest =>
      let '(q1, s1) := step q op in
      let '(q2, s2) := run q1 rest in
      (q2, s1 ++ s2)
  end.

End MessageQueue.

(** ** The environment of a call: clock, network and log *)

(** [max_new_tokens] is the one field the module computes itself, so it
    alone can come to hold an infinity. *)
Record LlmwsGenerationConfig : Type := mkGeneration {
  max_new_tokens : option JS.number;
  temperature : option Q;
  top_p : option Q;
  top_k : option Q;
  repetition_penalty : option Q;
  do_sample : option bool
}.

Definition noGeneration : LlmwsGenerationConfig :=
  mkGeneration None None None None None None.

(** [{ ...generation, max_new_tokens: value }] *)
Definition withMaxNewTokens (g : LlmwsGenerationConfig) (value : JS.number)
  : LlmwsGenerationConfig :=
  mkGeneration (Some value) (temperature g) (top_p g) (top_k g)
    (repetition_penalty g) (do_sample g).

(** What [sendJson] is given. *)
Inductive Payload : Type :=
| HelloPayload (session_id : option string)
| InferencePayload (system user : string) (media : list JRecord)
    (config : LlmwsGenerationConfig).

(** How the handshake of a new socket ends. *)
Inductive ConnectOutcome : Type :=
| ConnOpen
| ConnError (err : JsError)
| ConnStall.

(** What one connection to a server does: how the handshake ends, the
    events the socket then delivers, each with its arrival time in
    milliseconds after the socket opened, and what becomes of the payloads
    given to [ws.send], in order: the time until the callback of [send]
    runs and the error it is called with, if any.  A payload for which
    [sends] has no entry is accepted at once. *)
Record ServerScript : Type := mkScript {
  connect : ConnectOutcome;
  events : list (Z * WsEvent);
  sends : list (Z * option JsError)
}.

(** What the call does, in order. *)
Inductive Action : Type :=
| ActOpen (target : string)
| ActTerminate
| ActSend (payload : Payload)
| ActRecv (message : LlmwsParsedMessage)
| ActClose
| ActWarn (text : string).

(** The state threaded through a call: [Date.now()], the log of actions,
    the number of identifiers drawn from [randomUUID], and the queue, the
    still undelivered events and the outcomes of the sends to come of the
    socket that is open.  [ActSend] logs a payload the socket accepted. *)
Record State : Type := mkState {
  now : Z;
  log : list Action;
  uuids : nat;
  socketQueue : MessageQueue.t;
  inbound : list (Z * WsEvent);
  outbound : list (Z * option JsError)
}.

Definition initialState (start : Z) : State :=
  mkState start [] 0 MessageQueue.empty [] [].

Definition logAction (st : State) (a : Action) : State :=
  mkState (now st) (log st ++ [a]) (uuids st) (socketQueue st) (inbound st) (outbound st).

Definition isOpenOf (target : string) (a : Action) : bool :=
  match a with
  | ActOpen t => String.eqb t target
  | _ => false
  end.

(** The targets on which a socket was opened, in order. *)
Fixpoint openedTargets (l : list Action) : list string :=
  match l with
  | [] => []
  | ActOpen t :: r => t :: openedTargets r
  | _ :: r => openedTargets r
  end.

(** The payloads sent, in order. *)
Fixpoint sentPayloads (l : list Action) : list Payload :=
  match l with
  | [] => []
  | ActSend p :: r => p :: sentPayloads r
  | _ :: r => sentPayloads r
  end.

(** Generic [while] loop: the body either continues with a new state or
    leaves the loop with a result; [None] when the fuel runs out. *)
Inductive Step (S R : Type) : Type :=
| Continue (s : S)
| Break (r : R).
Arguments Continue {S R} s.
Arguments Break {S R} r.

Fixpoint loop {S R : Type} (body : S -> Step S R) (fuel : nat) (s : S) : option R :=
  match fuel with
  | O => None
  | Datatypes.S n =>
      match body s with
      | Continue s' => loop body n s'
      | Break r => Some r
      end
  end.

(** ** Reading from the socket: [await queue.next(timeoutMs)] *)

Module Socket.
Import MessageQueue.
Local Open Scope Z_scope.

(** Events whose time has come are handled before the caller runs again;
    nobody is waiting then, so they only fill the buffer or record the
    terminal error. *)
Fixpoint deliverDue (clock : Z) (q : t) (pending : list (Z * WsEvent))
  : t * list (Z * WsEvent) :=
  match pending with
  | [] => (q, [])
  | (arrival, ev) :: rest =>
      if arrival <=? clock then deliverDue clock (fst (dispatch q ev)) rest
      else (q, pending)
  end.

Definition firstSettlement (ss : list (nat * Settlement)) : option Settlement :=
  match ss with
  | [] => None
  | (_, s) :: _ => Some s
  end.

(** The caller is suspended with its timer armed for [timerAt]: the next
    events are handled as they arrive, until one settles the caller or the
    timer fires first. *)
Fixpoint awaitEvents (timerAt timeoutMs clock : Z) (q : t) (pending : list (Z * WsEvent))
  : Settlement * Z * t * list (Z * WsEvent) :=
  match pending with
  | (arrival, ev) :: rest =>
      if arrival <? timerAt then
        let '(q', settled) := dispatch q ev in
        match firstSettlement settled with
        | Some s => (s, Z.max clock arrival, q', rest)
        | None => awaitEvents timerAt timeoutMs (Z.max clock arrival) q' rest
        end
      else
        let '(q', settled) := timerFired q 0 in
        (match firstSettlement settled with
         | Some s => s
         | None => Rejected (readTimeoutError timeoutMs)
         end, timerAt, q', pending)
  | [] =>
      let '(q', settled) := timerFired q 0 in
      (match firstSettlement settled with
       | Some s => s
       | None => Rejected (readTimeoutError timeoutMs)
       end, timerAt, q', [])
  end.

(** [await queue.next(timeoutMs)] at time [now st]. *)
Definition queueNext (st : State) (timeoutMs : Z) : Settlement * State :=
  let '(q1, pending1) := deliverDue (now st) (socketQueue st) (inbound st) in
  match next q1 0 timeoutMs with
  | (q2, Now s) => (s, mkState (now st) (log st) (uuids st) q2 pending1 (outbound st))
  | (q2, Suspended) =>
      let '(s, clock, q3, pending3) :=
        awaitEvents (now st + Z.max 1 timeoutMs) timeoutMs (now st) q2 pending1 in
      (s, mkState clock (log st) (uuids st) q3 pending3 (outbound st))
  end.

(** Number of frames still to come on this socket: those buffered, and
    for every undelivered event itself plus the frames it carries. *)
Definition eventWeight (ev : WsEvent) : nat :=
  match ev with
  | WsMessage parsedLines => Datatypes.S (List.length parsedLines)
  | _ => 1%nat
  end.

Fixpoint pendingWeight (pending : list (Z * WsEvent)) : nat :=
  match pending with
  | [] => 0%nat
  | (_, ev) :: rest => (eventWeight ev + pendingWeight rest)%nat
  end.

Definition weight (st : State) : nat :=
  (List.length (queue (socketQueue st)) + pendingWeight (inbound st))%nat.

End Socket.

(** ** One inference attempt ([runLlmwsAttempt]) *)

Record LlmwsUsage : Type := mkUsage {
  input : option Q;
  output : option Q;
  total : option JS.number
}.

Record LlmwsRunAttemptResult : Type := mkResult {
  text : string;
  sessionId : option string;
  usage : option LlmwsUsage
}.

Module Attempt.
Local Open Scope Z_scope.

Record Params : Type := mkParams {
  target : string;
  connectTimeoutMs : Z;
  readTimeoutMs : Z;
  resumeSessionId : option string;
  systemPrompt : string;
  userPrompt : string;
  media : list JRecord;
  generation : LlmwsGenerationConfig
}.

(** [value ?? 0] *)
Definition orZero (value : option Q) : Q :=
  match value with
  | Some q => q
  | None => 0%Q
  end.

(** [q > 0] *)
Definition positive (q : Q) : bool := negb (Qle_bool q 0).

Definition isSome {A : Type} (o : option A) : bool :=
  match o with
  | Some _ => true
  | None => false
  end.

(** The [usage] object built after the stream loop. *)
Definition buildUsage (inputTokens outputTokens : option Q) : option LlmwsUsage :=
  if (isSome inputTokens || isSome outputTokens)%bool then
    Some (mkUsage inputTokens outputTokens
            (if JS.greaterThanZero (JS.add (orZero inputTokens) (orZero outputTokens))
             then Some (JS.add (orZero inputTokens) (orZero outputTokens))
             else None))
  else None.

(** [readString(message, "type") === name] *)
Definition hasType (message : LlmwsParsedMessage) (name : string) : bool :=
  match readString message "type" with
  | Some t => String.eqb t name
  | None => false
  end.

Definition connectTimeoutError (connectTimeoutMs : Z) : JsError :=
  newError ("LLMWS connect timeout (" ++ JS.ofZ connectTimeoutMs ++ "ms)").

(** [sendJson]: the promise is settled by the callback of [ws.send],
    rejected with the error the callback is given. *)
Definition sendJson (st : State) (payload : Payload) : option JsError * State :=
  match outbound st with
  | [] => (None, logAction st (ActSend payload))
  | (delay, outcome) :: rest =>
      let st1 :=
        mkState (now st + Z.max 0 delay) (log st) (uuids st) (socketQueue st) (inbound st)
          rest in
      match outcome with
      | Some err => (Some err, st1)
      | None => (None, logAction st1 (ActSend payload))
      end
  end.

(** [closeSocket]: the socket is gone afterwards, and with it its queue
    and whatever the server had still to send. *)
Definition closeSocket (st : State) : State :=
  mkState (now st) (log st ++ [ActClose]) (uuids st) MessageQueue.empty [] [].

(** [await queue.next(timeoutMs)], as the attempt sees it: the message, or
    the error thrown. *)
Definition nextMessage (st : State) (timeoutMs : Z) : (JsError + LlmwsParsedMessage) * State :=
  match Socket.queueNext st timeoutMs with
  | (MessageQueue.Resolved message, st') => (inr message, logAction st' (ActRecv message))
  | (MessageQueue.Rejected err, st') => (inl err, st')
  end.

(** The variables of the stream loop. *)
Record StreamVars : Type := mkVars {
  inputTokens : option Q;
  outputTokens : option Q;
  streamed : string
}.

Inductive WelcomeExit : Type :=
| WelcomeThrow (err : JsError)
| Welcomed (session_id : option string).

Inductive StreamExit : Type :=
| StreamThrow (err : JsError)
| StreamDone (vars : StreamVars)
| StreamRetry (adjusted : LlmwsGenerationConfig).

Inductive ConnectionExit : Type :=
| ConnThrow (err : JsError)
| ConnReturn (result : LlmwsRunAttemptResult)
| ConnRetry (adjusted : LlmwsGenerationConfig).

Section WithEnvironment.

(** [network url k] is what the server at [url] does on the [k]-th
    connection made to it during the call (counting from 0). *)
Variable network : string -> nat -> ServerScript.
(** The successive results of [randomUUID()]. *)
Variable randomUUID : nat -> string.
(** How a template literal renders a number. *)
Variable numberToString : Q -> string.

Definition openLlmwsSocket (target : string) (connectTimeoutMs : Z) (st : State)
  : option JsError * State :=
  let script := network target (count_occ string_dec (openedTargets (log st)) target) in
  match connect script with
  | ConnOpen =>
      (None,
       mkState (now st) (log st ++ [ActOpen target]) (uuids st) MessageQueue.empty
         (map (fun ev => (now st + fst ev, snd ev)) (events script)) (sends script))
  | ConnError err =>
      (Some err,
       mkState (now st) (log st ++ [ActOpen target]) (uuids st) MessageQueue.empty [] [])
  | ConnStall =>
      (Some (connectTimeoutError connectTimeoutMs),
       mkState (now st + Z.max 1 connectTimeoutMs)
         (log st ++ [ActOpen target; ActTerminate]) (uuids st) MessageQueue.empty [] [])
  end.

(** Body of [while (!sawWelcome)]. *)
Definition welcomeBody (welcomeDeadline : Z) (st : State)
  : Step State (WelcomeExit * State) :=
  let remaining := welcomeDeadline - now st in
  if remaining <=? 0 then Break (WelcomeThrow (newError "LLMWS welcome timeout"), st)
  else
    match nextMessage st remaining with
    | (inl err, st') => Break (WelcomeThrow err, st')
    | (inr message, st') =>
        if hasType message "welcome"
        then Break (Welcomed (readString message "session_id"), st')
        else Continue st'
    end.

Definition tokenBudgetError (tokensIn maxTokens : Q) : JsError :=
  newError ("LLMWS server token budget invalid (tokens_in=" ++ numberToString tokensIn
            ++ ", max_tokens=" ++ numberToString maxTokens
            ++ "). Configure llmws.config.maxNewTokens (or update llmws_server.py).").

(** The guard of the token-budget workaround, for numeric [tokens_in] and
    [max_tokens]. *)
Definition budgetTooSmall (retriedForTokenBudget : bool) (tokensIn maxTokens : Q) : bool :=
  (negb retriedForTokenBudget && positive tokensIn && Qle_bool maxTokens tokensIn)%bool.

(** What the stream loop does with the message it was given: the
    branches on [type] after [readDeadline] was reset. *)
Definition handleFrame (generation : LlmwsGenerationConfig) (retriedForTokenBudget : bool)
    (vars : StreamVars) (message : LlmwsParsedMessage) : Step StreamVars StreamExit :=
  if hasType message "start" then
    let tokensIn := readNumber message "tokens_in" in
    let maxTokens := readNumber message "max_tokens" in
    let vars' :=
      match tokensIn with
      | Some tin => mkVars (Some tin) (outputTokens vars) (streamed vars)
      | None => vars
      end in
    match tokensIn, maxTokens with
    | Some tin, Some mt =>
        if budgetTooSmall retriedForTokenBudget tin mt then
          match max_new_tokens generation with
          | Some (JS.Num desiredNewTokens) =>
              if positive desiredNewTokens then
                Break (StreamRetry
                         (withMaxNewTokens generation
                            (JS.floor (JS.plus (JS.multiply tin 2) desiredNewTokens))))
              else Break (StreamThrow (tokenBudgetError tin mt))
          | _ => Break (StreamThrow (tokenBudgetError tin mt))
          end
        else Continue vars'
    | _, _ => Continue vars'
    end
  else if hasType message "token" then
    match getField message "data" with
    | Some (JStr chunkValue) =>
        Continue (mkVars (inputTokens vars) (outputTokens vars) (streamed vars ++ chunkValue))
    | _ => Continue vars
    end
  else if hasType message "done" then
    Break (StreamDone
             match readNumber message "total_tokens" with
             | Some total => mkVars (inputTokens vars) (Some total) (streamed vars)
             | None => vars
             end)
  else if hasType message "error" then
    Break (StreamThrow
             (newError match readString message "message" with
                       | Some errorMessage => errorMessage
                       | None => "LLMWS returned an error"
                       end))
  else Continue vars.

(** Body of [while (!done)]; the loop state is the call state, the
    current [readDeadline] and the loop variables. *)
Definition streamBody (readTimeoutMs : Z) (generation : LlmwsGenerationConfig)
    (retriedForTokenBudget : bool) (s : State * Z * StreamVars)
  : Step (State * Z * StreamVars) (StreamExit * State) :=
  let '(st, readDeadline, vars) := s in
  let remaining := readDeadline - now st in
  if remaining <=? 0 then Break (StreamThrow (newError "LLMWS stream timeout"), st)
  else
    match nextMessage st remaining with
    | (inl err, st') => Break (StreamThrow err, st')
    | (inr message, st') =>
        match handleFrame generation retriedForTokenBudget vars message with
        | Continue vars' => Continue (st', now st' + readTimeoutMs, vars')
        | Break exit => Break (exit, st')
        end
    end.

Definition helloPayload (resumeSessionId : option string) : Payload :=
  HelloPayload match resumeSessionId with
               | Some raw => if JS.truthy (JS.trim raw) then Some (JS.trim raw) else None
               | None => None
               end.

(** The [try] block of one iteration of the attempt loop, on the socket
    just opened.  [None] only if a loop ran out of fuel. *)
Definition connectionBody (params : Params) (generation : LlmwsGenerationConfig)
    (retriedForTokenBudget : bool) (st : State) : option (ConnectionExit * State) :=
  match sendJson st (helloPayload (resumeSessionId params)) with
  | (Some err, st1) => Some (ConnThrow err, st1)
  | (None, st1) =>
      let welcomeDeadline := now st1 + readTimeoutMs params in
      match loop (welcomeBody welcomeDeadline) (S (Socket.weight st1)) st1 with
      | None => None
      | Some (WelcomeThrow err, st2) => Some (ConnThrow err, st2)
      | Some (Welcomed session_id, st2) =>
          let '(sessionId, st3) :=
            match session_id with
            | Some id => (id, st2)
            | None =>
                (randomUUID (uuids st2),
                 mkState (now st2) (log st2) (S (uuids st2)) (socketQueue st2) (inbound st2)
                   (outbound st2))
            end in
          match sendJson st3 (InferencePayload (systemPrompt params) (userPrompt params)
                                (media params) generation) with
          | (Some err, st4) => Some (ConnThrow err, st4)
          | (None, st4) =>
              let readDeadline := now st4 + readTimeoutMs params in
              match loop (streamBody (readTimeoutMs params) generation retriedForTokenBudget)
                         (S (Socket.weight st4)) (st4, readDeadline, mkVars None None "") with
              | None => None
              | Some (StreamThrow err, st5) => Some (ConnThrow err, st5)
              | Some (StreamRetry adjusted, st5) => Some (ConnRetry adjusted, st5)
              | Some (StreamDone final, st5) =>
                  Some (ConnReturn (mkResult (JS.trim (streamed final)) (Some sessionId)
                                      (buildUsage (inputTokens final) (outputTokens final))),
                        st5)
              end
          end
      end
  end.

(** The [for] loop of the attempt, with [attemptsLeft] iterations to go. *)
Fixpoint attemptLoop (attemptsLeft : nat) (params : Params)
    (generation : LlmwsGenerationConfig) (retriedForTokenBudget : bool) (st : State)
  : option ((JsError + LlmwsRunAttemptResult) * State) :=
  match attemptsLeft with
  | O => Some (inl (newError "LLMWS retry failed: server did not accept adjusted token budget"), st)
  | S attemptsLeft' =>
      match openLlmwsSocket (target params) (connectTimeoutMs params) st with
      | (Some err, st1) => Some (inl err, st1)
      | (None, st1) =>
          match connectionBody params generation retriedForTokenBudget st1 with
          | None => None
          | Some (exit, st2) =>
              let st3 := closeSocket st2 in
              match exit with
              | ConnThrow err => Some (inl err, st3)
              | ConnReturn result => Some (inr result, st3)
              | ConnRetry adjusted => attemptLoop attemptsLeft' params adjusted true st3
              end
          end
      end
  end.

Definition runLlmwsAttempt (params : Params) (st : State)
  : option ((JsError + LlmwsRunAttemptResult) * State) :=
  attemptLoop 2 params (generation params) false st.

End WithEnvironment.
End Attempt.

(** ** Target resolution *)

Record LlmwsTarget : Type := mkTarget {
  url : string;
  capabilities : list string
}.

Module Resolver.

Definition DEFAULT_LLMWS_ENDPOINT : string := "ws://127.0.0.1:8765".

(** [value.replace(/\\/g, "/")] *)
Fixpoint backslashesToSlashes (s : string) : string :=
  match s with
  | EmptyString => EmptyString
  | String c r =>
      String (if Ascii.eqb c "\"%char then "/"%char else c) (backslashesToSlashes r)
  end.

(** [value.replace(/^\/+/, "")] *)
Fixpoint stripLeadingSlashes (s : string) : string :=
  match s with
  | String c r => if Ascii.eqb c "/"%char then stripLeadingSlashes r else s
  | EmptyString => EmptyString
  end.

(** [[a-z]] under the [i] flag *)
Definition isAsciiLetter (c : ascii) : bool :=
  let n := nat_of_ascii c in
  ((Nat.leb 65 n && Nat.leb n 90) || (Nat.leb 97 n && Nat.leb n 122))%bool.

(** What [.] does not match. *)
Definition isLineTerminator (c : ascii) : bool :=
  let n := nat_of_ascii c in (Nat.eqb n 10 || Nat.eqb n 13)%bool.

Fixpoint noLineTerminator (s : string) : bool :=
  match s with
  | EmptyString => true
  | String c r => (negb (isLineTerminator c) && noLineTerminator r)%bool
  end.

(** The longest prefix of letters, and what follows it. *)
Fixpoint spanLetters (s : string) : string * string :=
  match s with
  | String c r =>
      if isAsciiLetter c then
        let '(letters, rest) := spanLetters r in (String c letters, rest)
      else (EmptyString, s)
  | EmptyString => (EmptyString, EmptyString)
  end.

(** [/^([a-z]+):\/(.+)$/i.exec(value)]: the scheme and the rest. *)
Definition schemeSingleSlash (s : string) : option (string * string) :=
  match spanLetters s with
  | (EmptyString, _) => None
  | (scheme, String c1 (String c2 rest)) =>
      if (Ascii.eqb c1 ":"%char && Ascii.eqb c2 "/"%char
          && JS.truthy rest && noLineTerminator rest)%bool
      then Some (scheme, rest) else None
  | _ => None
  end.

Definition toWsUrl (value : string) : string :=
  let trimmed := JS.trim value in
  if negb (JS.truthy trimmed) then ""
  else
    let slashNormalized := backslashesToSlashes trimmed in
    if JS.includes slashNormalized "://" then slashNormalized
    else
      match schemeSingleSlash slashNormalized with
      | Some (scheme, rest) => JS.toLowerCase scheme ++ "://" ++ stripLeadingSlashes rest
      | None => "ws://" ++ stripLeadingSlashes slashNormalized
      end.

(** [value.replace(/\s+/g, "-")] *)
Fixpoint dashWhiteSpaceRuns (inRun : bool) (s : string) : string :=
  match s with
  | EmptyString => EmptyString
  | String c r =>
      if JS.isWhiteSpace c then
        if inRun then dashWhiteSpaceRuns true r
        else String "-"%char (dashWhiteSpaceRuns true r)
      else String c (dashWhiteSpaceRuns false r)
  end.

Definition normalizeCapabilityTag (value : string) : string :=
  let trimmed := JS.toLowerCase (JS.trim value) in
  if negb (JS.truthy trimmed) then "" else dashWhiteSpaceRuns false trimmed.

(** [Set.prototype.has] on the list of the members *)
Definition has (members : list string) (x : string) : bool :=
  existsb (String.eqb x) members.

(** [new Set(values)]: the distinct values in order of first occurrence. *)
Fixpoint newSetFrom (seen : list string) (values : list string) : list string :=
  match values with
  | [] => []
  | x :: r => if has seen x then newSetFrom seen r else x :: newSetFrom (seen ++ [x]) r
  end.

Definition newSet (values : list string) : list string := newSetFrom [] values.

Fixpoint dedupeCapabilityTagsFrom (seen : list string) (values : list string) : list string :=
  match values with
  | [] => []
  | raw :: rest =>
      let normalized := normalizeCapabilityTag raw in
      if (negb (JS.truthy normalized) || has seen normalized)%bool
      then dedupeCapabilityTagsFrom seen rest
      else normalized :: dedupeCapabilityTagsFrom (seen ++ [normalized]) rest
  end.

Definition dedupeCapabilityTags (values : list string) : list string :=
  dedupeCapabilityTagsFrom [] values.

Fixpoint dedupeTargetsFrom (seen : list string) (values : list LlmwsTarget) : list LlmwsTarget :=
  match values with
  | [] => []
  | raw :: rest =>
      let value := toWsUrl (url raw) in
      if (negb (JS.truthy value) || has seen value)%bool
      then dedupeTargetsFrom seen rest
      else mkTarget value (dedupeCapabilityTags (capabilities raw))
             :: dedupeTargetsFrom (seen ++ [value]) rest
  end.

Definition dedupeTargets (values : list LlmwsTarget) : list LlmwsTarget :=
  dedupeTargetsFrom [] values.

(** [a ?? b] *)
Definition orElse {A : Type} (a b : option A) : option A :=
  match a with
  | Some _ => a
  | None => b
  end.

Definition parseServerEntry (raw : JValue) : option LlmwsTarget :=
  match raw with
  | JStr s =>
      let u := toWsUrl s in
      if negb (JS.truthy u) then None else Some (mkTarget u [])
  | JObj record =>
      match orElse (readString record "url") (readString record "server") with
      | None => None
      | Some u =>
          Some (mkTarget (toWsUrl u)
                  (dedupeCapabilityTags (readStringList record "capabilities")))
      end
  | _ => None
  end.

Fixpoint parseServerEntries (entries : list JValue) : list LlmwsTarget :=
  match entries with
  | [] => []
  | entry :: rest =>
      match parseServerEntry entry with
      | Some parsed => parsed :: parseServerEntries rest
      | None => parseServerEntries rest
      end
  end.

Definition readServerList (record : JRecord) (key : string) : list LlmwsTarget :=
  match getField record key with
  | Some (JArr value) => parseServerEntries value
  | _ => []
  end.

(** [value.split(",")] *)
Fixpoint splitOnComma (current : string) (s : string) : list string :=
  match s with
  | EmptyString => [current]
  | String c r =>
      if Ascii.eqb c ","%char then current :: splitOnComma "" r
      else splitOnComma (current ++ String c "") r
  end.

(** [process.env] *)
Definition Env := string -> option string.

Definition parseEnvTargets (env : Env) : list LlmwsTarget :=
  let list :=
    match env "OPENCLAW_LLMWS_SERVERS" with
    | Some raw => filter JS.truthy (map JS.trim (splitOnComma "" raw))
    | None => []
    end in
  let single :=
    match env "OPENCLAW_LLMWS_SERVER" with
    | Some raw => if JS.truthy (JS.trim raw) then [mkTarget (JS.trim raw) []] else []
    | None => []
    end in
  map (fun u => mkTarget u []) list ++ single.

Definition resolvePreferredServerCapabilities (modelParams : JRecord) : list string :=
  dedupeCapabilityTags
    (readStringList modelParams "serverCapabilities"
     ++ readStringList modelParams "preferredServerCapabilities"
     ++ readStringList modelParams "preferredCapabilities").

(** Number of preferred tags the target declares. *)
Definition matchCount (preferredSet : list string) (target : LlmwsTarget) : nat :=
  let caps := newSet (map normalizeCapabilityTag (capabilities target)) in
  List.length (filter (fun tag => has caps tag) preferredSet).

Definition matchesAll (preferredSet : list string) (target : LlmwsTarget) : bool :=
  Nat.eqb (matchCount preferredSet target) (List.length preferredSet).

(** The comparator given to [toSorted]. *)
Definition compareTargets (preferredSet : list string) (left right : LlmwsTarget) : Z :=
  let leftMatches := matchCount preferredSet left in
  let rightMatches := matchCount preferredSet right in
  let leftAll := Nat.eqb leftMatches (List.length preferredSet) in
  let rightAll := Nat.eqb rightMatches (List.length preferredSet) in
  if negb (Bool.eqb leftAll rightAll) then (if leftAll then -1 else 1)%Z
  else if negb (Nat.eqb leftMatches rightMatches)
       then (Z.of_nat rightMatches - Z.of_nat leftMatches)%Z
       else 0%Z.

(** [Array.prototype.toSorted]: a stable sort; for a consistent comparator
    its result is determined, and insertion from the right computes it. *)
Fixpoint insertSorted {A : Type} (compare : A -> A -> Z) (x : A) (sorted : list A) : list A :=
  match sorted with
  | [] => [x]
  | y :: rest =>
      if (compare x y <=? 0)%Z then x :: y :: rest
      else y :: insertSorted compare x rest
  end.

Fixpoint toSorted {A : Type} (compare : A -> A -> Z) (l : list A) : list A :=
  match l with
  | [] => []
  | x :: rest => insertSorted compare x (toSorted compare rest)
  end.

Definition sortTargetsByCapabilities (targets : list LlmwsTarget) (preferred : list string)
  : list LlmwsTarget :=
  if (Nat.eqb (List.length preferred) 0 || Nat.leb (List.length targets) 1)%bool then targets
  else toSorted (compareTargets (newSet (map normalizeCapabilityTag preferred))) targets.

(** The [targets] of [resolveLlmwsRuntimeSettings], from the model's
    parameter block, the deployment defaults and the environment. *)
Definition resolveTargets (modelParams llmwsDefaults : JRecord) (env : Env) : list LlmwsTarget :=
  let modelServer :=
    match readString modelParams "server" with
    | Some s => parseServerEntry (JStr s)
    | None => None
    end in
  let defaultServer :=
    match readString llmwsDefaults "server" with
    | Some s => parseServerEntry (JStr s)
    | None => None
    end in
  let preferredServerCapabilities := resolvePreferredServerCapabilities modelParams in
  sortTargetsByCapabilities
    (dedupeTargets
       (readServerList modelParams "servers"
        ++ match modelServer with Some t => [t] | None => [] end
        ++ readServerList llmwsDefaults "servers"
        ++ match defaultServer with Some t => [t] | None => [] end
        ++ parseEnvTargets env
        ++ [mkTarget DEFAULT_LLMWS_ENDPOINT []]))
    preferredServerCapabilities.

End Resolver.

(** ** The call: prompt assembly, failover over the targets, transcript *)

Module Agent.
Local Open Scope Z_scope.

Record LlmwsRuntimeSettings : Type := mkSettings {
  targets : list LlmwsTarget;
  connectTimeoutMs : Z;
  readTimeoutMs : Z;
  includeHistory : bool;
  historyTurns : Z;
  historyChars : Z;
  generation : LlmwsGenerationConfig
}.

Record FailoverError : Type := mkFailoverError {
  failoverMessage : string;
  reason : string;
  failedProvider : string;
  failedModel : string;
  status : option Z;
  cause : option JsError
}.

(** What a [catch] clause can be given. *)
Inductive Thrown : Type :=
| ThrownError (err : JsError)
| ThrownFailover (err : FailoverError).

(** The transcript file and its lock, as the call finds them:
    [lockError] is what [acquireSessionWriteLock] throws when the lock is
    not obtained in time, [readError] what [readFile] throws for a reason
    other than a missing file, [appendError] what [appendFile] throws,
    having written nothing, [releaseError] what [lock.release] throws,
    and [content] the text of the file if it exists. *)
Record Disk : Type := mkDisk {
  lockError : option JsError;
  readError : option JsError;
  appendError : option JsError;
  releaseError : option JsError;
  content : option string
}.

(** The collaborators of the module that are not part of it.
    [nowAgain clock] is what [new Date()] gives when [appendTranscriptMessages]
    reads it a second time, having read [clock] the first time: the
    entries are built in between, and the clock goes on meanwhile. *)
Record Collaborators : Type := mkCollaborators {
  network : string -> nat -> ServerScript;
  randomUUID : nat -> string;
  numberToString : Q -> string;
  JSON_parse : string -> option JValue;
  JSON_stringify : JValue -> string;
  toISOString : Z -> string;
  nowAgain : Z -> Z;
  pathResolve : string -> string;
  stripReasoningTagsFromText : string -> string;
  classifyFailoverReason : string -> option string;
  resolveFailoverStatus : string -> option Z
}.

Definition CONNECTIVITY_ERROR_CODES : list string :=
  ["ECONNREFUSED"; "ECONNRESET"; "ETIMEDOUT"; "EHOSTUNREACH"; "ENETUNREACH";
   "ENOTFOUND"; "EPIPE"].

Definition hasConnectivityHint (error : JsError) (msg : string) : bool :=
  let byCode :=
    match code error with
    | Some raw =>
        (JS.truthy (JS.trim raw)
         && Resolver.has CONNECTIVITY_ERROR_CODES (JS.toUpperCase (JS.trim raw)))%bool
    | None => false
    end in
  if byCode then true
  else
    let lower := JS.toLowerCase msg in
    (JS.includes lower "connect timeout"
     || JS.includes lower "read timeout"
     || JS.includes lower "socket closed"
     || JS.includes lower "connection closed"
     || JS.includes lower "econnrefused"
     || JS.includes lower "econnreset"
     || JS.includes lower "timed out")%bool.

(** [describeError] of an [Error] *)
Definition describeError (error : JsError) : string := message error.

(** [String(err)] of an [Error]: its name alone when the message is empty *)
Definition errorToString (error : JsError) : string :=
  if JS.truthy (message error) then ("Error: " ++ message error)%string else "Error".

Section WithCollaborators.
Variable C : Collaborators.

Definition toFailoverError (error : Thrown) (provider model : string) : FailoverError :=
  match error with
  | ThrownFailover failover => failover
  | ThrownError err =>
      let msg :=
        if JS.truthy (JS.trim (describeError err)) then JS.trim (describeError err)
        else "LLMWS request failed" in
      let reason :=
        match classifyFailoverReason C msg with
        | Some classified => classified
        | None => if hasConnectivityHint err msg then "timeout" else "unknown"
        end in
      mkFailoverError msg reason provider model (resolveFailoverStatus C reason) (Some err)
  end.

(** *** Prompt assembly *)

(** [if (section)] on an awaited optional section *)
Definition present (section : option string) : bool :=
  match section with
  | Some s => JS.truthy s
  | None => false
  end.

Definition promptParts (historyContext memoryInjection : option string) (prompt : string)
  : list string :=
  let parts :=
    match historyContext with
    | Some h => if JS.truthy h then [h] else []
    | None => []
    end
    ++ match memoryInjection with
       | Some m => if JS.truthy m then [m] else []
       | None => []
       end in
  if Nat.ltb 0 (List.length parts)
  then parts ++ [("Current user request:" ++ JS.LF ++ prompt)%string]
  else parts.

Definition promptBody (historyContext memoryInjection : option string) (prompt : string)
  : string :=
  let parts := promptParts historyContext memoryInjection prompt in
  if Nat.ltb 0 (List.length parts) then JS.join (JS.LF ++ JS.LF) parts else prompt.

(** *** Transcript *)

(** [text.split(/\r?\n/g)] *)
Fixpoint splitLines (current : string) (s : string) : list string :=
  match s with
  | EmptyString => [current]
  | String c r =>
      if Ascii.eqb c (ascii_of_nat 10) then current :: splitLines "" r
      else if (Ascii.eqb c (ascii_of_nat 13)
               && match r with
                  | String d _ => Ascii.eqb d (ascii_of_nat 10)
                  | EmptyString => false
                  end)%bool
           then match r with
                | String _ r' => current :: splitLines "" r'
                | EmptyString => [current]
                end
           else splitLines (current ++ String c "") r
  end.

Definition transcriptLines (existing : string) : list string :=
  filter JS.truthy (map JS.trim (splitLines "" existing)).

(** The scan of the existing lines: whether a [session] header was seen,
    and the id of the last [message] entry that has one. *)
Fixpoint scanLines (lines : list string) (hasHeader : bool) (lastMessageId : option string)
  : bool * option string :=
  match lines with
  | [] => (hasHeader, lastMessageId)
  | line :: rest =>
      match JSON_parse C line with
      | Some (JObj parsed) =>
          let hasHeader' :=
            match getField parsed "type" with
            | Some (JStr t) => if String.eqb t "session" then true else hasHeader
            | _ => hasHeader
            end in
          let lastMessageId' :=
            match getField parsed "type" with
            | Some (JStr t) =>
                if String.eqb t "message" then
                  match readString parsed "id" with
                  | Some id => Some id
                  | None => lastMessageId
                  end
                else lastMessageId
            | _ => lastMessageId
            end in
          scanLines rest hasHeader' lastMessageId'
      | _ => scanLines rest hasHeader lastMessageId
      end
  end.

Definition sessionHeader (sessionId timestamp cwd : string) : JValue :=
  JObj [("type", JStr "session"); ("version", JNum 7%Q); ("id", JStr sessionId);
        ("timestamp", JStr timestamp); ("cwd", JStr cwd)].

Definition messageEntry (id : string) (parentId : option string) (timestamp role text : string)
  : JValue :=
  JObj [("type", JStr "message"); ("id", JStr id);
        ("parentId", match parentId with Some p => JStr p | None => JNull end);
        ("timestamp", JStr timestamp);
        ("message", JObj [("role", JStr role);
                          ("content", JArr [JObj [("type", JStr "text");
                                                  ("text", JStr text)]])])].

Record TranscriptParams : Type := mkTranscriptParams {
  transcriptSessionId : string;
  transcriptWorkspaceDir : string;
  userText : string;
  assistantText : string
}.

(** The entries [appendTranscriptMessages] adds to a file whose text is
    [existing], the clock showing [clock] when it is first read, drawing
    its two identifiers from [randomUUID] starting at number [drawn].  The
    header and the user entry carry the first reading of the clock, the
    assistant entry the second one. *)
Definition transcriptAdditions (params : TranscriptParams) (existing : string)
    (clock : Z) (drawn : nat) : list JValue :=
  let '(hasHeader, lastMessageId) := scanLines (transcriptLines existing) false None in
  let timestamp := toISOString C clock in
  let userId := randomUUID C drawn in
  let assistantId := randomUUID C (S drawn) in
  (if hasHeader then []
   else [sessionHeader (transcriptSessionId params) timestamp
           (pathResolve C (transcriptWorkspaceDir params))])
  ++ [messageEntry userId lastMessageId timestamp "user" (userText params);
      messageEntry assistantId (Some userId) (toISOString C (nowAgain C clock)) "assistant"
        (assistantText params)].

(** The text given to [appendFile]. *)
Definition transcriptAppended (params : TranscriptParams) (existing : string)
    (clock : Z) (drawn : nat) : string :=
  let prefix :=
    if (negb (Nat.eqb (List.length (transcriptLines existing)) 0)
        && negb (JS.endsWithChar existing (ascii_of_nat 10)))%bool
    then JS.LF else "" in
  (prefix
   ++ JS.join JS.LF
        (map (JSON_stringify C) (transcriptAdditions params existing clock drawn))
   ++ JS.LF)%string.

(** What leaves the [try] block whose [finally] releases the lock:
    the error of the release if it fails, else what the block threw. *)
Definition afterRelease (disk : Disk) (thrown : option JsError) : option JsError :=
  match releaseError disk with
  | Some err => Some err
  | None => thrown
  end.

Definition appendTranscriptMessages (params : TranscriptParams) (st : State) (disk : Disk)
  : option JsError * State * Disk :=
  match lockError disk with
  | Some err => (Some err, st, disk)
  | None =>
      match readError disk with
      | Some err => (afterRelease disk (Some err), st, disk)
      | None =>
          let existing :=
            match content disk with
            | Some text => text
            | None => ""
            end in
          let st' :=
            mkState (nowAgain C (now st)) (log st) (S (S (uuids st))) (socketQueue st)
              (inbound st) (outbound st) in
          match appendError disk with
          | Some err => (afterRelease disk (Some err), st', disk)
          | None =>
              (afterRelease disk None, st',
               mkDisk (lockError disk) (readError disk) (appendError disk)
                 (releaseError disk)
                 (Some (existing
                        ++ transcriptAppended params existing (now st) (uuids st))%string))
          end
      end
  end.

(** *** Failover over the targets and the call itself *)

(** The inputs of [runLlmwsAgent], with the values it awaits from its
    collaborators before the failover loop: the resolved settings, the
    system prompt, the history block, the memory block and the media. *)
Record AgentParams : Type := mkAgentParams {
  callSessionId : string;
  remoteSessionId : option string;
  workspaceDir : string;
  prompt : string;
  provider : string;
  modelId : string;
  runtimeSettings : LlmwsRuntimeSettings;
  systemPrompt : string;
  historyContext : option string;
  memoryInjection : option string;
  media : list JRecord
}.

Record AgentMeta : Type := mkAgentMeta {
  metaSessionId : string;
  metaProvider : string;
  metaModel : string;
  metaUsage : option LlmwsUsage
}.

Record EmbeddedPiRunResult : Type := mkRunResult {
  payloads : option (list string);
  durationMs : Z;
  agentMeta : AgentMeta
}.

Definition attemptParams (params : AgentParams) (targetUrl : string) : Attempt.Params :=
  Attempt.mkParams targetUrl
    (connectTimeoutMs (runtimeSettings params)) (readTimeoutMs (runtimeSettings params))
    (remoteSessionId params) (systemPrompt params)
    (promptBody (historyContext params) (memoryInjection params) (prompt params))
    (media params) (generation (runtimeSettings params)).

(** [`${targetUrl}: ${err.message}`] *)
Definition endpointError (targetUrl : string) (err : JsError) : string :=
  (targetUrl ++ ": " ++ message err)%string.

(** The [for] loop over the targets: the result of the first attempt that
    succeeds, if any, and the errors collected. *)
Fixpoint tryTargets (params : AgentParams) (remaining : list LlmwsTarget)
    (endpointErrors : list string) (st : State)
  : option (option LlmwsRunAttemptResult * list string * State) :=
  match remaining with
  | [] => Some (None, endpointErrors, st)
  | target :: rest =>
      match Attempt.runLlmwsAttempt (network C) (randomUUID C) (numberToString C)
              (attemptParams params (url target)) st with
      | None => None
      | Some (inr result, st') => Some (Some result, endpointErrors, st')
      | Some (inl err, st') =>
          tryTargets params rest (endpointErrors ++ [endpointError (url target) err]) st'
      end
  end.

Definition endpointsFailedMessage (endpointErrors : list string) : string :=
  if Nat.ltb 0 (List.length endpointErrors)
  then ("LLMWS endpoints failed: " ++ JS.join " | " endpointErrors)%string
  else "LLMWS endpoints failed".

Definition transcriptWarning (err : JsError) : Action :=
  ActWarn ("failed to persist llmws transcript: " ++ errorToString err)%string.

Definition runLlmwsAgent (params : AgentParams) (st : State) (disk : Disk)
  : option ((FailoverError + EmbeddedPiRunResult) * State * Disk) :=
  let started := now st in
  match tryTargets params (targets (runtimeSettings params)) [] st with
  | None => None
  | Some (None, endpointErrors, st1) =>
      Some (inl (toFailoverError
                   (ThrownError (newError (endpointsFailedMessage endpointErrors)))
                   (provider params) (modelId params)),
            st1, disk)
  | Some (Some attemptResult, _, st1) =>
      let finalText := stripReasoningTagsFromText C (text attemptResult) in
      let '(st2, disk2) :=
        if JS.truthy finalText then
          match appendTranscriptMessages
                  (mkTranscriptParams (callSessionId params) (workspaceDir params)
                     (prompt params) finalText) st1 disk with
          | (None, st', disk') => (st', disk')
          | (Some err, st', disk') => (logAction st' (transcriptWarning err), disk')
          end
        else (st1, disk) in
      Some (inr (mkRunResult
                   (if JS.truthy finalText then Some [finalText] else None)
                   (now st2 - started)
                   (mkAgentMeta
                      match sessionId attemptResult with
                      | Some id => id
                      | None => callSessionId params
                      end
                      (provider params) (modelId params) (usage attemptResult))),
            st2, disk2)
  end.

End WithCollaborators.
End Agent.

(** ** Runtime settings ([resolveLlmwsRuntimeSettings] and what it calls) *)

Module Settings.
Local Open Scope Z_scope.

Definition DEFAULT_CONNECT_TIMEOUT_MS : Q := 8000.
Definition DEFAULT_HISTORY_TURNS : Q := 12.
Definition DEFAULT_HISTORY_CHARS : Q := 12000.
Definition DEFAULT_CONTEXT_FILES_TOTAL_MAX_CHARS : Q := 6000.
Definition DEFAULT_CONTEXT_FILES_FILE_MAX_CHARS : Q := 4000.

(** [Math.min] of two finite numbers *)
Definition min (a b : Q) : Q := if Qle_bool a b then a else b.

(** [a ?? d] with a default that is always there *)
Definition orDefault {A : Type} (a : option A) (d : A) : A :=
  match a with
  | Some x => x
  | None => d
  end.

(** [value?.[key]] on the configuration tree: [undefined] below anything
    that is not an object. *)
Definition child (value : option JValue) (key : string) : option JValue :=
  match value with
  | Some (JObj fields) => getField fields key
  | _ => None
  end.

(** [isRecord(value) ? value : {}] *)
Definition recordOrEmpty (value : option JValue) : JRecord :=
  match value with
  | Some (JObj fields) => fields
  | _ => []
  end.

Definition resolveModelParams (config : option JValue) (provider model : string) : JRecord :=
  let models := child (child (child config "agents") "defaults") "models" in
  let key := (provider ++ "/" ++ model)%string in
  match child models key with
  | Some (JObj entry) =>
      match getField entry "params" with
      | Some (JObj params) => params
      | _ => []
      end
  | _ => []
  end.

(** A JavaScript number, as [streamParams] may hold one. *)
Inductive JsNumber : Type :=
| Finite (q : Q)
| NotFinite.

(** The two fields of [AgentStreamParams] that the module reads. *)
Record AgentStreamParams : Type := mkStreamParams {
  streamTemperature : option JsNumber;
  streamMaxTokens : option JsNumber
}.

(** [{ ...generation, temperature: value }] *)
Definition withTemperature (g : LlmwsGenerationConfig) (value : Q) : LlmwsGenerationConfig :=
  mkGeneration (max_new_tokens g) (Some value) (top_p g) (top_k g)
    (repetition_penalty g) (do_sample g).

Section Generation.
Variable defaults : JRecord.
Variable modelParams : JRecord.

Definition getNumber (key : string) (fallback : option Q) : option Q :=
  Resolver.orElse (readNumber (recordOrEmpty (getField modelParams "config")) key)
    (Resolver.orElse (readNumber modelParams key)
       (Resolver.orElse (readNumber (recordOrEmpty (getField defaults "config")) key)
          (Resolver.orElse (readNumber defaults key) fallback))).

Definition getBoolean (key : string) (fallback : option bool) : option bool :=
  Resolver.orElse (readBoolean (recordOrEmpty (getField modelParams "config")) key)
    (Resolver.orElse (readBoolean modelParams key)
       (Resolver.orElse (readBoolean (recordOrEmpty (getField defaults "config")) key)
          (Resolver.orElse (readBoolean defaults key) fallback))).

Definition resolveGenerationConfig (streamParams : option AgentStreamParams)
  : LlmwsGenerationConfig :=
  let out :=
    mkGeneration
      (option_map JS.Num (getNumber "max_new_tokens" (getNumber "maxNewTokens" None)))
      (getNumber "temperature" None)
      (getNumber "top_p" (getNumber "topP" None))
      (getNumber "top_k" (getNumber "topK" None))
      (getNumber "repetition_penalty" (getNumber "repetitionPenalty" None))
      (getBoolean "do_sample" (getBoolean "doSample" None)) in
  let out1 :=
    match streamParams with
    | Some stream =>
        match streamTemperature stream with
        | Some (Finite value) => withTemperature out value
        | _ => out
        end
    | None => out
    end in
  match streamParams with
  | Some stream =>
      match streamMaxTokens stream with
      | Some (Finite value) => withMaxNewTokens out1 (JS.Num value)
      | _ => out1
      end
  | None => out1
  end.

End Generation.

Section WithPlatform.
(** [process.env] *)
Variable env : Resolver.Env.
(** [Number(raw)] when the result is finite; [None] for [NaN] and the
    infinities. *)
Variable Number : string -> option Q.

Definition parseEnvPositiveInt (name : string) (fallback : Q) : Q :=
  match env name with
  | None => fallback
  | Some value =>
      let raw := JS.trim value in
      if negb (JS.truthy raw) then fallback
      else
        match Number raw with
        | None => fallback
        | Some parsed =>
            if Qle_bool parsed 0 then fallback
            else inject_Z (Z.max 1 (Qfloor parsed))
        end
  end.

(** [config] is the configuration object, [timeoutMs] a finite number. *)
Definition resolveLlmwsRuntimeSettings (config : option JValue) (provider model : string)
    (timeoutMs : Q) (streamParams : option AgentStreamParams) : Agent.LlmwsRuntimeSettings :=
  let llmwsDefaults := recordOrEmpty (child (child (child config "agents") "defaults") "llmws") in
  let modelParams := resolveModelParams config provider model in
  Agent.mkSettings
    (Resolver.resolveTargets modelParams llmwsDefaults env)
    (Z.max 1 (Qfloor (orDefault
                        (Resolver.orElse (readNumber modelParams "connectTimeoutMs")
                           (readNumber llmwsDefaults "connectTimeoutMs"))
                        (min DEFAULT_CONNECT_TIMEOUT_MS timeoutMs))))
    (Z.max 1 (Qfloor (orDefault
                        (Resolver.orElse (readNumber modelParams "readTimeoutMs")
                           (readNumber llmwsDefaults "readTimeoutMs"))
                        timeoutMs)))
    (orDefault (Resolver.orElse (readBoolean modelParams "includeHistory")
                  (readBoolean llmwsDefaults "includeHistory")) true)
    (Z.max 0 (Qfloor (orDefault
                        (Resolver.orElse (readNumber modelParams "historyTurns")
                           (readNumber llmwsDefaults "historyTurns"))
                        DEFAULT_HISTORY_TURNS)))
    (Z.max 0 (Qfloor (orDefault
                        (Resolver.orElse (readNumber modelParams "historyChars")
                           (readNumber llmwsDefaults "historyChars"))
                        DEFAULT_HISTORY_CHARS)))
    (resolveGenerationConfig llmwsDefaults modelParams streamParams).

End WithPlatform.
End Settings.

(** ** Strings cut to a budget *)

Module Clip.
Local Open Scope Z_scope.

(** [value.length] *)
Definition len (s : string) : Z := Z.of_nat (String.length s).

(** [value.slice(0, Math.max(0, count))] *)
Definition sliceTo (count : Z) (s : string) : string :=
  String.substring 0 (Z.to_nat (Z.max 0 count)) s.

(** [value.length <= available ? value : value.slice(0, Math.max(0,
    available - 1)) + ellipsis], the ellipsis being the one code unit
    U+2026.  That code unit lies outside the range of [string]: whichever
    code unit [ellipsis] is stands for it. *)
Definition clip (ellipsis : ascii) (available : Z) (s : string) : string :=
  if len s <=? available then s
  else (sliceTo (available - 1) s ++ String ellipsis "")%string.

End Clip.

(** ** The history block ([readHistoryContext]) *)

Module History.
Local Open Scope Z_scope.

(** [typeof record[key] === "string"], and then the value *)
Definition stringField (record : JRecord) (key : string) : option string :=
  match getField record key with
  | Some (JStr s) => Some s
  | _ => None
  end.

(** The text one block of a content array contributes. *)
Definition blockText (block : JRecord) : option string :=
  match stringField block "text" with
  | Some s => Some s
  | None =>
      match stringField block "content" with
      | Some s => Some s
      | None => stringField block "thinking"
      end
  end.

Fixpoint blockTexts (blocks : list JValue) : list string :=
  match blocks with
  | [] => []
  | block :: rest =>
      match isRecord block with
      | None => blockTexts rest
      | Some record =>
          match blockText record with
          | Some s => s :: blockTexts rest
          | None => blockTexts rest
          end
      end
  end.

Definition extractTextFromContent (content : option JValue) : string :=
  match content with
  | Some (JStr s) => s
  | Some (JArr blocks) => JS.join JS.LF (blockTexts blocks)
  | Some (JObj record) =>
      match stringField record "text" with
      | Some s => s
      | None =>
          match stringField record "content" with
          | Some s => s
          | None => ""
          end
      end
  | _ => ""
  end.

Definition isCR (c : ascii) : bool := Ascii.eqb c (ascii_of_nat 13).
Definition isLF (c : ascii) : bool := Ascii.eqb c (ascii_of_nat 10).

(** [text.replace(/\r/g, "")] *)
Fixpoint removeCR (s : string) : string :=
  match s with
  | EmptyString => EmptyString
  | String c r => if isCR c then removeCR r else String c (removeCR r)
  end.

(** [text.replace(/\n{3,}/g, "\n\n")]: of a run of line feeds the first
    two are kept; [run] counts the line feeds just passed. *)
Fixpoint collapseLF (run : nat) (s : string) : string :=
  match s with
  | EmptyString => EmptyString
  | String c r =>
      if isLF c then
        if Nat.ltb run 2 then String c (collapseLF (S run) r) else collapseLF run r
      else String c (collapseLF 0 r)
  end.

Definition normalizeTranscriptText (text : string) : string :=
  let normalized := JS.trim (removeCR text) in
  if negb (JS.truthy normalized) then "" else collapseLF 0 normalized.

Record HistoryItem : Type := mkItem {
  role : string;
  itemText : string
}.

(** [`${label}: ${item.text}`] *)
Definition blockOf (item : HistoryItem) : string :=
  ((if String.eqb (role item) "user" then "User" else "Assistant") ++ ": " ++ itemText item)%string.

Section WithCollaborators.
Variable JSON_parse : string -> option JValue.
(** [isSilentReplyText(text, SILENT_REPLY_TOKEN)] *)
Variable isSilentReplyText : string -> bool.
Variable ellipsis : ascii.

(** What one line of the transcript contributes to the history, if
    anything. *)
Definition parseLine (line : string) : option HistoryItem :=
  match JSON_parse line with
  | Some (JObj entry) =>
      match getField entry "type", getField entry "message" with
      | Some (JStr type), Some (JObj message) =>
          if negb (String.eqb type "message") then None
          else
            match option_map JS.toLowerCase (readString message "role") with
            | None => None
            | Some role =>
                if negb (String.eqb role "user" || String.eqb role "assistant") then None
                else
                  let text :=
                    normalizeTranscriptText
                      (extractTextFromContent (getField message "content")) in
                  if negb (JS.truthy text) then None
                  else if (String.eqb role "assistant" && isSilentReplyText text)%bool then None
                  else Some (mkItem role text)
            end
      | _, _ => None
      end
  | _ => None
  end.

Fixpoint parseLines (lines : list string) : list HistoryItem :=
  match lines with
  | [] => []
  | line :: rest =>
      match parseLine line with
      | Some item => item :: parseLines rest
      | None => parseLines rest
      end
  end.

(** The selection loop, from the newest entry to the oldest. *)
Fixpoint selectBlocks (historyTurns historyChars : Z) (newestFirst : list HistoryItem)
    (selected : list string) (usedChars : Z) : list string :=
  match newestFirst with
  | [] => selected
  | item :: older =>
      if historyTurns <=? Z.of_nat (List.length selected) then selected
      else
        let block := blockOf item in
        if ((0 <? usedChars) && (historyChars <? usedChars + Clip.len block + 2))%bool
        then selected
        else if ((usedChars =? 0) && (historyChars <? Clip.len block))%bool
        then selected ++ [(Clip.sliceTo (historyChars - 1) block ++ String ellipsis "")%string]
        else selectBlocks historyTurns historyChars older (selected ++ [block])
               (usedChars + Clip.len block + 2)
  end.

(** [raw] is the text of the session file, [None] when it cannot be
    read. *)
Definition readHistoryContext (raw : option string) (historyTurns historyChars : Z)
  : option string :=
  if ((historyTurns <=? 0) || (historyChars <=? 0))%bool then None
  else
    match raw with
    | None => None
    | Some text =>
        let lines := Agent.transcriptLines text in
        if Nat.eqb (List.length lines) 0 then None
        else
          let parsed := parseLines lines in
          if Nat.eqb (List.length parsed) 0 then None
          else
            let selected := selectBlocks historyTurns historyChars (rev parsed) [] 0 in
            if Nat.eqb (List.length selected) 0 then None
            else Some ("Conversation history:" ++ JS.LF
                       ++ JS.join (JS.LF ++ JS.LF) (rev selected))%string
    end.

End WithCollaborators.
End History.

(** ** The context files of the system prompt ([clampEmbeddedContextFiles]) *)

Module ContextFiles.
Local Open Scope Z_scope.

Record ContextFile : Type := mkFile {
  path : string;
  content : string
}.

Section WithEllipsis.
Variable ellipsis : ascii.

(** The loop over the files, [used] characters being taken already. *)
Fixpoint clampFrom (maxTotal maxFile used : Z) (files : list ContextFile) : list ContextFile :=
  match files with
  | [] => []
  | file :: rest =>
      if maxTotal <=? used then []
      else
        let pathValue := JS.trim (path file) in
        let contentValue := JS.trim (content file) in
        if (negb (JS.truthy pathValue) || negb (JS.truthy contentValue))%bool
        then clampFrom maxTotal maxFile used rest
        else
          let available := Z.min maxFile (maxTotal - used) in
          if available <=? 0 then []
          else
            let clipped := Clip.clip ellipsis available contentValue in
            if negb (JS.truthy clipped) then clampFrom maxTotal maxFile used rest
            else mkFile pathValue clipped
                   :: clampFrom maxTotal maxFile (used + Clip.len clipped) rest
  end.

Definition clampEmbeddedContextFiles (files : list ContextFile) (maxTotalChars maxFileChars : Q)
  : list ContextFile :=
  let maxTotal := Z.max 0 (Qfloor maxTotalChars) in
  let maxFile := Z.max 0 (Qfloor maxFileChars) in
  if ((maxTotal <=? 0) || (maxFile <=? 0))%bool then []
  else clampFrom maxTotal maxFile 0 files.

End WithEllipsis.
End ContextFiles.

(** ** The media payload ([buildMediaPayload]) *)

Module Media.
Local Open Scope Z_scope.

(** [value.slice(count)] *)
Fixpoint sliceFrom (count : nat) (value : string) : string :=
  match count, value with
  | O, _ => value
  | S n, String _ rest => sliceFrom n rest
  | S _, EmptyString => EmptyString
  end.

(** [value.slice(value.indexOf(marker) + marker.length)] when [marker]
    occurs in [value]. *)
Fixpoint afterFirst (marker value : string) : option string :=
  if String.prefix marker value then Some (sliceFrom (String.length marker) value)
  else match value with
       | EmptyString => None
       | String _ rest => afterFirst marker rest
       end.

Definition normalizeImageBase64 (raw : string) : string :=
  let trimmed := JS.trim raw in
  match afterFirst ";base64," trimmed with
  | None => trimmed
  | Some data => data
  end.

Definition imageExtension (mimeType : string) : string :=
  let normalized := JS.trim (JS.toLowerCase mimeType) in
  if (String.eqb normalized "image/jpeg" || String.eqb normalized "image/jpg")%bool then ".jpg"
  else if String.eqb normalized "image/webp" then ".webp"
  else if String.eqb normalized "image/gif" then ".gif"
  else ".png".

(** The two fields of [ImageContent] that the module reads. *)
Record ImageContent : Type := mkImage {
  data : option string;
  mimeType : option string
}.

Definition mediaEntry (index : Z) (payload ext : string) : JRecord :=
  [("type", JStr "image"); ("data", JStr payload);
   ("name", JStr ("image-" ++ JS.ofZ (index + 1) ++ ext)%string)].

(** The loop over the images, [i] being the index of the first one. *)
Fixpoint mediaFrom (i : Z) (images : list ImageContent) : list JRecord :=
  match images with
  | [] => []
  | image :: rest =>
      let payload := normalizeImageBase64 (Settings.orDefault (data image) "") in
      if negb (JS.truthy payload) then mediaFrom (i + 1) rest
      else mediaEntry i payload (imageExtension (Settings.orDefault (mimeType image) ""))
             :: mediaFrom (i + 1) rest
  end.

Definition buildMediaPayload (images : option (list ImageContent)) : list JRecord :=
  match images with
  | None => []
  | Some list => mediaFrom 0 list
  end.

End Media.

(** ** The memory block ([formatMemoryInjection] of memory-injection) *)

Module MemoryInjection.
Local Open Scope Z_scope.

Definition DEFAULT_MEMORY_INJECTION_HEADER : string :=
  "Relevant memory snippets (ZigMem). Use only if helpful; ignore if irrelevant:".

Section WithEllipsis.
Variable ellipsis : ascii.

(** The loop over the results; the lines added after the header. *)
Fixpoint snippetLines (budget used : Z) (snippets : list string) : list string :=
  match snippets with
  | [] => []
  | entry :: rest =>
      if budget <=? used then []
      else
        let snippet := JS.trim entry in
        if negb (JS.truthy snippet) then snippetLines budget used rest
        else
          let available := budget - used - 2 in
          if available <=? 0 then []
          else
            let clipped := Clip.clip ellipsis available snippet in
            ("- " ++ clipped)%string
              :: snippetLines budget (used + 2 + Clip.len clipped + 1) rest
  end.

(** [snippets] are the [snippet] fields of the results; [header] is
    [None] when the argument is left out. *)
Definition formatMemoryInjection (snippets : list string) (budgetChars : Q)
    (header : option string) : option string :=
  let budget := Z.max 0 (Qfloor budgetChars) in
  if budget <=? 0 then None
  else
    let given := JS.trim (Settings.orDefault header DEFAULT_MEMORY_INJECTION_HEADER) in
    let headerText := if JS.truthy given then given else DEFAULT_MEMORY_INJECTION_HEADER in
    let lines := headerText :: snippetLines budget (Clip.len headerText + 1) snippets in
    if Nat.leb (List.length lines) 1 then None
    else Some (JS.join JS.LF lines).

End WithEllipsis.
End MemoryInjection.

(** * The vocabulary of the statements *)

Module MessageQueueSpec.
Import MessageQueue.

(** A queue that has recorded [err] and has nobody waiting. *)
Definition failedWith (err : JsError) (q : t) : Prop :=
  terminalError q = Some err /\ waiters q = [].

Definition onlyRejectsWith (err : JsError) (ss : list (nat * Settlement)) : Prop :=
  forall id e, In (id, Rejected e) ss -> e = err.

(** What the calls [calls], made one after the other, are answered by a
    queue that recorded [err] while [buffered] was still in it: the
    buffered messages, one per call and in their order, and from then on
    the error. *)
Fixpoint answers (err : JsError) (buffered : list LlmwsParsedMessage)
    (calls : list (nat * Z)) : list (nat * Settlement) :=
  match calls with
  | [] => []
  | (id, _) :: later =>
      match buffered with
      | item :: rest => (id, Resolved item) :: answers err rest later
      | [] => (id, Rejected err) :: answers err [] later
      end
  end.

(** The calls as operations on the queue. *)
Definition callsOf (calls : list (nat * Z)) : list Op :=
  map (fun call => OpNext (fst call) (snd call)) calls.

End MessageQueueSpec.

Module AttemptSpec.
Import Attempt.

(** The string payload of a [token] frame; the empty string for any other
    frame and for a [token] frame whose [data] is not a string. *)
Definition tokenChunk (message : LlmwsParsedMessage) : string :=
  if hasType message "token" then
    match getField message "data" with
    | Some (JStr chunkValue) => chunkValue
    | _ => ""
    end
  else "".

(** The payloads of the token frames of [frames], concatenated in order. *)
Fixpoint tokenText (frames : list LlmwsParsedMessage) : string :=
  match frames with
  | [] => ""
  | message :: rest => tokenChunk message ++ tokenText rest
  end.

(** The numeric [tokens_in] of the last [start] frame that has one. *)
Fixpoint lastTokensIn (seen : option Q) (frames : list LlmwsParsedMessage) : option Q :=
  match frames with
  | [] => seen
  | message :: rest =>
      lastTokensIn
        (if hasType message "start" then
           match readNumber message "tokens_in" with
           | Some tin => Some tin
           | None => seen
           end
         else seen) rest
  end.

(** [String.prototype.trim] removes white space at both ends and nothing
    else. *)
Fixpoint allWhiteSpace (s : string) : bool :=
  match s with
  | EmptyString => true
  | String c r => (JS.isWhiteSpace c && allWhiteSpace r)%bool
  end.

Definition startsWithWhiteSpace (s : string) : bool :=
  match s with
  | EmptyString => false
  | String c _ => JS.isWhiteSpace c
  end.

Fixpoint endsWithWhiteSpace (s : string) : bool :=
  match s with
  | EmptyString => false
  | String c EmptyString => JS.isWhiteSpace c
  | String _ r => endsWithWhiteSpace r
  end.

Definition inferenceRequest (params : Params) (config : LlmwsGenerationConfig) : Action :=
  ActSend (InferencePayload (systemPrompt params) (userPrompt params) (media params) config).

(** How the connection ends when its stream loop ends with [exit], the
    session being [sid]. *)
Definition connExit (sid : string) (exit : StreamExit) : ConnectionExit :=
  match exit with
  | StreamThrow err => ConnThrow err
  | StreamRetry adjusted => ConnRetry adjusted
  | StreamDone final =>
      ConnReturn (mkResult (JS.trim (streamed final)) (Some sid)
                    (buildUsage (inputTokens final) (outputTokens final)))
  end.

(** The generation configs of the inference requests sent, in order. *)
Fixpoint configsSent (l : list Action) : list LlmwsGenerationConfig :=
  match l with
  | [] => []
  | ActSend (InferencePayload _ _ _ config) :: r => config :: configsSent r
  | _ :: r => configsSent r
  end.

(** The frames received after an inference request was sent, in order. *)
Fixpoint streamFramesFrom (streaming : bool) (l : list Action) : list LlmwsParsedMessage :=
  match l with
  | [] => []
  | ActSend (InferencePayload _ _ _ _) :: r => streamFramesFrom true r
  | ActRecv message :: r =>
      if streaming then message :: streamFramesFrom true r else streamFramesFrom false r
  | _ :: r => streamFramesFrom streaming r
  end.

Definition streamFrames (l : list Action) : list LlmwsParsedMessage :=
  streamFramesFrom false l.

(** The budget of the retry, [Math.floor(tokensIn * 2 +
    desiredNewTokens)], in the arithmetic of the language. *)
Definition adjustedBudget (tokensIn desiredNewTokens : Q) : JS.number :=
  JS.floor (JS.plus (JS.multiply tokensIn 2) desiredNewTokens).

(** The sum the usage reports, [(inputTokens ?? 0) + (outputTokens ?? 0)],
    in the arithmetic of the language. *)
Definition tokenSum (inputTokens outputTokens : option Q) : JS.number :=
  JS.add (orZero inputTokens) (orZero outputTokens).

(** A [start] frame whose numeric [tokens_in] is positive and whose numeric
    [max_tokens] does not exceed it. *)
Definition triggersRetry (message : LlmwsParsedMessage) : bool :=
  (hasType message "start"
   && match readNumber message "tokens_in", readNumber message "max_tokens" with
      | Some tin, Some mt => positive tin && Qle_bool mt tin
      | _, _ => false
      end)%bool.

Definition noTrigger (frames : list LlmwsParsedMessage) : Prop :=
  Forall (fun message => triggersRetry message = false) frames.

(** The log of a connection that reached the stream loop, and of one that
    did not get past the welcome loop. *)
Definition streamLog (params : Params) (generation : LlmwsGenerationConfig)
    (pre frames : list LlmwsParsedMessage) (rest : list Action) : list Action :=
  ActSend (helloPayload (resumeSessionId params))
    :: map ActRecv pre ++ inferenceRequest params generation :: map ActRecv frames ++ rest.

Definition welcomeLog (params : Params) (pre : list LlmwsParsedMessage) : list Action :=
  ActSend (helloPayload (resumeSessionId params)) :: map ActRecv pre ++ [ActClose].

Section WithEnvironment.
Variable numberToString : Q -> string.

(** The stream loop on the frames it is given, without the socket. *)
Fixpoint foldFrames (generation : LlmwsGenerationConfig) (retried : bool)
    (vars : StreamVars) (frames : list LlmwsParsedMessage) : Step StreamVars StreamExit :=
  match frames with
  | [] => Continue vars
  | message :: rest =>
      match handleFrame numberToString generation retried vars message with
      | Continue vars' => foldFrames generation retried vars' rest
      | Break exit => Break exit
      end
  end.

(** How the stream loop can end after receiving [frames]: the socket or
    the clock ended it while every frame let the loop go on, or the last
    frame ended it. *)
Definition streamEnds (generation : LlmwsGenerationConfig) (retried : bool)
    (vars : StreamVars) (frames : list LlmwsParsedMessage) (exit : StreamExit) : Prop :=
  (exists vars' err, foldFrames generation retried vars frames = Continue vars'
                     /\ exit = StreamThrow err)
  \/ (exists init last vars',
        frames = init ++ [last]
        /\ foldFrames generation retried vars init = Continue vars'
        /\ handleFrame numberToString generation retried vars' last = Break exit).

(** When the attempt, having made no retry yet, ends without making one:
    no frame of the stream asked for one, or the last one did and the
    configured budget could not be used. *)
Definition noRetryDue (generation : LlmwsGenerationConfig)
    (outcome : JsError + LlmwsRunAttemptResult) (frames : list LlmwsParsedMessage) : Prop :=
  noTrigger frames
  \/ exists init last tin mt,
       frames = init ++ [last] /\ noTrigger init
       /\ hasType last "start" = true
       /\ readNumber last "tokens_in" = Some tin
       /\ readNumber last "max_tokens" = Some mt
       /\ positive tin = true /\ Qle_bool mt tin = true
       /\ (forall desired,
             max_new_tokens generation = Some (JS.Num desired) -> positive desired = false)
       /\ outcome = inl (tokenBudgetError numberToString tin mt).

(** What claim C1 says of an attempt that went from [st] to [st'] with
    [outcome]: it opened one socket on its target, no frame of the stream
    asking for a retry that could be made; or it opened two, the first one
    closed right after a [start] frame with numeric [tokens_in > 0] and
    [max_tokens <= tokens_in] while the configured budget was a positive
    finite number, and every request on the second one carries the
    adjusted budget.  That budget is computed in binary64; it is the
    exact [2 * tokens_in + max_new_tokens] when the two are whole numbers
    and the sum is at most [2 ** 53]. *)
Definition retriesAtMostOnce (params : Params) (st : State)
    (outcome : JsError + LlmwsRunAttemptResult) (st' : State) : Prop :=
  (exists body,
      log st' = log st ++ ActOpen (target params) :: body
      /\ openedTargets body = []
      /\ (forall config, In config (configsSent body) -> config = generation params)
      /\ noRetryDue (generation params) outcome (streamFrames body))
  \/ (exists body1 last tin mt desired body2,
        log st' = log st ++ ActOpen (target params) :: body1
                         ++ ActRecv last :: ActClose :: ActOpen (target params) :: body2
        /\ openedTargets body1 = [] /\ openedTargets body2 = []
        /\ configsSent body1 = [generation params]
        /\ noTrigger (streamFrames body1)
        /\ hasType last "start" = true
        /\ readNumber last "tokens_in" = Some tin
        /\ readNumber last "max_tokens" = Some mt
        /\ positive tin = true /\ Qle_bool mt tin = true
        /\ max_new_tokens (generation params) = Some (JS.Num desired)
        /\ positive desired = true
        /\ (forall config, In config (configsSent body2) ->
            config = withMaxNewTokens (generation params) (adjustedBudget tin desired))
        /\ (forall t d,
              (tin == inject_Z t)%Q -> (desired == inject_Z d)%Q -> (2 * t + d <= 2 ^ 53)%Z ->
              adjustedBudget tin desired = JS.Num (inject_Z (2 * t + d)))).

End WithEnvironment.

(** The messages [frames] are read one after the other from state [st]
    on: the read made in state [s] is given [allowance s] milliseconds,
    which is more than none, and delivers a message; [st'] is the state
    after the last of them. *)
Inductive Reads (allowance : State -> Z) : State -> list LlmwsParsedMessage -> State -> Prop :=
| ReadsNil st : Reads allowance st [] st
| ReadsCons st message st1 frames st' :
    (0 < allowance st)%Z ->
    nextMessage st (allowance st) = (inr message, st1) ->
    Reads allowance st1 frames st' ->
    Reads allowance st (message :: frames) st'.

(** How a loop of reads gives up in state [st]: no time is left, or the
    read it makes with the time left fails. *)
Definition givesUp (allowance : State -> Z) (timeout : string) (st : State)
    (err : JsError) (st' : State) : Prop :=
  ((allowance st <= 0)%Z /\ err = newError timeout /\ st' = st)
  \/ ((0 < allowance st)%Z /\ nextMessage st (allowance st) = (inl err, st')).

(** Two states with the same clock, log and socket. *)
Definition sameSocket (a b : State) : Prop :=
  now a = now b /\ log a = log b /\ socketQueue a = socketQueue b
  /\ inbound a = inbound b /\ outbound a = outbound b.

(** What claim C3 says of one connection, from the state [st] in which the
    socket was opened to [st'].  The hello is sent first; if the socket
    does not take it the connection ends there.  The deadline of the
    welcome is a full [readTimeoutMs] after the hello was sent, in state
    [st1]: every read before the welcome is given what is left up to that
    deadline, whatever was read and skipped before, and the welcome is
    accepted only at a time before it.  After the welcome the request is
    sent, and every read of the stream is given a full [readTimeoutMs],
    counted from the receipt of the message before it (from the moment
    the request was sent, in state [st4], for the first one). *)
Definition keepsReadDeadlines (params : Params) (generation : LlmwsGenerationConfig)
    (st : State) (exit : ConnectionExit) (st' : State) : Prop :=
  let hello := helloPayload (resumeSessionId params) in
  let request :=
    InferencePayload (systemPrompt params) (userPrompt params) (media params) generation in
  let idle := fun _ : State => readTimeoutMs params in
  (exists err, sendJson st hello = (Some err, st') /\ exit = ConnThrow err)
  \/ exists st1 skipped st2,
       sendJson st hello = (None, st1)
       /\ let welcomeDeadline := (now st1 + readTimeoutMs params)%Z in
          let untilWelcome := fun s : State => (welcomeDeadline - now s)%Z in
          Reads untilWelcome st1 skipped st2
          /\ Forall (fun m => hasType m "welcome" = false) skipped
          /\ ((exists err,
                 exit = ConnThrow err
                 /\ givesUp untilWelcome "LLMWS welcome timeout" st2 err st'
                 /\ (now st' <= Z.max (now st1) welcomeDeadline)%Z)
              \/ exists welcome st3 named,
                   (0 < untilWelcome st2)%Z
                   /\ nextMessage st2 (untilWelcome st2) = (inr welcome, st3)
                   /\ hasType welcome "welcome" = true
                   /\ (now st3 < welcomeDeadline)%Z
                   /\ sameSocket named st3
                   /\ ((exists err,
                          sendJson named request = (Some err, st') /\ exit = ConnThrow err)
                       \/ exists st4 frames st5,
                            sendJson named request = (None, st4)
                            /\ Reads idle st4 frames st5
                            /\ ((exists err,
                                   exit = ConnThrow err
                                   /\ givesUp idle "LLMWS stream timeout" st5 err st')
                                \/ exists last,
                                     (0 < readTimeoutMs params)%Z
                                     /\ nextMessage st5 (readTimeoutMs params)
                                        = (inr last, st')))).

(** What claim C2 says of the [result] of an attempt that ended in [st']:
    its text is the concatenation of the token payloads read after the
    last inference request, less the white space at its two ends. *)
Definition returnsTrimmedTokenText (params : Params) (st' : State)
    (result : LlmwsRunAttemptResult) : Prop :=
  exists before config frames,
    log st' = before ++ inferenceRequest params config :: map ActRecv frames ++ [ActClose]
    /\ text result = JS.trim (tokenText frames)
    /\ exists lead trail,
         tokenText frames = (lead ++ text result ++ trail)%string
         /\ allWhiteSpace lead = true /\ allWhiteSpace trail = true
         /\ startsWithWhiteSpace (text result) = false
         /\ endsWithWhiteSpace (text result) = false.

(** What claim C10 says of the [result] of an attempt that ended in
    [st'].  The total is a sum in binary64; it is the exact sum when the
    two counts are whole numbers and the sum is within [2 ** 53]. *)
Definition reportsUsage (params : Params) (st' : State)
    (result : LlmwsRunAttemptResult) : Prop :=
  exists before config frames doneFrame,
    log st' = before ++ inferenceRequest params config
                        :: map ActRecv (frames ++ [doneFrame]) ++ [ActClose]
    /\ hasType doneFrame "done" = true
    /\ (usage result = None <->
        lastTokensIn None frames = None /\ readNumber doneFrame "total_tokens" = None)
    /\ (forall u, usage result = Some u ->
          input u = lastTokensIn None frames
          /\ output u = readNumber doneFrame "total_tokens"
          /\ total u =
             (if JS.greaterThanZero
                   (tokenSum (lastTokensIn None frames) (readNumber doneFrame "total_tokens"))
              then Some (tokenSum (lastTokensIn None frames)
                           (readNumber doneFrame "total_tokens"))
              else None)
          /\ (forall tokensIn totalTokens,
                (orZero (lastTokensIn None frames) == inject_Z tokensIn)%Q ->
                (orZero (readNumber doneFrame "total_tokens") == inject_Z totalTokens)%Q ->
                (Z.abs (tokensIn + totalTokens) <= 2 ^ 53)%Z ->
                total u = if (0 <? tokensIn + totalTokens)%Z
                          then Some (JS.Num (inject_Z (tokensIn + totalTokens)))
                          else None)).

End AttemptSpec.

Module ResolverSpec.

Section Keys.
Variable A : Type.
Variable key : A -> nat.

(** The elements of one score band, in order. *)
Definition band (k : nat) (l : list A) : list A :=
  filter (fun x => Nat.eqb (key x) k) l.

(** No element comes after one with a lower key. *)
Definition descending (l : list A) : Prop :=
  StronglySorted (fun x y => key y <= key x) l.

End Keys.
Arguments band {A} key k l.
Arguments descending {A} key l.

(** A target comes before another when it matches all preferred tags if
    the other does, and matches at least as many. *)
Definition precedes (preferredSet : list string) (a b : LlmwsTarget) : Prop :=
  (Resolver.matchesAll preferredSet b = true -> Resolver.matchesAll preferredSet a = true)
  /\ Resolver.matchCount preferredSet b <= Resolver.matchCount preferredSet a.

(** The targets that match exactly [k] preferred tags, in order. *)
Definition scoreBand (preferredSet : list string) (k : nat) (l : list LlmwsTarget)
  : list LlmwsTarget :=
  band (Resolver.matchCount preferredSet) k l.

End ResolverSpec.

Module AgentSpec.
Import Agent.

(** [opened] visits the urls in order, each once or, after a budget
    retry, twice. *)
Inductive visits : list string -> list string -> Prop :=
| visits_nil : visits [] []
| visits_once u us opened : visits us opened -> visits (u :: us) (u :: opened)
| visits_twice u us opened : visits us opened -> visits (u :: us) (u :: u :: opened).

Definition endpointErrorsOf (failed : list (LlmwsTarget * JsError)) : list string :=
  map (fun te => endpointError (url (fst te)) (snd te)) failed.

Definition sectionText (section : option string) : string :=
  match section with
  | Some s => s
  | None => ""
  end.

Definition isLF (c : ascii) : bool := Ascii.eqb c (ascii_of_nat 10).
Definition isCR (c : ascii) : bool := Ascii.eqb c (ascii_of_nat 13).

(** No line feed and no carriage return, as in what [JSON.stringify]
    returns. *)
Fixpoint noLineBreak (s : string) : bool :=
  match s with
  | EmptyString => true
  | String c r => (negb (isLF c) && negb (isCR c) && noLineBreak r)%bool
  end.

Fixpoint lastOf (ids : list string) : option string :=
  match ids with
  | [] => None
  | [id] => Some id
  | _ :: rest => lastOf rest
  end.

(** [entry[key]] of an entry of the transcript *)
Definition fieldOf (entry : JValue) (key : string) : option JValue :=
  match entry with
  | JObj fields => getField fields key
  | _ => None
  end.

(** The keys of an entry, in the order they are written. *)
Definition keysOf (entry : JValue) : list string :=
  match entry with
  | JObj fields => map fst fields
  | _ => []
  end.

(** What a [message] entry says, read from the entry itself: its keys,
    its identifier, the identifier of its parent ([null] when it has
    none), its time stamp, and the role and the one text block of its
    message. *)
Definition saysMessage (entry : JValue) (id : string) (parentId : option string)
    (timestamp role text : string) : Prop :=
  keysOf entry = ["type"; "id"; "parentId"; "timestamp"; "message"]%string
  /\ fieldOf entry "type" = Some (JStr "message")
  /\ fieldOf entry "id" = Some (JStr id)
  /\ fieldOf entry "parentId"
     = Some match parentId with
            | Some parent => JStr parent
            | None => JNull
            end
  /\ fieldOf entry "timestamp" = Some (JStr timestamp)
  /\ exists message,
       fieldOf entry "message" = Some message
       /\ keysOf message = ["role"; "content"]%string
       /\ fieldOf message "role" = Some (JStr role)
       /\ fieldOf message "content"
          = Some (JArr [JObj [("type", JStr "text"); ("text", JStr text)]]).

(** The user prompts of the inference requests sent, in order. *)
Fixpoint userPromptsSent (l : list Action) : list string :=
  match l with
  | [] => []
  | ActSend (InferencePayload _ user _ _) :: r => user :: userPromptsSent r
  | _ :: r => userPromptsSent r
  end.

(** An optional section that was produced: a text that is not empty. *)
Definition produced (section : option string) : bool :=
  match section with
  | Some s => negb (String.eqb s "")
  | None => false
  end.

(** The prompt as claim C8 words it: with an optional section produced,
    the history block (if produced), the memory block (if produced), and
    the marker [Current user request:] with the raw prompt on the next
    line, an empty line between the parts; the raw prompt otherwise. *)
Definition sectionsThenRequest (historyContext memoryInjection : option string)
    (prompt : string) : string :=
  if (produced historyContext || produced memoryInjection)%bool
  then ((if produced historyContext
         then sectionText historyContext ++ JS.LF ++ JS.LF else "")
        ++ (if produced memoryInjection
            then sectionText memoryInjection ++ JS.LF ++ JS.LF else "")
        ++ "Current user request:" ++ JS.LF ++ prompt)%string
  else prompt.

(** What a [session] header says, read from the entry itself. *)
Definition saysSession (entry : JValue) (sessionId timestamp cwd : string) : Prop :=
  keysOf entry = ["type"; "version"; "id"; "timestamp"; "cwd"]%string
  /\ fieldOf entry "type" = Some (JStr "session")
  /\ fieldOf entry "version" = Some (JNum 7)
  /\ fieldOf entry "id" = Some (JStr sessionId)
  /\ fieldOf entry "timestamp" = Some (JStr timestamp)
  /\ fieldOf entry "cwd" = Some (JStr cwd).

Section WithCollaborators.
Variable C : Collaborators.

Local Abbreviation attempt params target st :=
  (Attempt.runLlmwsAttempt (network C) (randomUUID C) (numberToString C)
     (attemptParams params (url target)) st).

(** The targets that failed one after the other from state [st], each
    with the error its attempt threw, the next attempt starting in the
    state the previous one ended in. *)
Inductive Failures (params : AgentParams)
  : State -> list (LlmwsTarget * JsError) -> State -> Prop :=
| FailuresNil st : Failures params st [] st
| FailuresCons st target err st1 rest st2 :
    attempt params target st = Some (inl err, st1) ->
    Failures params st1 rest st2 ->
    Failures params st ((target, err) :: rest) st2.

(** How [toFailoverError] classifies an error, for a message already
    trimmed. *)
Definition classified (err : JsError) (msg : string) : string :=
  match classifyFailoverReason C msg with
  | Some reason => reason
  | None => if hasConnectivityHint err msg then "timeout" else "unknown"
  end.

(** The [type] of the entry on a line, when the line is a record with a
    string [type]. *)
Definition lineType (line : string) : option string :=
  match JSON_parse C line with
  | Some (JObj parsed) =>
      match getField parsed "type" with
      | Some (JStr t) => Some t
      | _ => None
      end
  | _ => None
  end.

Definition lineHasType (name : string) (line : string) : bool :=
  match lineType line with
  | Some t => String.eqb t name
  | None => false
  end.

(** The id of the [message] entry on a line, when there is one. *)
Definition messageIdOf (line : string) : option string :=
  match JSON_parse C line with
  | Some (JObj parsed) =>
      if lineHasType "message" line then readString parsed "id" else None
  | _ => None
  end.

(** The ids of the [message] entries of the lines, in order. *)
Fixpoint messageIds (lines : list string) : list string :=
  match lines with
  | [] => []
  | line :: rest =>
      match messageIdOf line with
      | Some id => id :: messageIds rest
      | None => messageIds rest
      end
  end.

(** What claim C5 says of a call that went from [st] to [st'] with
    [outcome]. *)
Definition failsOver (params : AgentParams) (st : State) (disk : Disk)
    (outcome : FailoverError + EmbeddedPiRunResult) (st' : State) (disk' : Disk) : Prop :=
  exists failed st1 delta,
    Failures params st failed st1
    /\ log st' = log st ++ delta
    /\ match outcome with
       | inr r =>
           exists target rest attemptResult st2,
             targets (runtimeSettings params) = map fst failed ++ target :: rest
             /\ attempt params target st1 = Some (inr attemptResult, st2)
             /\ visits (map url (map fst failed ++ [target])) (openedTargets delta)
             /\ payloads r
                = (if JS.truthy (stripReasoningTagsFromText C (text attemptResult))
                   then Some [stripReasoningTagsFromText C (text attemptResult)]
                   else None)
             /\ metaUsage (agentMeta r) = usage attemptResult
       | inl failure =>
           let joined := endpointsFailedMessage (endpointErrorsOf failed) in
           map fst failed = targets (runtimeSettings params)
           /\ st' = st1 /\ disk' = disk
           /\ visits (map url (targets (runtimeSettings params))) (openedTargets delta)
           /\ failoverMessage failure = JS.trim joined
           /\ (AttemptSpec.endsWithWhiteSpace joined = false ->
               failoverMessage failure = joined)
           /\ reason failure = classified (newError joined) (JS.trim joined)
       end.

(** What claim C9 says of an append to a file holding [existing], made in
    state [st]: the two entries written, read back field by field, the
    text the file holds afterwards, and the lines of that text. *)
Definition appendsTwoMessageLines (transcript : TranscriptParams) (st : State)
    (disk : Disk) (existing : string) : Prop :=
  let parent := lastOf (messageIds (transcriptLines existing)) in
  let userId := randomUUID C (uuids st) in
  let assistantId := randomUUID C (S (uuids st)) in
  exists userEntry assistantEntry,
    let userLine := JSON_stringify C userEntry in
    let assistantLine := JSON_stringify C assistantEntry in
    let prefix := if JS.endsWithChar existing (ascii_of_nat 10) then ""%string else JS.LF in
    let written :=
      (existing ++ prefix ++ userLine ++ JS.LF ++ assistantLine ++ JS.LF)%string in
    transcriptAdditions C transcript existing (now st) (uuids st)
    = [userEntry; assistantEntry]
    /\ saysMessage userEntry userId parent (toISOString C (now st)) "user"
         (userText transcript)
    /\ saysMessage assistantEntry assistantId (Some userId)
         (toISOString C (nowAgain C (now st))) "assistant" (assistantText transcript)
    /\ (exists st',
          appendTranscriptMessages C transcript st disk
          = (None, st', mkDisk None None None None (Some written)))
    /\ (noLineBreak userLine = true -> noLineBreak assistantLine = true ->
        JSON_parse C (JS.trim userLine) = Some userEntry ->
        JSON_parse C (JS.trim assistantLine) = Some assistantEntry ->
        JS.truthy (JS.trim userLine) = true -> JS.truthy (JS.trim assistantLine) = true ->
        transcriptLines written
        = transcriptLines existing ++ [JS.trim userLine; JS.trim assistantLine]
        /\ filter (lineHasType "session") (transcriptLines written)
           = filter (lineHasType "session") (transcriptLines existing)
        /\ filter (lineHasType "message") (transcriptLines written)
           = filter (lineHasType "message") (transcriptLines existing)
             ++ [JS.trim userLine; JS.trim assistantLine]).

End WithCollaborators.
End AgentSpec.

Module StringSpec.

(** A string none of whose code units is white space. *)
Fixpoint noWhiteSpace (s : string) : bool :=
  match s with
  | EmptyString => true
  | String c r => (negb (JS.isWhiteSpace c) && noWhiteSpace r)%bool
  end.

(** A string without a backslash. *)
Fixpoint noBackslash (s : string) : bool :=
  match s with
  | EmptyString => true
  | String c r => (negb (Ascii.eqb c "\"%char) && noBackslash r)%bool
  end.

(** A string without a carriage return. *)
Fixpoint noCarriageReturn (s : string) : bool :=
  match s with
  | EmptyString => true
  | String c r => (negb (History.isCR c) && noCarriageReturn r)%bool
  end.

(** A string in which no more than two line feeds follow one another,
    [run] of them having just been passed. *)
Fixpoint shortLineFeedRuns (run : nat) (s : string) : bool :=
  match s with
  | EmptyString => true
  | String c r =>
      if History.isLF c then (Nat.ltb run 2 && shortLineFeedRuns (S run) r)%bool
      else shortLineFeedRuns 0 r
  end.

(** A string without a semicolon. *)
Fixpoint noSemicolon (s : string) : bool :=
  match s with
  | EmptyString => true
  | String c r => (negb (Ascii.eqb c ";"%char) && noSemicolon r)%bool
  end.

End StringSpec.

Module MessageQueueOrder.
Import MessageQueue.

(** The messages handed to callers, in the order of the settlements. *)
Fixpoint delivered (ss : list (nat * Settlement)) : list LlmwsParsedMessage :=
  match ss with
  | [] => []
  | (_, Resolved item) :: rest => item :: delivered rest
  | (_, Rejected _) :: rest => delivered rest
  end.

(** The records among the values of one payload, in order. *)
Fixpoint recordsOf (parsedLines : list JValue) : list LlmwsParsedMessage :=
  match parsedLines with
  | [] => []
  | parsed :: rest =>
      match isRecord parsed with
      | Some message => message :: recordsOf rest
      | None => recordsOf rest
      end
  end.

(** The messages the socket delivered to the queue, in order. *)
Fixpoint received (ops : list Op) : list LlmwsParsedMessage :=
  match ops with
  | [] => []
  | OpEvent (WsMessage parsedLines) :: rest => recordsOf parsedLines ++ received rest
  | _ :: rest => received rest
  end.

(** The identifiers of the [next()] calls made, in order. *)
Fixpoint callIds (ops : list Op) : list nat :=
  match ops with
  | [] => []
  | OpNext id _ :: rest => id :: callIds rest
  | _ :: rest => callIds rest
  end.

Definition waiterIds (q : t) : list nat := map waiterId (waiters q).

(** Nobody waits while a message is buffered. *)
Definition settledOrEmpty (q : t) : Prop := queue q = [] \/ waiters q = [].

End MessageQueueOrder.

Module HistorySpec.
Local Open Scope Z_scope.

(** The characters a list of blocks takes in the budget: those of each
    block and two more for the empty line after it. *)
Fixpoint cost (blocks : list string) : Z :=
  match blocks with
  | [] => 0
  | block :: rest => Clip.len block + 2 + cost rest
  end.

(** The header of the history block. *)
Definition historyHeader : string := ("Conversation history:" ++ JS.LF)%string.

End HistorySpec.

Module ContextFilesSpec.
Local Open Scope Z_scope.

(** The characters of the contents of the files together. *)
Fixpoint totalChars (files : list ContextFiles.ContextFile) : Z :=
  match files with
  | [] => 0
  | file :: rest => Clip.len (ContextFiles.content file) + totalChars rest
  end.

End ContextFilesSpec.

(** ** Concrete runs *)

Module Scenarios.
Local Open Scope Z_scope.

Definition frame (fields : JRecord) : WsEvent := WsMessage [JObj fields].

Definition welcomeFrame : JRecord :=
  [("type", JStr "welcome"); ("model", JStr "test-model");
   ("session_id", JStr "llmws-session-test")].

Definition initFrame : JRecord :=
  [("uuid", JStr "init-1"); ("kind", JStr "init")].

Definition startFrame (tokensIn maxTokens : Z) : JRecord :=
  [("type", JStr "start"); ("tokens_in", JNum (inject_Z tokensIn));
   ("max_tokens", JNum (inject_Z maxTokens))].

Definition tokenFrame (data : string) : JRecord :=
  [("type", JStr "token"); ("data", JStr data)].

Definition doneFrame (totalTokens : Z) : JRecord :=
  [("type", JStr "done"); ("total_tokens", JNum (inject_Z totalTokens))].

Definition errorFrame (text : string) : JRecord :=
  [("type", JStr "error"); ("message", JStr text)].

(** The numbers of these runs are integers. *)
Definition renderInteger (q : Q) : string := JS.ofZ (Qfloor q).

Definition uuid (k : nat) : string := ("uuid-" ++ JS.ofZ (Z.of_nat k))%string.

Definition budget32 : LlmwsGenerationConfig :=
  mkGeneration (Some (JS.Num 32)) None None None None None.

Definition endpoint : string := "ws://127.0.0.1:8765".

Definition attemptOn (readTimeoutMs : Z) : Attempt.Params :=
  Attempt.mkParams endpoint 8000 readTimeoutMs None "system" "ping" [] budget32.

(** The server with the budget defect: on the first connection it reports
    [max_tokens = 10] for [tokens_in = 100] and then says nothing; on the
    next one it answers. *)
Definition defectiveServer (target : string) (k : nat) : ServerScript :=
  match k with
  | O => mkScript ConnOpen [(5, frame welcomeFrame); (10, frame (startFrame 100 10))] []
  | _ => mkScript ConnOpen
           [(5, frame welcomeFrame); (10, frame (startFrame 100 200));
            (20, frame (tokenFrame "ok")); (30, frame (doneFrame 1))] []
  end.

(** A server that answers at once, its payloads carrying white space. *)
Definition helloServer (target : string) (k : nat) : ServerScript :=
  mkScript ConnOpen
    [(5, frame welcomeFrame); (10, frame (startFrame 10 100));
     (20, frame (tokenFrame " hello ")); (30, frame (tokenFrame "world  "));
     (40, frame (doneFrame 2))] [].

(** A server that reports [tokens_in = 0] and [max_tokens = 0] and then
    answers. *)
Definition emptyPromptServer (target : string) (k : nat) : ServerScript :=
  mkScript ConnOpen
    [(5, frame welcomeFrame); (10, frame (startFrame 0 0));
     (20, frame (tokenFrame "ok")); (30, frame (doneFrame 1))] [].

(** A server that sends something every 60 ms: an init record, then the
    welcome, then the stream. *)
Definition steadyServer (target : string) (k : nat) : ServerScript :=
  mkScript ConnOpen
    [(60, frame initFrame); (120, frame welcomeFrame); (180, frame (startFrame 10 100));
     (240, frame (tokenFrame "ok")); (300, frame (doneFrame 1))] [].

(** The same stream after a prompt welcome. *)
Definition steadyStreamServer (target : string) (k : nat) : ServerScript :=
  mkScript ConnOpen
    [(20, frame welcomeFrame); (80, frame (startFrame 10 100));
     (140, frame (tokenFrame "ok")); (200, frame (doneFrame 1))] [].

(** *** Runs of the whole call *)

Definition quoted (s : string) : string :=
  (String (ascii_of_nat 34) s ++ String (ascii_of_nat 34) "")%string.

(** [JSON.stringify] on the values of these runs: strings without
    characters to escape, integers. *)
Fixpoint stringify (v : JValue) : string :=
  match v with
  | JNull => "null"
  | JBool true => "true"
  | JBool false => "false"
  | JNum q => JS.ofZ (Qfloor q)
  | JNonFinite => "null"
  | JStr s => quoted s
  | JArr items =>
      ("[" ++ (fix go (l : list JValue) : string :=
                 match l with
                 | [] => ""
                 | [x] => stringify x
                 | x :: r => stringify x ++ "," ++ go r
                 end) items ++ "]")%string
  | JObj fields =>
      ("{" ++ (fix go (l : list (string * JValue)) : string :=
                 match l with
                 | [] => ""
                 | [(k, x)] => quoted k ++ ":" ++ stringify x
                 | (k, x) :: r => quoted k ++ ":" ++ stringify x ++ "," ++ go r
                 end) fields ++ "}")%string
  end.

(** [JSON.parse] on the lines of these runs: the known value that is
    written so. *)
Definition parseKnown (known : list JValue) (line : string) : option JValue :=
  find (fun v => String.eqb (stringify v) line) known.

Definition stamp (clock : Z) : string := ("T+" ++ JS.ofZ clock)%string.

(** Quota wording is a rate limit; nothing else is classified. *)
Definition classifyQuota (msg : string) : option string :=
  if JS.includes (JS.toLowerCase msg) "quota" then Some "rate_limit"%string else None.

Definition collaborators (network : string -> nat -> ServerScript) (known : list JValue)
  : Agent.Collaborators :=
  Agent.mkCollaborators network uuid renderInteger (parseKnown known) stringify stamp
    (fun clock => clock) (fun dir => dir) (fun text => text) classifyQuota (fun _ => None).

Definition fastUrl : string := "ws://127.0.0.1:9001".
Definition visionUrl : string := "ws://127.0.0.1:9002".

(** Two servers: the one at [fastUrl] answers every request with an error,
    the one at [visionUrl] answers; nobody listens elsewhere. *)
Definition twoServers (target : string) (k : nat) : ServerScript :=
  if String.eqb target fastUrl then
    mkScript ConnOpen [(5, frame welcomeFrame); (10, frame (errorFrame "wrong-target"))] []
  else if String.eqb target visionUrl then
    mkScript ConnOpen
      [(5, frame welcomeFrame); (10, frame (startFrame 6 100));
       (20, frame (tokenFrame "vision-first")); (30, frame (doneFrame 1))] []
  else mkScript (ConnError (mkError "connect ECONNREFUSED 127.0.0.1:8765"
                              (Some "ECONNREFUSED"%string))) [] [].

(** The configuration of the capability test: the model wants [vision],
    the deployment lists the fast server first. *)
Definition visionModelParams : JRecord :=
  [("serverCapabilities", JArr [JStr "vision"])].

Definition twoServerDefaults : JRecord :=
  [("servers",
    JArr [JObj [("url", JStr fastUrl); ("capabilities", JArr [JStr "fast"])];
          JObj [("url", JStr visionUrl); ("capabilities", JArr [JStr "vision"])]]);
   ("includeHistory", JBool false)].

Definition settingsFor (targets : list LlmwsTarget) : Agent.LlmwsRuntimeSettings :=
  Agent.mkSettings targets 8000 5000 false 12 12000 budget32.

Definition callOn (targets : list LlmwsTarget) : Agent.AgentParams :=
  Agent.mkAgentParams "session-1" None "/workspace" "analyze image" "llmws" "qwen-8b"
    (settingsFor targets) "system" None None [].

(** A server that accepts the socket and closes it at once, giving no
    reason, and one that refuses the connection. *)
Definition closingUrl : string := "ws://127.0.0.1:9003".
Definition refusingUrl : string := "ws://127.0.0.1:9".

Definition deadServers (target : string) (k : nat) : ServerScript :=
  if String.eqb target closingUrl then mkScript ConnOpen [(5, WsClose 1006 "")] []
  else mkScript (ConnError (mkError "connect ECONNREFUSED 127.0.0.1:9"
                              (Some "ECONNREFUSED"%string))) [] [].

(** A server whose socket takes the hello after 3 ms and, the welcome
    having come, no longer takes the request. *)
Definition socketNotOpen : JsError :=
  newError "WebSocket is not open: readyState 3 (CLOSED)".

Definition hangingUpServer (target : string) (k : nat) : ServerScript :=
  mkScript ConnOpen [(5, frame welcomeFrame)] [(3, None); (2, Some socketNotOpen)].

Definition noFile : Agent.Disk := Agent.mkDisk None None None None None.

(** A transcript that cannot be appended to, and one whose lock cannot be
    released. *)
Definition noSpaceLeft : JsError :=
  mkError "ENOSPC: no space left on device, write" (Some "ENOSPC"%string).
Definition lockLost : JsError := newError "session lock is gone".

Definition fullDisk : Agent.Disk := Agent.mkDisk None None (Some noSpaceLeft) None None.
Definition staleLock : Agent.Disk := Agent.mkDisk None None None (Some lockLost) None.

Definition lockedFile : Agent.Disk :=
  Agent.mkDisk (Some (newError "session file locked (timeout 10000ms)")) None None None None.

(** A line of a transcript, as the session files have them. *)
Definition messageLine (id : string) (parentId : JValue) (timestamp role text : string)
  : JValue :=
  JObj [("type", JStr "message"); ("id", JStr id); ("parentId", parentId);
        ("timestamp", JStr timestamp);
        ("message", JObj [("role", JStr role);
                          ("content", JArr [JObj [("type", JStr "text");
                                                  ("text", JStr text)]])])].

(** A transcript with its header and one earlier turn. *)
Definition oldHeader : JValue :=
  JObj [("type", JStr "session"); ("version", JNum 7); ("id", JStr "session-2");
        ("timestamp", JStr "T+0"); ("cwd", JStr "/workspace")].
Definition oldUser : JValue := messageLine "m1" JNull "T+1" "user" "old user".
Definition oldAssistant : JValue :=
  messageLine "m2" (JStr "m1") "T+2" "assistant" "old assistant".

Definition oldTranscript : string :=
  (stringify oldHeader ++ JS.LF ++ stringify oldUser ++ JS.LF
   ++ stringify oldAssistant ++ JS.LF)%string.

Definition newTurn : Agent.TranscriptParams :=
  Agent.mkTranscriptParams "session-2" "/workspace" "new prompt" "new reply".

(** The two entries of the new turn, appended at 40 ms by a call that
    reads the clock again one millisecond later. *)
Definition newUser : JValue :=
  messageLine "uuid-0" (JStr "m2") "T+40" "user" "new prompt".
Definition newAssistant : JValue :=
  messageLine "uuid-1" (JStr "uuid-0") "T+41" "assistant" "new reply".

Definition transcriptCollaborators : Agent.Collaborators :=
  Agent.mkCollaborators helloServer uuid renderInteger
    (parseKnown [oldHeader; oldUser; oldAssistant; newUser; newAssistant]) stringify stamp
    (fun clock => clock + 1) (fun dir => dir) (fun text => text) classifyQuota
    (fun _ => None).

(** The states and runs the checks below start from. *)
Definition atStart : State := initialState 0.

Definition afterReply : State := mkState 40 [] 0 MessageQueue.empty [] [].

Definition oldFile : Agent.Disk := Agent.mkDisk None None None None (Some oldTranscript).

Definition resolvedTargets : list LlmwsTarget :=
  Resolver.resolveTargets visionModelParams twoServerDefaults (fun _ => None).

Definition fastTarget : LlmwsTarget := mkTarget fastUrl ["fast"%string].
Definition visionTarget : LlmwsTarget := mkTarget visionUrl ["vision"%string].
Definition defaultTarget : LlmwsTarget := mkTarget Resolver.DEFAULT_LLMWS_ENDPOINT [].

(** A socket on which one token frame arrives 60 ms from now. *)
Definition streaming : State :=
  mkState 100 [] 0 MessageQueue.empty [(160, frame (tokenFrame "ok"))] [].

(** A socket on which the welcome arrives 20 ms from now. *)
Definition welcoming : State :=
  mkState 0 [] 0 MessageQueue.empty [(20, frame welcomeFrame)] [].

End Scenarios.

(** ** More concrete inputs *)

Module Samples.
Import Scenarios.
Local Open Scope Z_scope.

(** The code unit that stands for the ellipsis in these runs. *)
Definition ellipsisMark : ascii := ascii_of_nat 133.

(** An environment that sets the total budget of the context files to
    one half, and the conversion of that text to a number. *)
Definition halfBudgetEnv : Resolver.Env :=
  fun name =>
    if String.eqb name "OPENCLAW_LLMWS_CONTEXT_FILES_MAX_CHARS" then Some " 0.5 "%string
    else None.

Definition numberOfHalf (raw : string) : option Q :=
  if String.eqb raw "0.5" then Some (1 # 2)%Q else None.

(** A deployment that sets the budget under its snake-case name, and a
    model that sets it under its camel-case name. *)
Definition snakeDefaults : JRecord := [("max_new_tokens", JNum 64%Q)].
Definition camelModelParams : JRecord := [("maxNewTokens", JNum 32%Q)].

(** Two entries for one server, written differently, and their tags. *)
Definition twiceTheSameServer : list LlmwsTarget :=
  [mkTarget "ws:\\127.0.0.1:9001" ["Fast"%string];
   mkTarget " ws://127.0.0.1:9001 " ["vision"%string]].

(** Two context files, the second one too long for what is left. *)
Definition twoContextFiles : list ContextFiles.ContextFile :=
  [ContextFiles.mkFile "AGENTS.md" "be brief";
   ContextFiles.mkFile "SOUL.md" "a rather long text about the soul"].

(** Three images, the second one without data. *)
Definition threeImages : list Media.ImageContent :=
  [Media.mkImage (Some "data:image/png;base64,AAAA"%string) (Some "image/png"%string);
   Media.mkImage (Some "  "%string) (Some "image/gif"%string);
   Media.mkImage (Some "BBBB"%string) (Some "image/JPEG"%string)].

(** A call with a history block and a memory block, on two servers of
    which the first one answers with an error. *)
Definition historyBlock : string :=
  ("Conversation history:" ++ JS.LF ++ "User: old user")%string.
Definition memoryBlock : string := "Relevant memory: the user likes cats".

Definition callWithSections : Agent.AgentParams :=
  Agent.mkAgentParams "session-1" None "/workspace" "analyze image" "llmws" "qwen-8b"
    (settingsFor [fastTarget; visionTarget]) "system" (Some historyBlock)
    (Some memoryBlock) [].

(** The snippets of the memory test. *)
Definition twoSnippets : list string :=
  ["Pierwszy bardzo dlugi fragment pamieci do skracania"; "Drugi"]%string.

(** The history of the transcript with one earlier turn. *)
Definition oldHistory : option string :=
  History.readHistoryContext
    (parseKnown [oldHeader; oldUser; oldAssistant]) (fun _ => false) ellipsisMark
    (Some oldTranscript) 12 12000.

(** The same with room for 10 characters only. *)
Definition shortHistory : option string :=
  History.readHistoryContext
    (parseKnown [oldHeader; oldUser; oldAssistant]) (fun _ => false) ellipsisMark
    (Some oldTranscript) 12 10.

End Samples.

(** * Lemmas and theorems *)

(** *** Whole numbers in binary64 *)

Module NumberFacts.
Import JS.
Local Open Scope Z_scope.

Lemma Qred_integer z : Qred (inject_Z z) = inject_Z z.
Proof.
  unfold Qred, inject_Z.
  generalize (Z.ggcd_gcd z 1) (Z.ggcd_correct_divisors z 1).
  destruct (Z.ggcd z 1) as (g, (aa, bb)). simpl. intros Hg [Ha Hb].
  rewrite Z.gcd_1_r in Hg. subst g. rewrite Z.mul_1_l in Ha, Hb. subst aa bb.
  reflexivity.
Qed.

Lemma pow2_nonneg e : 0 <= e -> pow2 e = inject_Z (2 ^ e).
Proof. intros He. unfold pow2. apply Z.leb_le in He. rewrite He. reflexivity. Qed.

(** Below 1 the power is the inverse of a whole number. *)
Lemma pow2_neg e : e <= 0 -> (pow2 e * inject_Z (2 ^ (- e)) == 1)%Q.
Proof.
  intros He. unfold pow2. destruct (0 <=? e) eqn:H0.
  - apply Z.leb_le in H0. assert (e = 0) by lia. subst e. reflexivity.
  - assert (Hp : 0 < 2 ^ (- e)) by (apply Z.pow_pos_nonneg; lia).
    unfold Qeq, Qmult, inject_Z. cbn [Qnum Qden].
    rewrite Pos.mul_1_r, Z.mul_1_l, Z.mul_1_l, Z.mul_1_r, Z2Pos.id by exact Hp. reflexivity.
Qed.

Lemma ilog2_integer n : 0 < n -> ilog2 (inject_Z n) = Z.log2 n.
Proof.
  intros Hn. unfold ilog2. simpl. rewrite Z.sub_0_r.
  assert (Hle : Qle_bool (pow2 (Z.log2 n)) (inject_Z n) = true).
  { apply Qle_bool_iff. rewrite pow2_nonneg by apply Z.log2_nonneg.
    rewrite <- Zle_Qle. apply Z.log2_spec. exact Hn. }
  rewrite Hle. reflexivity.
Qed.

Lemma nearestEven_integer q n : (q == inject_Z n)%Q -> nearestEven q = n.
Proof.
  intros Hq. unfold nearestEven. cbv zeta.
  rewrite (Qfloor_comp _ _ Hq), Qfloor_Z.
  assert (Hlt : Qcompare (q - inject_Z n) (1 # 2) = Lt).
  { apply Qlt_alt. rewrite Hq. unfold Qminus. rewrite Qplus_opp_r. reflexivity. }
  rewrite Hlt. reflexivity.
Qed.

(** A whole number up to [2 ** 53] is a binary64 value. *)
Lemma roundReduced_integer z :
  Z.abs z <= 2 ^ 53 -> roundReduced (inject_Z z) = Num (inject_Z z).
Proof.
  intros Hz. unfold roundReduced.
  destruct (Z.eq_dec z 0) as [-> | Hnz]; [reflexivity|].
  set (n := Z.abs z). assert (Hn : 0 < n) by (subst n; lia).
  assert (Ha : Qabs (inject_Z z) = inject_Z n) by reflexivity.
  rewrite Ha, (ilog2_integer n Hn).
  set (L := Z.log2 n).
  assert (HL : 0 <= L <= 53).
  { split; [apply Z.log2_nonneg|]. subst L.
    destruct (Z.le_gt_cases (Z.log2 n) 53) as [H | H]; [exact H|].
    exfalso.
    assert (2 ^ 53 < 2 ^ (Z.log2 n)) by (apply Z.pow_lt_mono_r; lia).
    pose proof (Z.log2_spec n Hn). subst n. lia. }
  rewrite Z.max_l by lia.
  assert (Hscaled : exists m, (inject_Z n / pow2 (L - 52) == inject_Z m)%Q
                              /\ (inject_Z m * pow2 (L - 52) == inject_Z n)%Q).
  { destruct (Z.le_gt_cases (L - 52) 0) as [He | He].
    - exists (n * 2 ^ (- (L - 52))).
      pose proof (pow2_neg (L - 52) He) as Hp.
      assert (Hnz2 : ~ (pow2 (L - 52) == 0)%Q).
      { intros H0. rewrite H0 in Hp. discriminate Hp. }
      rewrite inject_Z_mult. split.
      + apply (Qmult_inj_r _ _ (pow2 (L - 52)) Hnz2).
        unfold Qdiv. rewrite <- Qmult_assoc, (Qmult_comm (/ _)), Qmult_inv_r by exact Hnz2.
        rewrite <- Qmult_assoc, (Qmult_comm (inject_Z (2 ^ _))), Hp. reflexivity.
      + rewrite <- Qmult_assoc, (Qmult_comm (inject_Z (2 ^ _))), Hp. apply Qmult_1_r.
    - assert (HL53 : L = 53) by lia.
      assert (Hn53 : n = 2 ^ 53).
      { pose proof (Z.log2_spec n Hn) as [Hlo _]. fold L in Hlo. rewrite HL53 in Hlo.
        subst n. lia. }
      exists (2 ^ 52). rewrite HL53, Hn53. split; reflexivity. }
  destruct Hscaled as (m & Hdiv & Hmul).
  rewrite (nearestEven_integer _ m Hdiv).
  assert (Hbig : Qle_bool (pow2 1024) (inject_Z m * pow2 (L - 52)) = false).
  { destruct (Qle_bool _ _) eqn:Hle; [|reflexivity]. exfalso.
    apply Qle_bool_iff in Hle. rewrite Hmul, pow2_nonneg in Hle by lia.
    rewrite <- Zle_Qle in Hle.
    assert (2 ^ 53 < 2 ^ 1024) by (apply Z.pow_lt_mono_r; lia). subst n. lia. }
  rewrite Hbig.
  destruct z as [|p|p]; [contradiction | |].
  - change (inject_Z (Z.pos p) ?= 0)%Q with Gt. cbv iota.
    rewrite (Qred_complete _ _ Hmul). apply f_equal, Qred_integer.
  - change (inject_Z (Z.neg p) ?= 0)%Q with Lt. cbv iota.
    assert (Hneg : (- (inject_Z m * pow2 (L - 52)) == inject_Z (Z.neg p))%Q)
      by (rewrite Hmul; reflexivity).
    rewrite (Qred_complete _ _ Hneg). apply f_equal, Qred_integer.
Qed.

Lemma roundToDouble_integer q z :
  (q == inject_Z z)%Q -> Z.abs z <= 2 ^ 53 -> roundToDouble q = Num (inject_Z z).
Proof.
  intros Hq Hz. unfold roundToDouble.
  rewrite (Qred_complete _ _ Hq), Qred_integer. apply roundReduced_integer, Hz.
Qed.

(** Sums and products of whole numbers are exact as long as they stay
    within [2 ** 53]. *)
Lemma add_integers a b x y :
  (a == inject_Z x)%Q -> (b == inject_Z y)%Q -> Z.abs (x + y) <= 2 ^ 53 ->
  add a b = Num (inject_Z (x + y)).
Proof.
  intros Ha Hb Hz. apply roundToDouble_integer; [|exact Hz].
  rewrite Ha, Hb, inject_Z_plus. reflexivity.
Qed.

Lemma multiply_integers a b x y :
  (a == inject_Z x)%Q -> (b == inject_Z y)%Q -> Z.abs (x * y) <= 2 ^ 53 ->
  multiply a b = Num (inject_Z (x * y)).
Proof.
  intros Ha Hb Hz. apply roundToDouble_integer; [|exact Hz].
  rewrite Ha, Hb, inject_Z_mult. reflexivity.
Qed.

Lemma floor_integer z : floor (Num (inject_Z z)) = Num (inject_Z z).
Proof. unfold floor. rewrite Qfloor_Z. reflexivity. Qed.

Lemma greaterThanZero_integer z : greaterThanZero (Num (inject_Z z)) = (0 <? z).
Proof.
  unfold greaterThanZero. destruct (Qle_bool (inject_Z z) 0) eqn:Hle; cbn [negb].
  - apply Qle_bool_iff in Hle. change 0%Q with (inject_Z 0) in Hle.
    rewrite <- Zle_Qle in Hle. symmetry. apply Z.ltb_ge. exact Hle.
  - symmetry. apply Z.ltb_lt. destruct (Z.lt_ge_cases 0 z) as [H | H]; [exact H|].
    exfalso. rewrite Zle_Qle in H. apply Qle_bool_iff in H.
    change (inject_Z 0) with 0%Q in H. congruence.
Qed.

End NumberFacts.

(** *** Sticky failure of the queue *)

Module MessageQueueFacts.
Import MessageQueue MessageQueueSpec.

Lemma onlyRejectsWith_nil err : onlyRejectsWith err [].
Proof. intros id e []. Qed.

Lemma onlyRejectsWith_app err s1 s2 :
  onlyRejectsWith err s1 -> onlyRejectsWith err s2 -> onlyRejectsWith err (s1 ++ s2).
Proof.
  intros H1 H2 id e Hin. apply in_app_or in Hin as [Hin | Hin]; eauto.
Qed.

Lemma fail_failedWith q error : failedWith (firstError q error) (fst (fail q error)).
Proof. split; reflexivity. Qed.

Lemma push_failedWith err q message :
  failedWith err q ->
  failedWith err (fst (push q message)) /\ snd (push q message) = [].
Proof.
  intros [Ht Hw]. unfold push. rewrite Hw. simpl. repeat split; assumption.
Qed.

Lemma onRawData_failedWith err parsedLines : forall q,
  failedWith err q ->
  failedWith err (fst (onRawData q parsedLines)) /\ snd (onRawData q parsedLines) = [].
Proof.
  induction parsedLines as [|parsed rest IH]; intros q Hq; simpl.
  - split; [assumption | reflexivity].
  - destruct (isRecord parsed) as [message|]; [|apply IH; assumption].
    destruct (push_failedWith err q message Hq) as [Hq1 Hs1].
    destruct (push q message) as [q1 s1]. simpl in Hq1, Hs1. subst s1.
    specialize (IH q1 Hq1). destruct (onRawData q1 rest) as [q2 s2].
    simpl in *. exact IH.
Qed.

Lemma step_failedWith err q op :
  failedWith err q ->
  failedWith err (fst (step q op)) /\ onlyRejectsWith err (snd (step q op)).
Proof.
  intros Hq. pose proof Hq as [Ht Hw]. destruct op as [id timeoutMs | ev | id]; simpl.
  - unfold next. destruct (queue q) as [|item rest] eqn:Hqueue.
    + rewrite Ht. simpl. split; [assumption|].
      intros id' e [Heq | []]. congruence.
    + simpl. split; [split; assumption|].
      intros id' e [Heq | []]. discriminate.
  - destruct ev as [parsedLines | e | closeCode reason]; simpl.
    + destruct (onRawData_failedWith err parsedLines q Hq) as [H1 H2].
      split; [assumption|]. rewrite H2. apply onlyRejectsWith_nil.
    + unfold fail, firstError. rewrite Ht, Hw. simpl.
      split; [split; reflexivity | apply onlyRejectsWith_nil].
    + unfold fail, firstError. rewrite Ht, Hw. simpl.
      split; [split; reflexivity | apply onlyRejectsWith_nil].
  - unfold timerFired. rewrite Hw. simpl.
    split; [assumption | apply onlyRejectsWith_nil].
Qed.

Lemma run_failedWith err ops : forall q,
  failedWith err q ->
  failedWith err (fst (run q ops)) /\ onlyRejectsWith err (snd (run q ops)).
Proof.
  induction ops as [|op rest IH]; intros q Hq; simpl.
  - split; [assumption | apply onlyRejectsWith_nil].
  - destruct (step_failedWith err q op Hq) as [H1 H2].
    destruct (step q op) as [q1 s1]. simpl in H1, H2.
    destruct (IH q1 H1) as [H3 H4].
    destruct (run q1 rest) as [q2 s2]. simpl in *.
    split; [assumption | apply onlyRejectsWith_app; assumption].
Qed.

(** A queue that failed answers its calls from the buffer first. *)
Lemma run_calls_failedWith err calls : forall q,
  failedWith err q ->
  snd (run q (callsOf calls)) = answers err (queue q) calls.
Proof.
  induction calls as [|[id timeoutMs] later IH]; intros q Hq; [reflexivity|].
  pose proof Hq as [Ht Hw].
  cbn [callsOf map run step fst snd answers]. unfold next.
  destruct (queue q) as [|item rest] eqn:Hqueue.
  - rewrite Ht.
    specialize (IH q Hq). rewrite Hqueue in IH. unfold callsOf in IH.
    destruct (run q _) as [q2 s2]. simpl in *. rewrite IH. reflexivity.
  - assert (Hq1 : failedWith err (mk rest (waiters q) (terminalError q)))
      by (split; assumption).
    specialize (IH _ Hq1). unfold callsOf in IH.
    destruct (run (mk rest (waiters q) (terminalError q)) _) as [q2 s2].
    simpl in *. rewrite IH. reflexivity.
Qed.

(** C4 (as amended).  When [fail] runs, every pending waiter is rejected
    at once with the first terminal error recorded (the one already stored,
    else the new one) and nobody is left waiting.  From then on, whatever
    consumers, socket events and timers do, the recorded error never
    changes, no call is ever rejected with another error, no call is left
    suspended, and every [next()] made while no received message is
    buffered is rejected immediately with that error.  A [next()] made
    while a message is buffered is given that message, the error staying
    recorded; so calls made one after the other get the buffered
    messages, one per call and in order, and the error only after the
    last of them. *)
Theorem fail_is_sticky (q : t) (error : JsError) (ops : list Op) :
  let err := firstError q error in
  let q1 := fst (fail q error) in
  let q2 := fst (run q1 ops) in
  snd (fail q error) = map (fun w => (waiterId w, Rejected err)) (waiters q)
  /\ terminalError q1 = Some err /\ waiters q1 = []
  /\ terminalError q2 = Some err /\ waiters q2 = []
  /\ onlyRejectsWith err (snd (run q1 ops))
  /\ (forall id timeoutMs,
        queue q2 = [] -> next q2 id timeoutMs = (q2, Now (Rejected err)))
  /\ (forall id timeoutMs item rest,
        queue q2 = item :: rest ->
        next q2 id timeoutMs = (mk rest [] (Some err), Now (Resolved item)))
  /\ (forall calls, snd (run q2 (callsOf calls)) = answers err (queue q2) calls).
Proof.
  intros err q1 q2.
  destruct (run_failedWith err ops q1 (fail_failedWith q error)) as [[Ht Hw] Hr].
  do 3 (split; [reflexivity|]).
  split; [exact Ht|]. split; [exact Hw|]. split; [exact Hr|].
  split; [|split].
  - intros id timeoutMs Hempty. subst q2 q1 err. unfold next.
    rewrite Hempty, Ht. reflexivity.
  - intros id timeoutMs item rest Hbuffered. subst q2 q1 err. unfold next.
    rewrite Hbuffered, Ht, Hw. reflexivity.
  - intros calls. apply run_calls_failedWith. split; assumption.
Qed.

(** C4, counterexample to the claim as worded.  A frame was buffered, then
    the socket closed: the next [next()] call does not fail, it returns the
    buffered frame; only the call after it reports the recorded error. *)
Lemma next_after_close_returns_buffered :
  let frame := [("type", JStr "token"); ("data", JStr "tail")] in
  let q0 := fst (dispatch empty (WsMessage [JObj frame])) in
  let q1 := fst (dispatch q0 (WsClose 1006 "")) in
  terminalError q1 = Some (socketClosedError 1006 "")
  /\ snd (next q1 0 1000) = Now (Resolved frame)
  /\ snd (next (fst (next q1 0 1000)) 1 1000)
     = Now (Rejected (socketClosedError 1006 "")).
Proof. repeat split. Qed.

End MessageQueueFacts.

(** ** Every loop of the attempt ends *)

Lemma loop_terminates {S R : Type} (body : S -> Step S R) (measure : S -> nat) :
  (forall s s', body s = Continue s' -> measure s' < measure s) ->
  forall fuel s, measure s < fuel -> exists r, loop body fuel s = Some r.
Proof.
  intros Hdec fuel. induction fuel as [|fuel IH]; intros s Hlt; [lia|].
  simpl. destruct (body s) as [s'|r] eqn:Hbody.
  - apply IH. specialize (Hdec s s' Hbody). lia.
  - eauto.
Qed.

Module SocketFacts.
Import MessageQueue Socket.

Lemma push_queue_length q message :
  List.length (queue (fst (push q message))) <= S (List.length (queue q)).
Proof.
  unfold push. destruct (waiters q); simpl; [|lia].
  rewrite length_app. simpl. lia.
Qed.

Lemma onRawData_queue_length parsedLines : forall q,
  List.length (queue (fst (onRawData q parsedLines)))
  <= List.length (queue q) + List.length parsedLines.
Proof.
  induction parsedLines as [|parsed rest IH]; intros q; simpl; [lia|].
  destruct (isRecord parsed) as [message|].
  - pose proof (push_queue_length q message) as Hp.
    destruct (push q message) as [q1 s1]. simpl in Hp.
    specialize (IH q1). destruct (onRawData q1 rest) as [q2 s2]. simpl in *. lia.
  - specialize (IH q). lia.
Qed.

Lemma dispatch_queue_length q ev :
  S (List.length (queue (fst (dispatch q ev)))) <= List.length (queue q) + eventWeight ev.
Proof.
  destruct ev as [parsedLines | err | closeCode reason]; simpl; try lia.
  pose proof (onRawData_queue_length parsedLines q). lia.
Qed.

Lemma deliverDue_weight clock pending : forall q,
  List.length (queue (fst (deliverDue clock q pending)))
  + pendingWeight (snd (deliverDue clock q pending))
  <= List.length (queue q) + pendingWeight pending.
Proof.
  induction pending as [|[arrival ev] rest IH]; intros q; simpl; [lia|].
  destruct (arrival <=? clock)%Z; simpl; [|lia].
  specialize (IH (fst (dispatch q ev))).
  pose proof (dispatch_queue_length q ev). lia.
Qed.

Lemma timerFired_rejects q id s :
  firstSettlement (snd (timerFired q id)) = Some s -> exists err, s = Rejected err.
Proof.
  unfold timerFired. destruct (removeWaiter id (waiters q)) as [[w rest]|]; simpl.
  - intros [= <-]. eauto.
  - discriminate.
Qed.

Lemma timerFired_queue q id : queue (fst (timerFired q id)) = queue q.
Proof.
  unfold timerFired. destruct (removeWaiter id (waiters q)) as [[w rest]|]; reflexivity.
Qed.

Lemma awaitEvents_weight timerAt timeoutMs pending : forall clock q s clock' q' pending',
  awaitEvents timerAt timeoutMs clock q pending = (s, clock', q', pending') ->
  List.length (queue q') + pendingWeight pending' <= List.length (queue q) + pendingWeight pending
  /\ ((exists message, s = Resolved message) ->
      List.length (queue q') + pendingWeight pending' < List.length (queue q) + pendingWeight pending).
Proof.
  induction pending as [|[arrival ev] rest IH]; intros clock q s clock' q' pending' H; simpl in H.
  - pose proof (timerFired_queue q 0) as Hq. pose proof (timerFired_rejects q 0) as Hr.
    destruct (timerFired q 0) as [q1 settled]. simpl in Hq, Hr.
    injection H as <- <- <- <-. rewrite Hq. split; [lia|].
    intros [message Hm]. destruct (firstSettlement settled) as [s0|].
    + destruct (Hr s0 eq_refl) as [err ->]. discriminate.
    + discriminate.
  - destruct (arrival <? timerAt)%Z.
    + pose proof (dispatch_queue_length q ev) as Hd.
      destruct (dispatch q ev) as [q1 settled]. simpl in Hd.
      destruct (firstSettlement settled) as [s0|].
      * injection H as <- <- <- <-. simpl. split; [lia | intros _; lia].
      * apply IH in H. simpl. destruct H as [H1 H2]. split; [lia|].
        intros Hm. specialize (H2 Hm). lia.
    + pose proof (timerFired_queue q 0) as Hq. pose proof (timerFired_rejects q 0) as Hr.
      destruct (timerFired q 0) as [q1 settled]. simpl in Hq, Hr.
      injection H as <- <- <- <-. rewrite Hq. split; [lia|].
      intros [message Hm]. destruct (firstSettlement settled) as [s0|].
      * destruct (Hr s0 eq_refl) as [err ->]. discriminate.
      * discriminate.
Qed.

(** A [next()] that delivers a message consumes it. *)
Lemma queueNext_weight st timeoutMs message st' :
  queueNext st timeoutMs = (Resolved message, st') -> weight st' < weight st.
Proof.
  unfold queueNext, weight. intros H.
  pose proof (deliverDue_weight (now st) (inbound st) (socketQueue st)) as Hd.
  destruct (deliverDue (now st) (socketQueue st) (inbound st)) as [q1 pending1].
  simpl in Hd. unfold next in H.
  destruct (queue q1) as [|item rest] eqn:Hq1.
  - destruct (terminalError q1) as [err|].
    + injection H as H _. discriminate.
    + destruct (awaitEvents _ _ _ _ _) as [[[s clock] q3] pending3] eqn:Ha.
      apply awaitEvents_weight in Ha. destruct Ha as [_ Ha].
      injection H as -> <-. simpl in *.
      specialize (Ha (ex_intro _ message eq_refl)). simpl in Ha. lia.
  - injection H as _ <-. simpl in *. lia.
Qed.

End SocketFacts.

Module AttemptTermination.
Import Attempt.

Section WithEnvironment.
Variable network : string -> nat -> ServerScript.
Variable randomUUID : nat -> string.
Variable numberToString : Q -> string.

Lemma weight_logAction st a : Socket.weight (logAction st a) = Socket.weight st.
Proof. reflexivity. Qed.

Lemma nextMessage_weight st timeoutMs message st' :
  nextMessage st timeoutMs = (inr message, st') -> Socket.weight st' < Socket.weight st.
Proof.
  unfold nextMessage. destruct (Socket.queueNext st timeoutMs) as [[m|err] st1] eqn:Hn.
  - intros [= <- <-]. rewrite weight_logAction.
    eapply SocketFacts.queueNext_weight; eassumption.
  - discriminate.
Qed.

Lemma welcomeBody_decreases welcomeDeadline st st' :
  welcomeBody welcomeDeadline st = Continue st' -> Socket.weight st' < Socket.weight st.
Proof.
  unfold welcomeBody. destruct (_ <=? 0)%Z; [discriminate|].
  destruct (nextMessage st _) as [[err|message] st1] eqn:Hn; [discriminate|].
  destruct (hasType message "welcome"); [discriminate|].
  intros [= <-]. eapply nextMessage_weight; eassumption.
Qed.

Lemma streamBody_decreases readTimeoutMs generation retried s s' :
  streamBody numberToString readTimeoutMs generation retried s = Continue s' ->
  Socket.weight (fst (fst s')) < Socket.weight (fst (fst s)).
Proof.
  unfold streamBody. destruct s as [[st readDeadline] vars].
  destruct (_ <=? 0)%Z; [discriminate|].
  destruct (nextMessage st _) as [[err|message] st1] eqn:Hn; [discriminate|].
  apply nextMessage_weight in Hn.
  destruct (handleFrame _ _ _ _ _); [|discriminate].
  intros [= <-]. exact Hn.
Qed.

Lemma welcomeLoop_ends welcomeDeadline st :
  exists r, loop (welcomeBody welcomeDeadline) (S (Socket.weight st)) st = Some r.
Proof.
  apply (loop_terminates _ Socket.weight); [apply welcomeBody_decreases | lia].
Qed.

Lemma streamLoop_ends readTimeoutMs generation retried st readDeadline vars :
  exists r, loop (streamBody numberToString readTimeoutMs generation retried)
              (S (Socket.weight st)) (st, readDeadline, vars) = Some r.
Proof.
  apply (loop_terminates _ (fun s => Socket.weight (fst (fst s))));
    [apply streamBody_decreases | simpl; lia].
Qed.

(** What [sendJson] changes: the clock does not go back, the socket keeps
    its queue and its events, no identifier is drawn, and the payload is
    logged if and only if the socket took it. *)
Lemma sendJson_spec st payload outcome st1 :
  sendJson st payload = (outcome, st1) ->
  (now st <= now st1)%Z /\ uuids st1 = uuids st
  /\ socketQueue st1 = socketQueue st /\ inbound st1 = inbound st
  /\ log st1 = match outcome with
               | None => log st ++ [ActSend payload]
               | Some _ => log st
               end.
Proof.
  unfold sendJson. destruct (outbound st) as [|[delay [err|]] rest];
    intros [= <- <-]; simpl; repeat split; lia.
Qed.

Lemma connectionBody_ends params generation retried st :
  exists r, connectionBody randomUUID numberToString params generation retried st = Some r.
Proof.
  unfold connectionBody.
  destruct (sendJson st _) as [[err|] st1]; [eauto|].
  destruct (welcomeLoop_ends (now st1 + readTimeoutMs params) st1) as [[w st2] ->].
  destruct w as [err | session_id]; [eauto|].
  destruct (match session_id with Some id => _ | None => _ end) as [sid st3].
  destruct (sendJson st3 _) as [[err|] st4]; [eauto|].
  match goal with
  | |- context [loop (streamBody ?n ?r ?g ?b) (S (Socket.weight ?s)) (?s, ?d, ?v)] =>
      destruct (streamLoop_ends r g b s d v) as [[x st5] ->]
  end.
  destruct x; eauto.
Qed.

(** The attempt always ends, with a result or with an error. *)
Lemma attemptLoop_ends attemptsLeft : forall params generation retried st,
  exists r, attemptLoop network randomUUID numberToString attemptsLeft params generation retried st
            = Some r.
Proof.
  induction attemptsLeft as [|n IH]; intros params generation retried st; simpl; [eauto|].
  destruct (openLlmwsSocket network (target params) (connectTimeoutMs params) st)
    as [[err|] st1]; [eauto|].
  destruct (connectionBody_ends params generation retried st1) as [[exit st2] ->].
  destruct exit; eauto.
Qed.

Lemma runLlmwsAttempt_ends params st :
  exists r, runLlmwsAttempt network randomUUID numberToString params st = Some r.
Proof. apply attemptLoop_ends. Qed.

End WithEnvironment.
End AttemptTermination.

(** ** What an attempt receives and what it returns *)

Module AttemptFacts.
Import Attempt AttemptSpec.

Lemma append_assoc (a b c : string) : ((a ++ b) ++ c = a ++ (b ++ c))%string.
Proof. induction a as [|ch a IH]; simpl; [reflexivity | now rewrite IH]. Qed.

Lemma append_empty_r (a : string) : (a ++ "")%string = a.
Proof. induction a as [|ch a IH]; simpl; [reflexivity | now rewrite IH]. Qed.

Lemma tokenText_app frames more :
  tokenText (frames ++ more) = (tokenText frames ++ tokenText more)%string.
Proof.
  induction frames as [|m rest IH]; simpl; [reflexivity|].
  rewrite IH. symmetry. apply append_assoc.
Qed.

Lemma lastTokensIn_app frames more : forall seen,
  lastTokensIn seen (frames ++ more) = lastTokensIn (lastTokensIn seen frames) more.
Proof. induction frames as [|m rest IH]; intros seen; simpl; [reflexivity | apply IH]. Qed.

Lemma hasType_exclusive message a b :
  hasType message a = true -> a <> b -> hasType message b = false.
Proof.
  unfold hasType. destruct (readString message "type") as [t|]; [|discriminate].
  intros Ha Hab. apply String.eqb_eq in Ha. subst t.
  apply String.eqb_neq. exact Hab.
Qed.

Section WithEnvironment.
Variable network : string -> nat -> ServerScript.
Variable randomUUID : nat -> string.
Variable numberToString : Q -> string.

Lemma handleFrame_continue generation retried vars message vars' :
  handleFrame numberToString generation retried vars message = Continue vars' ->
  streamed vars' = (streamed vars ++ tokenChunk message)%string
  /\ inputTokens vars' = lastTokensIn (inputTokens vars) [message]
  /\ outputTokens vars' = outputTokens vars.
Proof.
  unfold handleFrame, tokenChunk. simpl.
  destruct (hasType message "start") eqn:Hstart.
  - rewrite (hasType_exclusive message "start" "token" Hstart) by discriminate.
    rewrite append_empty_r.
    destruct (readNumber message "tokens_in") as [tin|];
      destruct (readNumber message "max_tokens") as [mt|];
      try (intros [= <-]; simpl; auto).
    destruct (budgetTooSmall retried tin mt).
    + destruct (max_new_tokens generation) as [[d| |]|]; try discriminate.
      destruct (positive d); discriminate.
    + intros [= <-]; simpl; auto.
  - destruct (hasType message "token").
    + destruct (getField message "data") as [[| | | |chunk| |]|];
        intros [= <-]; simpl; rewrite ?append_empty_r; auto.
    + rewrite append_empty_r.
      destruct (hasType message "done"); [discriminate|].
      destruct (hasType message "error"); [discriminate|].
      intros [= <-]; auto.
Qed.

Lemma foldFrames_continue generation retried frames : forall vars vars',
  foldFrames numberToString generation retried vars frames = Continue vars' ->
  streamed vars' = (streamed vars ++ tokenText frames)%string
  /\ inputTokens vars' = lastTokensIn (inputTokens vars) frames
  /\ outputTokens vars' = outputTokens vars.
Proof.
  induction frames as [|m rest IH]; intros vars vars'; simpl.
  - intros [= <-]. rewrite append_empty_r. auto.
  - destruct (handleFrame numberToString generation retried vars m) as [v|] eqn:Hm;
      [|discriminate].
    intros Hrest. apply IH in Hrest. apply handleFrame_continue in Hm.
    simpl in Hm. destruct Hm as (Hs & Hi & Ho), Hrest as (Hs' & Hi' & Ho').
    rewrite Hs', Hi', Ho', Hs, Hi, Ho. rewrite append_assoc. auto.
Qed.

Lemma handleFrame_done generation retried vars message final :
  handleFrame numberToString generation retried vars message = Break (StreamDone final) ->
  hasType message "done" = true
  /\ streamed final = streamed vars
  /\ inputTokens final = inputTokens vars
  /\ outputTokens final = match readNumber message "total_tokens" with
                          | Some total => Some total
                          | None => outputTokens vars
                          end
  /\ hasType message "start" = false /\ hasType message "token" = false.
Proof.
  unfold handleFrame.
  destruct (hasType message "start") eqn:Hstart.
  - destruct (readNumber message "tokens_in") as [tin|];
      destruct (readNumber message "max_tokens") as [mt|]; try discriminate.
    destruct (budgetTooSmall retried tin mt); [|discriminate].
    destruct (max_new_tokens generation) as [[d| |]|]; try discriminate.
      destruct (positive d); discriminate.
  - destruct (hasType message "token").
    + destruct (getField message "data") as [[| | | |chunk| |]|]; discriminate.
    + destruct (hasType message "done"); [|destruct (hasType message "error"); discriminate].
      intros [= <-]. destruct (readNumber message "total_tokens"); simpl; auto 10.
Qed.

Lemma handleFrame_retry generation retried vars message adjusted :
  handleFrame numberToString generation retried vars message = Break (StreamRetry adjusted) ->
  retried = false
  /\ exists tin mt desired,
       hasType message "start" = true
       /\ readNumber message "tokens_in" = Some tin
       /\ readNumber message "max_tokens" = Some mt
       /\ positive tin = true /\ Qle_bool mt tin = true
       /\ max_new_tokens generation = Some (JS.Num desired) /\ positive desired = true
       /\ adjusted = withMaxNewTokens generation (adjustedBudget tin desired).
Proof.
  unfold handleFrame.
  destruct (hasType message "start") eqn:Hstart.
  - destruct (readNumber message "tokens_in") as [tin|];
      destruct (readNumber message "max_tokens") as [mt|]; try discriminate.
    destruct (budgetTooSmall retried tin mt) eqn:Hguard; [|discriminate].
    destruct (max_new_tokens generation) as [[d| |]|] eqn:Hd; try discriminate.
    destruct (positive d) eqn:Hpos; [|discriminate].
    intros [= <-]. unfold budgetTooSmall in Hguard.
    apply andb_prop in Hguard as [Hguard Hle]. apply andb_prop in Hguard as [Hr Htin].
    split; [destruct retried; [discriminate | reflexivity]|].
    exists tin, mt, d. auto 10.
  - destruct (hasType message "token").
    + destruct (getField message "data") as [[| | | |chunk| |]|]; discriminate.
    + destruct (hasType message "done"); [|destruct (hasType message "error")]; discriminate.
Qed.

(** *** What reading from the socket does to the clock and to the log *)

Lemma awaitEvents_clock timerAt timeoutMs pending : forall clock q s clock' q' pending',
  (clock < timerAt)%Z ->
  Socket.awaitEvents timerAt timeoutMs clock q pending = (s, clock', q', pending') ->
  (clock <= clock' <= timerAt)%Z
  /\ ((exists message, s = MessageQueue.Resolved message) -> (clock' < timerAt)%Z).
Proof.
  induction pending as [|[arrival ev] rest IH]; intros clock q s clock' q' pending' Hlt H;
    simpl in H.
  - pose proof (SocketFacts.timerFired_rejects q 0) as Hr.
    destruct (MessageQueue.timerFired q 0) as [q1 settled]. simpl in Hr.
    injection H as <- <- <- <-. split; [lia|].
    intros [message Hm]. destruct (Socket.firstSettlement settled) as [s0|].
    + destruct (Hr s0 eq_refl) as [err ->]. discriminate.
    + discriminate.
  - destruct (arrival <? timerAt)%Z eqn:Harr.
    + apply Z.ltb_lt in Harr.
      destruct (MessageQueue.dispatch q ev) as [q1 settled].
      destruct (Socket.firstSettlement settled) as [s0|].
      * injection H as <- <- <- <-. split; [lia | intros _; lia].
      * apply IH in H; [|lia]. destruct H as [H1 H2]. split; [lia | exact H2].
    + pose proof (SocketFacts.timerFired_rejects q 0) as Hr.
      destruct (MessageQueue.timerFired q 0) as [q1 settled]. simpl in Hr.
      injection H as <- <- <- <-. split; [lia|].
      intros [message Hm]. destruct (Socket.firstSettlement settled) as [s0|].
      * destruct (Hr s0 eq_refl) as [err ->]. discriminate.
      * discriminate.
Qed.

Lemma queueNext_spec st timeoutMs s st' :
  Socket.queueNext st timeoutMs = (s, st') ->
  log st' = log st /\ uuids st' = uuids st
  /\ (now st <= now st' <= now st + Z.max 1 timeoutMs)%Z
  /\ ((exists message, s = MessageQueue.Resolved message) ->
      (now st' < now st + Z.max 1 timeoutMs)%Z).
Proof.
  unfold Socket.queueNext.
  destruct (Socket.deliverDue (now st) (socketQueue st) (inbound st)) as [q1 pending1].
  destruct (MessageQueue.next q1 0 timeoutMs) as [q2 [s0|]].
  - intros [= <- <-]. simpl. repeat split; lia.
  - destruct (Socket.awaitEvents _ _ _ _ _) as [[[s1 clock] q3] pending3] eqn:Ha.
    intros [= <- <-]. simpl. apply awaitEvents_clock in Ha; [|lia].
    destruct Ha as [H1 H2]. repeat split; try lia. exact H2.
Qed.

Lemma nextMessage_spec st timeoutMs r st' :
  nextMessage st timeoutMs = (r, st') ->
  uuids st' = uuids st
  /\ (now st <= now st' <= now st + Z.max 1 timeoutMs)%Z
  /\ match r with
     | inr message =>
         log st' = log st ++ [ActRecv message]
         /\ (now st' < now st + Z.max 1 timeoutMs)%Z
     | inl _ => log st' = log st
     end.
Proof.
  unfold nextMessage.
  destruct (Socket.queueNext st timeoutMs) as [[message|err] st1] eqn:Hn;
    apply queueNext_spec in Hn; destruct Hn as (Hl & Hu & Ht & Hr); intros [= <- <-]; simpl.
  - rewrite Hl. repeat split; try lia; try assumption. apply Hr. eauto.
  - repeat split; try lia; assumption.
Qed.

(** *** The welcome loop *)

Lemma welcomeLoop_spec welcomeDeadline fuel : forall st exit st',
  loop (welcomeBody welcomeDeadline) fuel st = Some (exit, st') ->
  exists frames,
    log st' = log st ++ map ActRecv frames
    /\ uuids st' = uuids st
    /\ (now st <= now st')%Z
    /\ (forall session_id, exit = Welcomed session_id -> (now st' < welcomeDeadline)%Z).
Proof.
  induction fuel as [|fuel IH]; intros st exit st'; simpl; [discriminate|].
  unfold welcomeBody at 1. destruct (welcomeDeadline - now st <=? 0)%Z eqn:Hrem.
  - intros [= <- <-]. exists []. rewrite app_nil_r.
    repeat split; try lia. discriminate.
  - apply Z.leb_gt in Hrem.
    destruct (nextMessage st (welcomeDeadline - now st)) as [[err|message] st1] eqn:Hn;
      apply nextMessage_spec in Hn; destruct Hn as (Hu & Ht & Hl).
    + intros [= <- <-]. exists []. rewrite app_nil_r.
      repeat split; try lia; try assumption. discriminate.
    + destruct Hl as [Hl Hlt]. destruct (hasType message "welcome").
      * intros [= <- <-]. exists [message]. repeat split; try lia; assumption.
      * intros Hrest. apply IH in Hrest. destruct Hrest as (frames & Hl' & Hu' & Ht' & Hw).
        exists (message :: frames). rewrite Hl', Hl, <- app_assoc. simpl.
        repeat split; try lia; try congruence. exact Hw.
Qed.

(** *** The stream loop *)

Lemma streamLoop_spec readTimeoutMs generation retried fuel :
  forall st readDeadline vars exit st',
  loop (streamBody numberToString readTimeoutMs generation retried) fuel
       (st, readDeadline, vars) = Some (exit, st') ->
  exists frames,
    log st' = log st ++ map ActRecv frames
    /\ uuids st' = uuids st
    /\ streamEnds numberToString generation retried vars frames exit.
Proof.
  induction fuel as [|fuel IH]; intros st readDeadline vars exit st'; simpl; [discriminate|].
  destruct (readDeadline - now st <=? 0)%Z.
  - intros [= <- <-]. exists []. rewrite app_nil_r. repeat split.
    left. simpl. eauto.
  - destruct (nextMessage st (readDeadline - now st)) as [[err|message] st1] eqn:Hn;
      apply nextMessage_spec in Hn; destruct Hn as (Hu & Ht & Hl).
    + intros [= <- <-]. exists []. rewrite app_nil_r. repeat split; try assumption.
      left. simpl. eauto.
    + destruct Hl as [Hl _].
      destruct (handleFrame numberToString generation retried vars message)
        as [vars1|exit1] eqn:Hm.
      * intros Hrest. apply IH in Hrest. destruct Hrest as (frames & Hl' & Hu' & Hends).
        exists (message :: frames). rewrite Hl', Hl, <- app_assoc. simpl.
        repeat split; try congruence.
        destruct Hends as [(v & err & Hf & He) | (init & last & v & Hfr & Hf & Hh)].
        -- left. exists v, err. simpl. rewrite Hm. auto.
        -- right. exists (message :: init), last, v. simpl. rewrite Hm, Hfr. auto.
      * intros [= <- <-]. exists [message]. repeat split; try assumption.
        right. exists [], message, vars. simpl. auto.
Qed.

(** *** One connection *)

Lemma connectionBody_spec params generation retried st exit st' :
  connectionBody randomUUID numberToString params generation retried st = Some (exit, st') ->
  exists pre,
    (exists err sent,
        exit = ConnThrow err
        /\ log st' = log st ++ sent
        /\ (sent = []
            \/ sent = ActSend (helloPayload (resumeSessionId params)) :: map ActRecv pre))
    \/ (exists frames sexit sid,
          exit = connExit sid sexit
          /\ streamEnds numberToString generation retried (mkVars None None "") frames sexit
          /\ log st' = log st ++ ActSend (helloPayload (resumeSessionId params))
                                 :: map ActRecv pre
                                 ++ inferenceRequest params generation :: map ActRecv frames).
Proof.
  unfold connectionBody.
  destruct (sendJson st _) as [[err|] st1] eqn:Hhello;
    apply AttemptTermination.sendJson_spec in Hhello; destruct Hhello as (_ & _ & _ & _ & Hl1).
  { intros [= <- <-]. exists []. left. exists err, []. rewrite app_nil_r. auto. }
  destruct (loop (welcomeBody _) _ _) as [[w st2]|] eqn:Hw; [|discriminate].
  apply welcomeLoop_spec in Hw. destruct Hw as (pre & Hl2 & _).
  rewrite Hl1, <- app_assoc in Hl2. simpl in Hl2.
  destruct w as [err | session_id].
  - intros [= <- <-]. exists pre. left. exists err. eexists. split; [reflexivity|].
    split; [exact Hl2 | right; reflexivity].
  - match goal with
    | |- context [let '(a, b) := ?x in _] => destruct x as [sid st3] eqn:Hsid
    end.
    assert (Hl3 : log st3 = log st2)
      by (destruct session_id; injection Hsid as _ <-; reflexivity).
    destruct (sendJson st3 _) as [[err|] st4] eqn:Hrequest;
      apply AttemptTermination.sendJson_spec in Hrequest;
      destruct Hrequest as (_ & _ & _ & _ & Hl4).
    { intros [= <- <-]. exists pre. left. exists err. eexists. split; [reflexivity|].
      split; [rewrite Hl4, Hl3; exact Hl2 | right; reflexivity]. }
    destruct (loop (streamBody _ _ _ _) _ _) as [[sexit st5]|] eqn:Hs; [|discriminate].
    apply streamLoop_spec in Hs. destruct Hs as (frames & Hl5 & _ & Hends).
    intros Hexit. exists pre. right. exists frames, sexit, sid.
    assert (Hlog : log st5 = log st ++ ActSend (helloPayload (resumeSessionId params))
                                  :: map ActRecv pre
                                  ++ inferenceRequest params generation :: map ActRecv frames).
    { rewrite Hl5, Hl4, Hl3, Hl2. rewrite <- !app_assoc. simpl. rewrite <- ?app_assoc.
      reflexivity. }
    destruct sexit; injection Hexit as <- <-; auto.
Qed.

(** *** A successful attempt *)

(** The attempt returned [result]: on its last socket it sent the request
    with some [config], received [frames] and then the [done] frame
    [last], and closed. *)
Lemma attemptLoop_return attemptsLeft : forall params generation retried st result st',
  attemptLoop network randomUUID numberToString attemptsLeft params generation retried st
  = Some (inr result, st') ->
  exists before config flag frames last vars final sid,
    log st' = before ++ inferenceRequest params config
                        :: map ActRecv (frames ++ [last]) ++ [ActClose]
    /\ foldFrames numberToString config flag (mkVars None None "") frames = Continue vars
    /\ handleFrame numberToString config flag vars last = Break (StreamDone final)
    /\ result = mkResult (JS.trim (streamed final)) (Some sid)
                  (buildUsage (inputTokens final) (outputTokens final)).
Proof.
  induction attemptsLeft as [|n IH]; intros params generation retried st result st'; simpl;
    [discriminate|].
  destruct (openLlmwsSocket network (target params) (connectTimeoutMs params) st)
    as [[err|] st1]; [discriminate|].
  destruct (connectionBody _ _ _ _ _ _) as [[exit st2]|] eqn:Hc; [|discriminate].
  apply connectionBody_spec in Hc.
  destruct Hc as (pre & [(err & sent & -> & Hlog & _)
                        | (frames & sexit & sid & -> & Hends & Hlog)]);
    [discriminate|].
  destruct sexit as [err | final | adjusted]; simpl; [discriminate| |apply IH].
  intros [= <- <-].
  destruct Hends as [(v & err & _ & He) | (init & last & v & -> & Hf & Hh)]; [discriminate|].
  exists (log st1 ++ ActSend (helloPayload (resumeSessionId params)) :: map ActRecv pre).
  exists generation, retried, init, last, v, final, sid.
  simpl. rewrite Hlog. rewrite <- !app_assoc. simpl. rewrite <- ?app_assoc. auto.
Qed.

End WithEnvironment.

Lemma trimStart_spec s :
  exists lead, s = (lead ++ JS.trimStart s)%string /\ allWhiteSpace lead = true.
Proof.
  induction s as [|c r IH]; simpl.
  - exists ""%string. auto.
  - destruct (JS.isWhiteSpace c) eqn:Hc.
    + destruct IH as (lead & Hr & Hw). exists (String c lead). simpl.
      rewrite Hc, Hw, <- Hr. auto.
    + exists ""%string. auto.
Qed.

Lemma trimEnd_spec s :
  exists trail, s = (JS.trimEnd s ++ trail)%string /\ allWhiteSpace trail = true.
Proof.
  induction s as [|c r IH]; simpl.
  - exists ""%string. auto.
  - destruct IH as (trail & Hr & Hw). destruct (JS.trimEnd r) as [|d r'] eqn:Hend.
    + simpl in Hr. subst trail. destruct (JS.isWhiteSpace c) eqn:Hc.
      * exists (String c r). simpl. rewrite Hc, Hw. auto.
      * exists r. auto.
    + exists trail. simpl. rewrite Hr at 1. auto.
Qed.

Lemma trim_spec s :
  exists lead trail,
    s = (lead ++ JS.trim s ++ trail)%string
    /\ allWhiteSpace lead = true /\ allWhiteSpace trail = true.
Proof.
  destruct (trimStart_spec s) as (lead & Hs & Hl).
  destruct (trimEnd_spec (JS.trimStart s)) as (trail & He & Ht).
  exists lead, trail. unfold JS.trim. rewrite <- He. auto.
Qed.

Lemma trimStart_tight s : startsWithWhiteSpace (JS.trimStart s) = false.
Proof.
  induction s as [|c r IH]; simpl; [reflexivity|].
  destruct (JS.isWhiteSpace c) eqn:Hc; [exact IH | simpl; exact Hc].
Qed.

Lemma trimEnd_tight s : endsWithWhiteSpace (JS.trimEnd s) = false.
Proof.
  induction s as [|c r IH]; simpl; [reflexivity|].
  destruct (JS.trimEnd r) as [|d r'] eqn:Hend.
  - destruct (JS.isWhiteSpace c) eqn:Hc; simpl; [reflexivity | exact Hc].
  - exact IH.
Qed.

Lemma trimEnd_keeps_start s :
  startsWithWhiteSpace s = false -> startsWithWhiteSpace (JS.trimEnd s) = false.
Proof.
  destruct s as [|c r]; simpl; [reflexivity|]. intros Hc.
  destruct (JS.trimEnd r); [rewrite Hc|]; simpl; auto.
Qed.

Lemma trim_tight s :
  startsWithWhiteSpace (JS.trim s) = false /\ endsWithWhiteSpace (JS.trim s) = false.
Proof.
  unfold JS.trim. split; [apply trimEnd_keeps_start, trimStart_tight | apply trimEnd_tight].
Qed.

(** *** Reading the log of an attempt *)

Lemma openedTargets_app a b : openedTargets (a ++ b) = openedTargets a ++ openedTargets b.
Proof.
  induction a as [|x a IH]; simpl; [reflexivity|].
  destruct x; simpl; rewrite IH; reflexivity.
Qed.

Lemma openedTargets_recv frames : openedTargets (map ActRecv frames) = [].
Proof. induction frames; simpl; auto. Qed.

Lemma configsSent_app a b : configsSent (a ++ b) = configsSent a ++ configsSent b.
Proof.
  induction a as [|x a IH]; simpl; [reflexivity|].
  destruct x as [| |[|]| | |]; simpl; rewrite IH; reflexivity.
Qed.

Lemma configsSent_recv frames : configsSent (map ActRecv frames) = [].
Proof. induction frames; simpl; auto. Qed.

Lemma streamFramesFrom_recv_false frames rest :
  streamFramesFrom false (map ActRecv frames ++ rest) = streamFramesFrom false rest.
Proof. induction frames; simpl; auto. Qed.

Lemma streamFramesFrom_recv_true frames rest :
  streamFramesFrom true (map ActRecv frames ++ rest) = frames ++ streamFramesFrom true rest.
Proof. induction frames as [|m r IH]; simpl; [reflexivity | now rewrite IH]. Qed.

Section Retry.
Variable network : string -> nat -> ServerScript.
Variable randomUUID : nat -> string.
Variable numberToString : Q -> string.

Lemma handleFrame_no_trigger generation vars message vars' :
  handleFrame numberToString generation false vars message = Continue vars' ->
  triggersRetry message = false.
Proof.
  unfold handleFrame, triggersRetry.
  destruct (hasType message "start"); simpl; [|reflexivity].
  destruct (readNumber message "tokens_in") as [tin|];
    destruct (readNumber message "max_tokens") as [mt|]; try reflexivity.
  unfold budgetTooSmall. simpl. destruct (positive tin && Qle_bool mt tin)%bool; [|reflexivity].
  destruct (max_new_tokens generation) as [[d| |]|]; try discriminate.
      destruct (positive d); discriminate.
Qed.

Lemma foldFrames_no_trigger generation frames : forall vars vars',
  foldFrames numberToString generation false vars frames = Continue vars' ->
  noTrigger frames.
Proof.
  induction frames as [|m rest IH]; intros vars vars'; simpl; [constructor|].
  destruct (handleFrame numberToString generation false vars m) as [v|] eqn:Hm; [|discriminate].
  intros Hrest. constructor; [eapply handleFrame_no_trigger; eassumption | eapply IH; eassumption].
Qed.

(** The stream loop threw on a frame while no retry had been made: the
    frame asked for no retry, or the configured budget could not be used. *)
Lemma handleFrame_throw generation vars message err :
  handleFrame numberToString generation false vars message = Break (StreamThrow err) ->
  triggersRetry message = false
  \/ exists tin mt,
       hasType message "start" = true
       /\ readNumber message "tokens_in" = Some tin
       /\ readNumber message "max_tokens" = Some mt
       /\ positive tin = true /\ Qle_bool mt tin = true
       /\ (forall desired,
             max_new_tokens generation = Some (JS.Num desired) -> positive desired = false)
       /\ err = tokenBudgetError numberToString tin mt.
Proof.
  unfold handleFrame, triggersRetry.
  destruct (hasType message "start"); simpl; [|auto].
  destruct (readNumber message "tokens_in") as [tin|];
    destruct (readNumber message "max_tokens") as [mt|]; try discriminate.
  unfold budgetTooSmall. simpl.
  destruct (positive tin && Qle_bool mt tin)%bool eqn:Hguard; [|discriminate].
  apply andb_prop in Hguard as [Htin Hle].
  destruct (max_new_tokens generation) as [[d| |]|].
  - destruct (positive d) eqn:Hd; [discriminate|].
    intros [= <-]. right. exists tin, mt. repeat split; auto. intros ? [= <-]. exact Hd.
  - intros [= <-]. right. exists tin, mt. repeat split; auto. discriminate.
  - intros [= <-]. right. exists tin, mt. repeat split; auto. discriminate.
  - intros [= <-]. right. exists tin, mt. repeat split; auto. discriminate.
Qed.

Lemma streamLog_facts params generation pre frames rest :
  openedTargets (streamLog params generation pre frames rest) = openedTargets rest
  /\ configsSent (streamLog params generation pre frames rest)
     = generation :: configsSent rest
  /\ streamFrames (streamLog params generation pre frames rest)
     = frames ++ streamFramesFrom true rest.
Proof.
  unfold streamLog, streamFrames, helloPayload, inferenceRequest. simpl.
  rewrite openedTargets_app, openedTargets_recv. simpl.
  rewrite openedTargets_app, openedTargets_recv.
  rewrite configsSent_app, configsSent_recv. simpl.
  rewrite configsSent_app, configsSent_recv.
  rewrite streamFramesFrom_recv_false. simpl.
  rewrite streamFramesFrom_recv_true. auto.
Qed.

Lemma welcomeLog_facts params pre :
  openedTargets (welcomeLog params pre) = []
  /\ configsSent (welcomeLog params pre) = []
  /\ streamFrames (welcomeLog params pre) = [].
Proof.
  unfold welcomeLog, streamFrames, helloPayload. simpl.
  rewrite openedTargets_app, openedTargets_recv.
  rewrite configsSent_app, configsSent_recv.
  rewrite streamFramesFrom_recv_false. auto.
Qed.

Lemma streamLog_snoc params generation pre init last tail :
  streamLog params generation pre (init ++ [last]) tail
  = streamLog params generation pre init [] ++ ActRecv last :: tail.
Proof.
  unfold streamLog. rewrite map_app. simpl.
  rewrite <- !app_assoc. simpl. rewrite <- !app_assoc. reflexivity.
Qed.

Lemma openLlmwsSocket_log target connectTimeoutMs st r st1 :
  openLlmwsSocket network target connectTimeoutMs st = (r, st1) ->
  match r with
  | None => log st1 = log st ++ [ActOpen target]
  | Some _ => log st1 = log st ++ [ActOpen target]
              \/ log st1 = log st ++ [ActOpen target; ActTerminate]
  end.
Proof.
  unfold openLlmwsSocket. destruct (connect _); intros [= <- <-]; simpl; auto.
Qed.

(** One iteration of the attempt loop: it is the last one, or it ends on a
    retry and the loop goes on with the adjusted budget. *)
Lemma attemptLoop_iteration attemptsLeft params generation retried st outcome st' :
  attemptLoop network randomUUID numberToString (S attemptsLeft) params generation retried st
  = Some (outcome, st') ->
  (exists body,
      log st' = log st ++ ActOpen (target params) :: body
      /\ openedTargets body = []
      /\ (forall config, In config (configsSent body) -> config = generation)
      /\ (retried = false -> noRetryDue numberToString generation outcome (streamFrames body)))
  \/ (retried = false
      /\ exists body1 last tin mt desired st3,
           log st3 = log st ++ ActOpen (target params) :: body1 ++ [ActRecv last; ActClose]
           /\ openedTargets body1 = []
           /\ configsSent body1 = [generation]
           /\ noTrigger (streamFrames body1)
           /\ hasType last "start" = true
           /\ readNumber last "tokens_in" = Some tin
           /\ readNumber last "max_tokens" = Some mt
           /\ positive tin = true /\ Qle_bool mt tin = true
           /\ max_new_tokens generation = Some (JS.Num desired) /\ positive desired = true
           /\ attemptLoop network randomUUID numberToString attemptsLeft params
                (withMaxNewTokens generation (adjustedBudget tin desired)) true st3
              = Some (outcome, st')).
Proof.
  simpl.
  destruct (openLlmwsSocket network (target params) (connectTimeoutMs params) st)
    as [[err|] st1] eqn:Hopen; apply openLlmwsSocket_log in Hopen.
  - intros [= <- <-]. left.
    destruct Hopen as [-> | ->]; eexists; (split; [reflexivity|]);
      simpl; repeat split; try (intros ? []); intros _; left; constructor.
  - destruct (connectionBody _ _ _ _ _ _) as [[exit st2]|] eqn:Hc; [|discriminate].
    apply connectionBody_spec in Hc.
    destruct Hc as (pre & [(err & sent & -> & Hlog & Hsent)
                          | (frames & sexit & sid & -> & Hends & Hlog)]).
    + intros [= <- <-]. left. exists (sent ++ [ActClose]).
      assert (Hfacts : openedTargets (sent ++ [ActClose]) = []
                       /\ configsSent (sent ++ [ActClose]) = []
                       /\ streamFrames (sent ++ [ActClose]) = []).
      { destruct Hsent as [-> | ->];
          [repeat split; reflexivity | exact (welcomeLog_facts params pre)]. }
      destruct Hfacts as (Ho & Hcfg & Hs).
      rewrite Ho, Hcfg, Hs. split.
      * simpl. rewrite Hlog, Hopen.
        rewrite <- !app_assoc. simpl. reflexivity.
      * repeat split; try (intros ? []). intros _. left. constructor.
    + assert (Hbody : forall tail,
                 log st2 ++ tail
                 = log st ++ ActOpen (target params)
                     :: streamLog params generation pre frames tail).
      { intros tail. rewrite Hlog, Hopen. unfold streamLog.
        rewrite <- !app_assoc. simpl. rewrite <- ?app_assoc.
        simpl. rewrite <- ?app_assoc. reflexivity. }
      destruct (streamLog_facts params generation pre frames [ActClose]) as (Ho & Hcfg & Hs).
      assert (Hone : forall out,
                 (retried = false -> noRetryDue numberToString generation out frames) ->
                 exists body,
                   log (closeSocket st2) = log st ++ ActOpen (target params) :: body
                   /\ openedTargets body = []
                   /\ (forall config, In config (configsSent body) -> config = generation)
                   /\ (retried = false -> noRetryDue numberToString generation out (streamFrames body))).
      { intros out Hno. exists (streamLog params generation pre frames [ActClose]).
        rewrite Ho, Hcfg, Hs.
        change (log (closeSocket st2)) with (log st2 ++ [ActClose]).
        rewrite (Hbody [ActClose]). simpl. rewrite app_nil_r.
        repeat split; [intros ? [<- | []]; reflexivity | exact Hno]. }
      destruct Hends as [(v & err & Hf & ->) | (init & last & v & -> & Hf & Hh)].
      * simpl. intros [= <- <-]. left. apply Hone.
        intros ->. left. eapply foldFrames_no_trigger. eassumption.
      * destruct sexit as [err | final | adjusted]; simpl.
        -- intros [= <- <-]. left. apply Hone.
           intros ->. apply foldFrames_no_trigger in Hf. apply handleFrame_throw in Hh.
           destruct Hh as [Hno | (tin & mt & H1 & H2 & H3 & H4 & H5 & H6 & ->)].
           ++ left. apply Forall_app. split; [assumption | repeat constructor; assumption].
           ++ right. exists init, last, tin, mt. auto 10.
        -- intros [= <- <-]. left. apply Hone.
           intros ->. apply foldFrames_no_trigger in Hf. apply handleFrame_done in Hh.
           destruct Hh as (_ & _ & _ & _ & Hstart & _).
           left. apply Forall_app. split; [assumption|]. repeat constructor.
           unfold triggersRetry. rewrite Hstart. reflexivity.
        -- intros Hrest. right. apply handleFrame_retry in Hh.
           destruct Hh as (-> & tin & mt & d & H1 & H2 & H3 & H4 & H5 & H6 & H7 & ->).
           split; [reflexivity|].
           exists (streamLog params generation pre init []), last, tin, mt, d, (closeSocket st2).
           destruct (streamLog_facts params generation pre init []) as (Ho' & Hcfg' & Hs').
           rewrite Ho', Hcfg', Hs'.
           change (log (closeSocket st2)) with (log st2 ++ [ActClose]).
           rewrite (Hbody [ActClose]), streamLog_snoc. simpl. rewrite !app_nil_r.
           repeat split; auto. eapply foldFrames_no_trigger. eassumption.
Qed.

End Retry.

(** *** The arithmetic of the retry and of the usage *)

Lemma positive_integer q z : positive q = true -> (q == inject_Z z)%Q -> (0 < z)%Z.
Proof.
  unfold positive. intros Hpos Hq.
  destruct (Z.lt_ge_cases 0 z) as [H | H]; [exact H|]. exfalso.
  rewrite Zle_Qle in H. rewrite <- Hq in H. apply Qle_bool_iff in H.
  change (inject_Z 0) with 0%Q in H. rewrite H in Hpos. discriminate.
Qed.

(** Whole numbers within [2 ** 53] give the exact budget. *)
Lemma adjustedBudget_integers tin desired t d :
  positive tin = true -> positive desired = true ->
  (tin == inject_Z t)%Q -> (desired == inject_Z d)%Q -> (2 * t + d <= 2 ^ 53)%Z ->
  adjustedBudget tin desired = JS.Num (inject_Z (2 * t + d)).
Proof.
  intros Htin Hdesired Ht Hd Hsum.
  pose proof (positive_integer _ _ Htin Ht) as Htpos.
  pose proof (positive_integer _ _ Hdesired Hd) as Hdpos.
  unfold adjustedBudget.
  rewrite (NumberFacts.multiply_integers tin 2 t 2 Ht (Qeq_refl _)) by lia.
  cbn [JS.plus].
  rewrite (NumberFacts.add_integers _ desired (t * 2) d (Qeq_refl _) Hd) by lia.
  rewrite NumberFacts.floor_integer. do 2 f_equal. lia.
Qed.

(** Whole numbers whose sum is within [2 ** 53] give the exact total. *)
Lemma tokenSum_integers inputTokens outputTokens i o :
  (orZero inputTokens == inject_Z i)%Q -> (orZero outputTokens == inject_Z o)%Q ->
  (Z.abs (i + o) <= 2 ^ 53)%Z ->
  tokenSum inputTokens outputTokens = JS.Num (inject_Z (i + o)).
Proof. intros Hi Ho Hsum. apply NumberFacts.add_integers; assumption. Qed.

(** *** The claims about one attempt *)

Section Claims.
Variable network : string -> nat -> ServerScript.
Variable randomUUID : nat -> string.
Variable numberToString : Q -> string.

(** C1 (as amended).  An attempt opens one socket or two, always on its
    own target.  It opens a second one exactly when, no retry having been
    made, the stream loop is given a [start] frame with numeric
    [tokens_in > 0] and [max_tokens <= tokens_in] while the configured
    [max_new_tokens] is a positive finite number: that frame is the last
    thing read from the first socket, the socket is closed, and every
    inference request on the second socket carries
    [max_new_tokens = floor (2 * tokens_in + max_new_tokens)], computed in
    binary64 arithmetic: the exact value when the two are whole numbers
    and it is at most [2 ** 53], the nearest binary64 numbers otherwise.
    When the budget is absent, not finite or not positive the attempt
    fails with the budget diagnostic instead.  Frames read from the second
    socket never cause a third one. *)
Theorem budget_retry_single_shot params st outcome st' :
  runLlmwsAttempt network randomUUID numberToString params st = Some (outcome, st') ->
  retriesAtMostOnce numberToString params st outcome st'.
Proof.
  unfold retriesAtMostOnce.
  unfold runLlmwsAttempt. intros Hrun.
  apply attemptLoop_iteration in Hrun.
  destruct Hrun as [(body & Hlog & Ho & Hcfg & Hno)
                   | (_ & body1 & last & tin & mt & d & st3 & Hlog3 & Ho1 & Hcfg1 & Hno1
                      & H1 & H2 & H3 & H4 & H5 & H6 & H7 & Hrest)].
  - left. exists body. auto.
  - right. apply attemptLoop_iteration in Hrest.
    destruct Hrest as [(body2 & Hlog & Ho2 & Hcfg2 & _) | (Hfalse & _)]; [|discriminate].
    exists body1, last, tin, mt, d, body2.
    rewrite Hlog, Hlog3. rewrite <- !app_assoc. simpl. rewrite <- !app_assoc. simpl.
    repeat (split; [solve [auto]|]).
    intros t budget Ht Hbudget Hsum.
    apply adjustedBudget_integers; assumption.
Qed.

(** C2.  The text of a successful attempt is the concatenation, in arrival
    order, of the string payloads of the token frames read after the
    inference request on the socket that completed, with only the white
    space at its two ends removed. *)
Theorem attempt_text_is_token_concatenation params st result st' :
  runLlmwsAttempt network randomUUID numberToString params st = Some (inr result, st') ->
  returnsTrimmedTokenText params st' result.
Proof.
  unfold returnsTrimmedTokenText.
  unfold runLlmwsAttempt. intros Hrun. apply attemptLoop_return in Hrun.
  destruct Hrun as (before & config & flag & frames & last & vars & final & sid
                    & Hlog & Hfold & Hdone & ->).
  apply foldFrames_continue in Hfold. destruct Hfold as (Hs & _ & _).
  apply handleFrame_done in Hdone. destruct Hdone as (_ & Hs' & _ & _ & _ & Htok).
  exists before, config, (frames ++ [last]).
  assert (Htext : tokenText (frames ++ [last]) = streamed final).
  { rewrite tokenText_app. simpl. unfold tokenChunk. rewrite Htok.
    rewrite !append_empty_r. rewrite Hs', Hs. reflexivity. }
  simpl. rewrite Htext. repeat split; [exact Hlog|].
  destruct (trim_spec (streamed final)) as (lead & trail & Heq & Hl & Ht).
  destruct (trim_tight (streamed final)) as [Hst Hen].
  exists lead, trail. auto.
Qed.

(** C10.  A successful attempt read, after its inference request, some
    frames and then a [done] frame.  With [tokensIn] the numeric
    [tokens_in] of the (last) [start] frame among them and [totalTokens]
    the numeric [total_tokens] of the [done] frame, the usage object is
    present exactly when one of the two is, its [input] is [tokensIn], its
    [output] is [totalTokens], and its [total] is their sum (an absent one
    counting as 0) when that sum is positive and is absent otherwise.  The
    sum is the binary64 one: it is the exact sum when the two counts are
    whole numbers and it is within [2 ** 53], and the binary64 number
    nearest to it otherwise. *)
Theorem attempt_usage_from_start_and_done params st result st' :
  runLlmwsAttempt network randomUUID numberToString params st = Some (inr result, st') ->
  reportsUsage params st' result.
Proof.
  unfold reportsUsage.
  unfold runLlmwsAttempt. intros Hrun. apply attemptLoop_return in Hrun.
  destruct Hrun as (before & config & flag & frames & last & vars & final & sid
                    & Hlog & Hfold & Hdone & ->).
  apply foldFrames_continue in Hfold. destruct Hfold as (_ & Hi & Ho).
  apply handleFrame_done in Hdone. destruct Hdone as (Htype & _ & Hi' & Ho' & _ & _).
  exists before, config, frames, last. simpl in *.
  assert (Hout : outputTokens final = readNumber last "total_tokens").
  { rewrite Ho', Ho. destruct (readNumber last "total_tokens"); reflexivity. }
  rewrite Hi', Hi, Hout.
  split; [exact Hlog|]. split; [exact Htype|]. clear.
  unfold buildUsage. fold (tokenSum (lastTokensIn None frames) (readNumber last "total_tokens")).
  split.
  - destruct (lastTokensIn None frames) as [tin|];
      destruct (readNumber last "total_tokens") as [tout|]; cbn [isSome orb];
      split; try discriminate; try tauto; intros [? ?]; discriminate.
  - intros u Hu.
    assert (Hfields : input u = lastTokensIn None frames
                      /\ output u = readNumber last "total_tokens"
                      /\ total u
                         = (if JS.greaterThanZero
                                 (tokenSum (lastTokensIn None frames)
                                    (readNumber last "total_tokens"))
                            then Some (tokenSum (lastTokensIn None frames)
                                         (readNumber last "total_tokens"))
                            else None)).
    { destruct (isSome (lastTokensIn None frames)
                || isSome (readNumber last "total_tokens"))%bool; [|discriminate].
      injection Hu as <-. auto. }
    destruct Hfields as (Hin & Hout & Htotal).
    repeat (split; [assumption|]).
    intros tokensIn totalTokens Hi Ho Hsum.
    rewrite Htotal, (tokenSum_integers _ _ _ _ Hi Ho Hsum),
      NumberFacts.greaterThanZero_integer.
    reflexivity.
Qed.

(** *** The deadlines of the reads *)

Lemma welcomeLoop_reads welcomeDeadline fuel : forall st exit st',
  loop (welcomeBody welcomeDeadline) fuel st = Some (exit, st') ->
  exists skipped st2,
    Reads (fun s => welcomeDeadline - now s)%Z st skipped st2
    /\ Forall (fun m => hasType m "welcome" = false) skipped
    /\ (skipped <> [] -> (now st2 < welcomeDeadline)%Z)
    /\ match exit with
       | WelcomeThrow err =>
           givesUp (fun s => welcomeDeadline - now s)%Z "LLMWS welcome timeout" st2 err st'
       | Welcomed session_id =>
           exists welcome,
             (0 < welcomeDeadline - now st2)%Z
             /\ nextMessage st2 (welcomeDeadline - now st2) = (inr welcome, st')
             /\ hasType welcome "welcome" = true
             /\ session_id = readString welcome "session_id"
             /\ (now st' < welcomeDeadline)%Z
       end.
Proof.
  induction fuel as [|fuel IH]; intros st exit st'; simpl; [discriminate|].
  unfold welcomeBody at 1. destruct (welcomeDeadline - now st <=? 0)%Z eqn:Hrem.
  - apply Z.leb_le in Hrem. intros [= <- <-]. exists [], st.
    split; [constructor|]. split; [constructor|]. split; [congruence|].
    left. auto.
  - apply Z.leb_gt in Hrem.
    destruct (nextMessage st (welcomeDeadline - now st)) as [[err|message] st1] eqn:Hn.
    + intros [= <- <-]. exists [], st.
      split; [constructor|]. split; [constructor|]. split; [congruence|].
      right. auto.
    + pose proof (nextMessage_spec _ _ _ _ Hn) as (_ & _ & Hm). destruct Hm as [_ Hlt].
      rewrite Z.max_r in Hlt by lia.
      destruct (hasType message "welcome") eqn:Hw.
      * intros [= <- <-]. exists [], st.
        split; [constructor|]. split; [constructor|]. split; [congruence|].
        exists message. repeat split; auto. lia.
      * intros Hrest. apply IH in Hrest.
        destruct Hrest as (skipped & st2 & Hreads & Hskip & Hnow & Hexit).
        exists (message :: skipped), st2.
        split; [econstructor; eassumption|]. split; [constructor; assumption|].
        split; [|exact Hexit].
        intros _. destruct skipped as [|m rest]; [|apply Hnow; discriminate].
        inversion Hreads; subst. lia.
Qed.

Lemma streamLoop_reads readTimeoutMs generation retried fuel : forall st vars exit st',
  loop (streamBody numberToString readTimeoutMs generation retried) fuel
       (st, (now st + readTimeoutMs)%Z, vars) = Some (exit, st') ->
  exists frames st5,
    Reads (fun _ => readTimeoutMs) st frames st5
    /\ ((exists err,
           exit = StreamThrow err
           /\ givesUp (fun _ => readTimeoutMs) "LLMWS stream timeout" st5 err st')
        \/ exists last,
             (0 < readTimeoutMs)%Z /\ nextMessage st5 readTimeoutMs = (inr last, st')).
Proof.
  induction fuel as [|fuel IH]; intros st vars exit st'; simpl; [discriminate|].
  replace (now st + readTimeoutMs - now st)%Z with readTimeoutMs by lia.
  destruct (readTimeoutMs <=? 0)%Z eqn:Hrem.
  - apply Z.leb_le in Hrem. intros [= <- <-]. exists [], st.
    split; [constructor|]. left. eexists. split; [reflexivity|]. left. auto.
  - apply Z.leb_gt in Hrem.
    destruct (nextMessage st readTimeoutMs) as [[err|message] st1] eqn:Hn.
    + intros [= <- <-]. exists [], st.
      split; [constructor|]. left. eexists. split; [reflexivity|]. right. auto.
    + destruct (handleFrame numberToString generation retried vars message)
        as [vars1|exit1].
      * intros Hrest. apply IH in Hrest. destruct Hrest as (frames & st5 & Hreads & Hend).
        exists (message :: frames), st5. split; [|exact Hend].
        econstructor; eassumption.
      * intros [= <- <-]. exists [], st. split; [constructor|]. right. eauto.
Qed.

(** C3 (as amended).  On one connection the hello is sent when the
    socket has opened; a socket that does not take it ends the connection
    with the error of the send.  The welcome is waited for until a full
    [readTimeoutMs] after the hello was sent: every read before the
    welcome is given only what is left up to that one deadline, whatever
    was read and skipped before, the wait never goes beyond it, and a
    welcome is accepted only at a time before it.  After the welcome the
    request is sent and the stream is read: there every read is given a
    full [readTimeoutMs], counted from the receipt of the message before
    it, and from the moment the request was sent for the first one. *)
Theorem read_deadline_resets_in_stream_only params generation retried st exit st' :
  connectionBody randomUUID numberToString params generation retried st = Some (exit, st') ->
  keepsReadDeadlines params generation st exit st'.
Proof.
  unfold keepsReadDeadlines, connectionBody. cbv zeta.
  destruct (sendJson st (helloPayload (resumeSessionId params))) as [[sendErr|] st1];
    [intros [= <- <-]; left; exists sendErr; auto|].
  destruct (loop (welcomeBody _) _ st1) as [[w st2']|] eqn:Hw; [|discriminate].
  apply welcomeLoop_reads in Hw.
  destruct Hw as (skipped & st2 & Hreads & Hskip & Hnow & Hexit).
  intros Hbody. right. exists st1, skipped, st2.
  split; [reflexivity|]. split; [exact Hreads|]. split; [exact Hskip|].
  destruct w as [err | session_id].
  - injection Hbody as <- <-. left. exists err. split; [reflexivity|]. split; [exact Hexit|].
    destruct Hexit as [(Hle & _ & ->) | (Hpos & Hn)].
    + destruct skipped as [|m rest].
      * inversion Hreads; subst. lia.
      * specialize (Hnow ltac:(discriminate)). lia.
    + apply nextMessage_spec in Hn. destruct Hn as (_ & Ht & _).
      rewrite Z.max_r in Ht by lia. lia.
  - destruct Hexit as (welcome & Hpos & Hn & Hwelcome & _ & Hlt).
    right.
    match type of Hbody with
    | context [let '(a, b) := ?x in _] => destruct x as [sid named] eqn:Hsid
    end.
    assert (Hnamed : sameSocket named st2').
    { unfold sameSocket. destruct session_id; injection Hsid as _ <-; simpl; auto 6. }
    exists welcome, st2', named.
    repeat (split; [first [assumption | lia | reflexivity]|]).
    destruct (sendJson named _) as [[sendErr|] st4];
      [injection Hbody as <- <-; left; exists sendErr; auto|].
    right.
    assert (Hloop : exists sexit,
               loop (streamBody numberToString (readTimeoutMs params) generation retried)
                 (S (Socket.weight st4)) (st4, (now st4 + readTimeoutMs params)%Z,
                                          mkVars None None "") = Some (sexit, st')).
    { destruct (loop (streamBody _ _ _ _) _ _) as [[sexit st5']|]; [|discriminate].
      exists sexit. destruct sexit; injection Hbody as _ <-; reflexivity. }
    destruct Hloop as (sexit & Hloop).
    pose proof (streamLoop_reads _ _ _ _ _ _ _ _ Hloop) as (frames & st5 & Hstream & Hend).
    exists st4, frames, st5. split; [reflexivity|]. split; [exact Hstream|].
    destruct Hend as [(err & -> & Hgives) | Hlast]; [|right; exact Hlast].
    left. exists err. split; [|exact Hgives].
    rewrite Hloop in Hbody. injection Hbody as <-. reflexivity.
Qed.

End Claims.

End AttemptFacts.

(** ** The order of the targets *)

Module ResolverFacts.
Import Resolver ResolverSpec.

Section StableSort.
Variable A : Type.
Variable compare : A -> A -> Z.
Variable key : A -> nat.
(** The comparator orders by descending key. *)
Hypothesis compare_key : forall x y, (compare x y <=? 0)%Z = Nat.leb (key y) (key x).

Lemma insertSorted_perm x l : Permutation (insertSorted compare x l) (x :: l).
Proof.
  induction l as [|y rest IH]; simpl; [constructor; constructor|].
  destruct (compare x y <=? 0)%Z; [reflexivity|].
  rewrite IH. apply perm_swap.
Qed.

Lemma toSorted_perm l : Permutation (toSorted compare l) l.
Proof.
  induction l as [|x rest IH]; simpl; [constructor|].
  rewrite insertSorted_perm. constructor. exact IH.
Qed.

Lemma insertSorted_descending x l : descending key l -> descending key (insertSorted compare x l).
Proof.
  unfold descending. induction l as [|y rest IH]; simpl; intros Hs.
  - constructor; constructor.
  - inversion Hs as [|? ? Hrest Hall]; subst.
    rewrite compare_key. destruct (Nat.leb (key y) (key x)) eqn:Hle.
    + apply Nat.leb_le in Hle. constructor; [exact Hs|].
      constructor; [exact Hle|].
      eapply Forall_impl; [|exact Hall]. simpl. intros z Hz. lia.
    + apply Nat.leb_gt in Hle. constructor; [apply IH; exact Hrest|].
      eapply Permutation_Forall; [symmetry; apply insertSorted_perm|].
      constructor; [lia | exact Hall].
Qed.

Lemma toSorted_descending l : descending key (toSorted compare l).
Proof.
  induction l as [|x rest IH]; simpl; [constructor|].
  apply insertSorted_descending. exact IH.
Qed.

Lemma insertSorted_band k x l : band key k (insertSorted compare x l) = band key k (x :: l).
Proof.
  unfold band. induction l as [|y rest IH]; simpl; [reflexivity|].
  rewrite compare_key. destruct (Nat.leb (key y) (key x)) eqn:Hle; [reflexivity|].
  apply Nat.leb_gt in Hle. simpl. rewrite IH. simpl.
  destruct (Nat.eqb (key x) k) eqn:Hx, (Nat.eqb (key y) k) eqn:Hy; try reflexivity.
  apply Nat.eqb_eq in Hx, Hy. lia.
Qed.

(** Stability: within a score band the original order is kept. *)
Lemma toSorted_band k l : band key k (toSorted compare l) = band key k l.
Proof.
  induction l as [|x rest IH]; simpl; [reflexivity|].
  rewrite insertSorted_band. unfold band in *. simpl. rewrite IH. reflexivity.
Qed.

(** The only element of the top band comes first. *)
Lemma toSorted_head l top x :
  (forall y, In y l -> key y <= top) ->
  band key top l = [x] ->
  exists rest, toSorted compare l = x :: rest.
Proof.
  intros Hmax Hband.
  pose proof (toSorted_band top l) as Hb. rewrite Hband in Hb.
  pose proof (toSorted_descending l) as Hd.
  pose proof (toSorted_perm l) as Hp.
  destruct (toSorted compare l) as [|h rest] eqn:Hsorted.
  - discriminate.
  - inversion Hd as [|? ? _ Hall]; subst.
    assert (Hx : In x (h :: rest)).
    { assert (Hin : In x (band key top (h :: rest))) by (rewrite Hb; left; reflexivity).
      apply filter_In in Hin. tauto. }
    assert (Hkx : key x = top).
    { assert (Hin : In x (band key top (h :: rest))) by (rewrite Hb; left; reflexivity).
      apply filter_In in Hin. destruct Hin as [_ Hk]. apply Nat.eqb_eq in Hk. exact Hk. }
    assert (Hkh : key h = top).
    { assert (key h <= top)
        by (apply Hmax; eapply Permutation_in; [exact Hp | left; reflexivity]).
      destruct Hx as [-> | Hin]; [exact Hkx|].
      rewrite Forall_forall in Hall. specialize (Hall x Hin). lia. }
    unfold band in Hb. simpl in Hb. rewrite Hkh, Nat.eqb_refl in Hb.
    injection Hb as -> _. eauto.
Qed.

End StableSort.

Lemma matchCount_le preferredSet target :
  matchCount preferredSet target <= List.length preferredSet.
Proof. unfold matchCount. apply filter_length_le. Qed.

Lemma compareTargets_key preferredSet left right :
  (compareTargets preferredSet left right <=? 0)%Z
  = Nat.leb (matchCount preferredSet right) (matchCount preferredSet left).
Proof.
  unfold compareTargets.
  pose proof (matchCount_le preferredSet left) as Hl.
  pose proof (matchCount_le preferredSet right) as Hr.
  destruct (Nat.eqb (matchCount preferredSet left) (List.length preferredSet)) eqn:Hla,
           (Nat.eqb (matchCount preferredSet right) (List.length preferredSet)) eqn:Hra;
    simpl.
  - apply Nat.eqb_eq in Hla, Hra.
    rewrite Hla, Hra, Nat.eqb_refl. simpl. symmetry. apply Nat.leb_le. lia.
  - apply Nat.eqb_eq in Hla. apply Nat.eqb_neq in Hra. symmetry. apply Nat.leb_le. lia.
  - apply Nat.eqb_neq in Hla. apply Nat.eqb_eq in Hra. symmetry. apply Nat.leb_gt. lia.
  - destruct (Nat.eqb (matchCount preferredSet left) (matchCount preferredSet right)) eqn:He;
      simpl.
    + apply Nat.eqb_eq in He. rewrite He. symmetry. apply Nat.leb_le. lia.
    + destruct (Nat.leb _ _) eqn:Hle.
      * apply Nat.leb_le in Hle. apply Z.leb_le. lia.
      * apply Nat.leb_gt in Hle. apply Z.leb_gt. lia.
Qed.

End ResolverFacts.

(** ** The failover loop *)

Module AgentFacts.
Import Agent ResolverSpec AgentSpec.

Lemma visits_app us vs opened opened' :
  visits us opened -> visits vs opened' -> visits (us ++ vs) (opened ++ opened').
Proof.
  intros Hu Hv. induction Hu; simpl; [exact Hv | constructor 2 | constructor 3]; assumption.
Qed.

Section WithCollaborators.
Variable C : Collaborators.

Local Abbreviation attempt params target st :=
  (Attempt.runLlmwsAttempt (network C) (randomUUID C) (numberToString C)
     (attemptParams params (url target)) st).

Lemma attempt_opens_own_target params st outcome st' :
  Attempt.runLlmwsAttempt (network C) (randomUUID C) (numberToString C) params st
  = Some (outcome, st') ->
  exists delta,
    log st' = log st ++ delta
    /\ (openedTargets delta = [Attempt.target params]
        \/ openedTargets delta = [Attempt.target params; Attempt.target params]).
Proof.
  unfold Attempt.runLlmwsAttempt. intros Hrun.
  apply AttemptFacts.attemptLoop_iteration in Hrun.
  destruct Hrun as [(body & Hlog & Ho & _)
                   | (_ & body1 & last & tin & mt & d & st3 & Hlog3 & Ho1 & _ & _
                      & _ & _ & _ & _ & _ & _ & _ & Hrest)].
  - exists (ActOpen (Attempt.target params) :: body). split; [exact Hlog|].
    left. simpl. rewrite Ho. reflexivity.
  - apply AttemptFacts.attemptLoop_iteration in Hrest.
    destruct Hrest as [(body2 & Hlog & Ho2 & _) | (Hfalse & _)]; [|discriminate].
    exists (ActOpen (Attempt.target params) :: body1
              ++ [ActRecv last; ActClose] ++ ActOpen (Attempt.target params) :: body2).
    split.
    + rewrite Hlog, Hlog3. rewrite <- !app_assoc. simpl. rewrite <- !app_assoc. reflexivity.
    + right. simpl. rewrite AttemptFacts.openedTargets_app, Ho1. simpl. rewrite Ho2.
      reflexivity.
Qed.

Lemma Failures_log params st failed st' :
  Failures C params st failed st' ->
  exists delta,
    log st' = log st ++ delta
    /\ visits (map (fun te => url (fst te)) failed) (openedTargets delta).
Proof.
  induction 1 as [st | st target err st1 rest st2 Hrun _ IH].
  - exists []. rewrite app_nil_r. split; [reflexivity | constructor].
  - apply attempt_opens_own_target in Hrun. destruct Hrun as (d1 & Hl1 & Ho1).
    destruct IH as (d2 & Hl2 & Hv). exists (d1 ++ d2).
    rewrite Hl2, Hl1, <- app_assoc. split; [reflexivity|].
    rewrite AttemptFacts.openedTargets_app. simpl in *.
    destruct Ho1 as [-> | ->]; simpl; [constructor 2 | constructor 3]; exact Hv.
Qed.

(** What the loop over the targets returns. *)
Lemma tryTargets_spec params remaining : forall endpointErrors st result errors st',
  tryTargets C params remaining endpointErrors st = Some (result, errors, st') ->
  exists failed st1,
    Failures C params st failed st1
    /\ errors = endpointErrors ++ endpointErrorsOf failed
    /\ match result with
       | None => map fst failed = remaining /\ st' = st1
       | Some attemptResult =>
           exists target rest,
             remaining = map fst failed ++ target :: rest
             /\ attempt params target st1 = Some (inr attemptResult, st')
       end.
Proof.
  induction remaining as [|target rest IH]; intros endpointErrors st result errors st'; simpl.
  - intros [= <- <- <-]. exists [], st. rewrite app_nil_r.
    repeat split. constructor.
  - destruct (attempt params target st) as [[[err|attemptResult] st1]|] eqn:Hrun;
      [| |discriminate].
    + intros Hrest. apply IH in Hrest.
      destruct Hrest as (failed & st2 & Hf & -> & Hres).
      exists ((target, err) :: failed), st2. split; [econstructor; eassumption|].
      split; [unfold endpointErrorsOf; simpl; rewrite <- app_assoc; reflexivity|].
      destruct result as [attemptResult|].
      * destruct Hres as (t & rest' & -> & Hok). exists t, rest'. auto.
      * destruct Hres as [<- ->]. auto.
    + intros [= <- <- <-]. exists [], st. rewrite app_nil_r.
      split; [constructor|]. split; [reflexivity|]. exists target, rest. auto.
Qed.

Lemma tryTargets_ends params remaining : forall endpointErrors st,
  exists r, tryTargets C params remaining endpointErrors st = Some r.
Proof.
  induction remaining as [|target rest IH]; intros endpointErrors st; simpl; [eauto|].
  destruct (AttemptTermination.runLlmwsAttempt_ends (network C) (randomUUID C)
              (numberToString C) (attemptParams params (url target)) st)
    as [[[err|attemptResult] st1] ->]; eauto.
Qed.

(** The call always ends, with a result or with a classified failure. *)
Lemma runLlmwsAgent_ends params st disk :
  exists r, runLlmwsAgent C params st disk = Some r.
Proof.
  unfold runLlmwsAgent.
  destruct (tryTargets_ends params (targets (runtimeSettings params)) [] st)
    as [[[[attemptResult|] errors] st1] ->]; [|eauto].
  destruct (if JS.truthy _ then _ else _) as [st2 disk2]. eauto.
Qed.

Lemma trimStart_id s : AttemptSpec.startsWithWhiteSpace s = false -> JS.trimStart s = s.
Proof. destruct s as [|c r]; simpl; [reflexivity|]. intros ->. reflexivity. Qed.

Lemma trimEnd_id s : AttemptSpec.endsWithWhiteSpace s = false -> JS.trimEnd s = s.
Proof.
  induction s as [|c r IH]; simpl; [reflexivity|].
  destruct r as [|d r'].
  - simpl. intros ->. reflexivity.
  - intros Hr. rewrite (IH Hr). reflexivity.
Qed.

Lemma trim_truthy s :
  AttemptSpec.startsWithWhiteSpace s = false -> JS.truthy s = true ->
  JS.truthy (JS.trim s) = true.
Proof.
  intros Hs Ht. unfold JS.trim. rewrite (trimStart_id s Hs).
  destruct s as [|c r]; [discriminate|]. simpl in *.
  destruct (JS.trimEnd r); [rewrite Hs|]; reflexivity.
Qed.

Lemma endpointsFailedMessage_start errors :
  AttemptSpec.startsWithWhiteSpace (endpointsFailedMessage errors) = false
  /\ JS.truthy (endpointsFailedMessage errors) = true.
Proof. unfold endpointsFailedMessage. destruct (Nat.ltb _ _); split; reflexivity. Qed.

Lemma appendTranscriptMessages_log params st disk :
  log (snd (fst (appendTranscriptMessages C params st disk))) = log st.
Proof.
  unfold appendTranscriptMessages.
  destruct (lockError disk); [reflexivity|]. destruct (readError disk); [reflexivity|].
  destruct (appendError disk); reflexivity.
Qed.

(** C5 (as amended).  The call attempts the targets one after the other in
    list order, each attempt starting where the previous one ended; the
    sockets it opens visit exactly the targets tried, in order.  The first
    attempt that succeeds gives the result and no later target is tried.
    When every target fails the call raises one classified failure whose
    message is ["LLMWS endpoints failed: "] followed by the per-target
    errors [url: message] joined with [" | "], with the white space at the
    ends of the whole message trimmed: every detail is there verbatim
    unless the message ended in white space. *)
Theorem failover_tries_targets_in_order params st disk outcome st' disk' :
  runLlmwsAgent C params st disk = Some (outcome, st', disk') ->
  failsOver C params st disk outcome st' disk'.
Proof.
  unfold failsOver.
  unfold runLlmwsAgent.
  destruct (tryTargets C params _ [] st) as [[[result errors] st1]|] eqn:Htry; [|discriminate].
  apply tryTargets_spec in Htry. destruct Htry as (failed & st0 & Hf & -> & Hres).
  pose proof (Failures_log _ _ _ _ Hf) as (d1 & Hl1 & Hv1).
  destruct result as [attemptResult|].
  - destruct Hres as (target & rest & Htargets & Hok).
    pose proof (attempt_opens_own_target _ _ _ _ Hok) as (d2 & Hl2 & Ho2).
    assert (Hvisit : forall tail, openedTargets tail = [] ->
              visits (map url (map fst failed ++ [target]))
                     (openedTargets (d1 ++ d2 ++ tail))).
    { intros tail Htail. rewrite !AttemptFacts.openedTargets_app, Htail, app_nil_r.
      rewrite map_app, map_map. apply visits_app; [exact Hv1|]. simpl in *.
      destruct Ho2 as [-> | ->]; [apply visits_once | apply visits_twice]; apply visits_nil. }
    destruct (JS.truthy (stripReasoningTagsFromText C (text attemptResult))) eqn:Htruthy.
    + pose proof (appendTranscriptMessages_log
                    (mkTranscriptParams (callSessionId params) (workspaceDir params)
                       (prompt params) (stripReasoningTagsFromText C (text attemptResult)))
                    st1 disk) as Hlog.
      destruct (appendTranscriptMessages _ _ _ _) as [[[err|] st2] disk2]; simpl in Hlog;
        intros [= <- <- <-].
      * exists failed, st0, (d1 ++ d2 ++ [transcriptWarning err]).
        split; [exact Hf|]. split.
        { simpl. rewrite Hlog, Hl2, Hl1, <- !app_assoc. reflexivity. }
        exists target, rest, attemptResult, st1. simpl. rewrite ?Htruthy.
        repeat split; auto.
      * exists failed, st0, (d1 ++ d2 ++ []).
        split; [exact Hf|]. split.
        { rewrite Hlog, Hl2, Hl1, app_nil_r, <- !app_assoc. reflexivity. }
        exists target, rest, attemptResult, st1. simpl. rewrite ?Htruthy.
        repeat split; auto.
    + intros [= <- <- <-].
      exists failed, st0, (d1 ++ d2 ++ []).
      split; [exact Hf|]. split.
      { rewrite Hl2, Hl1, app_nil_r, <- !app_assoc. reflexivity. }
      exists target, rest, attemptResult, st1. simpl. rewrite ?Htruthy.
      repeat split; auto.
  - destruct Hres as [Hall ->]. intros [= <- <- <-].
    exists failed, st0, d1. split; [exact Hf|]. split; [exact Hl1|].
    destruct (endpointsFailedMessage_start (endpointErrorsOf failed)) as [Hstart Htruthy].
    simpl. unfold describeError. simpl. rewrite (trim_truthy _ Hstart Htruthy).
    repeat split; auto.
    + rewrite <- Hall, map_map. exact Hv1.
    + intros Hend. unfold JS.trim. rewrite (trimStart_id _ Hstart). apply trimEnd_id, Hend.
Qed.

(** *** Preferred capabilities and the first target tried *)

Lemma attempt_log_starts params st outcome st' :
  Attempt.runLlmwsAttempt (network C) (randomUUID C) (numberToString C) params st
  = Some (outcome, st') ->
  exists delta, log st' = log st ++ ActOpen (Attempt.target params) :: delta.
Proof.
  unfold Attempt.runLlmwsAttempt. intros Hrun.
  apply AttemptFacts.attemptLoop_iteration in Hrun.
  destruct Hrun as [(body & Hlog & _)
                   | (_ & body1 & last & tin & mt & d & st3 & Hlog3 & _ & _ & _
                      & _ & _ & _ & _ & _ & _ & _ & Hrest)].
  - eauto.
  - apply AttemptFacts.attemptLoop_iteration in Hrest.
    destruct Hrest as [(body2 & Hlog & _) | (Hfalse & _)]; [|discriminate].
    eexists. rewrite Hlog, Hlog3, <- app_assoc. simpl. reflexivity.
Qed.

Lemma tryTargets_log params remaining endpointErrors st result errors st' :
  tryTargets C params remaining endpointErrors st = Some (result, errors, st') ->
  exists delta, log st' = log st ++ delta.
Proof.
  intros Htry. apply tryTargets_spec in Htry.
  destruct Htry as (failed & st1 & Hf & _ & Hres).
  apply Failures_log in Hf. destruct Hf as (d1 & Hl1 & _).
  destruct result as [attemptResult|].
  - destruct Hres as (target & rest & _ & Hok).
    apply attempt_opens_own_target in Hok. destruct Hok as (d2 & Hl2 & _).
    exists (d1 ++ d2). rewrite Hl2, Hl1, app_assoc. reflexivity.
  - destruct Hres as [_ ->]. eauto.
Qed.

(** After the failover loop the call only adds a warning to the log, if
    anything. *)
Lemma runLlmwsAgent_log params st disk outcome st' disk' :
  runLlmwsAgent C params st disk = Some (outcome, st', disk') ->
  exists result errors st1 tail,
    tryTargets C params (targets (runtimeSettings params)) [] st = Some (result, errors, st1)
    /\ log st' = log st1 ++ tail /\ openedTargets tail = [].
Proof.
  unfold runLlmwsAgent.
  destruct (tryTargets C params _ [] st) as [[[result errors] st1]|] eqn:Htry; [|discriminate].
  destruct result as [attemptResult|].
  - destruct (JS.truthy _).
    + pose proof (appendTranscriptMessages_log
                    (mkTranscriptParams (callSessionId params) (workspaceDir params)
                       (prompt params) (stripReasoningTagsFromText C (text attemptResult)))
                    st1 disk) as Hlog.
      destruct (appendTranscriptMessages _ _ _ _) as [[[err|] st2] disk2]; simpl in Hlog;
        intros [= <- <- <-]; exists (Some attemptResult), errors, st1.
      * exists [transcriptWarning err]. simpl. rewrite Hlog. auto.
      * exists []. rewrite app_nil_r. auto.
    + intros [= <- <- <-]. exists (Some attemptResult), errors, st1, [].
      rewrite app_nil_r. auto.
  - intros [= <- <- <-]. exists None, errors, st1, []. rewrite app_nil_r. auto.
Qed.

Lemma sort_facts targets preferred :
  let preferredSet := Resolver.newSet (map Resolver.normalizeCapabilityTag preferred) in
  let sorted := Resolver.sortTargetsByCapabilities targets preferred in
  Permutation sorted targets
  /\ ResolverSpec.descending (Resolver.matchCount preferredSet) sorted
  /\ (forall k, scoreBand preferredSet k sorted = scoreBand preferredSet k targets).
Proof.
  intros preferredSet sorted. subst sorted. unfold Resolver.sortTargetsByCapabilities.
  destruct (Nat.eqb (List.length preferred) 0) eqn:Hp; simpl.
  - apply Nat.eqb_eq in Hp. destruct preferred; [|discriminate].
    repeat split; auto. unfold ResolverSpec.descending. subst preferredSet. simpl.
    induction targets as [|t rest IH]; constructor; [exact IH|].
    apply Forall_forall. intros x _. unfold Resolver.matchCount. simpl. lia.
  - destruct (Nat.leb (List.length targets) 1) eqn:Hl.
    + repeat split; auto. unfold ResolverSpec.descending.
      destruct targets as [|t [|u rest]]; [constructor | repeat constructor | discriminate].
    + fold preferredSet. repeat split.
      * apply (ResolverFacts.toSorted_perm LlmwsTarget).
      * apply (ResolverFacts.toSorted_descending LlmwsTarget).
        apply ResolverFacts.compareTargets_key.
      * intros k. apply (ResolverFacts.toSorted_band LlmwsTarget).
        apply ResolverFacts.compareTargets_key.
Qed.

Lemma sort_head targets preferred before only after :
  let preferredSet := Resolver.newSet (map Resolver.normalizeCapabilityTag preferred) in
  targets = before ++ only :: after ->
  Resolver.matchesAll preferredSet only = true ->
  (forall t, In t (before ++ after) -> Resolver.matchesAll preferredSet t = false) ->
  exists rest, Resolver.sortTargetsByCapabilities targets preferred = only :: rest.
Proof.
  intros preferredSet -> Honly Hothers.
  assert (Hband : ResolverSpec.band (Resolver.matchCount preferredSet)
                    (List.length preferredSet) (before ++ only :: after) = [only]).
  { unfold ResolverSpec.band. rewrite filter_app. simpl.
    unfold Resolver.matchesAll in Honly. rewrite Honly.
    assert (Hnone : forall l, (forall t, In t l -> Resolver.matchesAll preferredSet t = false) ->
              filter (fun x => Nat.eqb (Resolver.matchCount preferredSet x)
                                 (List.length preferredSet)) l = []).
    { induction l as [|t l IH]; simpl; intros Hl; [reflexivity|].
      pose proof (Hl t (or_introl eq_refl)) as Ht. unfold Resolver.matchesAll in Ht.
      rewrite Ht. apply IH. intros u Hu. apply Hl. right. exact Hu. }
    rewrite (Hnone before), (Hnone after); [reflexivity | |];
      intros t Ht; apply Hothers, in_or_app; auto. }
  unfold Resolver.sortTargetsByCapabilities.
  destruct (Nat.eqb (List.length preferred) 0) eqn:Hp; simpl.
  - apply Nat.eqb_eq in Hp. destruct preferred; [|discriminate].
    destruct before as [|b before'].
    + simpl. eauto.
    + specialize (Hothers b (or_introl eq_refl)). discriminate.
  - destruct (Nat.leb (List.length (before ++ only :: after)) 1) eqn:Hl.
    + destruct before as [|b before']; [simpl; eauto|].
      simpl in Hl. rewrite length_app in Hl. simpl in Hl.
      apply Nat.leb_le in Hl. lia.
    + fold preferredSet.
      apply (ResolverFacts.toSorted_head LlmwsTarget _ (Resolver.matchCount preferredSet)
               (ResolverFacts.compareTargets_key preferredSet) _ (List.length preferredSet)).
      * intros y _. apply ResolverFacts.matchCount_le.
      * exact Hband.
Qed.

(** C7.  The list given to the failover loop is the deduplicated list
    reordered by match score: it has the same targets; a target never
    comes after one with a lower score, where matching all preferred tags
    ranks first and then the number of tags matched; and the targets of
    equal score keep their original order.  So when one target only
    matches all the preferred tags it is first in the list, the call opens
    its first socket on it, and if the attempt on it succeeds no socket is
    ever opened on another target. *)
Theorem preferred_capabilities_order_targets
    (targets : list LlmwsTarget) (preferred : list string) :
  let preferredSet := Resolver.newSet (map Resolver.normalizeCapabilityTag preferred) in
  let sorted := Resolver.sortTargetsByCapabilities targets preferred in
  Permutation sorted targets
  /\ StronglySorted (precedes preferredSet) sorted
  /\ (forall k, scoreBand preferredSet k sorted = scoreBand preferredSet k targets)
  /\ (forall before only after,
        targets = before ++ only :: after ->
        Resolver.matchesAll preferredSet only = true ->
        (forall t, In t (before ++ after) -> Resolver.matchesAll preferredSet t = false) ->
        exists rest,
          sorted = only :: rest
          /\ forall params st disk outcome st' disk',
               Agent.targets (runtimeSettings params) = sorted ->
               runLlmwsAgent C params st disk = Some (outcome, st', disk') ->
               (exists delta, log st' = log st ++ ActOpen (url only) :: delta)
               /\ (forall attemptResult st2,
                     attempt params only st = Some (inr attemptResult, st2) ->
                     exists delta,
                       log st' = log st ++ delta
                       /\ forall u, In u (openedTargets delta) -> u = url only)).
Proof.
  intros preferredSet sorted.
  destruct (sort_facts targets preferred) as (Hperm & Hdesc & Hband).
  fold preferredSet sorted in Hperm, Hdesc, Hband.
  split; [exact Hperm|]. split.
  { unfold ResolverSpec.descending in Hdesc.
    eapply StronglySorted_ind with (P := StronglySorted (precedes preferredSet));
      [| |exact Hdesc].
    - constructor.
    - intros a l _ IH Hall. constructor; [exact IH|].
      eapply Forall_impl; [|exact Hall]. simpl. intros b Hb. split; [|exact Hb].
      unfold Resolver.matchesAll. intros Hfull. apply Nat.eqb_eq in Hfull.
      apply Nat.eqb_eq. pose proof (ResolverFacts.matchCount_le preferredSet a). lia. }
  split; [exact Hband|].
  intros before only after Htargets Honly Hothers.
  destruct (sort_head targets preferred before only after Htargets Honly Hothers)
    as (rest & Hsorted).
  fold sorted in Hsorted. exists rest. split; [exact Hsorted|].
  intros params st disk outcome st' disk' Hsettings Hrun.
  apply runLlmwsAgent_log in Hrun.
  destruct Hrun as (result & errors & st1 & tail & Htry & Hlog & Htail).
  rewrite Hsettings, Hsorted in Htry. simpl in Htry.
  destruct (attempt params only st) as [[[err|attemptResult] st2]|] eqn:Hfirst;
    [| |discriminate].
  - pose proof (attempt_log_starts _ _ _ _ Hfirst) as (d1 & Hl1).
    apply tryTargets_log in Htry. destruct Htry as (d2 & Hl2).
    split; [|discriminate].
    exists (d1 ++ d2 ++ tail). rewrite Hlog, Hl2, Hl1. simpl.
    rewrite <- !app_assoc. simpl. rewrite <- ?app_assoc. reflexivity.
  - injection Htry as <- <- <-.
    pose proof (attempt_log_starts _ _ _ _ Hfirst) as (d1 & Hl1).
    pose proof (attempt_opens_own_target _ _ _ _ Hfirst) as (d2 & Hl2 & Ho2).
    split.
    + exists (d1 ++ tail). rewrite Hlog, Hl1. simpl. rewrite <- ?app_assoc. reflexivity.
    + intros r st3 [= <- <-]. exists (d2 ++ tail). split.
      * rewrite Hlog, Hl2, <- app_assoc. reflexivity.
      * intros u. rewrite AttemptFacts.openedTargets_app, Htail, app_nil_r. simpl in Ho2.
        destruct Ho2 as [-> | ->]; simpl; intuition.
Qed.

(** *** The transcript lock *)

(** C6 (as amended).  When the lock on the transcript is not obtained,
    [appendTranscriptMessages] throws the lock error and leaves the file
    as it is.  The call does not fail for it: an attempt having succeeded
    with a reply that is not empty, the call returns that reply, adds a
    warning to the log and leaves the file untouched. *)
Theorem lock_failure_is_logged_not_raised params st disk lockErr
    attemptResult errors st1 :
  lockError disk = Some lockErr ->
  tryTargets C params (targets (runtimeSettings params)) [] st
  = Some (Some attemptResult, errors, st1) ->
  JS.truthy (stripReasoningTagsFromText C (text attemptResult)) = true ->
  (forall transcript st0,
      appendTranscriptMessages C transcript st0 disk = (Some lockErr, st0, disk))
  /\ exists r,
       runLlmwsAgent C params st disk
       = Some (inr r, logAction st1 (transcriptWarning lockErr), disk)
       /\ payloads r = Some [stripReasoningTagsFromText C (text attemptResult)].
Proof.
  intros Hlock Htry Htruthy.
  assert (Happend : forall transcript st0,
             appendTranscriptMessages C transcript st0 disk = (Some lockErr, st0, disk)).
  { intros transcript st0. unfold appendTranscriptMessages. rewrite Hlock. reflexivity. }
  split; [exact Happend|].
  unfold runLlmwsAgent. rewrite Htry, Htruthy, Happend. eexists. split; reflexivity.
Qed.

(** *** The prompt *)

(** After the failover loop the call sends nothing: it adds a warning to
    the log, if anything; and it returns a result only when an attempt
    gave one. *)
Lemma runLlmwsAgent_tail params st disk outcome st' disk' :
  runLlmwsAgent C params st disk = Some (outcome, st', disk') ->
  exists result errors st1 tail,
    tryTargets C params (targets (runtimeSettings params)) [] st = Some (result, errors, st1)
    /\ log st' = log st1 ++ tail
    /\ (tail = [] \/ exists err, tail = [transcriptWarning err])
    /\ (forall r, outcome = inr r -> result <> None).
Proof.
  unfold runLlmwsAgent.
  destruct (tryTargets C params _ [] st) as [[[result errors] st1]|] eqn:Htry; [|discriminate].
  destruct result as [attemptResult|].
  - destruct (JS.truthy _).
    + pose proof (appendTranscriptMessages_log
                    (mkTranscriptParams (callSessionId params) (workspaceDir params)
                       (prompt params) (stripReasoningTagsFromText C (text attemptResult)))
                    st1 disk) as Hlog.
      destruct (appendTranscriptMessages _ _ _ _) as [[[err|] st2] disk2]; simpl in Hlog;
        intros [= <- <- <-]; exists (Some attemptResult), errors, st1.
      * exists [transcriptWarning err]. simpl. rewrite Hlog.
        repeat split; [right; eauto | discriminate].
      * exists []. rewrite app_nil_r. repeat split; [exact Hlog | auto | discriminate].
    + intros [= <- <- <-]. exists (Some attemptResult), errors, st1, [].
      rewrite app_nil_r. repeat split; [auto | discriminate].
  - intros [= <- <- <-]. exists None, errors, st1, []. rewrite app_nil_r.
    repeat split; [auto | discriminate].
Qed.

Lemma promptBody_sections (historyContext memoryInjection : option string)
    (prompt : string) :
  promptBody historyContext memoryInjection prompt
  = sectionsThenRequest historyContext memoryInjection prompt.
Proof.
  unfold promptBody, promptParts, sectionsThenRequest, produced, sectionText, JS.truthy.
  destruct historyContext as [h|]; [destruct (String.eqb h "")|];
    (destruct memoryInjection as [m|]; [destruct (String.eqb m "")|]); simpl;
    rewrite ?AttemptFacts.append_assoc; reflexivity.
Qed.

Lemma userPromptsSent_app a b :
  userPromptsSent (a ++ b) = userPromptsSent a ++ userPromptsSent b.
Proof.
  induction a as [|x a IH]; simpl; [reflexivity|].
  destruct x as [| |[|]| | |]; simpl; rewrite IH; reflexivity.
Qed.

Lemma userPromptsSent_recv frames : userPromptsSent (map ActRecv frames) = [].
Proof. induction frames; simpl; auto. Qed.

(** The requests of one connection carry the prompt of the attempt, and
    a connection that returns a result has sent one. *)
Lemma connectionBody_prompts params generation retried st exit st' :
  Attempt.connectionBody (randomUUID C) (numberToString C) params generation retried st
  = Some (exit, st') ->
  exists delta,
    log st' = log st ++ delta
    /\ Forall (eq (Attempt.userPrompt params)) (userPromptsSent delta)
    /\ (forall result, exit = Attempt.ConnReturn result -> userPromptsSent delta <> []).
Proof.
  intros Hbody. apply AttemptFacts.connectionBody_spec in Hbody.
  destruct Hbody as (pre & [(err & sent & -> & Hlog & Hsent)
                           | (frames & sexit & sid & -> & _ & Hlog)]);
    eexists; (split; [exact Hlog|]).
  - assert (Hnone : userPromptsSent sent = []).
    { destruct Hsent as [-> | ->]; [reflexivity|].
      unfold Attempt.helloPayload. cbn [userPromptsSent]. apply userPromptsSent_recv. }
    rewrite Hnone. split; [constructor | discriminate].
  - unfold Attempt.helloPayload, AttemptSpec.inferenceRequest. cbn [userPromptsSent].
    rewrite ?userPromptsSent_app, ?userPromptsSent_recv; cbn [userPromptsSent app];
      rewrite ?userPromptsSent_recv.
    split; [repeat constructor | discriminate].
Qed.

Lemma attemptLoop_prompts attemptsLeft params : forall generation retried st outcome st',
  Attempt.attemptLoop (network C) (randomUUID C) (numberToString C) attemptsLeft params
    generation retried st = Some (outcome, st') ->
  exists delta,
    log st' = log st ++ delta
    /\ Forall (eq (Attempt.userPrompt params)) (userPromptsSent delta)
    /\ (forall result, outcome = inr result -> userPromptsSent delta <> []).
Proof.
  induction attemptsLeft as [|n IH]; intros generation retried st outcome st'; simpl.
  - intros [= <- <-]. exists []. rewrite app_nil_r.
    split; [reflexivity|]. split; [constructor | discriminate].
  - destruct (Attempt.openLlmwsSocket (network C) (Attempt.target params)
                (Attempt.connectTimeoutMs params) st) as [[err|] st1] eqn:Hopen;
      apply AttemptFacts.openLlmwsSocket_log in Hopen.
    + intros [= <- <-]. destruct Hopen as [Hlog | Hlog]; eexists;
        (split; [exact Hlog|]); (split; [constructor | discriminate]).
    + destruct (Attempt.connectionBody _ _ _ _ _ _) as [[exit st2]|] eqn:Hbody;
        [|discriminate].
      apply connectionBody_prompts in Hbody. destruct Hbody as (d & Hlog2 & Hall & Hsome).
      assert (Hclosed : log (Attempt.closeSocket st2)
                        = log st ++ ActOpen (Attempt.target params) :: d ++ [ActClose]).
      { simpl. rewrite Hlog2, Hopen, <- !app_assoc. reflexivity. }
      assert (Hsent : userPromptsSent (ActOpen (Attempt.target params) :: d ++ [ActClose])
                      = userPromptsSent d).
      { cbn [userPromptsSent]. rewrite userPromptsSent_app. simpl. apply app_nil_r. }
      destruct exit as [err | result | adjusted].
      * intros [= <- <-]. eexists. split; [exact Hclosed|]. rewrite Hsent.
        split; [exact Hall | discriminate].
      * intros [= <- <-]. eexists. split; [exact Hclosed|]. rewrite Hsent.
        split; [exact Hall|]. intros r _. apply (Hsome result). reflexivity.
      * intros Hrest. apply IH in Hrest. destruct Hrest as (d' & Hlog' & Hall' & Hsome').
        exists ((ActOpen (Attempt.target params) :: d ++ [ActClose]) ++ d').
        split; [rewrite Hlog', Hclosed, <- app_assoc; reflexivity|].
        rewrite userPromptsSent_app, Hsent. split.
        -- apply Forall_app. split; assumption.
        -- intros r Hr. specialize (Hsome' r Hr).
           destruct (userPromptsSent d'); [contradiction|].
           destruct (userPromptsSent d); discriminate.
Qed.

Lemma tryTargets_prompts params remaining : forall endpointErrors st result errors st',
  tryTargets C params remaining endpointErrors st = Some (result, errors, st') ->
  exists delta,
    log st' = log st ++ delta
    /\ Forall (eq (promptBody (historyContext params) (memoryInjection params)
                     (prompt params)))
         (userPromptsSent delta)
    /\ (result <> None -> userPromptsSent delta <> []).
Proof.
  induction remaining as [|target rest IH]; intros endpointErrors st result errors st'; simpl.
  - intros [= <- <- <-]. exists []. rewrite app_nil_r.
    split; [reflexivity|]. split; [constructor | congruence].
  - destruct (attempt params target st) as [[[err|attemptResult] st1]|] eqn:Hrun;
      [| |discriminate];
      apply attemptLoop_prompts in Hrun; destruct Hrun as (d & Hlog & Hall & Hsome).
    + intros Hrest. apply IH in Hrest. destruct Hrest as (d' & Hlog' & Hall' & Hsome').
      exists (d ++ d'). split; [rewrite Hlog', Hlog, <- app_assoc; reflexivity|].
      rewrite userPromptsSent_app. split; [apply Forall_app; split; assumption|].
      intros Hr. specialize (Hsome' Hr).
      destruct (userPromptsSent d'); [contradiction|].
      destruct (userPromptsSent d); discriminate.
    + intros [= <- <- <-]. exists d. split; [exact Hlog|]. split; [exact Hall|].
      intros _. apply (Hsome attemptResult). reflexivity.
Qed.

(** C8.  Every inference request the call sends, on whatever target and
    before or after a budget retry, carries as its user prompt the
    history block (if produced), then the memory block (if produced),
    then the marker [Current user request:] and, on the next line, the
    raw prompt, the parts being separated by an empty line; with no
    optional section it carries the raw prompt itself.  A call that
    returns a result has sent such a request. *)
Theorem prompt_sections_in_order params st disk outcome st' disk' :
  runLlmwsAgent C params st disk = Some (outcome, st', disk') ->
  exists delta,
    log st' = log st ++ delta
    /\ Forall (eq (sectionsThenRequest (historyContext params) (memoryInjection params)
                     (prompt params)))
         (userPromptsSent delta)
    /\ (forall result, outcome = inr result -> userPromptsSent delta <> []).
Proof.
  intros Hrun. apply runLlmwsAgent_tail in Hrun.
  destruct Hrun as (result & errors & st1 & tail & Htry & Hlog & Htail & Hresult).
  apply tryTargets_prompts in Htry. destruct Htry as (d & Hlog1 & Hall & Hsome).
  rewrite promptBody_sections in Hall.
  exists (d ++ tail). split; [rewrite Hlog, Hlog1, <- app_assoc; reflexivity|].
  assert (Hnone : userPromptsSent tail = [])
    by (destruct Htail as [-> | (err & ->)]; reflexivity).
  rewrite userPromptsSent_app, Hnone, app_nil_r. split; [exact Hall|].
  intros r Hr. apply Hsome. exact (Hresult r Hr).
Qed.

End WithCollaborators.

(** *** The transcript *)

Lemma splitLines_noLineBreak a : forall current,
  noLineBreak a = true -> splitLines current a = [(current ++ a)%string].
Proof.
  induction a as [|c r IH]; intros current; simpl.
  - intros _. rewrite AttemptFacts.append_empty_r. reflexivity.
  - unfold isLF, isCR. destruct (Ascii.eqb c (ascii_of_nat 10)); [discriminate|].
    destruct (Ascii.eqb c (ascii_of_nat 13)); [discriminate|]. simpl.
    intros Hr. rewrite (IH _ Hr), AttemptFacts.append_assoc. reflexivity.
Qed.

Lemma trimEnd_app_white t c :
  JS.isWhiteSpace c = true -> JS.trimEnd (t ++ String c "") = JS.trimEnd t.
Proof.
  intros Hc. induction t as [|d t IH]; simpl.
  - rewrite Hc. reflexivity.
  - rewrite IH. reflexivity.
Qed.

Lemma trim_app_white s c :
  JS.isWhiteSpace c = true -> JS.trim (s ++ String c "") = JS.trim s.
Proof.
  intros Hc. unfold JS.trim. induction s as [|d s IH]; simpl.
  - rewrite Hc. reflexivity.
  - destruct (JS.isWhiteSpace d); [exact IH|].
    change (String d (s ++ String c ""))%string with (String d s ++ String c "")%string.
    apply trimEnd_app_white. exact Hc.
Qed.

(** Splitting at a line feed, up to the trimming the scan does. *)
Lemma splitLines_app_LF n : forall x, String.length x <= n -> forall current y,
  map JS.trim (splitLines current (x ++ String (ascii_of_nat 10) y))
  = map JS.trim (splitLines current x) ++ map JS.trim (splitLines "" y).
Proof.
  induction n as [|n IH]; intros x Hlen current y.
  - destruct x; [|simpl in Hlen; lia]. reflexivity.
  - destruct x as [|c x]; [reflexivity|]. simpl in Hlen.
    cbn [append splitLines].
    destruct (Ascii.eqb c (ascii_of_nat 10)).
    + cbn [map app]. f_equal. apply IH. lia.
    + destruct (Ascii.eqb c (ascii_of_nat 13)) eqn:Hcr; cbn [andb].
      * destruct x as [|d x].
        -- cbn [append]. rewrite Ascii.eqb_refl. cbn [splitLines map app].
           f_equal. apply Ascii.eqb_eq in Hcr. subst c.
           rewrite trim_app_white; reflexivity.
        -- cbn [append]. destruct (Ascii.eqb d (ascii_of_nat 10)).
           ++ cbn [map app]. f_equal. apply IH. simpl in Hlen. lia.
           ++ change (String d (x ++ String (ascii_of_nat 10) y))%string
                with (String d x ++ String (ascii_of_nat 10) y)%string.
              apply IH. lia.
      * apply IH. lia.
Qed.

Lemma transcriptLines_app_LF x y :
  transcriptLines (x ++ JS.LF ++ y) = transcriptLines x ++ transcriptLines y.
Proof.
  unfold transcriptLines, JS.LF. simpl.
  rewrite (splitLines_app_LF (String.length x) x (le_n _)), filter_app. reflexivity.
Qed.

Lemma transcriptLines_empty : transcriptLines "" = [].
Proof. reflexivity. Qed.

Lemma transcriptLines_noLineBreak a :
  noLineBreak a = true -> JS.truthy (JS.trim a) = true -> transcriptLines a = [JS.trim a].
Proof.
  intros Ha Ht. unfold transcriptLines. rewrite (splitLines_noLineBreak a "" Ha). simpl.
  rewrite Ht. reflexivity.
Qed.

Lemma endsWithChar_split s c :
  JS.endsWithChar s c = true -> exists s', s = (s' ++ String c "")%string.
Proof.
  induction s as [|d s IH]; simpl; [discriminate|].
  destruct s as [|e s'].
  - intros H. apply Ascii.eqb_eq in H. subst d. exists ""%string. reflexivity.
  - intros H. destruct (IH H) as (s0 & Hs0). exists (String d s0). simpl. rewrite Hs0.
    reflexivity.
Qed.

Section Transcript.
Variable C : Collaborators.

Lemma lastOf_cons id ids :
  lastOf (id :: ids) = match lastOf ids with Some last => Some last | None => Some id end.
Proof.
  destruct ids as [|j ids]; [reflexivity|].
  change (lastOf (id :: j :: ids)) with (lastOf (j :: ids)).
  assert (H : lastOf (j :: ids) <> None).
  { clear. revert j. induction ids as [|k ids IH]; intros j; [discriminate|].
    change (lastOf (j :: k :: ids)) with (lastOf (k :: ids)). apply IH. }
  destruct (lastOf (j :: ids)); [reflexivity | contradiction].
Qed.

Lemma scanLines_spec lines : forall hasHeader lastMessageId,
  scanLines C lines hasHeader lastMessageId
  = ((hasHeader || existsb (lineHasType C "session") lines)%bool,
     match lastOf (messageIds C lines) with
     | Some id => Some id
     | None => lastMessageId
     end).
Proof.
  induction lines as [|line rest IH]; intros hasHeader lastMessageId.
  - simpl. rewrite orb_false_r. reflexivity.
  - cbn [scanLines existsb messageIds]. unfold messageIdOf, lineHasType, lineType.
    destruct (JSON_parse C line) as [[| | | | | |parsed]|];
      try (rewrite IH; simpl; reflexivity).
    rewrite IH. destruct (getField parsed "type") as [[| | | |t| |]|];
      try (simpl; reflexivity).
    destruct (String.eqb t "session") eqn:Hs.
    + apply String.eqb_eq in Hs. subst t. simpl. rewrite orb_true_r. reflexivity.
    + destruct (String.eqb t "message"); [|simpl; reflexivity].
      destruct (readString parsed "id") as [id|]; [|simpl; reflexivity].
      rewrite lastOf_cons. simpl. destruct (lastOf (messageIds C rest)); reflexivity.
Qed.

Lemma messageIds_app l1 l2 : messageIds C (l1 ++ l2) = messageIds C l1 ++ messageIds C l2.
Proof.
  induction l1 as [|line rest IH]; simpl; [reflexivity|].
  destruct (messageIdOf C line); simpl; rewrite IH; reflexivity.
Qed.

(** The entries the append builds, read back. *)
Lemma messageEntry_says id parentId timestamp role text :
  saysMessage (messageEntry id parentId timestamp role text) id parentId timestamp role text.
Proof.
  unfold saysMessage, messageEntry.
  repeat (split; [reflexivity|]).
  eexists. repeat (split; [reflexivity|]). reflexivity.
Qed.

Lemma sessionHeader_says sessionId timestamp cwd :
  saysSession (sessionHeader sessionId timestamp cwd) sessionId timestamp cwd.
Proof. unfold saysSession, sessionHeader. repeat split. Qed.

(** What the append adds to a file that has its header. *)
Lemma transcriptAdditions_with_header transcript existing clock drawn :
  existsb (lineHasType C "session") (transcriptLines existing) = true ->
  transcriptAdditions C transcript existing clock drawn
  = [messageEntry (randomUUID C drawn) (lastOf (messageIds C (transcriptLines existing)))
       (toISOString C clock) "user" (userText transcript);
     messageEntry (randomUUID C (S drawn)) (Some (randomUUID C drawn))
       (toISOString C (nowAgain C clock)) "assistant" (assistantText transcript)].
Proof.
  intros Hheader. unfold transcriptAdditions. rewrite scanLines_spec, Hheader. simpl.
  destruct (lastOf _); reflexivity.
Qed.

(** What it adds to one that has none. *)
Lemma transcriptAdditions_without_header transcript existing clock drawn :
  existsb (lineHasType C "session") (transcriptLines existing) = false ->
  transcriptAdditions C transcript existing clock drawn
  = [sessionHeader (transcriptSessionId transcript) (toISOString C clock)
       (pathResolve C (transcriptWorkspaceDir transcript));
     messageEntry (randomUUID C drawn) (lastOf (messageIds C (transcriptLines existing)))
       (toISOString C clock) "user" (userText transcript);
     messageEntry (randomUUID C (S drawn)) (Some (randomUUID C drawn))
       (toISOString C (nowAgain C clock)) "assistant" (assistantText transcript)].
Proof.
  intros Hheader. unfold transcriptAdditions. rewrite scanLines_spec, Hheader. simpl.
  destruct (lastOf _); reflexivity.
Qed.

(** C9.  The file holds [existing], which has a [session] header, and the
    lock, the read, the write and the release of the lock succeed.  Then
    the append succeeds and writes, after
    a line feed if the file did not end with one, exactly two lines: the
    user entry, whose [parentId] field is the id of the last [message]
    entry of the file that has one (null if there is none), and the
    assistant entry, whose [parentId] field is the [id] field of the user
    entry; no header is written.  The user entry is stamped with the
    first reading of the clock, the assistant entry with the second.
    Moreover, as [JSON.stringify] returns one non-blank line without line
    breaks that [JSON.parse] reads back, the lines of the new file are
    those of the old one followed by these two, the header lines are the
    same, and the message lines are the old ones and these two. *)
Theorem append_turn_adds_two_message_lines transcript st disk existing :
  lockError disk = None -> readError disk = None ->
  appendError disk = None -> releaseError disk = None ->
  content disk = Some existing ->
  existsb (lineHasType C "session") (transcriptLines existing) = true ->
  appendsTwoMessageLines C transcript st disk existing.
Proof.
  intros Hlock Hread Happend Hrelease Hcontent Hheader. unfold appendsTwoMessageLines.
  pose proof (transcriptAdditions_with_header transcript existing (now st) (uuids st) Hheader)
    as Hadd.
  set (parent := lastOf (messageIds C (transcriptLines existing))) in *.
  set (userId := randomUUID C (uuids st)) in *.
  set (assistantId := randomUUID C (S (uuids st))) in *.
  set (userEntry := messageEntry userId parent (toISOString C (now st)) "user"
                      (userText transcript)) in *.
  set (assistantEntry :=
         messageEntry assistantId (Some userId) (toISOString C (nowAgain C (now st)))
           "assistant" (assistantText transcript)) in *.
  exists userEntry, assistantEntry. cbv zeta.
  set (userLine := JSON_stringify C userEntry).
  set (assistantLine := JSON_stringify C assistantEntry).
  set (prefix := if JS.endsWithChar existing (ascii_of_nat 10) then ""%string else JS.LF).
  set (written := (existing ++ prefix ++ userLine ++ JS.LF ++ assistantLine ++ JS.LF)%string).
  assert (Hlines : transcriptLines existing <> []).
  { intros Hnil. rewrite Hnil in Hheader. discriminate. }
  split; [exact Hadd|].
  split; [apply messageEntry_says|]. split; [apply messageEntry_says|]. split.
  - eexists. unfold appendTranscriptMessages, afterRelease.
    rewrite Hlock, Hread, Happend, Hrelease, Hcontent.
    unfold transcriptAppended. rewrite Hadd.
    destruct (transcriptLines existing) as [|l ls]; [contradiction|].
    subst written prefix. cbn [List.length Nat.eqb negb andb map JS.join].
    destruct (JS.endsWithChar existing (ascii_of_nat 10)); cbn [negb];
      rewrite ?AttemptFacts.append_assoc; reflexivity.
  - intros Hub Hab Hup Hap Hut Hat.
    assert (Hnew : transcriptLines written
                   = transcriptLines existing ++ [JS.trim userLine; JS.trim assistantLine]).
    { assert (Htail : transcriptLines (userLine ++ JS.LF ++ assistantLine ++ JS.LF)
                      = [JS.trim userLine; JS.trim assistantLine]).
      { rewrite transcriptLines_app_LF, (transcriptLines_noLineBreak _ Hub Hut).
        change (assistantLine ++ JS.LF)%string with (assistantLine ++ JS.LF ++ "")%string.
        rewrite transcriptLines_app_LF, (transcriptLines_noLineBreak _ Hab Hat).
        reflexivity. }
      subst written prefix.
      set (tail := (userLine ++ JS.LF ++ assistantLine ++ JS.LF)%string) in *.
      destruct (JS.endsWithChar existing (ascii_of_nat 10)) eqn:Hends.
      - apply endsWithChar_split in Hends. destruct Hends as (e & He).
        assert (Hold : transcriptLines existing = transcriptLines e).
        { rewrite He. change (String (ascii_of_nat 10) "") with (JS.LF ++ "")%string.
          rewrite transcriptLines_app_LF, transcriptLines_empty, app_nil_r. reflexivity. }
        assert (Heq : (existing ++ "" ++ tail)%string = (e ++ JS.LF ++ tail)%string).
        { rewrite He, AttemptFacts.append_assoc. reflexivity. }
        rewrite Heq, transcriptLines_app_LF, Htail, Hold. reflexivity.
      - rewrite transcriptLines_app_LF, Htail. reflexivity. }
    assert (Hu : lineType C (JS.trim userLine) = Some "message"%string)
      by (unfold lineType; rewrite Hup; reflexivity).
    assert (Ha : lineType C (JS.trim assistantLine) = Some "message"%string)
      by (unfold lineType; rewrite Hap; reflexivity).
    assert (Hus : lineHasType C "session" (JS.trim userLine) = false)
      by (unfold lineHasType; rewrite Hu; reflexivity).
    assert (Has : lineHasType C "session" (JS.trim assistantLine) = false)
      by (unfold lineHasType; rewrite Ha; reflexivity).
    assert (Hum : lineHasType C "message" (JS.trim userLine) = true)
      by (unfold lineHasType; rewrite Hu; reflexivity).
    assert (Ham : lineHasType C "message" (JS.trim assistantLine) = true)
      by (unfold lineHasType; rewrite Ha; reflexivity).
    split; [exact Hnew|]. rewrite Hnew, !filter_app. cbn [filter].
    rewrite Hus, Has, Hum, Ham, app_nil_r. auto.
Qed.

End Transcript.

End AgentFacts.

(** ** Strings: white space, case and search *)

Module StringFacts.
Import AttemptSpec StringSpec.

Lemma append_cons c (a b : string) : (String c a ++ b = String c (a ++ b))%string.
Proof. reflexivity. Qed.

Lemma trim_id s :
  startsWithWhiteSpace s = false -> endsWithWhiteSpace s = false -> JS.trim s = s.
Proof.
  intros Hs He. unfold JS.trim.
  rewrite (AgentFacts.trimStart_id s Hs). apply AgentFacts.trimEnd_id. exact He.
Qed.

Lemma trim_idempotent s : JS.trim (JS.trim s) = JS.trim s.
Proof. destruct (AttemptFacts.trim_tight s) as [Hs He]. apply trim_id; assumption. Qed.

Lemma truthy_false s : JS.truthy s = false -> s = ""%string.
Proof. destruct s; [reflexivity | discriminate]. Qed.

Lemma truthy_true s : JS.truthy s = true <-> s <> ""%string.
Proof. destruct s; unfold JS.truthy; simpl; split; congruence. Qed.

Lemma truthy_app_r (a b : string) : JS.truthy b = true -> JS.truthy (a ++ b) = true.
Proof. destruct a; simpl; [tauto | reflexivity]. Qed.

Lemma truthy_app_l (a b : string) : JS.truthy a = true -> JS.truthy (a ++ b) = true.
Proof. destruct a; simpl; [discriminate | reflexivity]. Qed.

Lemma noWhiteSpace_ends s :
  noWhiteSpace s = true ->
  startsWithWhiteSpace s = false /\ endsWithWhiteSpace s = false.
Proof.
  induction s as [|c r IH]; simpl; [auto|].
  intros H. apply andb_prop in H as [Hc Hr]. apply negb_true_iff in Hc.
  split; [exact Hc|]. destruct r as [|d r']; [exact Hc | apply IH; exact Hr].
Qed.

Lemma noWhiteSpace_trim s : noWhiteSpace s = true -> JS.trim s = s.
Proof. intros H. apply noWhiteSpace_ends in H as [Hs He]. apply trim_id; assumption. Qed.

Lemma endsWithWhiteSpace_app (a b : string) :
  endsWithWhiteSpace (a ++ b)
  = if JS.truthy b then endsWithWhiteSpace b else endsWithWhiteSpace a.
Proof.
  induction a as [|c a IH]; simpl.
  - destruct b; reflexivity.
  - destruct (a ++ b)%string as [|d r] eqn:Hab.
    + destruct a; [|discriminate]. simpl in Hab. subst b. reflexivity.
    + rewrite IH. destruct b as [|e b']; simpl; [|reflexivity].
      destruct a; [discriminate | reflexivity].
Qed.

(** *** Case *)

Lemma lowerChar_idempotent c : JS.lowerChar (JS.lowerChar c) = JS.lowerChar c.
Proof. destruct c as [[] [] [] [] [] [] [] []]; reflexivity. Qed.

Lemma lowerChar_whiteSpace c : JS.isWhiteSpace (JS.lowerChar c) = JS.isWhiteSpace c.
Proof. destruct c as [[] [] [] [] [] [] [] []]; reflexivity. Qed.

Lemma toLowerCase_idempotent s : JS.toLowerCase (JS.toLowerCase s) = JS.toLowerCase s.
Proof.
  induction s as [|c r IH]; simpl; [reflexivity|].
  rewrite lowerChar_idempotent, IH. reflexivity.
Qed.

Lemma toLowerCase_app (a b : string) :
  JS.toLowerCase (a ++ b) = (JS.toLowerCase a ++ JS.toLowerCase b)%string.
Proof. induction a as [|c a IH]; simpl; [reflexivity | now rewrite IH]. Qed.

Lemma toLowerCase_truthy s : JS.truthy (JS.toLowerCase s) = JS.truthy s.
Proof. destruct s; reflexivity. Qed.

Lemma toLowerCase_noWhiteSpace s : noWhiteSpace (JS.toLowerCase s) = noWhiteSpace s.
Proof.
  induction s as [|c r IH]; simpl; [reflexivity|].
  rewrite lowerChar_whiteSpace, IH. reflexivity.
Qed.

(** *** Substrings *)

Lemma prefix_app (h s : string) : String.prefix h (h ++ s) = true.
Proof.
  induction h as [|c h IH]; simpl; [destruct s; reflexivity|].
  destruct (ascii_dec c c); [exact IH | congruence].
Qed.

Lemma prefix_cons c h d s :
  String.prefix (String c h) (String d s) = (Ascii.eqb c d && String.prefix h s)%bool.
Proof.
  cbn [String.prefix]. destruct (ascii_dec c d) as [-> | Hne].
  - rewrite Ascii.eqb_refl. reflexivity.
  - apply Ascii.eqb_neq in Hne. rewrite Hne. reflexivity.
Qed.

Lemma prefix_longer c h s :
  String.prefix (String c "") s = false -> String.prefix (String c h) s = false.
Proof.
  destruct s as [|d s]; [reflexivity|]. rewrite !prefix_cons.
  destruct (Ascii.eqb c d); [destruct s; discriminate | reflexivity].
Qed.

Lemma includes_prefix (s h : string) : String.prefix h s = true -> JS.includes s h = true.
Proof. intros H. destruct s; simpl; simpl in H; rewrite H; reflexivity. Qed.

Lemma includes_tail c (s h : string) : JS.includes s h = true -> JS.includes (String c s) h = true.
Proof.
  intros H. cbn [JS.includes]. destruct (String.prefix h (String c s)); [reflexivity | exact H].
Qed.

Lemma includes_app_r (a s h : string) : JS.includes s h = true -> JS.includes (a ++ s) h = true.
Proof.
  intros H. induction a as [|c a IH]; [exact H|].
  rewrite append_cons. apply includes_tail. exact IH.
Qed.

Lemma includes_app_l (s b h : string) : JS.includes s h = true -> JS.includes (s ++ b) h = true.
Proof.
  assert (Hp : forall x y, String.prefix h x = true -> String.prefix h (x ++ y) = true).
  { induction h as [|c h IHh]; intros x y; [destruct x, y; reflexivity|].
    destruct x as [|d x]; simpl; [discriminate|].
    destruct (ascii_dec c d); [apply IHh | discriminate]. }
  induction s as [|c s IH]; intros H.
  - cbn [JS.includes] in H. destruct (String.prefix h "") eqn:Hh; [|discriminate].
    apply includes_prefix. apply (Hp ""%string b Hh).
  - cbn [JS.includes] in H. destruct (String.prefix h (String c s)) eqn:Hh.
    + apply includes_prefix. apply Hp. exact Hh.
    + rewrite append_cons. apply includes_tail. apply IH. exact H.
Qed.

Lemma includes_mid (a h b : string) : JS.includes (a ++ h ++ b) h = true.
Proof. apply includes_app_r, includes_prefix, prefix_app. Qed.

End StringFacts.

(** ** Target resolution: normal forms and duplicates *)

Module ResolverLaws.
Import Resolver AttemptSpec StringSpec StringFacts.

Lemma backslash_whiteSpace c :
  JS.isWhiteSpace (if Ascii.eqb c "\"%char then "/"%char else c) = JS.isWhiteSpace c.
Proof.
  destruct (Ascii.eqb c "\"%char) eqn:Hc; [|reflexivity].
  apply Ascii.eqb_eq in Hc. subst c. reflexivity.
Qed.

Lemma backslashesToSlashes_truthy s : JS.truthy (backslashesToSlashes s) = JS.truthy s.
Proof. destruct s; reflexivity. Qed.

Lemma backslashesToSlashes_starts s :
  startsWithWhiteSpace (backslashesToSlashes s) = startsWithWhiteSpace s.
Proof. destruct s as [|c r]; simpl; [reflexivity | apply backslash_whiteSpace]. Qed.

Lemma backslashesToSlashes_ends s :
  endsWithWhiteSpace (backslashesToSlashes s) = endsWithWhiteSpace s.
Proof.
  induction s as [|c r IH]; simpl; [reflexivity|].
  destruct r as [|d r']; simpl; [apply backslash_whiteSpace | exact IH].
Qed.

Lemma backslashesToSlashes_noBackslash s : noBackslash (backslashesToSlashes s) = true.
Proof.
  induction s as [|c r IH]; simpl; [reflexivity|]. rewrite IH.
  destruct (Ascii.eqb c "\"%char) eqn:Hc; [reflexivity | rewrite Hc; reflexivity].
Qed.

Lemma noBackslash_fixed s : noBackslash s = true -> backslashesToSlashes s = s.
Proof.
  induction s as [|c r IH]; simpl; [reflexivity|].
  intros H. apply andb_prop in H as [Hc Hr]. apply negb_true_iff in Hc.
  rewrite Hc, (IH Hr). reflexivity.
Qed.

Lemma noBackslash_app (a b : string) :
  noBackslash (a ++ b) = (noBackslash a && noBackslash b)%bool.
Proof.
  induction a as [|c a IH]; simpl; [reflexivity|]. rewrite IH. apply andb_assoc.
Qed.

Lemma noBackslash_lower s : noBackslash s = true -> noBackslash (JS.toLowerCase s) = true.
Proof.
  induction s as [|c r IH]; simpl; [reflexivity|].
  intros H. apply andb_prop in H as [Hc Hr]. rewrite (IH Hr), andb_true_r.
  revert Hc. destruct c as [[] [] [] [] [] [] [] []]; simpl; auto.
Qed.

Lemma stripLeadingSlashes_suffix s : exists p, s = (p ++ stripLeadingSlashes s)%string.
Proof.
  induction s as [|c r IH]; simpl; [exists ""%string; reflexivity|].
  destruct (Ascii.eqb c "/"%char).
  - destruct IH as (p & Hp). exists (String c p). simpl. rewrite <- Hp. reflexivity.
  - exists ""%string. reflexivity.
Qed.

Lemma suffix_noBackslash (p t : string) : noBackslash (p ++ t) = true -> noBackslash t = true.
Proof. rewrite noBackslash_app. intros H. apply andb_prop in H. tauto. Qed.

Lemma suffix_ends (p t : string) :
  JS.truthy t = true -> endsWithWhiteSpace t = endsWithWhiteSpace (p ++ t).
Proof. intros Ht. rewrite endsWithWhiteSpace_app, Ht. reflexivity. Qed.

Lemma ends_after_strip (a s : string) :
  endsWithWhiteSpace s = false ->
  endsWithWhiteSpace (a ++ "://" ++ stripLeadingSlashes s) = false.
Proof.
  intros Hs. destruct (stripLeadingSlashes_suffix s) as (p & Hp).
  rewrite endsWithWhiteSpace_app.
  destruct (stripLeadingSlashes s) as [|c t]; [reflexivity|].
  rewrite Hp, endsWithWhiteSpace_app in Hs. simpl in Hs. simpl. exact Hs.
Qed.

Lemma spanLetters_spec s : forall letters rest,
  spanLetters s = (letters, rest) ->
  s = (letters ++ rest)%string
  /\ (JS.truthy letters = true -> startsWithWhiteSpace letters = false).
Proof.
  induction s as [|c r IH]; intros letters rest; simpl.
  - intros [= <- <-]. auto.
  - destruct (isAsciiLetter c) eqn:Hc.
    + destruct (spanLetters r) as [l0 r0]. intros [= <- <-].
      destruct (IH l0 r0 eq_refl) as [Hr _]. split; [simpl; rewrite <- Hr; reflexivity|].
      intros _. simpl. revert Hc.
      destruct c as [[] [] [] [] [] [] [] []]; simpl; auto; discriminate.
    + intros [= <- <-]. split; [reflexivity | discriminate].
Qed.

Lemma schemeSingleSlash_spec s scheme rest :
  schemeSingleSlash s = Some (scheme, rest) ->
  s = (scheme ++ ":/" ++ rest)%string
  /\ JS.truthy scheme = true /\ JS.truthy rest = true
  /\ startsWithWhiteSpace scheme = false.
Proof.
  unfold schemeSingleSlash.
  destruct (spanLetters s) as [letters tail] eqn:Hspan.
  apply spanLetters_spec in Hspan. destruct Hspan as [Hs Hstart].
  destruct letters as [|l ls]; [discriminate|].
  destruct tail as [|c1 [|c2 more]]; try discriminate.
  destruct (Ascii.eqb c1 ":"%char) eqn:H1; [|discriminate].
  destruct (Ascii.eqb c2 "/"%char) eqn:H2; [|discriminate].
  destruct (JS.truthy more) eqn:H3; [|discriminate].
  destruct (noLineTerminator more); [|discriminate].
  simpl. intros [= <- <-].
  apply Ascii.eqb_eq in H1, H2. subst c1 c2.
  repeat split; auto.
Qed.

(** What [toWsUrl] returns is empty, or a url in normal form: no white
    space at its ends, no backslash, and a [://] in it. *)
Lemma toWsUrl_normal value :
  let result := toWsUrl value in
  (JS.truthy (JS.trim value) = false /\ result = ""%string)
  \/ (JS.truthy (JS.trim value) = true
      /\ JS.truthy result = true
      /\ startsWithWhiteSpace result = false /\ endsWithWhiteSpace result = false
      /\ noBackslash result = true
      /\ JS.includes result "://" = true).
Proof.
  unfold toWsUrl. destruct (AttemptFacts.trim_tight value) as [Hst Hen].
  set (trimmed := JS.trim value) in *.
  destruct (JS.truthy trimmed) eqn:Htruthy; cbn [negb]; [right | left; auto].
  split; [reflexivity|].
  pose proof (backslashesToSlashes_noBackslash trimmed) as Hnb.
  pose proof (backslashesToSlashes_starts trimmed) as Hs. rewrite Hst in Hs.
  pose proof (backslashesToSlashes_ends trimmed) as He. rewrite Hen in He.
  pose proof (backslashesToSlashes_truthy trimmed) as Ht. rewrite Htruthy in Ht.
  set (normalized := backslashesToSlashes trimmed) in *.
  destruct (JS.includes normalized "://") eqn:Hinc; [auto 10|].
  destruct (schemeSingleSlash normalized) as [[scheme rest]|] eqn:Hscheme.
  - apply schemeSingleSlash_spec in Hscheme.
    destruct Hscheme as (Hn & Hts & Htr & Hss).
    destruct (stripLeadingSlashes_suffix rest) as (p & Hp).
    assert (Hnb' : noBackslash scheme = true /\ noBackslash rest = true).
    { rewrite Hn, !noBackslash_app in Hnb. simpl in Hnb.
      apply andb_prop in Hnb as [H1 H2]. auto. }
    destruct Hnb' as [Hnbs Hnbr].
    assert (Her : endsWithWhiteSpace rest = false).
    { rewrite <- He, Hn. rewrite !endsWithWhiteSpace_app. simpl. rewrite Htr. reflexivity. }
    repeat split.
    + apply truthy_app_l. rewrite toLowerCase_truthy. exact Hts.
    + destruct scheme as [|c sc]; [discriminate|]. simpl in *.
      rewrite lowerChar_whiteSpace. exact Hss.
    + apply ends_after_strip. exact Her.
    + rewrite !noBackslash_app. rewrite (noBackslash_lower _ Hnbs). simpl.
      apply (suffix_noBackslash p). rewrite <- Hp. exact Hnbr.
    + apply includes_mid.
  - destruct (stripLeadingSlashes_suffix normalized) as (p & Hp).
    repeat split.
    + apply (ends_after_strip "ws"). exact He.
    + rewrite !noBackslash_app. simpl.
      apply (suffix_noBackslash p). rewrite <- Hp. exact Hnb.
    + apply (includes_mid "ws" "://" (stripLeadingSlashes normalized)).
Qed.

(** X1.  [toWsUrl] returns the empty string exactly for a blank value
    (empty or white space only); for any other value it returns a url
    that has a scheme separator [://] in it. *)
Theorem toWsUrl_blank_or_scheme value :
  JS.truthy (toWsUrl value) = JS.truthy (JS.trim value)
  /\ JS.includes (toWsUrl value) "://" = JS.truthy (JS.trim value).
Proof.
  destruct (toWsUrl_normal value) as [[Hblank Hres] | (Ht & Hr & _ & _ & _ & Hinc)];
    simpl in *.
  - rewrite Hres, Hblank. split; reflexivity.
  - rewrite Hr, Hinc, Ht. split; reflexivity.
Qed.

Lemma toWsUrl_again value : toWsUrl (toWsUrl value) = toWsUrl value.
Proof.
  destruct (toWsUrl_normal value) as [[_ Hres] | (_ & Hr & Hs & He & Hnb & Hinc)].
  - simpl in Hres. rewrite Hres. reflexivity.
  - simpl in *. set (result := toWsUrl value) in *.
    unfold toWsUrl. rewrite (trim_id result Hs He), Hr. simpl.
    rewrite (noBackslash_fixed result Hnb), Hinc. reflexivity.
Qed.

(** X2.  [toWsUrl] is idempotent: a url it returned has no white space at
    its ends, no backslash and a [://] in it, and is returned unchanged. *)
Theorem toWsUrl_idempotent value :
  let result := toWsUrl value in
  toWsUrl result = result
  /\ JS.trim result = result
  /\ noBackslash result = true.
Proof.
  split; [apply toWsUrl_again|].
  destruct (toWsUrl_normal value) as [[_ Hres] | (_ & Hr & Hs & He & Hnb & Hinc)];
    simpl in *.
  - rewrite Hres. split; reflexivity.
  - split; [apply trim_id; assumption | exact Hnb].
Qed.

(** *** Capability tags *)

Lemma dashWhiteSpaceRuns_noWhiteSpace s : forall inRun,
  noWhiteSpace (dashWhiteSpaceRuns inRun s) = true.
Proof.
  induction s as [|c r IH]; intros inRun; simpl; [reflexivity|].
  destruct (JS.isWhiteSpace c) eqn:Hc.
  - destruct inRun; [apply IH | simpl; apply IH].
  - simpl. rewrite Hc. simpl. apply IH.
Qed.

Lemma dashWhiteSpaceRuns_fixed s : forall inRun,
  noWhiteSpace s = true -> dashWhiteSpaceRuns inRun s = s.
Proof.
  induction s as [|c r IH]; intros inRun; simpl; [reflexivity|].
  intros H. apply andb_prop in H as [Hc Hr]. apply negb_true_iff in Hc.
  rewrite Hc, (IH false Hr). reflexivity.
Qed.

Lemma dashWhiteSpaceRuns_lower s : forall inRun,
  JS.toLowerCase (dashWhiteSpaceRuns inRun (JS.toLowerCase s))
  = dashWhiteSpaceRuns inRun (JS.toLowerCase s).
Proof.
  induction s as [|c r IH]; intros inRun; simpl; [reflexivity|].
  destruct (JS.isWhiteSpace (JS.lowerChar c)).
  - destruct inRun; [apply IH | simpl; rewrite IH; reflexivity].
  - simpl. rewrite lowerChar_idempotent, IH. reflexivity.
Qed.

Lemma dashWhiteSpaceRuns_truthy s inRun :
  JS.truthy s = true -> startsWithWhiteSpace s = false ->
  JS.truthy (dashWhiteSpaceRuns inRun s) = true.
Proof.
  destruct s as [|c r]; [discriminate|]. simpl. intros _ ->. reflexivity.
Qed.

(** What [normalizeCapabilityTag] returns is a tag in normal form: it is
    its own lower case and has no white space. *)
Lemma normalizeCapabilityTag_normal value :
  let tag := normalizeCapabilityTag value in
  noWhiteSpace tag = true /\ JS.toLowerCase tag = tag
  /\ JS.truthy tag = JS.truthy (JS.trim value).
Proof.
  unfold normalizeCapabilityTag. rewrite toLowerCase_truthy.
  destruct (JS.truthy (JS.trim value)) eqn:Ht; cbn [negb]; [|auto].
  split; [apply dashWhiteSpaceRuns_noWhiteSpace|].
  split; [apply dashWhiteSpaceRuns_lower|].
  apply dashWhiteSpaceRuns_truthy; [rewrite toLowerCase_truthy; exact Ht|].
  destruct (AttemptFacts.trim_tight value) as [Hs _].
  destruct (JS.trim value) as [|c r]; [discriminate|]. simpl in *.
  rewrite lowerChar_whiteSpace. exact Hs.
Qed.

Lemma normalizeCapabilityTag_fixed tag :
  noWhiteSpace tag = true -> JS.toLowerCase tag = tag -> normalizeCapabilityTag tag = tag.
Proof.
  intros Hn Hl. unfold normalizeCapabilityTag.
  rewrite (noWhiteSpace_trim tag Hn), Hl.
  destruct tag; [reflexivity|]. cbn [JS.truthy String.eqb negb].
  apply dashWhiteSpaceRuns_fixed. exact Hn.
Qed.

(** X3.  A normalized capability tag has no white space and no capital
    letter left, is empty exactly for a blank value, and normalizing it
    again changes nothing. *)
Theorem normalizeCapabilityTag_idempotent value :
  let tag := normalizeCapabilityTag value in
  noWhiteSpace tag = true
  /\ JS.toLowerCase tag = tag
  /\ JS.truthy tag = JS.truthy (JS.trim value)
  /\ normalizeCapabilityTag tag = tag.
Proof.
  destruct (normalizeCapabilityTag_normal value) as (Hn & Hl & Ht).
  simpl in *. repeat split; try assumption.
  apply normalizeCapabilityTag_fixed; assumption.
Qed.

(** *** Duplicates *)

Lemma has_In members x : has members x = true <-> In x members.
Proof.
  unfold has. rewrite existsb_exists. split.
  - intros (y & Hy & He). apply String.eqb_eq in He. subst y. exact Hy.
  - intros H. exists x. split; [exact H | apply String.eqb_refl].
Qed.

Lemma has_app members x y : has (members ++ [y]) x = (has members x || String.eqb x y)%bool.
Proof. unfold has. rewrite existsb_app. simpl. rewrite orb_false_r. reflexivity. Qed.

Lemma dedupeCapabilityTagsFrom_spec values : forall seen,
  let out := dedupeCapabilityTagsFrom seen values in
  NoDup out
  /\ (forall tag, In tag out <->
        JS.truthy tag = true /\ ~ In tag seen
        /\ exists raw, In raw values /\ normalizeCapabilityTag raw = tag).
Proof.
  induction values as [|raw rest IH]; intros seen; simpl.
  - split; [constructor|]. intros tag. split; [intros [] | intros (_ & _ & r & [] & _)].
  - destruct (JS.truthy (normalizeCapabilityTag raw)) eqn:Ht; simpl.
    + destruct (has seen (normalizeCapabilityTag raw)) eqn:Hseen.
      * destruct (IH seen) as [Hnd Hin]. split; [exact Hnd|].
        intros tag. rewrite Hin. split.
        -- intros (H1 & H2 & r & Hr & He). eauto 10.
        -- intros (H1 & H2 & r & [-> | Hr] & He); [|eauto 10].
           subst tag. apply has_In in Hseen. contradiction.
      * destruct (IH (seen ++ [normalizeCapabilityTag raw])) as [Hnd Hin].
        assert (Hnot : ~ In (normalizeCapabilityTag raw) seen).
        { intros H. apply has_In in H. congruence. }
        split.
        -- constructor; [|exact Hnd]. rewrite Hin. intros (_ & H & _).
           apply H. apply in_or_app. right. left. reflexivity.
        -- intros tag. split.
           ++ intros [<- | H]; [eauto 10|].
              apply Hin in H. destruct H as (H1 & H2 & r & Hr & He).
              split; [exact H1|]. split; [|eauto].
              intros H. apply H2. apply in_or_app. left. exact H.
           ++ intros (H1 & H2 & r & [-> | Hr] & He); [left; exact He|].
              destruct (string_dec (normalizeCapabilityTag raw) tag) as [Heq | Hne];
                [left; exact Heq | right].
              apply Hin. split; [exact H1|]. split; [|eauto].
              intros H. apply in_app_or in H as [H | [H | []]]; contradiction.
    + destruct (IH seen) as [Hnd Hin]. split; [exact Hnd|].
      intros tag. rewrite Hin. split.
      * intros (H1 & H2 & r & Hr & He). eauto 10.
      * intros (H1 & H2 & r & [-> | Hr] & He); [congruence | eauto 10].
Qed.

Lemma dedupeCapabilityTagsFrom_fixed tags : forall seen,
  NoDup tags ->
  (forall tag, In tag tags ->
     JS.truthy tag = true /\ ~ In tag seen /\ normalizeCapabilityTag tag = tag) ->
  dedupeCapabilityTagsFrom seen tags = tags.
Proof.
  induction tags as [|tag rest IH]; intros seen Hnd Hall; simpl; [reflexivity|].
  destruct (Hall tag (or_introl eq_refl)) as (Ht & Hs & Hn).
  inversion Hnd as [|? ? Hnotin Hnd']; subst.
  rewrite Hn, Ht. simpl.
  destruct (has seen tag) eqn:Hhas; [apply has_In in Hhas; contradiction|].
  f_equal. apply IH; [exact Hnd'|].
  intros t Hin. destruct (Hall t (or_intror Hin)) as (H1 & H2 & H3).
  repeat split; try assumption.
  intros H. apply in_app_or in H as [H | [H | []]]; [contradiction|].
  subst t. contradiction.
Qed.

Lemma dedupeCapabilityTags_again values :
  dedupeCapabilityTags (dedupeCapabilityTags values) = dedupeCapabilityTags values.
Proof.
  unfold dedupeCapabilityTags.
  destruct (dedupeCapabilityTagsFrom_spec values []) as [Hnd Hin]. simpl in *.
  apply dedupeCapabilityTagsFrom_fixed; [exact Hnd|].
  intros tag Ht. apply Hin in Ht. destruct Ht as (H1 & _ & raw & _ & <-).
  repeat split; auto.
  destruct (normalizeCapabilityTag_normal raw) as (Hn & Hl & _).
  apply normalizeCapabilityTag_fixed; assumption.
Qed.

(** X4.  [dedupeCapabilityTags] returns every non-empty normalized tag of
    its input, each once; the list it returns is left unchanged by
    another pass. *)
Theorem dedupeCapabilityTags_distinct_normal_tags values :
  let tags := dedupeCapabilityTags values in
  NoDup tags
  /\ (forall tag, In tag tags <->
        tag <> ""%string /\ exists raw, In raw values /\ normalizeCapabilityTag raw = tag)
  /\ dedupeCapabilityTags tags = tags.
Proof.
  split; [|split; [|apply dedupeCapabilityTags_again]];
    unfold dedupeCapabilityTags;
    destruct (dedupeCapabilityTagsFrom_spec values []) as [Hnd Hin]; simpl in *.
  - exact Hnd.
  - intros tag. rewrite Hin, truthy_true. split.
    + intros (H1 & _ & H3). auto.
    + intros (H1 & H3). auto.
Qed.

Lemma dedupeTargetsFrom_spec values : forall seen,
  let out := dedupeTargetsFrom seen values in
  NoDup (map url out)
  /\ (forall t, In t out ->
        JS.truthy (url t) = true /\ ~ In (url t) seen
        /\ exists before raw after,
             values = before ++ raw :: after
             /\ t = mkTarget (toWsUrl (url raw)) (dedupeCapabilityTags (capabilities raw))
             /\ forall b, In b before -> toWsUrl (url b) <> url t)
  /\ (forall raw, In raw values -> JS.truthy (toWsUrl (url raw)) = true ->
        In (toWsUrl (url raw)) seen \/ In (toWsUrl (url raw)) (map url out)).
Proof.
  induction values as [|raw rest IH]; intros seen; simpl.
  - split; [constructor|]. split; [intros t [] | intros r []].
  - destruct (JS.truthy (toWsUrl (url raw))) eqn:Ht; simpl.
    + destruct (has seen (toWsUrl (url raw))) eqn:Hseen.
      * destruct (IH seen) as (Hnd & Hin & Hall). split; [exact Hnd|]. split.
        -- intros t Hi. destruct (Hin t Hi) as (H1 & H2 & before & r & after & -> & He & Hb).
           repeat split; try assumption.
           exists (raw :: before), r, after. repeat split; try assumption.
           intros b [<- | Hbin]; [|apply Hb; exact Hbin].
           intros Heq. apply H2. rewrite <- Heq. apply has_In. exact Hseen.
        -- intros r [<- | Hr] Htr; [left; apply has_In; exact Hseen | apply Hall; assumption].
      * destruct (IH (seen ++ [toWsUrl (url raw)])) as (Hnd & Hin & Hall).
        assert (Hnot : ~ In (toWsUrl (url raw)) seen).
        { intros H. apply has_In in H. congruence. }
        split; [|split].
        -- simpl. constructor; [|exact Hnd]. intros H. apply in_map_iff in H.
           destruct H as (t & Hu & Hi). destruct (Hin t Hi) as (_ & H2 & _).
           apply H2. apply in_or_app. right. left. symmetry. exact Hu.
        -- intros t [<- | Hi].
           ++ simpl. repeat split; try assumption.
              exists [], raw, rest. repeat split. intros b [].
           ++ destruct (Hin t Hi) as (H1 & H2 & before & r & after & -> & He & Hb).
              split; [exact H1|]. split.
              ** intros H. apply H2. apply in_or_app. left. exact H.
              ** exists (raw :: before), r, after. repeat split; try assumption.
                 intros b [<- | Hbin]; [|apply Hb; exact Hbin].
                 intros Heq. apply H2. apply in_or_app. right. left. exact Heq.
        -- intros r [<- | Hr] Htr; [right; left; reflexivity|].
           destruct (Hall r Hr Htr) as [H | H]; [|right; right; exact H].
           apply in_app_or in H as [H | [H | []]]; [left; exact H | right; left; exact H].
    + destruct (IH seen) as (Hnd & Hin & Hall). split; [exact Hnd|]. split.
      * intros t Hi. destruct (Hin t Hi) as (H1 & H2 & before & r & after & -> & He & Hb).
        repeat split; try assumption.
        exists (raw :: before), r, after. repeat split; try assumption.
        intros b [<- | Hbin]; [|apply Hb; exact Hbin].
        intros Heq. rewrite Heq in Ht. congruence.
      * intros r [<- | Hr] Htr; [congruence | apply Hall; assumption].
Qed.

Lemma dedupeTargetsFrom_fixed targets : forall seen,
  NoDup (map url targets) ->
  (forall t, In t targets ->
     JS.truthy (url t) = true /\ ~ In (url t) seen /\ toWsUrl (url t) = url t
     /\ dedupeCapabilityTags (capabilities t) = capabilities t) ->
  dedupeTargetsFrom seen targets = targets.
Proof.
  induction targets as [|t rest IH]; intros seen Hnd Hall; simpl; [reflexivity|].
  destruct (Hall t (or_introl eq_refl)) as (Ht & Hs & Hu & Hc).
  simpl in Hnd. inversion Hnd as [|? ? Hnotin Hnd']; subst.
  rewrite Hu, Ht, Hc. simpl.
  destruct (has seen (url t)) eqn:Hhas; [apply has_In in Hhas; contradiction|].
  destruct t as [u caps]. simpl in *. f_equal. apply IH; [exact Hnd'|].
  intros t' Hin. destruct (Hall t' (or_intror Hin)) as (H1 & H2 & H3 & H4).
  repeat split; try assumption.
  intros H. apply in_app_or in H as [H | [H | []]]; [contradiction|].
  apply Hnotin. rewrite H. apply in_map. exact Hin.
Qed.

(** X5.  [dedupeTargets] keeps one target per normalized url, none for a
    blank url; the target kept for a url is built from the first entry of
    the input with that url, whose capability tags alone it carries. *)
Theorem dedupeTargets_first_entry_wins values :
  let targets := dedupeTargets values in
  NoDup (map url targets)
  /\ (forall u, In u (map url targets) <->
        u <> ""%string /\ exists raw, In raw values /\ toWsUrl (url raw) = u)
  /\ (forall t, In t targets ->
        exists before raw after,
          values = before ++ raw :: after
          /\ t = mkTarget (toWsUrl (url raw)) (dedupeCapabilityTags (capabilities raw))
          /\ forall b, In b before -> toWsUrl (url b) <> url t).
Proof.
  unfold dedupeTargets.
  destruct (dedupeTargetsFrom_spec values []) as (Hnd & Hin & Hall). simpl in *.
  split; [exact Hnd|]. split.
  - intros u. rewrite <- truthy_true. split.
    + intros H. apply in_map_iff in H. destruct H as (t & <- & Hi).
      destruct (Hin t Hi) as (H1 & _ & before & raw & after & -> & -> & _).
      split; [exact H1|]. exists raw. split; [|reflexivity].
      apply in_or_app. right. left. reflexivity.
    + intros (H1 & raw & Hr & <-).
      destruct (Hall raw Hr H1) as [[] | H]. exact H.
  - intros t Hi. destruct (Hin t Hi) as (_ & _ & H). exact H.
Qed.

(** X6.  [dedupeTargets] is idempotent: the targets it returns have
    normalized urls and tags, so another pass returns the same list. *)
Theorem dedupeTargets_idempotent values :
  dedupeTargets (dedupeTargets values) = dedupeTargets values.
Proof.
  unfold dedupeTargets at 1.
  destruct (dedupeTargetsFrom_spec values []) as (Hnd & Hin & _). simpl in *.
  fold (dedupeTargets values) in *.
  apply dedupeTargetsFrom_fixed; [exact Hnd|].
  intros t Hi. destruct (Hin t Hi) as (H1 & H2 & before & raw & after & _ & -> & _).
  simpl in *. repeat split; try assumption.
  - apply toWsUrl_again.
  - apply dedupeCapabilityTags_again.
Qed.

(** *** The resolved list *)

Section SortedAlready.
Variable A : Type.
Variable compare : A -> A -> Z.
Variable key : A -> nat.
Hypothesis compare_key : forall x y, (compare x y <=? 0)%Z = Nat.leb (key y) (key x).

Lemma toSorted_fixed l : ResolverSpec.descending key l -> toSorted compare l = l.
Proof.
  unfold ResolverSpec.descending. induction l as [|x rest IH]; simpl; [reflexivity|].
  intros Hs. inversion Hs as [|? ? Hrest Hall]; subst.
  rewrite (IH Hrest). destruct rest as [|y rest']; [reflexivity|]. simpl.
  rewrite compare_key. inversion Hall as [|? ? Hy _]; subst.
  apply Nat.leb_le in Hy. rewrite Hy. reflexivity.
Qed.

End SortedAlready.

(** X7.  Sorting by capabilities is idempotent: a list that was sorted
    for some preferred tags is returned unchanged when sorted for them
    again. *)
Theorem sortTargetsByCapabilities_idempotent targets preferred :
  sortTargetsByCapabilities (sortTargetsByCapabilities targets preferred) preferred
  = sortTargetsByCapabilities targets preferred.
Proof.
  unfold sortTargetsByCapabilities.
  destruct (Nat.eqb (List.length preferred) 0) eqn:Hp; simpl; [reflexivity|].
  destruct (Nat.leb (List.length targets) 1) eqn:Hl; [rewrite Hl; reflexivity|].
  set (preferredSet := newSet (map normalizeCapabilityTag preferred)).
  pose proof (ResolverFacts.toSorted_perm LlmwsTarget (compareTargets preferredSet) targets)
    as Hperm.
  apply Permutation_length in Hperm. rewrite Hperm, Hl.
  apply (toSorted_fixed LlmwsTarget _ (matchCount preferredSet)).
  - apply ResolverFacts.compareTargets_key.
  - apply (ResolverFacts.toSorted_descending LlmwsTarget).
    apply ResolverFacts.compareTargets_key.
Qed.

Lemma resolveTargets_perm modelParams llmwsDefaults env :
  exists configured,
    Permutation (resolveTargets modelParams llmwsDefaults env) (dedupeTargets configured)
    /\ In (mkTarget DEFAULT_LLMWS_ENDPOINT []) configured.
Proof.
  unfold resolveTargets.
  set (configured := readServerList modelParams "servers" ++ _).
  exists configured. split.
  - destruct (AgentFacts.sort_facts (dedupeTargets configured)
                (resolvePreferredServerCapabilities modelParams)) as (Hperm & _ & _).
    exact Hperm.
  - subst configured. rewrite !app_assoc. apply in_or_app. right. left. reflexivity.
Qed.

Lemma resolveTargets_default modelParams llmwsDefaults env :
  In DEFAULT_LLMWS_ENDPOINT (map url (resolveTargets modelParams llmwsDefaults env)).
Proof.
  destruct (resolveTargets_perm modelParams llmwsDefaults env) as (configured & Hperm & Hin).
  apply (Permutation_in _ (Permutation_sym (Permutation_map url Hperm))).
  destruct (dedupeTargetsFrom_spec configured []) as (_ & _ & Hall).
  destruct (Hall (mkTarget DEFAULT_LLMWS_ENDPOINT []) Hin eq_refl) as [[] | H]. exact H.
Qed.

(** X8.  The resolved target list is never empty: it always holds the
    default endpoint [ws://127.0.0.1:8765], whatever the configuration and
    the environment say.  No url occurs twice in it, and every url in it
    is in the normal form of [toWsUrl], with a [://] in it. *)
Theorem resolveTargets_always_has_default modelParams llmwsDefaults env :
  let targets := resolveTargets modelParams llmwsDefaults env in
  targets <> []
  /\ In DEFAULT_LLMWS_ENDPOINT (map url targets)
  /\ NoDup (map url targets)
  /\ Forall (fun t => JS.includes (url t) "://" = true /\ toWsUrl (url t) = url t) targets.
Proof.
  intros targets. subst targets.
  pose proof (resolveTargets_default modelParams llmwsDefaults env) as Hdefault.
  destruct (resolveTargets_perm modelParams llmwsDefaults env) as (configured & Hperm & _).
  destruct (dedupeTargetsFrom_spec configured []) as (Hnd & Hin & _).
  simpl in Hnd, Hin. fold (dedupeTargets configured) in Hnd, Hin.
  split; [intros Hnil; rewrite Hnil in Hdefault; exact Hdefault|].
  split; [exact Hdefault|]. split.
  - apply (Permutation_NoDup (Permutation_sym (Permutation_map url Hperm))). exact Hnd.
  - apply Forall_forall. intros t Ht.
    apply (Permutation_in _ Hperm) in Ht.
    destruct (Hin t Ht) as (H1 & _ & before & raw & after & _ & -> & _). simpl in *.
    split; [|apply toWsUrl_again].
    destruct (toWsUrl_normal (url raw)) as [[_ Hres] | (_ & _ & _ & _ & _ & Hinc)];
      simpl in *; [rewrite Hres in H1; discriminate | exact Hinc].
Qed.

End ResolverLaws.

(** ** The runtime settings *)

Module SettingsFacts.
Import Settings.
Local Open Scope Z_scope.

Lemma min_le_l (a b : Q) : (min a b <= a)%Q.
Proof.
  unfold min. destruct (Qle_bool a b) eqn:H; [apply Qle_refl|].
  destruct (Qlt_le_dec b a) as [Hlt | Hle]; [apply Qlt_le_weak; exact Hlt|].
  apply Qle_bool_iff in Hle. congruence.
Qed.

Section WithPlatform.
Variable env : Resolver.Env.
Variable Number : string -> option Q.

(** X9.  [parseEnvPositiveInt] returns the fallback, or a whole number
    that is at least 1: the variable's value rounded down, and 1 for a
    value between 0 and 1.  It returns the fallback when the variable is
    unset or blank, or is not a finite number above 0. *)
Theorem parseEnvPositiveInt_whole_or_fallback name fallback :
  let result := parseEnvPositiveInt env Number name fallback in
  (result = fallback
   \/ exists value parsed,
        env name = Some value /\ Number (JS.trim value) = Some parsed
        /\ (0 < parsed)%Q
        /\ result = inject_Z (Z.max 1 (Qfloor parsed)))
  /\ ((forall value, env name = Some value -> JS.trim value = ""%string) -> result = fallback)
  /\ ((forall value parsed, env name = Some value -> Number (JS.trim value) = Some parsed ->
       (parsed <= 0)%Q) -> result = fallback).
Proof.
  unfold parseEnvPositiveInt.
  destruct (env name) as [value|]; [|auto].
  destruct (JS.truthy (JS.trim value)) eqn:Ht; cbn [negb]; [|auto].
  destruct (Number (JS.trim value)) as [parsed|] eqn:Hn; [|auto].
  destruct (Qle_bool parsed 0) eqn:Hle; [auto|].
  assert (Hpos : (0 < parsed)%Q).
  { destruct (Qlt_le_dec 0 parsed) as [H | H]; [exact H|].
    apply Qle_bool_iff in H. congruence. }
  split; [right; exists value, parsed; auto|]. split.
  - intros H. specialize (H value eq_refl). rewrite H in Ht. discriminate.
  - intros H. specialize (H value parsed eq_refl Hn).
    exfalso. apply (Qlt_not_le _ _ Hpos). exact H.
Qed.

Lemma orElse_none {A : Type} (b : option A) : Resolver.orElse None b = b.
Proof. reflexivity. Qed.

(** X10.  Whatever the configuration holds, the resolved settings have a
    connect timeout and a read timeout of at least 1 ms, history limits
    that are not negative, and at least one target.  When no connect
    timeout is configured the default applies, which never exceeds
    8000 ms. *)
Theorem resolved_settings_are_in_range config provider model timeoutMs streamParams :
  let settings :=
    resolveLlmwsRuntimeSettings env config provider model timeoutMs streamParams in
  1 <= Agent.connectTimeoutMs settings
  /\ 1 <= Agent.readTimeoutMs settings
  /\ 0 <= Agent.historyTurns settings
  /\ 0 <= Agent.historyChars settings
  /\ Agent.targets settings <> []
  /\ (readNumber (resolveModelParams config provider model) "connectTimeoutMs" = None ->
      readNumber (recordOrEmpty (child (child (child config "agents") "defaults") "llmws"))
        "connectTimeoutMs" = None ->
      Agent.connectTimeoutMs settings <= 8000).
Proof.
  unfold resolveLlmwsRuntimeSettings. simpl.
  repeat (split; [lia|]). split.
  - intros Hnil.
    pose proof (ResolverLaws.resolveTargets_default
                  (resolveModelParams config provider model)
                  (recordOrEmpty (child (child (child config "agents") "defaults") "llmws"))
                  env) as H.
    rewrite Hnil in H. exact H.
  - intros -> ->. simpl.
    pose proof (Qfloor_resp_le _ _ (min_le_l DEFAULT_CONNECT_TIMEOUT_MS timeoutMs)) as H.
    change (Qfloor DEFAULT_CONNECT_TIMEOUT_MS) with 8000 in H. lia.
Qed.

End WithPlatform.

(** X11.  How [resolveGenerationConfig] chooses [max_new_tokens]: a
    finite [maxTokens] of the stream parameters wins over everything; one
    that is not finite changes nothing; and without it the snake-case key
    [max_new_tokens] wins wherever it is set, so that the key in the
    deployment defaults beats a [maxNewTokens] in the model's own
    parameters. *)
Theorem generation_budget_precedence defaults modelParams :
  (forall stream value,
      streamMaxTokens stream = Some (Finite value) ->
      max_new_tokens (resolveGenerationConfig defaults modelParams (Some stream))
      = Some (JS.Num value))
  /\ (forall stream,
        streamMaxTokens stream = Some NotFinite \/ streamMaxTokens stream = None ->
        max_new_tokens (resolveGenerationConfig defaults modelParams (Some stream))
        = max_new_tokens (resolveGenerationConfig defaults modelParams None))
  /\ (forall fromDefaults,
        readNumber (recordOrEmpty (getField modelParams "config")) "max_new_tokens" = None ->
        readNumber modelParams "max_new_tokens" = None ->
        readNumber (recordOrEmpty (getField defaults "config")) "max_new_tokens" = None ->
        readNumber defaults "max_new_tokens" = Some fromDefaults ->
        max_new_tokens (resolveGenerationConfig defaults modelParams None)
        = Some (JS.Num fromDefaults)).
Proof.
  unfold resolveGenerationConfig. split; [|split].
  - intros stream value ->. destruct (streamTemperature stream) as [[t|]|]; reflexivity.
  - intros stream [-> | ->]; destruct (streamTemperature stream) as [[t|]|]; reflexivity.
  - intros fromDefaults H1 H2 H3 H4. simpl. unfold getNumber at 1.
    rewrite H1, H2, H3, H4. reflexivity.
Qed.

End SettingsFacts.

(** ** Classified failures *)

Module FailoverFacts.
Import Agent AttemptSpec StringFacts.

Lemma prefix_lower (h s : string) :
  String.prefix h s = true -> String.prefix (JS.toLowerCase h) (JS.toLowerCase s) = true.
Proof.
  revert s. induction h as [|c h IH]; intros s; [destruct s; reflexivity|].
  destruct s as [|d s]; simpl; [discriminate|].
  destruct (ascii_dec c d) as [-> | Hne]; [|discriminate].
  destruct (ascii_dec (JS.lowerChar d) (JS.lowerChar d)); [apply IH | congruence].
Qed.

Lemma includes_lower (s h : string) :
  JS.includes s h = true -> JS.includes (JS.toLowerCase s) (JS.toLowerCase h) = true.
Proof.
  induction s as [|c s IH]; cbn [JS.includes JS.toLowerCase].
  - destruct (String.prefix h "") eqn:Hp; [|discriminate].
    intros _. apply prefix_lower in Hp. cbn [JS.toLowerCase] in Hp. rewrite Hp. reflexivity.
  - destruct (String.prefix h (String c s)) eqn:Hp.
    + intros _. apply prefix_lower in Hp. cbn [JS.toLowerCase] in Hp. rewrite Hp. reflexivity.
    + intros H. rewrite (IH H). destruct (String.prefix (JS.toLowerCase h) _); reflexivity.
Qed.

Lemma prefix_first c (h s : string) d :
  String.prefix (String c h) (String d s) = true -> c = d.
Proof. simpl. destruct (ascii_dec c d); [auto | discriminate]. Qed.

Lemma includes_nonempty (s h : string) :
  JS.truthy h = true -> JS.includes s h = true -> JS.truthy s = true.
Proof. destruct h; [discriminate|]. destruct s; [discriminate | reflexivity]. Qed.

Lemma includes_trimStart (s h : string) :
  startsWithWhiteSpace h = false -> JS.truthy h = true ->
  JS.includes s h = true -> JS.includes (JS.trimStart s) h = true.
Proof.
  intros Hs Ht. destruct h as [|c h]; [discriminate|]. simpl in Hs.
  induction s as [|d s IH]; [auto|].
  cbn [JS.includes JS.trimStart].
  destruct (JS.isWhiteSpace d) eqn:Hd.
  - destruct (String.prefix (String c h) (String d s)) eqn:Hp; [|exact IH].
    apply prefix_first in Hp. subst d. congruence.
  - intros H. cbn [JS.includes]. exact H.
Qed.

Lemma prefix_trimEnd (h s : string) :
  endsWithWhiteSpace h = false -> JS.truthy h = true ->
  String.prefix h s = true -> String.prefix h (JS.trimEnd s) = true.
Proof.
  revert s. induction h as [|c h IH]; intros s He Ht; [discriminate|].
  destruct s as [|d s]; [discriminate|]. intros Hp.
  pose proof (prefix_first _ _ _ _ Hp) as <-.
  simpl in Hp. destruct (ascii_dec c c) as [_|Hne]; [|congruence].
  destruct h as [|e h].
  - simpl in He. simpl. rewrite He.
    destruct (JS.trimEnd s); simpl; destruct (ascii_dec c c); congruence.
  - assert (Hrec : String.prefix (String e h) (JS.trimEnd s) = true)
      by (apply IH; [exact He | reflexivity | exact Hp]).
    cbn [JS.trimEnd]. destruct (JS.trimEnd s) as [|f r]; [discriminate|].
    cbn [String.prefix]. destruct (ascii_dec c c); [exact Hrec | congruence].
Qed.

Lemma includes_trimEnd (s h : string) :
  endsWithWhiteSpace h = false -> JS.truthy h = true ->
  JS.includes s h = true -> JS.includes (JS.trimEnd s) h = true.
Proof.
  intros He Ht. induction s as [|d s IH]; [auto|].
  cbn [JS.includes]. destruct (String.prefix h (String d s)) eqn:Hp.
  - intros _. apply includes_prefix. apply prefix_trimEnd; assumption.
  - intros H. specialize (IH H).
    pose proof (includes_nonempty _ _ Ht IH) as Hne.
    cbn [JS.trimEnd]. destruct (JS.trimEnd s) as [|f r]; [discriminate|].
    apply includes_tail. exact IH.
Qed.

(** Trimming a message keeps whatever wording it has that neither starts
    nor ends with white space. *)
Lemma includes_trim (s h : string) :
  startsWithWhiteSpace h = false -> endsWithWhiteSpace h = false -> JS.truthy h = true ->
  JS.includes s h = true -> JS.includes (JS.trim s) h = true.
Proof.
  intros Hs He Ht H. unfold JS.trim.
  apply includes_trimEnd; try assumption. apply includes_trimStart; assumption.
Qed.

(** A message that has one of the connectivity wordings keeps it through
    [toFailoverError]. *)
Lemma hint_survives (s h : string) :
  startsWithWhiteSpace h = false -> endsWithWhiteSpace h = false -> JS.truthy h = true ->
  JS.toLowerCase h = h ->
  JS.includes s h = true -> JS.includes (JS.toLowerCase (JS.trim s)) h = true.
Proof.
  intros Hs He Ht Hl H. rewrite <- Hl. apply includes_lower.
  apply includes_trim; assumption.
Qed.

Section WithCollaborators.
Variable C : Collaborators.

(** X12.  The failure [toFailoverError] makes of an error always has a
    message: the error's own message without the white space at its ends,
    or [LLMWS request failed] when nothing is left of it.  When
    [classifyFailoverReason] has a reason for that message, that reason
    is the one of the failure, whatever the error is; only when it has
    none is the reason [timeout], for an error with a connectivity hint,
    or [unknown].  The status is the one of the reason, and the error is
    kept as the cause. *)
Theorem toFailoverError_always_has_message err provider model :
  let failure := toFailoverError C (ThrownError err) provider model in
  JS.truthy (failoverMessage failure) = true
  /\ JS.trim (failoverMessage failure) = failoverMessage failure
  /\ failoverMessage failure
     = (if JS.truthy (JS.trim (message err)) then JS.trim (message err)
        else "LLMWS request failed"%string)
  /\ (forall classified,
        classifyFailoverReason C (failoverMessage failure) = Some classified ->
        reason failure = classified)
  /\ (classifyFailoverReason C (failoverMessage failure) = None ->
      reason failure
      = if hasConnectivityHint err (failoverMessage failure)
        then "timeout"%string else "unknown"%string)
  /\ status failure = resolveFailoverStatus C (reason failure)
  /\ cause failure = Some err
  /\ failedProvider failure = provider /\ failedModel failure = model.
Proof.
  unfold toFailoverError, describeError. cbv zeta.
  cbn [failoverMessage reason status cause failedProvider failedModel].
  set (msg := if JS.truthy (JS.trim (message err)) then JS.trim (message err)
              else "LLMWS request failed"%string).
  assert (Hmsg : JS.truthy msg = true /\ JS.trim msg = msg).
  { subst msg. destruct (JS.truthy (JS.trim (message err))) eqn:Ht.
    - split; [exact Ht | apply trim_idempotent].
    - split; reflexivity. }
  destruct Hmsg as [Htruthy Htrim].
  split; [exact Htruthy|]. split; [exact Htrim|]. split; [reflexivity|].
  split; [|split; [|auto]].
  - intros classified Hclass. rewrite Hclass. reflexivity.
  - intros Hnone. rewrite Hnone. reflexivity.
Qed.

(** The reason given to an error that [classifyFailoverReason] does not
    recognise and whose message has connectivity wording. *)
Lemma worded_error_is_timeout err provider model h :
  In h ["connect timeout"; "read timeout"; "socket closed"; "connection closed";
        "econnrefused"; "econnreset"; "timed out"]%string ->
  JS.includes (message err) h = true ->
  classifyFailoverReason C (JS.trim (message err)) = None ->
  reason (toFailoverError C (ThrownError err) provider model) = "timeout"%string.
Proof.
  intros Hh Hinc Hclass.
  assert (Hkeep : JS.includes (JS.toLowerCase (JS.trim (message err))) h = true).
  { simpl in Hh.
    repeat (destruct Hh as [<- | Hh]; [apply hint_survives; (reflexivity || exact Hinc)|]).
    destruct Hh. }
  assert (Htruthy : JS.truthy (JS.trim (message err)) = true).
  { apply includes_nonempty in Hkeep.
    - rewrite toLowerCase_truthy in Hkeep. exact Hkeep.
    - simpl in Hh. repeat (destruct Hh as [<- | Hh]; [reflexivity|]). destruct Hh. }
  unfold toFailoverError, describeError. simpl. rewrite Htruthy, Hclass.
  unfold hasConnectivityHint. destruct (match code err with Some _ => _ | None => _ end);
    [reflexivity|].
  simpl in Hh.
  repeat (destruct Hh as [<- | Hh];
          [rewrite Hkeep; rewrite ?orb_true_r; reflexivity|]).
  destruct Hh.
Qed.

(** X13.  The errors this module makes itself for a connection that does
    not open in time, a read that times out and a socket that closes are
    never classified [unknown]: when [classifyFailoverReason] has nothing
    to say of them their reason is [timeout], whatever the timeout, the
    close code and the close reason. *)
Theorem transport_errors_are_timeouts provider model :
  (forall connectTimeoutMs,
      classifyFailoverReason C
        (JS.trim (message (Attempt.connectTimeoutError connectTimeoutMs))) = None ->
      reason (toFailoverError C (ThrownError (Attempt.connectTimeoutError connectTimeoutMs))
                provider model) = "timeout"%string)
  /\ (forall timeoutMs,
        classifyFailoverReason C
          (JS.trim (message (MessageQueue.readTimeoutError timeoutMs))) = None ->
        reason (toFailoverError C (ThrownError (MessageQueue.readTimeoutError timeoutMs))
                  provider model) = "timeout"%string)
  /\ (forall closeCode closeReason,
        classifyFailoverReason C
          (JS.trim (message (MessageQueue.socketClosedError closeCode closeReason))) = None ->
        reason (toFailoverError C
                  (ThrownError (MessageQueue.socketClosedError closeCode closeReason))
                  provider model) = "timeout"%string).
Proof.
  split; [|split].
  - intros t. apply (worded_error_is_timeout _ _ _ "connect timeout"); [simpl; auto|].
    apply (includes_mid "LLMWS " "connect timeout" (" (" ++ JS.ofZ t ++ "ms)")).
  - intros t. apply (worded_error_is_timeout _ _ _ "read timeout"); [simpl; auto|].
    apply (includes_mid "LLMWS " "read timeout" (" (" ++ JS.ofZ t ++ "ms)")).
  - intros closeCode closeReason.
    apply (worded_error_is_timeout _ _ _ "socket closed"); [simpl; auto|].
    apply (includes_mid "LLMWS " "socket closed"
             (" (" ++ JS.ofZ closeCode ++ "): " ++ closeReason)).
Qed.

End WithCollaborators.
End FailoverFacts.

(** ** The queue loses nothing and answers every call once *)

Module MessageQueueOrderFacts.
Import MessageQueue MessageQueueOrder.

Lemma delivered_app s1 s2 : delivered (s1 ++ s2) = delivered s1 ++ delivered s2.
Proof.
  induction s1 as [|[id [item|err]] rest IH]; simpl; [reflexivity| |exact IH].
  rewrite IH. reflexivity.
Qed.

Lemma delivered_rejections (f : Waiter -> nat * Settlement) ws :
  (forall w, exists err, snd (f w) = Rejected err) -> delivered (map f ws) = [].
Proof.
  intros Hf. induction ws as [|w rest IH]; simpl; [reflexivity|].
  destruct (Hf w) as [err He]. destruct (f w) as [id s]. simpl in He. subst s. exact IH.
Qed.

Lemma push_order q message :
  settledOrEmpty q ->
  delivered (snd (push q message)) ++ queue (fst (push q message)) = queue q ++ [message]
  /\ settledOrEmpty (fst (push q message)).
Proof.
  unfold settledOrEmpty, push. intros Hq.
  destruct (waiters q) as [|w rest] eqn:Hw; simpl.
  - auto.
  - destruct Hq as [Hq | Hq]; [|discriminate]. rewrite Hq. auto.
Qed.

Lemma onRawData_order parsedLines : forall q,
  settledOrEmpty q ->
  delivered (snd (onRawData q parsedLines)) ++ queue (fst (onRawData q parsedLines))
  = queue q ++ recordsOf parsedLines
  /\ settledOrEmpty (fst (onRawData q parsedLines)).
Proof.
  induction parsedLines as [|parsed rest IH]; intros q Hq; simpl.
  - rewrite app_nil_r. auto.
  - destruct (isRecord parsed) as [message|]; [|apply IH; exact Hq].
    destruct (push_order q message Hq) as [Hp Hq1].
    destruct (push q message) as [q1 s1]. simpl in Hp, Hq1.
    destruct (IH q1 Hq1) as [Hr Hq2].
    destruct (onRawData q1 rest) as [q2 s2]. simpl in *.
    split; [|exact Hq2].
    rewrite delivered_app, <- app_assoc, Hr, app_assoc, Hp, <- app_assoc. reflexivity.
Qed.

Lemma step_order q op :
  settledOrEmpty q ->
  delivered (snd (step q op)) ++ queue (fst (step q op)) = queue q ++ received [op]
  /\ settledOrEmpty (fst (step q op)).
Proof.
  intros Hq. destruct op as [id timeoutMs | [parsedLines | err | closeCode reason] | id];
    simpl; rewrite ?app_nil_r.
  - unfold next, settledOrEmpty in *. destruct (queue q) as [|item rest] eqn:Hqueue.
    + destruct (terminalError q); simpl; rewrite ?Hqueue; auto.
    + simpl. split; [reflexivity|]. destruct Hq as [Hq | Hq]; [discriminate | auto].
  - apply onRawData_order. exact Hq.
  - unfold fail, settledOrEmpty. simpl. split; [|auto].
    rewrite delivered_rejections; [reflexivity | intros w; eexists; reflexivity].
  - unfold fail, settledOrEmpty. simpl. split; [|auto].
    rewrite delivered_rejections; [reflexivity | intros w; eexists; reflexivity].
  - unfold timerFired, settledOrEmpty in *.
    destruct (removeWaiter id (waiters q)) as [[w rest]|] eqn:Hrm; simpl; [|auto].
    split; [reflexivity|]. destruct Hq as [Hq | Hq]; [auto|].
    rewrite Hq in Hrm. discriminate.
Qed.

Lemma received_app ops more : received (ops ++ more) = received ops ++ received more.
Proof.
  induction ops as [|[id t | [lines | err | c r] | id] rest IH]; simpl; try exact IH.
  - reflexivity.
  - rewrite IH, app_assoc. reflexivity.
Qed.

Lemma run_order ops : forall q,
  settledOrEmpty q ->
  delivered (snd (run q ops)) ++ queue (fst (run q ops)) = queue q ++ received ops
  /\ settledOrEmpty (fst (run q ops)).
Proof.
  induction ops as [|op rest IH]; intros q Hq.
  - simpl. rewrite app_nil_r. auto.
  - change (op :: rest) with ([op] ++ rest) at 3. rewrite received_app. cbn [run].
    destruct (step_order q op Hq) as [Hs Hq1].
    destruct (step q op) as [q1 s1]. cbn [fst snd] in Hs, Hq1.
    destruct (IH q1 Hq1) as [Hr Hq2].
    destruct (run q1 rest) as [q2 s2]. cbn [fst snd] in *.
    split; [|exact Hq2].
    rewrite delivered_app, <- app_assoc, Hr, app_assoc, Hs, <- app_assoc. reflexivity.
Qed.

(** X14.  The queue is first in, first out and loses nothing: whatever
    the callers, the socket and the timers do to a new queue, the messages
    handed to callers, in the order they were handed out, followed by the
    messages still buffered, are exactly the records the socket delivered,
    in the order of their arrival.  Nobody is left waiting while a message
    is buffered. *)
Theorem queue_is_first_in_first_out ops :
  let q := fst (run empty ops) in
  delivered (snd (run empty ops)) ++ queue q = received ops
  /\ (queue q = [] \/ waiters q = []).
Proof.
  destruct (run_order ops empty) as [Hr Hq]; [left; reflexivity|].
  simpl in *. split; [exact Hr | exact Hq].
Qed.

Lemma removeWaiter_perm id ws w rest :
  removeWaiter id ws = Some (w, rest) ->
  waiterId w = id /\ Permutation (id :: map waiterId rest) (map waiterId ws).
Proof.
  revert w rest. induction ws as [|v ws IH]; intros w rest; simpl; [discriminate|].
  destruct (Nat.eqb (waiterId v) id) eqn:Hv.
  - intros [= <- <-]. apply Nat.eqb_eq in Hv. rewrite Hv. auto.
  - destruct (removeWaiter id ws) as [[found r']|]; [|discriminate].
    intros [= <- <-]. destruct (IH found r' eq_refl) as [Hid Hperm].
    split; [exact Hid|]. simpl. rewrite perm_swap. constructor. exact Hperm.
Qed.

Lemma onRawData_ids parsedLines : forall q,
  Permutation (map fst (snd (onRawData q parsedLines))
               ++ waiterIds (fst (onRawData q parsedLines)))
    (waiterIds q).
Proof.
  unfold waiterIds. induction parsedLines as [|parsed rest IH]; intros q; simpl.
  - reflexivity.
  - destruct (isRecord parsed) as [message|]; [|apply IH].
    assert (Hp : Permutation (map fst (snd (push q message))
                              ++ map waiterId (waiters (fst (push q message))))
                   (map waiterId (waiters q))).
    { unfold push. destruct (waiters q) as [|w ws]; simpl; reflexivity. }
    destruct (push q message) as [q1 s1]. simpl in Hp.
    specialize (IH q1). destruct (onRawData q1 rest) as [q2 s2]. simpl in *.
    rewrite map_app, <- app_assoc, IH. exact Hp.
Qed.

Lemma step_ids q op :
  Permutation (map fst (snd (step q op)) ++ waiterIds (fst (step q op)))
    (waiterIds q ++ callIds [op]).
Proof.
  destruct op as [id timeoutMs | [parsedLines | err | closeCode reason] | id];
    cbn [step callIds dispatch]; rewrite ?app_nil_r.
  - unfold next, waiterIds. destruct (queue q) as [|item rest].
    + destruct (terminalError q); simpl.
      * apply Permutation_cons_append.
      * rewrite map_app. reflexivity.
    + simpl. apply Permutation_cons_append.
  - apply onRawData_ids.
  - unfold fail, waiterIds. simpl. rewrite map_map. reflexivity.
  - unfold fail, waiterIds. simpl. rewrite map_map. reflexivity.
  - unfold timerFired, waiterIds.
    destruct (removeWaiter id (waiters q)) as [[w rest]|] eqn:Hrm; simpl; [|reflexivity].
    apply removeWaiter_perm in Hrm. tauto.
Qed.

Lemma run_ids ops : forall q,
  Permutation (map fst (snd (run q ops)) ++ waiterIds (fst (run q ops)))
    (waiterIds q ++ callIds ops).
Proof.
  induction ops as [|op rest IH]; intros q.
  - simpl. rewrite app_nil_r. reflexivity.
  - assert (Hc : callIds (op :: rest) = callIds [op] ++ callIds rest)
      by (destruct op; reflexivity).
    rewrite Hc. cbn [run].
    pose proof (step_ids q op) as Hs. destruct (step q op) as [q1 s1]. cbn [fst snd] in Hs.
    specialize (IH q1). destruct (run q1 rest) as [q2 s2]. cbn [fst snd] in *.
    rewrite map_app, <- app_assoc, IH, !app_assoc.
    apply Permutation_app_tail. exact Hs.
Qed.

(** X15.  The queue answers every call once: whatever the callers, the
    socket and the timers do to a new queue, the calls that were settled,
    counted as often as they were settled, together with the calls still
    waiting are exactly the calls that were made.  So no call is settled
    twice (a timer that has fired takes its waiter out of the queue, a
    message or a failure disarms the timer) and none is forgotten. *)
Theorem every_call_is_settled_once ops :
  Permutation (map fst (snd (run empty ops)) ++ waiterIds (fst (run empty ops)))
    (callIds ops).
Proof.
  pose proof (run_ids ops empty) as H. unfold waiterIds at 2 in H. simpl in H. exact H.
Qed.

End MessageQueueOrderFacts.

(** ** A read and its timer *)

Module ReadFacts.
Import MessageQueue Socket.
Local Open Scope Z_scope.

Lemma onRawData_nobody parsedLines : forall q,
  waiters q = [] ->
  snd (onRawData q parsedLines) = [] /\ waiters (fst (onRawData q parsedLines)) = [].
Proof.
  induction parsedLines as [|parsed rest IH]; intros q Hw; simpl; [auto|].
  destruct (isRecord parsed) as [message|]; [|apply IH; exact Hw].
  unfold push. rewrite Hw.
  destruct (IH (mk (queue q ++ [message]) [] (terminalError q)) eq_refl) as [Hs Hq].
  destruct (onRawData _ rest) as [q2 s2]. simpl in *. subst s2. auto.
Qed.

Lemma dispatch_nobody q ev :
  waiters q = [] -> snd (dispatch q ev) = [] /\ waiters (fst (dispatch q ev)) = [].
Proof.
  intros Hw. destruct ev as [parsedLines | err | closeCode reason]; simpl.
  - apply onRawData_nobody. exact Hw.
  - rewrite Hw. auto.
  - rewrite Hw. auto.
Qed.

Lemma deliverDue_nobody clock pending : forall q,
  waiters q = [] -> waiters (fst (deliverDue clock q pending)) = [].
Proof.
  induction pending as [|[arrival ev] rest IH]; intros q Hw; simpl; [exact Hw|].
  destruct (arrival <=? clock); [|exact Hw].
  apply IH. apply dispatch_nobody. exact Hw.
Qed.

(** What an event does to a queue on which one call waits: nothing, or it
    settles that call and leaves nobody waiting. *)
Lemma dispatch_one_waiter q ev w :
  waiters q = [w] ->
  (snd (dispatch q ev) = [] /\ waiters (fst (dispatch q ev)) = [w])
  \/ (exists s, firstSettlement (snd (dispatch q ev)) = Some s
                /\ waiters (fst (dispatch q ev)) = []).
Proof.
  intros Hw. destruct ev as [parsedLines | err | closeCode reason]; simpl.
  - revert q Hw. induction parsedLines as [|parsed rest IH]; intros q Hw; simpl; [auto|].
    destruct (isRecord parsed) as [message|]; [|apply IH; exact Hw].
    right. unfold push. rewrite Hw.
    destruct (onRawData_nobody rest (mk (queue q) [] (terminalError q)) eq_refl) as [Hs Hq].
    destruct (onRawData _ rest) as [q2 s2]. simpl in *. eauto.
  - right. rewrite Hw. simpl. eauto.
  - right. rewrite Hw. simpl. eauto.
Qed.

Lemma awaitEvents_timer timerAt timeoutMs pending : forall clock q s clock' q' pending',
  waiters q = [mkWaiter 0 timeoutMs] -> clock < timerAt ->
  awaitEvents timerAt timeoutMs clock q pending = (s, clock', q', pending') ->
  waiters q' = []
  /\ (clock' = timerAt -> s = Rejected (readTimeoutError timeoutMs)).
Proof.
  induction pending as [|[arrival ev] rest IH]; intros clock q s clock' q' pending' Hw Hlt;
    simpl.
  - unfold timerFired. rewrite Hw. simpl. intros [= <- <- <- <-]. auto.
  - destruct (arrival <? timerAt) eqn:Harr.
    + apply Z.ltb_lt in Harr.
      destruct (dispatch_one_waiter q ev _ Hw) as [[Hs Hq] | (s0 & Hs & Hq)];
        destruct (dispatch q ev) as [q1 settled]; simpl in Hs, Hq.
      * subst settled. simpl. intros H. eapply IH; [exact Hq | | exact H]. lia.
      * rewrite Hs. intros [= <- <- <- <-]. split; [exact Hq | lia].
    + unfold timerFired. rewrite Hw. simpl. intros [= <- <- <- <-]. auto.
Qed.

(** X16.  A read on a socket nobody else is reading from,
    [await queue.next(timeoutMs)], is settled no later than
    [Math.max(1, timeoutMs)] ms after the call; a message is only ever
    delivered before that moment, and a read still unsettled at that
    moment is rejected with [LLMWS read timeout (<timeoutMs>ms)].  The
    read leaves nobody waiting on the queue. *)
Theorem read_is_settled_by_its_timer st timeoutMs s st' :
  waiters (socketQueue st) = [] ->
  queueNext st timeoutMs = (s, st') ->
  now st <= now st' <= now st + Z.max 1 timeoutMs
  /\ (forall message, s = Resolved message -> now st' < now st + Z.max 1 timeoutMs)
  /\ (now st' = now st + Z.max 1 timeoutMs -> s = Rejected (readTimeoutError timeoutMs))
  /\ waiters (socketQueue st') = []
  /\ log st' = log st.
Proof.
  intros Hw Hnext.
  destruct (AttemptFacts.queueNext_spec st timeoutMs s st' Hnext) as (Hlog & _ & Hclock & Hres).
  split; [exact Hclock|]. split; [intros message ->; apply Hres; eauto|].
  revert Hnext. unfold queueNext.
  pose proof (deliverDue_nobody (now st) (inbound st) (socketQueue st) Hw) as Hq1.
  destruct (deliverDue (now st) (socketQueue st) (inbound st)) as [q1 pending1].
  simpl in Hq1. unfold next. destruct (queue q1) as [|item rest].
  - destruct (terminalError q1) as [err|].
    + intros [= <- <-]. simpl. repeat split; [lia | exact Hq1].
    + destruct (awaitEvents _ _ _ _ _) as [[[s1 clock] q3] pending3] eqn:Ha.
      apply awaitEvents_timer in Ha; [|simpl; rewrite Hq1; reflexivity | lia].
      destruct Ha as [Hq3 Htimer].
      intros [= <- <-]. simpl. repeat split; [exact Htimer | exact Hq3].
  - intros [= <- <-]. simpl. repeat split; [lia | exact Hq1].
Qed.

End ReadFacts.

(** ** The protocol of one attempt *)

Module AttemptProtocol.
Import Attempt AttemptSpec.

Section WithEnvironment.
Variable network : string -> nat -> ServerScript.
Variable randomUUID : nat -> string.
Variable numberToString : Q -> string.

(** The welcome loop skips what is not a welcome and ends on the first
    welcome it is given. *)
Lemma welcomeLoop_shape welcomeDeadline fuel : forall st exit st',
  loop (welcomeBody welcomeDeadline) fuel st = Some (exit, st') ->
  exists skipped,
    Forall (fun m => hasType m "welcome" = false) skipped
    /\ uuids st' = uuids st
    /\ match exit with
       | WelcomeThrow _ => log st' = log st ++ map ActRecv skipped
       | Welcomed session_id =>
           exists welcome,
             hasType welcome "welcome" = true
             /\ session_id = readString welcome "session_id"
             /\ log st' = log st ++ map ActRecv (skipped ++ [welcome])
       end.
Proof.
  induction fuel as [|fuel IH]; intros st exit st'; simpl; [discriminate|].
  unfold welcomeBody at 1. destruct (welcomeDeadline - now st <=? 0)%Z.
  - intros [= <- <-]. exists []. rewrite app_nil_r. auto.
  - destruct (nextMessage st (welcomeDeadline - now st)%Z) as [[err|message] st1] eqn:Hn;
      apply AttemptFacts.nextMessage_spec in Hn; destruct Hn as (Hu & _ & Hl).
    + intros [= <- <-]. exists []. rewrite app_nil_r. auto.
    + destruct Hl as [Hl _]. destruct (hasType message "welcome") eqn:Hw.
      * intros [= <- <-]. exists []. repeat split; [constructor | exact Hu|].
        exists message. auto.
      * intros Hrest. apply IH in Hrest. destruct Hrest as (skipped & Hs & Hu' & Hexit).
        exists (message :: skipped). split; [constructor; assumption|].
        split; [congruence|].
        destruct exit as [err | session_id].
        -- rewrite Hexit, Hl, <- app_assoc. reflexivity.
        -- destruct Hexit as (welcome & H1 & H2 & H3). exists welcome.
           rewrite H3, Hl, <- app_assoc. auto.
Qed.

(** One connection: the hello, what is skipped, the welcome, one
    request, the stream. *)
Lemma connectionBody_shape params generation retried st exit st' :
  connectionBody randomUUID numberToString params generation retried st = Some (exit, st') ->
  exists skipped,
    Forall (fun m => hasType m "welcome" = false) skipped
    /\ ((exists err, exit = ConnThrow err)
        \/ (exists welcome frames sexit sid,
              hasType welcome "welcome" = true
              /\ exit = connExit sid sexit
              /\ streamEnds numberToString generation retried (mkVars None None "")
                   frames sexit
              /\ log st' = log st ++ ActSend (helloPayload (resumeSessionId params))
                                     :: map ActRecv (skipped ++ [welcome])
                                     ++ inferenceRequest params generation
                                     :: map ActRecv frames
              /\ ((readString welcome "session_id" = Some sid /\ uuids st' = uuids st)
                  \/ (readString welcome "session_id" = None
                      /\ sid = randomUUID (uuids st) /\ uuids st' = S (uuids st))))).
Proof.
  unfold connectionBody.
  destruct (sendJson st _) as [[sendErr|] st1] eqn:Hhello;
    [intros [= <- <-]; exists []; split; [constructor | left; eauto]|].
  apply AttemptTermination.sendJson_spec in Hhello.
  destruct Hhello as (_ & Hu1 & _ & _ & Hl1).
  destruct (loop (welcomeBody _) _ _) as [[w st2]|] eqn:Hw; [|discriminate].
  apply welcomeLoop_shape in Hw. destruct Hw as (skipped & Hskip & Hu2 & Hexit).
  rewrite Hu1 in Hu2. rewrite Hl1 in Hexit.
  destruct w as [err | session_id].
  - intros [= <- <-]. exists skipped. split; [exact Hskip|]. left. eauto.
  - destruct Hexit as (welcome & Hwelcome & -> & Hl2).
    match goal with
    | |- context [let '(a, b) := ?x in _] => destruct x as [sid st3] eqn:Hsid
    end.
    assert (Hl3 : log st3 = log st2)
      by (destruct (readString welcome "session_id"); injection Hsid as _ <-; reflexivity).
    destruct (sendJson st3 _) as [[sendErr|] st4] eqn:Hrequest;
      [intros [= <- <-]; exists skipped; split; [exact Hskip | left; eauto]|].
    apply AttemptTermination.sendJson_spec in Hrequest.
    destruct Hrequest as (_ & Hu4 & _ & _ & Hl4).
    destruct (loop (streamBody _ _ _ _) _ _) as [[sexit st5]|] eqn:Hs; [|discriminate].
    apply AttemptFacts.streamLoop_spec in Hs. destruct Hs as (frames & Hl5 & Hu5 & Hends).
    rewrite Hu4 in Hu5. rewrite Hl4 in Hl5.
    intros Hexit. exists skipped. split; [exact Hskip|].
    right. exists welcome, frames, sexit, sid.
    split; [exact Hwelcome|].
    split; [destruct sexit; injection Hexit as <- <-; reflexivity|].
    split; [exact Hends|].
    assert (Hst : st' = st5) by (destruct sexit; injection Hexit as _ <-; reflexivity).
    subst st'. split.
    + rewrite Hl5, Hl3, Hl2. rewrite <- !app_assoc. simpl. rewrite <- ?app_assoc. reflexivity.
    + rewrite Hu5. destruct (readString welcome "session_id") as [id|];
        injection Hsid as <- <-; simpl; [left | right]; auto.
Qed.

Lemma attemptLoop_protocol attemptsLeft params :
  forall st retried generation result st',
  attemptLoop network randomUUID numberToString attemptsLeft params generation retried st
  = Some (inr result, st') ->
  exists before config skipped welcome frames doneFrame sid,
    log st' = before
              ++ ActOpen (target params)
              :: ActSend (helloPayload (resumeSessionId params))
              :: map ActRecv (skipped ++ [welcome])
              ++ inferenceRequest params config
              :: map ActRecv (frames ++ [doneFrame]) ++ [ActClose]
    /\ Forall (fun m => hasType m "welcome" = false) skipped
    /\ hasType welcome "welcome" = true
    /\ hasType doneFrame "done" = true
    /\ sessionId result = Some sid
    /\ (readString welcome "session_id" = Some sid
        \/ (readString welcome "session_id" = None
            /\ exists k, uuids st' = S k /\ sid = randomUUID k)).
Proof.
  induction attemptsLeft as [|n IH]; intros st retried generation result st'; simpl;
    [discriminate|].
  destruct (openLlmwsSocket network (target params) (connectTimeoutMs params) st)
    as [[err|] st1] eqn:Hopen; [discriminate|].
  apply AttemptFacts.openLlmwsSocket_log in Hopen.
  destruct (connectionBody _ _ _ _ _ _) as [[exit st2]|] eqn:Hc; [|discriminate].
  apply connectionBody_shape in Hc.
  destruct Hc as (skipped & Hskip
                  & [(err & ->)
                    | (welcome & frames & sexit & sid & Hw & -> & Hends & Hlog & Hsid)]);
    [discriminate|].
  destruct sexit as [err | final | adjusted]; simpl; [discriminate| |apply IH].
  intros [= <- <-].
  destruct Hends as [(v & err & _ & He) | (init & last & v & -> & Hf & Hh)]; [discriminate|].
  apply AttemptFacts.handleFrame_done in Hh. destruct Hh as (Hdone & _).
  exists (log st), generation, skipped, welcome, init, last, sid.
  split.
  - simpl. rewrite Hlog, Hopen. rewrite <- !app_assoc. simpl. rewrite <- ?app_assoc.
    reflexivity.
  - repeat split; try assumption.
    destruct Hsid as [[Hs _] | (Hs & -> & Hu)]; [left; exact Hs | right].
    split; [exact Hs|]. exists (uuids st1). simpl. auto.
Qed.

(** X17.  A successful attempt kept to the protocol on the socket that
    answered: it sent the hello, skipped whatever came before the first
    welcome frame, sent one inference request after that welcome and
    nothing else, read up to the [done] frame and closed the socket.  The
    session it reports is the [session_id] of that welcome frame or, if
    the frame has none, the identifier it drew from [randomUUID]. *)
Theorem successful_attempt_follows_protocol params st result st' :
  runLlmwsAttempt network randomUUID numberToString params st = Some (inr result, st') ->
  exists before config skipped welcome frames doneFrame sid,
    log st' = before
              ++ ActOpen (target params)
              :: ActSend (helloPayload (resumeSessionId params))
              :: map ActRecv (skipped ++ [welcome])
              ++ inferenceRequest params config
              :: map ActRecv (frames ++ [doneFrame]) ++ [ActClose]
    /\ Forall (fun m => hasType m "welcome" = false) skipped
    /\ hasType welcome "welcome" = true
    /\ hasType doneFrame "done" = true
    /\ sessionId result = Some sid
    /\ (readString welcome "session_id" = Some sid
        \/ (readString welcome "session_id" = None
            /\ exists k, uuids st' = S k /\ sid = randomUUID k)).
Proof.
  unfold runLlmwsAttempt. intros Hrun.
  apply attemptLoop_protocol in Hrun.
  destruct Hrun as (before & config & skipped & welcome & frames & doneFrame & sid & H).
  exists before, config, skipped, welcome, frames, doneFrame, sid. exact H.
Qed.

(** A connection made after the retry never asks for another one. *)
Lemma no_retry_after_retry params generation st exit st' :
  connectionBody randomUUID numberToString params generation true st = Some (exit, st') ->
  forall adjusted, exit <> ConnRetry adjusted.
Proof.
  intros Hc adjusted. apply AttemptFacts.connectionBody_spec in Hc.
  destruct Hc as (pre & [(err & sent & -> & _) | (frames & sexit & sid & -> & Hends & _)]);
    [discriminate|].
  destruct sexit as [err | final | adj]; simpl; try discriminate.
  destruct Hends as [(v & err & _ & He) | (init & last & v & _ & _ & Hh)]; [discriminate|].
  apply AttemptFacts.handleFrame_retry in Hh. destruct Hh as [Hfalse _]. discriminate.
Qed.

Lemma attemptLoop_after_retry n params generation st :
  attemptLoop network randomUUID numberToString (S n) params generation true st
  = attemptLoop network randomUUID numberToString 1 params generation true st.
Proof.
  simpl.
  destruct (openLlmwsSocket network (target params) (connectTimeoutMs params) st)
    as [[err|] st1]; [reflexivity|].
  destruct (connectionBody _ _ _ _ _ _) as [[exit st2]|] eqn:Hc; [|reflexivity].
  destruct exit as [err | result | adjusted]; try reflexivity.
  exfalso. exact (no_retry_after_retry _ _ _ _ _ Hc adjusted eq_refl).
Qed.

(** X18.  The bound of the attempt loop is never what ends it: with any
    larger bound the attempt does the same and ends the same.  The error
    [LLMWS retry failed: server did not accept adjusted token budget]
    that follows the loop is dead code: an error an attempt ends with was
    thrown by [openLlmwsSocket] or inside the [try] block of a
    connection (after which the socket was closed), a connection made
    after the retry never asking for another one. *)
Theorem retry_failed_error_is_unreachable extra params st :
  attemptLoop network randomUUID numberToString (2 + extra) params (generation params) false st
  = runLlmwsAttempt network randomUUID numberToString params st
  /\ forall err st',
       runLlmwsAttempt network randomUUID numberToString params st = Some (inl err, st') ->
       exists config retried st0,
         openLlmwsSocket network (target params) (connectTimeoutMs params) st0
         = (Some err, st')
         \/ exists st1 st2,
              openLlmwsSocket network (target params) (connectTimeoutMs params) st0
              = (None, st1)
              /\ connectionBody randomUUID numberToString params config retried st1
                 = Some (ConnThrow err, st2)
              /\ st' = closeSocket st2.
Proof.
  unfold runLlmwsAttempt.
  change (2 + extra)%nat with (S (S extra)).
  cbn [attemptLoop].
  destruct (openLlmwsSocket network (target params) (connectTimeoutMs params) st)
    as [[err0|] st1] eqn:Hopen.
  { split; [reflexivity|]. intros err st' [= <- <-].
    exists (generation params), false, st. left. exact Hopen. }
  destruct (connectionBody _ _ _ _ _ _) as [[exit st2]|] eqn:Hbody;
    [|split; [reflexivity | discriminate]].
  destruct exit as [err0 | result | adjusted].
  - split; [reflexivity|]. intros err st' [= <- <-].
    exists (generation params), false, st. right. exists st1, st2.
    rewrite Hopen. auto.
  - split; [reflexivity | discriminate].
  - split; [destruct extra as [|extra]; [reflexivity | apply attemptLoop_after_retry]|].
    intros err st'.
    destruct (openLlmwsSocket network (target params) (connectTimeoutMs params)
                (closeSocket st2)) as [[err1|] st3] eqn:Hopen2.
    { intros [= <- <-]. exists adjusted, true, (closeSocket st2). left. exact Hopen2. }
    destruct (connectionBody randomUUID numberToString params adjusted true st3)
      as [[exit st4]|] eqn:Hbody2; [|discriminate].
    destruct exit as [err1 | result | again].
    + intros [= <- <-]. exists adjusted, true, (closeSocket st2). right. exists st3, st4.
      rewrite Hopen2. auto.
    + discriminate.
    + exfalso. exact (no_retry_after_retry _ _ _ _ _ Hbody2 again eq_refl).
Qed.

End WithEnvironment.
End AttemptProtocol.

(** ** Text cut to a budget *)

Module ClipFacts.
Import Clip StringFacts.
Local Open Scope Z_scope.

Lemma length_append (a b : string) :
  String.length (a ++ b) = (String.length a + String.length b)%nat.
Proof. induction a as [|c a IH]; simpl; [reflexivity | now rewrite IH]. Qed.

Lemma len_append (a b : string) : len (a ++ b) = len a + len b.
Proof. unfold len. rewrite length_append. lia. Qed.

Lemma len_nonneg s : 0 <= len s.
Proof. unfold len. lia. Qed.

Lemma len_truthy s : JS.truthy s = true <-> 1 <= len s.
Proof. unfold len. destruct s; simpl; split; (discriminate || lia || reflexivity). Qed.

Lemma length_substring n s :
  String.length (String.substring 0 n s) = Nat.min n (String.length s).
Proof.
  revert s. induction n as [|n IH]; intros s; destruct s as [|c s]; simpl; try reflexivity.
  rewrite IH. reflexivity.
Qed.

Lemma len_sliceTo count s : len (sliceTo count s) = Z.min (Z.max 0 count) (len s).
Proof. unfold sliceTo, len. rewrite length_substring. lia. Qed.

(** A text cut to [available] characters is no longer than that, and is
    the text itself when it fits. *)
Lemma clip_fits ellipsis available s :
  1 <= available ->
  len (clip ellipsis available s) <= available
  /\ (1 <= len s -> 1 <= len (clip ellipsis available s))
  /\ (len s <= available -> clip ellipsis available s = s).
Proof.
  intros Ha. unfold clip. destruct (len s <=? available) eqn:Hfit.
  - apply Z.leb_le in Hfit. auto.
  - apply Z.leb_gt in Hfit. rewrite len_append, len_sliceTo.
    change (len (String ellipsis "")) with 1. repeat split; lia.
Qed.

(** [Array.prototype.join]: the characters of the parts and of the
    separators between them. *)
Lemma len_join sep x rest :
  len (JS.join sep (x :: rest))
  = len x + fold_right (fun part total => len sep + len part + total) 0 rest.
Proof.
  revert x. induction rest as [|y rest IH]; intros x.
  - simpl. lia.
  - change (JS.join sep (x :: y :: rest)) with (x ++ sep ++ JS.join sep (y :: rest))%string.
    rewrite !len_append, IH. simpl. lia.
Qed.

End ClipFacts.

(** ** The history block *)

Module HistoryFacts.
Import History Clip ClipFacts StringSpec StringFacts AttemptSpec.
Local Open Scope Z_scope.

(** *** Normalized transcript text *)

Lemma removeCR_clean s : noCarriageReturn (removeCR s) = true.
Proof.
  induction s as [|c r IH]; simpl; [reflexivity|].
  destruct (isCR c) eqn:Hc; [exact IH | simpl; rewrite Hc, IH; reflexivity].
Qed.

Lemma removeCR_fixed s : noCarriageReturn s = true -> removeCR s = s.
Proof.
  induction s as [|c r IH]; simpl; [reflexivity|].
  intros H. apply andb_prop in H as [Hc Hr]. apply negb_true_iff in Hc.
  rewrite Hc, (IH Hr). reflexivity.
Qed.

Lemma trimStart_clean s : noCarriageReturn s = true -> noCarriageReturn (JS.trimStart s) = true.
Proof.
  induction s as [|c r IH]; simpl; [reflexivity|].
  intros H. destruct (JS.isWhiteSpace c); [|exact H].
  apply andb_prop in H as [_ Hr]. apply IH. exact Hr.
Qed.

Lemma trimEnd_clean s : noCarriageReturn s = true -> noCarriageReturn (JS.trimEnd s) = true.
Proof.
  induction s as [|c r IH]; simpl; [reflexivity|].
  intros H. apply andb_prop in H as [Hc Hr]. specialize (IH Hr).
  destruct (JS.trimEnd r) as [|d r'].
  - destruct (JS.isWhiteSpace c); simpl; [reflexivity | rewrite Hc; reflexivity].
  - simpl in *. rewrite Hc, IH. reflexivity.
Qed.

Lemma collapseLF_clean s : forall run,
  noCarriageReturn s = true -> noCarriageReturn (collapseLF run s) = true.
Proof.
  induction s as [|c r IH]; intros run; simpl; [reflexivity|].
  intros H. apply andb_prop in H as [Hc Hr].
  destruct (isLF c); [destruct (Nat.ltb run 2)|]; simpl; rewrite ?Hc; simpl; auto.
Qed.

Lemma collapseLF_short s : forall run, shortLineFeedRuns run (collapseLF run s) = true.
Proof.
  induction s as [|c r IH]; intros run; simpl; [reflexivity|].
  destruct (isLF c) eqn:Hc.
  - destruct (Nat.ltb run 2) eqn:Hrun; [|apply IH].
    simpl. rewrite Hc, Hrun. apply IH.
  - simpl. rewrite Hc. apply IH.
Qed.

Lemma collapseLF_fixed s : forall run, shortLineFeedRuns run s = true -> collapseLF run s = s.
Proof.
  induction s as [|c r IH]; intros run; simpl; [reflexivity|].
  destruct (isLF c).
  - intros H. apply andb_prop in H as [Hrun Hr]. rewrite Hrun, (IH _ Hr). reflexivity.
  - intros H. rewrite (IH _ H). reflexivity.
Qed.

Lemma isLF_whiteSpace c : isLF c = true -> JS.isWhiteSpace c = true.
Proof. unfold isLF. intros H. apply Ascii.eqb_eq in H. subst c. reflexivity. Qed.

Lemma collapseLF_starts s run :
  startsWithWhiteSpace s = false -> startsWithWhiteSpace (collapseLF run s) = false.
Proof.
  destruct s as [|c r]; simpl; [reflexivity|]. intros Hc.
  destruct (isLF c) eqn:Hlf; [apply isLF_whiteSpace in Hlf; congruence|]. exact Hc.
Qed.

Lemma ends_cons c x :
  JS.truthy x = true -> endsWithWhiteSpace (String c x) = endsWithWhiteSpace x.
Proof. destruct x; [discriminate | reflexivity]. Qed.

Lemma collapseLF_ends s : forall run,
  JS.truthy s = true -> endsWithWhiteSpace s = false ->
  JS.truthy (collapseLF run s) = true /\ endsWithWhiteSpace (collapseLF run s) = false.
Proof.
  induction s as [|c r IH]; intros run; [discriminate|].
  intros _ He. destruct (JS.truthy r) eqn:Hr.
  - rewrite (ends_cons c r Hr) in He. simpl.
    destruct (isLF c); [destruct (Nat.ltb run 2)|].
    + destruct (IH (S run) eq_refl He) as [Ht Hend].
      split; [reflexivity|]. rewrite ends_cons; assumption.
    + apply IH; [reflexivity | exact He].
    + destruct (IH 0%nat eq_refl He) as [Ht Hend].
      split; [reflexivity|]. rewrite ends_cons; assumption.
  - apply truthy_false in Hr. subst r. simpl in *.
    destruct (isLF c) eqn:Hlf; [apply isLF_whiteSpace in Hlf; congruence|].
    simpl. auto.
Qed.

(** What [normalizeTranscriptText] returns has no carriage return, no
    more than two line feeds in a row and no white space at its ends. *)
Lemma normalizeTranscriptText_normal text :
  let result := normalizeTranscriptText text in
  noCarriageReturn result = true
  /\ shortLineFeedRuns 0 result = true
  /\ startsWithWhiteSpace result = false /\ endsWithWhiteSpace result = false.
Proof.
  unfold normalizeTranscriptText.
  destruct (AttemptFacts.trim_tight (removeCR text)) as [Hs He].
  assert (Hcr : noCarriageReturn (JS.trim (removeCR text)) = true)
    by (apply trimEnd_clean, trimStart_clean, removeCR_clean).
  destruct (JS.truthy (JS.trim (removeCR text))) eqn:Ht; cbn [negb]; [|auto].
  split; [apply collapseLF_clean; exact Hcr|].
  split; [apply collapseLF_short|].
  split; [apply collapseLF_starts; exact Hs | apply collapseLF_ends; assumption].
Qed.

Lemma noCarriageReturn_includes s :
  noCarriageReturn s = true -> JS.includes s (String (ascii_of_nat 13) "") = false.
Proof.
  induction s as [|c r IH]; [reflexivity|].
  simpl noCarriageReturn. intros H. apply andb_prop in H as [Hc Hr].
  cbn [JS.includes String.prefix].
  destruct (ascii_dec (ascii_of_nat 13) c) as [<- | Hne]; [discriminate|].
  apply IH. exact Hr.
Qed.

Lemma shortLineFeedRuns_includes s : forall run,
  shortLineFeedRuns run s = true ->
  JS.includes s (JS.LF ++ JS.LF ++ JS.LF) = false
  /\ (run = 1%nat -> String.prefix (JS.LF ++ JS.LF) s = false)
  /\ (run = 2%nat -> String.prefix JS.LF s = false).
Proof.
  change (JS.LF ++ JS.LF ++ JS.LF)%string
    with (String (ascii_of_nat 10) (String (ascii_of_nat 10) (String (ascii_of_nat 10) ""))).
  change (JS.LF ++ JS.LF)%string
    with (String (ascii_of_nat 10) (String (ascii_of_nat 10) "")).
  change JS.LF with (String (ascii_of_nat 10) "").
  induction s as [|c r IH]; intros run; [auto|].
  cbn [shortLineFeedRuns JS.includes]. unfold isLF. rewrite !prefix_cons.
  rewrite (Ascii.eqb_sym (ascii_of_nat 10) c).
  destruct (Ascii.eqb c (ascii_of_nat 10)); cbn [andb].
  - intros H. apply andb_prop in H as [Hrun Hr]. apply Nat.ltb_lt in Hrun.
    destruct (IH _ Hr) as (Hinc & H1 & H2).
    destruct run as [|[|run]]; [| |lia].
    + rewrite (H1 eq_refl). repeat split; [exact Hinc | discriminate..].
    + specialize (H2 eq_refl). rewrite (prefix_longer _ _ _ H2), H2.
      repeat split; [exact Hinc | discriminate].
  - intros Hr. destruct (IH _ Hr) as (Hinc & _ & _). auto.
Qed.

(** X19.  The text [normalizeTranscriptText] returns has no carriage
    return, never three line feeds in a row and no white space at its
    ends, and normalizing it again changes nothing. *)
Theorem normalizeTranscriptText_idempotent text :
  let result := normalizeTranscriptText text in
  JS.includes result (String (ascii_of_nat 13) "") = false
  /\ JS.includes result (JS.LF ++ JS.LF ++ JS.LF) = false
  /\ JS.trim result = result
  /\ normalizeTranscriptText result = result.
Proof.
  destruct (normalizeTranscriptText_normal text) as (Hcr & Hlf & Hs & He). simpl in *.
  set (result := normalizeTranscriptText text) in *.
  split; [apply noCarriageReturn_includes; exact Hcr|].
  split; [apply (shortLineFeedRuns_includes result 0); exact Hlf|].
  split; [apply trim_id; assumption|].
  unfold normalizeTranscriptText at 1.
  rewrite (removeCR_fixed result Hcr), (trim_id result Hs He).
  destruct (JS.truthy result) eqn:Ht; cbn [negb].
  - apply collapseLF_fixed. exact Hlf.
  - apply truthy_false in Ht. symmetry. exact Ht.
Qed.

(** *** The selection of the blocks *)

Import HistorySpec.

Lemma cost_app a b : cost (a ++ b) = cost a + cost b.
Proof. induction a as [|x a IH]; simpl; [reflexivity | rewrite IH; lia]. Qed.

Lemma cost_rev l : cost (rev l) = cost l.
Proof. induction l as [|x l IH]; simpl; [reflexivity|]. rewrite cost_app, IH. simpl. lia. Qed.

Lemma cost_nonneg l : 0 <= cost l.
Proof. induction l as [|x l IH]; simpl; [lia|]. pose proof (len_nonneg x). lia. Qed.

Lemma cost_zero l : cost l = 0 -> l = [].
Proof.
  destruct l as [|x l]; [reflexivity|]. simpl.
  pose proof (len_nonneg x). pose proof (cost_nonneg l). lia.
Qed.

Lemma len_join_blocks blocks :
  blocks <> [] -> len (JS.join (JS.LF ++ JS.LF) blocks) = cost blocks - 2.
Proof.
  destruct blocks as [|x rest]; [congruence|]. intros _.
  assert (H : fold_right (fun part total => len (JS.LF ++ JS.LF) + len part + total) 0 rest
              = cost rest).
  { induction rest as [|y rest IH]; [reflexivity|]. cbn [fold_right cost]. rewrite IH.
    change (len (JS.LF ++ JS.LF)) with 2. lia. }
  rewrite len_join, H. cbn [cost]. lia.
Qed.

Section WithCollaborators.
Variable JSON_parse : string -> option JValue.
Variable isSilentReplyText : string -> bool.
Variable ellipsis : ascii.

(** What the selection loop returns: the blocks it had and those of the
    next entries, as many as the limits allow; or the first block alone,
    cut short, when it is too long by itself. *)
Lemma selectBlocks_spec historyTurns historyChars : forall newestFirst selected usedChars,
  1 <= historyChars ->
  usedChars = cost selected ->
  (selected = [] \/ cost selected - 2 <= historyChars) ->
  let result := selectBlocks ellipsis historyTurns historyChars newestFirst selected usedChars in
  (exists n,
      result = selected ++ map blockOf (firstn n newestFirst)
      /\ (result = [] \/ cost result - 2 <= historyChars)
      /\ Z.of_nat (List.length result) <= Z.max historyTurns (Z.of_nat (List.length selected)))
  \/ (selected = []
      /\ 0 < historyTurns
      /\ exists item older,
           newestFirst = item :: older
           /\ historyChars < len (blockOf item)
           /\ result = [(sliceTo (historyChars - 1) (blockOf item)
                         ++ String ellipsis "")%string]).
Proof.
  induction newestFirst as [|item older IH]; intros selected usedChars Hchars Hused Hinv;
    cbn [selectBlocks].
  - left. exists 0%nat. simpl. rewrite app_nil_r. repeat split; [exact Hinv | lia].
  - destruct (historyTurns <=? Z.of_nat (List.length selected)) eqn:Hturns.
    { left. exists 0%nat. simpl. rewrite app_nil_r. repeat split; [exact Hinv | lia]. }
    apply Z.leb_gt in Hturns.
    destruct ((0 <? usedChars) && (historyChars <? usedChars + len (blockOf item) + 2))%bool
      eqn:Hfull.
    { left. exists 0%nat. simpl. rewrite app_nil_r. repeat split; [exact Hinv | lia]. }
    destruct ((usedChars =? 0) && (historyChars <? len (blockOf item)))%bool eqn:Hlong.
    { apply andb_prop in Hlong as [H0 Hlen]. apply Z.eqb_eq in H0. apply Z.ltb_lt in Hlen.
      assert (Hnil : selected = []) by (apply cost_zero; congruence). subst selected.
      right. simpl in Hturns. repeat split; [lia|]. exists item, older. auto. }
    assert (Hinv' : cost (selected ++ [blockOf item]) - 2 <= historyChars).
    { rewrite cost_app. simpl.
      apply andb_false_iff in Hfull. apply andb_false_iff in Hlong.
      pose proof (cost_nonneg selected) as Hcost.
      destruct (Z.eq_dec usedChars 0) as [Hz | Hnz].
      - destruct Hlong as [H | H]; [apply Z.eqb_neq in H; lia|]. apply Z.ltb_ge in H. lia.
      - destruct Hfull as [H | H]; [apply Z.ltb_ge in H; lia|]. apply Z.ltb_ge in H. lia. }
    destruct (IH (selected ++ [blockOf item]) (usedChars + len (blockOf item) + 2) Hchars)
      as [(n & Hres & Hbound & Hlen) | (Hnil & _)].
    + rewrite cost_app. simpl. lia.
    + right. exact Hinv'.
    + left. exists (S n). simpl. rewrite Hres, <- app_assoc. simpl.
      repeat split; [rewrite <- app_assoc in Hres; simpl in Hres; rewrite <- Hres; exact Hbound|].
      rewrite <- app_assoc in Hres. simpl in Hres. rewrite <- Hres.
      rewrite length_app in Hlen. simpl in Hlen. lia.
    + destruct selected; discriminate.
Qed.

Lemma rev_split {A : Type} (l : list A) n :
  l = rev (skipn n (rev l)) ++ rev (firstn n (rev l)).
Proof. rewrite <- rev_app_distr, firstn_skipn, rev_involutive. reflexivity. Qed.

(** The history block, when there is one. *)
Lemma readHistoryContext_spec raw historyTurns historyChars history :
  readHistoryContext JSON_parse isSilentReplyText ellipsis raw historyTurns historyChars
  = Some history ->
  1 <= historyTurns /\ 1 <= historyChars
  /\ exists text older kept blocks,
       raw = Some text
       /\ parseLines JSON_parse isSilentReplyText (Agent.transcriptLines text) = older ++ kept
       /\ kept <> []
       /\ history = (historyHeader ++ JS.join (JS.LF ++ JS.LF) blocks)%string
       /\ Z.of_nat (List.length blocks) <= historyTurns
       /\ len (JS.join (JS.LF ++ JS.LF) blocks) <= historyChars
       /\ (blocks = map blockOf kept
           \/ exists item,
                kept = [item] /\ historyChars < len (blockOf item)
                /\ blocks = [(sliceTo (historyChars - 1) (blockOf item)
                              ++ String ellipsis "")%string]).
Proof.
  unfold readHistoryContext.
  destruct ((historyTurns <=? 0) || (historyChars <=? 0))%bool eqn:Hlimits; [discriminate|].
  apply orb_false_iff in Hlimits as [Hturns Hchars].
  apply Z.leb_gt in Hturns, Hchars.
  destruct raw as [text|]; [|discriminate].
  destruct (Nat.eqb (List.length (Agent.transcriptLines text)) 0); [discriminate|].
  set (parsed := parseLines JSON_parse isSilentReplyText (Agent.transcriptLines text)).
  destruct (Nat.eqb (List.length parsed) 0); [discriminate|].
  destruct (selectBlocks_spec historyTurns historyChars (rev parsed) [] 0)
    as [(n & Hres & Hbound & Hlen) | (_ & _ & item & rest & Hrev & Hlong & Hres)];
    [lia | reflexivity | left; reflexivity | |].
  - simpl in Hres, Hlen. set (selected := selectBlocks _ _ _ _ _ _) in *.
    destruct (Nat.eqb (List.length selected) 0) eqn:Hempty; [discriminate|].
    apply Nat.eqb_neq in Hempty.
    assert (Hne : selected <> []) by (intros H; rewrite H in Hempty; apply Hempty; reflexivity).
    assert (Hne' : rev selected <> []).
    { intros H. apply Hne. rewrite <- (rev_involutive selected), H. reflexivity. }
    intros [= <-]. split; [lia|]. split; [lia|].
    exists text, (rev (skipn n (rev parsed))), (rev (firstn n (rev parsed))), (rev selected).
    split; [reflexivity|]. split; [apply rev_split|].
    split.
    { intros H. apply Hne'. rewrite Hres, <- map_rev, H. reflexivity. }
    split; [unfold historyHeader; rewrite AttemptFacts.append_assoc; reflexivity|].
    split; [rewrite length_rev; lia|].
    split.
    { rewrite (len_join_blocks _ Hne'), cost_rev. destruct Hbound as [H | H]; [contradiction | exact H]. }
    left. rewrite Hres, map_rev. reflexivity.
  - set (selected := selectBlocks _ _ _ _ _ _) in *. rewrite Hres.
    cbn [List.length Nat.eqb].
    intros [= <-]. split; [lia|]. split; [lia|].
    exists text, (rev rest), [item],
      [(sliceTo (historyChars - 1) (blockOf item) ++ String ellipsis "")%string].
    split; [reflexivity|]. split.
    { change (parsed = rev rest ++ [item]).
      rewrite <- (rev_involutive parsed), Hrev. reflexivity. }
    split; [discriminate|].
    split; [unfold historyHeader; rewrite AttemptFacts.append_assoc; reflexivity|].
    split; [simpl; lia|].
    split; [|right; exists item; auto].
    simpl. rewrite len_append, len_sliceTo. change (len (String ellipsis "")) with 1. lia.
Qed.

(** X20.  The history block keeps to its limits: it is there only when
    both limits are at least 1 and the transcript can be read.  The
    entries of the transcript it shows are at least one and at most
    [historyTurns], and what follows its header, the blocks of these
    entries with the empty lines between them (or the one block cut
    short), takes no more than [historyChars] characters. *)
Theorem history_block_keeps_to_its_limits raw historyTurns historyChars :
  (forall history,
      readHistoryContext JSON_parse isSilentReplyText ellipsis raw historyTurns historyChars
      = Some history ->
      exists text older kept body,
        raw = Some text
        /\ parseLines JSON_parse isSilentReplyText (Agent.transcriptLines text)
           = older ++ kept
        /\ 1 <= Z.of_nat (List.length kept) <= historyTurns
        /\ history = (historyHeader ++ body)%string
        /\ len body <= historyChars
        /\ (body = JS.join (JS.LF ++ JS.LF) (map blockOf kept)
            \/ exists item,
                 kept = [item]
                 /\ body = (sliceTo (historyChars - 1) (blockOf item)
                            ++ String ellipsis "")%string))
  /\ (historyTurns <= 0 \/ historyChars <= 0 \/ raw = None ->
      readHistoryContext JSON_parse isSilentReplyText ellipsis raw historyTurns historyChars
      = None).
Proof.
  split.
  - intros history H. apply readHistoryContext_spec in H.
    destruct H as (Hturns & _ & text & older & kept & blocks & Hraw & Hparsed & Hkept & Hh
                   & Hn & Hlen & Hb).
    exists text, older, kept, (JS.join (JS.LF ++ JS.LF) blocks).
    split; [exact Hraw|]. split; [exact Hparsed|].
    split; [|split; [exact Hh|]; split; [exact Hlen|]].
    + destruct Hb as [-> | (item & -> & _)]; [|simpl; lia].
      rewrite length_map in Hn. destruct kept; [congruence | simpl in *; lia].
    + destruct Hb as [-> | (item & -> & _ & ->)]; [left; reflexivity|].
      right. exists item. split; reflexivity.
  - unfold readHistoryContext. intros [H | [H | ->]].
    + apply Z.leb_le in H. rewrite H. reflexivity.
    + apply Z.leb_le in H. rewrite H, orb_true_r. reflexivity.
    + destruct (_ || _)%bool; reflexivity.
Qed.

(** X21.  The history block shows the latest turns: the entries it is
    made of are the last entries of the transcript that count, none left
    out between them, in the order of the transcript.  When the very last
    entry is too long for the budget by itself, the block is that entry
    alone, cut to [historyChars] characters with the ellipsis at its
    end. *)
Theorem history_block_shows_the_latest_turns raw historyTurns historyChars history :
  readHistoryContext JSON_parse isSilentReplyText ellipsis raw historyTurns historyChars
  = Some history ->
  exists text older kept,
    raw = Some text
    /\ parseLines JSON_parse isSilentReplyText (Agent.transcriptLines text) = older ++ kept
    /\ kept <> []
    /\ (history = (historyHeader ++ JS.join (JS.LF ++ JS.LF) (map blockOf kept))%string
        \/ exists item,
             kept = [item] /\ historyChars < len (blockOf item)
             /\ history = (historyHeader ++ sliceTo (historyChars - 1) (blockOf item)
                           ++ String ellipsis "")%string
             /\ len (sliceTo (historyChars - 1) (blockOf item) ++ String ellipsis "")
                = historyChars).
Proof.
  intros H. apply readHistoryContext_spec in H.
  destruct H as (_ & Hchars & text & older & kept & blocks & Hraw & Hparsed & Hkept & Hh
                 & _ & _ & Hb).
  exists text, older, kept. repeat split; try assumption.
  destruct Hb as [-> | (item & Hone & Hlong & ->)]; [left; exact Hh | right].
  exists item. repeat split; try assumption.
  rewrite len_append, len_sliceTo. change (len (String ellipsis "")) with 1. lia.
Qed.

End WithCollaborators.

End HistoryFacts.

(** ** The context files and the memory block *)

Module BudgetFacts.
Import Clip ClipFacts StringFacts AttemptSpec.
Local Open Scope Z_scope.

Section WithEllipsis.
Variable ellipsis : ascii.

Lemma clampFrom_spec maxTotal maxFile files : forall used,
  1 <= maxFile ->
  let out := ContextFiles.clampFrom ellipsis maxTotal maxFile used files in
  used + ContextFilesSpec.totalChars out <= Z.max used maxTotal
  /\ Forall (fun file =>
               1 <= len (ContextFiles.content file) <= maxFile
               /\ JS.truthy (ContextFiles.path file) = true
               /\ JS.trim (ContextFiles.path file) = ContextFiles.path file
               /\ exists given, In given files
                                /\ ContextFiles.path file = JS.trim (ContextFiles.path given))
       out.
Proof.
  induction files as [|file rest IH]; intros used HmaxFile; cbn [ContextFiles.clampFrom].
  - simpl. split; [lia | constructor].
  - assert (Hrest : forall used',
               used' + ContextFilesSpec.totalChars
                         (ContextFiles.clampFrom ellipsis maxTotal maxFile used' rest)
               <= Z.max used' maxTotal
               /\ Forall (fun f =>
                            1 <= len (ContextFiles.content f) <= maxFile
                            /\ JS.truthy (ContextFiles.path f) = true
                            /\ JS.trim (ContextFiles.path f) = ContextFiles.path f
                            /\ exists given, In given (file :: rest)
                                 /\ ContextFiles.path f = JS.trim (ContextFiles.path given))
                    (ContextFiles.clampFrom ellipsis maxTotal maxFile used' rest)).
    { intros used'. destruct (IH used' HmaxFile) as [Hsum Hall]. split; [exact Hsum|].
      eapply Forall_impl; [|exact Hall]. simpl.
      intros f (H1 & H2 & H3 & given & Hin & Hp).
      split; [exact H1|]. split; [exact H2|]. split; [exact H3|].
      exists given. split; [right; exact Hin | exact Hp]. }
    destruct (maxTotal <=? used) eqn:Hfull; [simpl; split; [lia | constructor]|].
    apply Z.leb_gt in Hfull.
    destruct (negb (JS.truthy (JS.trim (ContextFiles.path file)))
              || negb (JS.truthy (JS.trim (ContextFiles.content file))))%bool eqn:Hblank;
      [apply Hrest|].
    apply orb_false_iff in Hblank as [Hpath Hcontent].
    apply negb_false_iff in Hpath, Hcontent.
    destruct (Z.min maxFile (maxTotal - used) <=? 0) eqn:Havail;
      [simpl; split; [lia | constructor]|].
    apply Z.leb_gt in Havail.
    destruct (clip_fits ellipsis (Z.min maxFile (maxTotal - used))
                (JS.trim (ContextFiles.content file))) as (Hlen & Hne & _); [lia|].
    apply len_truthy in Hcontent. specialize (Hne Hcontent).
    set (clipped := clip ellipsis _ _) in *.
    destruct (JS.truthy clipped) eqn:Hclipped; cbn [negb]; [|apply Hrest].
    destruct (Hrest (used + len clipped)) as [Hsum Hall].
    split; [simpl; lia|].
    constructor; [|exact Hall]. simpl.
    split; [lia|]. split; [exact Hpath|]. split; [apply trim_idempotent|].
    exists file. split; [left; reflexivity | reflexivity].
Qed.

(** X22.  The context files given to the system prompt keep to their
    budget: their contents together take no more than the total budget
    and each no more than the budget of one file; none has an empty path
    or an empty content; every one of them is a file that was given; and
    there is none at all when a budget is below 1. *)
Theorem context_files_keep_to_their_budget files maxTotalChars maxFileChars :
  let out := ContextFiles.clampEmbeddedContextFiles ellipsis files maxTotalChars maxFileChars in
  ContextFilesSpec.totalChars out <= Z.max 0 (Qfloor maxTotalChars)
  /\ Forall (fun file =>
               1 <= len (ContextFiles.content file) <= Qfloor maxFileChars
               /\ JS.truthy (ContextFiles.path file) = true
               /\ exists given, In given files
                                /\ ContextFiles.path file = JS.trim (ContextFiles.path given))
       out
  /\ (Qfloor maxTotalChars < 1 \/ Qfloor maxFileChars < 1 -> out = []).
Proof.
  unfold ContextFiles.clampEmbeddedContextFiles.
  destruct ((Z.max 0 (Qfloor maxTotalChars) <=? 0) || (Z.max 0 (Qfloor maxFileChars) <=? 0))%bool
    eqn:Hlimits.
  - simpl. split; [lia|]. split; [constructor | reflexivity].
  - apply orb_false_iff in Hlimits as [Htotal Hfile].
    apply Z.leb_gt in Htotal, Hfile.
    destruct (clampFrom_spec (Z.max 0 (Qfloor maxTotalChars)) (Z.max 0 (Qfloor maxFileChars))
                files 0) as [Hsum Hall]; [lia|].
    simpl in Hsum, Hall. split; [lia|]. split; [|lia].
    eapply Forall_impl; [|exact Hall]. simpl.
    intros f (H1 & H2 & _ & H4). split; [lia|]. split; [exact H2 | exact H4].
Qed.

(** *** The memory block *)

Lemma snippetLines_spec budget snippets : forall used,
  let lines := MemoryInjection.snippetLines ellipsis budget used snippets in
  (lines = []
   \/ used + fold_right (fun line total => 1 + len line + total) 0 lines <= budget + 1)
  /\ Forall (fun line => String.prefix "- " line = true /\ 3 <= len line) lines.
Proof.
  induction snippets as [|entry rest IH]; intros used; cbn [MemoryInjection.snippetLines].
  - simpl. auto.
  - destruct (budget <=? used); [simpl; auto|].
    destruct (JS.truthy (JS.trim entry)) eqn:Hsnippet; cbn [negb]; [|apply IH].
    destruct (budget - used - 2 <=? 0) eqn:Havail; [simpl; auto|].
    apply Z.leb_gt in Havail.
    destruct (clip_fits ellipsis (budget - used - 2) (JS.trim entry)) as (Hlen & Hne & _);
      [lia|].
    apply len_truthy in Hsnippet. specialize (Hne Hsnippet).
    set (clipped := clip ellipsis _ _) in *.
    destruct (IH (used + 2 + len clipped + 1)) as [Hsum Hall].
    remember (MemoryInjection.snippetLines ellipsis budget (used + 2 + len clipped + 1) rest)
      as more eqn:Hmore. clear Hmore.
    assert (Hline : len ("- " ++ clipped) = 2 + len clipped)
      by (rewrite len_append; reflexivity).
    split.
    + right. cbn [fold_right]. rewrite Hline.
      destruct Hsum as [-> | Hsum]; [cbn [fold_right]; lia | lia].
    + constructor; [|exact Hall]. split; [apply prefix_app | lia].
Qed.

(** X23.  The memory block keeps to its budget: when there is one it is
    the header and at least one snippet line, each snippet line starting
    with [- ], and the whole block takes no more than the budget; there is
    none when the budget is below 1. *)
Theorem memory_block_keeps_to_its_budget snippets budgetChars header :
  (forall block,
      MemoryInjection.formatMemoryInjection ellipsis snippets budgetChars header = Some block ->
      len block <= Qfloor budgetChars
      /\ exists headerText lines,
           block = JS.join JS.LF (headerText :: lines)
           /\ lines <> []
           /\ JS.truthy headerText = true /\ JS.trim headerText = headerText
           /\ Forall (fun line => String.prefix "- " line = true) lines)
  /\ (Qfloor budgetChars < 1 ->
      MemoryInjection.formatMemoryInjection ellipsis snippets budgetChars header = None).
Proof.
  unfold MemoryInjection.formatMemoryInjection.
  destruct (Z.max 0 (Qfloor budgetChars) <=? 0) eqn:Hbudget.
  - split; [discriminate | reflexivity].
  - apply Z.leb_gt in Hbudget. split; [|lia].
    set (given := JS.trim (Settings.orDefault header
                             MemoryInjection.DEFAULT_MEMORY_INJECTION_HEADER)).
    set (headerText := if JS.truthy given then given
                       else MemoryInjection.DEFAULT_MEMORY_INJECTION_HEADER).
    assert (Hheader : JS.truthy headerText = true /\ JS.trim headerText = headerText).
    { subst headerText. destruct (JS.truthy given) eqn:Hg.
      - split; [exact Hg | apply trim_idempotent].
      - split; reflexivity. }
    destruct (snippetLines_spec (Z.max 0 (Qfloor budgetChars)) snippets (len headerText + 1))
      as [Hsum Hall].
    cbv zeta in Hsum, Hall.
    remember (MemoryInjection.snippetLines ellipsis (Z.max 0 (Qfloor budgetChars))
                (len headerText + 1) snippets) as lines eqn:Hlines. clear Hlines.
    intros block. destruct lines as [|line more]; [discriminate|].
    cbn [List.length Nat.leb]. intros [= <-].
    split.
    + change (len (JS.join JS.LF (headerText :: line :: more)) <= Qfloor budgetChars).
      rewrite len_join. change (len JS.LF) with 1.
      destruct Hsum as [H | H]; [discriminate | lia].
    + exists headerText, (line :: more). destruct Hheader as [H1 H2].
      repeat split; try assumption; [discriminate|].
      eapply Forall_impl; [|exact Hall]. simpl. tauto.
Qed.

End WithEllipsis.
End BudgetFacts.

(** ** The media payload *)

Module MediaFacts.
Import Media StringSpec StringFacts AttemptSpec.
Local Open Scope Z_scope.

Lemma afterFirst_none value :
  noSemicolon value = true -> afterFirst ";base64," value = None.
Proof.
  induction value as [|c r IH]; [reflexivity|].
  simpl noSemicolon. intros H. apply andb_prop in H as [Hc Hr]. apply negb_true_iff in Hc.
  cbn [afterFirst]. rewrite prefix_cons, (Ascii.eqb_sym ";"%char c), Hc.
  cbn [andb]. apply IH. exact Hr.
Qed.

Lemma afterFirst_found head payload :
  noSemicolon head = true ->
  afterFirst ";base64," (head ++ ";base64," ++ payload) = Some payload.
Proof.
  induction head as [|c r IH]; [destruct payload; reflexivity|].
  simpl noSemicolon. intros H. apply andb_prop in H as [Hc Hr]. apply negb_true_iff in Hc.
  rewrite append_cons. cbn [afterFirst].
  rewrite prefix_cons, (Ascii.eqb_sym ";"%char c), Hc.
  cbn [andb]. apply IH. exact Hr.
Qed.

(** X24.  [normalizeImageBase64] strips the prefix of a data url: of a
    value made of a head without semicolon, the marker [;base64,] and a
    payload it returns the payload; a value without semicolon, bare
    base64, it only trims. *)
Theorem data_url_is_reduced_to_its_payload :
  (forall head payload,
      noSemicolon head = true ->
      startsWithWhiteSpace head = false -> endsWithWhiteSpace payload = false ->
      normalizeImageBase64 (head ++ ";base64," ++ payload) = payload)
  /\ (forall raw, noSemicolon raw = true -> normalizeImageBase64 raw = JS.trim raw).
Proof.
  split.
  - intros head payload Hsemi Hs He. unfold normalizeImageBase64.
    rewrite trim_id.
    + rewrite (afterFirst_found head payload Hsemi). reflexivity.
    + destruct head; [reflexivity | exact Hs].
    + rewrite !endsWithWhiteSpace_app.
      destruct (JS.truthy payload) eqn:Hp.
      * rewrite (truthy_app_r ";base64," payload Hp). exact He.
      * apply truthy_false in Hp. subst payload. reflexivity.
  - intros raw Hsemi. unfold normalizeImageBase64.
    assert (Hclean : noSemicolon (JS.trim raw) = true).
    { unfold JS.trim.
      assert (Hstart : forall s, noSemicolon s = true -> noSemicolon (JS.trimStart s) = true).
      { induction s as [|c r IH]; simpl; [reflexivity|]. intros H.
        destruct (JS.isWhiteSpace c); [|exact H].
        apply andb_prop in H as [_ Hr]. apply IH. exact Hr. }
      assert (Hend : forall s, noSemicolon s = true -> noSemicolon (JS.trimEnd s) = true).
      { induction s as [|c r IH]; simpl; [reflexivity|]. intros H.
        apply andb_prop in H as [Hc Hr]. specialize (IH Hr).
        destruct (JS.trimEnd r) as [|d r'].
        - destruct (JS.isWhiteSpace c); simpl; [reflexivity | rewrite Hc; reflexivity].
        - simpl in *. rewrite Hc, IH. reflexivity. }
      apply Hend, Hstart. exact Hsemi. }
    rewrite (afterFirst_none _ Hclean). reflexivity.
Qed.

Lemma mediaFrom_spec images : forall i entry,
  In entry (mediaFrom i images) <->
  exists k image,
    nth_error images k = Some image
    /\ JS.truthy (normalizeImageBase64 (Settings.orDefault (data image) "")) = true
    /\ entry = mediaEntry (i + Z.of_nat k)
                 (normalizeImageBase64 (Settings.orDefault (data image) ""))
                 (imageExtension (Settings.orDefault (mimeType image) "")).
Proof.
  induction images as [|image rest IH]; intros i entry; cbn [mediaFrom].
  - split; [intros [] | intros ([|k] & im & H & _); discriminate].
  - assert (Hrest : In entry (mediaFrom (i + 1) rest) <->
                    exists k im,
                      nth_error (image :: rest) (S k) = Some im
                      /\ JS.truthy (normalizeImageBase64 (Settings.orDefault (data im) ""))
                         = true
                      /\ entry = mediaEntry (i + Z.of_nat (S k))
                                   (normalizeImageBase64 (Settings.orDefault (data im) ""))
                                   (imageExtension (Settings.orDefault (mimeType im) ""))).
    { rewrite IH. split; intros (k & im & H1 & H2 & H3); exists k, im;
        (split; [exact H1|]); (split; [exact H2|]); rewrite H3; f_equal; lia. }
    destruct (JS.truthy (normalizeImageBase64 (Settings.orDefault (data image) ""))) eqn:Hd;
      cbn [negb].
    + split.
      * intros [<- | H].
        -- exists 0%nat, image. rewrite Z.add_0_r. auto.
        -- apply Hrest in H. destruct H as (k & im & H). exists (S k), im. exact H.
      * intros ([|k] & im & H1 & H2 & H3).
        -- injection H1 as <-. left. rewrite H3, Z.add_0_r. reflexivity.
        -- right. apply Hrest. exists k, im. auto.
    + rewrite Hrest. split.
      * intros (k & im & H). exists (S k), im. exact H.
      * intros ([|k] & im & H1 & H2 & H3).
        -- injection H1 as <-. congruence.
        -- exists k, im. auto.
Qed.

(** X25.  The media payload has one entry for every image that has data
    and none for the others; an entry is named after the place of its
    image among all the images given, counted from 1, so that an image
    left out leaves a gap in the numbering. *)
Theorem media_entries_are_numbered_by_position images entry :
  In entry (buildMediaPayload (Some images)) <->
  exists k image,
    nth_error images k = Some image
    /\ normalizeImageBase64 (Settings.orDefault (data image) "") <> ""%string
    /\ entry = [("type", JStr "image");
                ("data", JStr (normalizeImageBase64 (Settings.orDefault (data image) "")));
                ("name", JStr ("image-" ++ JS.ofZ (Z.of_nat k + 1)
                               ++ imageExtension (Settings.orDefault (mimeType image) ""))
                               %string)].
Proof.
  unfold buildMediaPayload. rewrite mediaFrom_spec. unfold mediaEntry.
  split; intros (k & image & H1 & H2 & H3); exists k, image;
    (split; [exact H1|]); (split; [apply truthy_true; exact H2 | rewrite H3; reflexivity]).
Qed.

End MediaFacts.

(** ** The call and the transcript *)

Module TranscriptFacts.
Import Agent AgentSpec StringFacts.

Section WithCollaborators.
Variable C : Collaborators.

(** X26.  A call only ever appends to the transcript.  A call that fails
    leaves the file as it was, and so does one whose reply is empty, which
    also returns no payload.  A call that returns a payload returns the
    one reply, which is not empty; the file is then as it was or has grown
    by what [appendTranscriptMessages] writes for the raw prompt and that
    reply. *)
Theorem call_only_appends_to_the_transcript params st disk outcome st' disk' :
  runLlmwsAgent C params st disk = Some (outcome, st', disk') ->
  match outcome with
  | inl _ => disk' = disk
  | inr result =>
      match payloads result with
      | None => disk' = disk
      | Some texts =>
          exists reply,
            texts = [reply] /\ reply <> ""%string
            /\ (disk' = disk
                \/ exists clock drawn,
                     let existing := Settings.orDefault (content disk) "" in
                     content disk'
                     = Some (existing
                             ++ transcriptAppended C
                                  (mkTranscriptParams (callSessionId params)
                                     (workspaceDir params) (prompt params) reply)
                                  existing clock drawn)%string)
      end
  end.
Proof.
  unfold runLlmwsAgent.
  destruct (tryTargets C params _ [] st) as [[[[attemptResult|] errors] st1]|];
    [| intros [= <- <- <-]; reflexivity | discriminate].
  destruct (JS.truthy (stripReasoningTagsFromText C (text attemptResult))) eqn:Hreply.
  - unfold appendTranscriptMessages.
    destruct (lockError disk) as [lockErr|];
      [intros [= <- <- <-]; simpl; eexists; repeat split;
       [apply truthy_true; exact Hreply | left; reflexivity]|].
    destruct (readError disk) as [readErr|];
      [destruct (afterRelease disk _); intros [= <- <- <-]; simpl; eexists; repeat split;
       try (apply truthy_true; exact Hreply); left; reflexivity|].
    destruct (appendError disk) as [appendErr|];
      [destruct (afterRelease disk _); intros [= <- <- <-]; simpl; eexists; repeat split;
       try (apply truthy_true; exact Hreply); left; reflexivity|].
    destruct (afterRelease disk None); intros [= <- <- <-]; simpl; eexists;
      (split; [reflexivity|]); (split; [apply truthy_true; exact Hreply|]);
      right; exists (now st1), (uuids st1); destruct (content disk); reflexivity.
  - intros [= <- <- <-]. reflexivity.
Qed.

(** X27.  A transcript without a [session] header gets one: when the
    lock, the read, the write and the release of the lock succeed and no
    line of the file has the type [session] (the file may be missing or
    empty), the append writes three entries.  Read back field by field they are the header, with the
    session id, the first reading of the clock and the resolved workspace;
    the user entry, whose [parentId] is the id of the last message of the
    file ([null] if there is none); and the assistant entry, whose
    [parentId] is the id of the user entry and whose time stamp is the
    second reading of the clock.  A missing file then holds these three
    lines and nothing else. *)
Theorem append_writes_the_missing_header transcript st disk :
  let existing := Settings.orDefault (content disk) "" in
  lockError disk = None -> readError disk = None ->
  appendError disk = None -> releaseError disk = None ->
  existsb (lineHasType C "session") (transcriptLines existing) = false ->
  exists header userEntry assistantEntry,
    transcriptAdditions C transcript existing (now st) (uuids st)
    = [header; userEntry; assistantEntry]
    /\ saysSession header (transcriptSessionId transcript) (toISOString C (now st))
         (pathResolve C (transcriptWorkspaceDir transcript))
    /\ saysMessage userEntry (randomUUID C (uuids st))
         (lastOf (messageIds C (transcriptLines existing))) (toISOString C (now st))
         "user" (userText transcript)
    /\ saysMessage assistantEntry (randomUUID C (S (uuids st)))
         (Some (randomUUID C (uuids st))) (toISOString C (nowAgain C (now st)))
         "assistant" (assistantText transcript)
    /\ exists st' added,
         appendTranscriptMessages C transcript st disk
         = (None, st', mkDisk None None None None (Some (existing ++ added)%string))
         /\ uuids st' = S (S (uuids st))
         /\ (content disk = None ->
             added = (JSON_stringify C header ++ JS.LF ++ JSON_stringify C userEntry
                      ++ JS.LF ++ JSON_stringify C assistantEntry ++ JS.LF)%string).
Proof.
  intros existing Hlock Hread Happend Hrelease Hheader.
  pose proof (AgentFacts.transcriptAdditions_without_header C transcript existing (now st)
                (uuids st) Hheader) as Hadd.
  eexists _, _, _. split; [exact Hadd|].
  split; [apply AgentFacts.sessionHeader_says|].
  split; [apply AgentFacts.messageEntry_says|].
  split; [apply AgentFacts.messageEntry_says|].
  exists (mkState (nowAgain C (now st)) (log st) (S (S (uuids st))) (socketQueue st)
            (inbound st) (outbound st)),
    (transcriptAppended C transcript existing (now st) (uuids st)).
  split; [|split; [reflexivity|]].
  - unfold appendTranscriptMessages, afterRelease. rewrite Hlock, Hread, Happend, Hrelease.
    subst existing. destruct (content disk); reflexivity.
  - intros Hmissing. unfold transcriptAppended. rewrite Hadd.
    subst existing. rewrite Hmissing.
    change (Settings.orDefault None ""%string) with ""%string.
    rewrite AgentFacts.transcriptLines_empty.
    cbn [List.length Nat.eqb negb andb map JS.join].
    change ("" ++ ?x)%string with x.
    rewrite !AttemptFacts.append_assoc. reflexivity.
Qed.

(** The lines of a transcript after two lines were appended to it. *)
Lemma transcriptLines_two_more existing userLine assistantLine :
  noLineBreak userLine = true -> noLineBreak assistantLine = true ->
  JS.truthy (JS.trim userLine) = true -> JS.truthy (JS.trim assistantLine) = true ->
  transcriptLines
    (existing ++ (if JS.endsWithChar existing (ascii_of_nat 10) then "" else JS.LF)
     ++ userLine ++ JS.LF ++ assistantLine ++ JS.LF)
  = transcriptLines existing ++ [JS.trim userLine; JS.trim assistantLine].
Proof.
  intros Hub Hab Hut Hat.
  assert (Htail : transcriptLines (userLine ++ JS.LF ++ assistantLine ++ JS.LF)
                  = [JS.trim userLine; JS.trim assistantLine]).
  { rewrite AgentFacts.transcriptLines_app_LF,
      (AgentFacts.transcriptLines_noLineBreak _ Hub Hut).
    change (assistantLine ++ JS.LF)%string with (assistantLine ++ JS.LF ++ "")%string.
    rewrite AgentFacts.transcriptLines_app_LF,
      (AgentFacts.transcriptLines_noLineBreak _ Hab Hat).
    reflexivity. }
  set (tail := (userLine ++ JS.LF ++ assistantLine ++ JS.LF)%string) in *.
  destruct (JS.endsWithChar existing (ascii_of_nat 10)) eqn:Hends.
  - apply AgentFacts.endsWithChar_split in Hends. destruct Hends as (e & He).
    assert (Hold : transcriptLines existing = transcriptLines e).
    { rewrite He. change (String (ascii_of_nat 10) "") with (JS.LF ++ "")%string.
      rewrite AgentFacts.transcriptLines_app_LF, AgentFacts.transcriptLines_empty, app_nil_r.
      reflexivity. }
    assert (Heq : (existing ++ "" ++ tail)%string = (e ++ JS.LF ++ tail)%string).
    { rewrite He, AttemptFacts.append_assoc. reflexivity. }
    rewrite Heq, AgentFacts.transcriptLines_app_LF, Htail, Hold. reflexivity.
  - rewrite AgentFacts.transcriptLines_app_LF, Htail. reflexivity.
Qed.

Lemma lastOf_snoc ids id : lastOf (ids ++ [id]) = Some id.
Proof.
  induction ids as [|x ids IH]; [reflexivity|].
  simpl app. destruct (ids ++ [id]) eqn:H; [destruct ids; discriminate|].
  exact IH.
Qed.

(** The id a [message] entry is read to have, as the scan of the next
    append reads it. *)
Lemma saysMessage_id entry id parentId timestamp role text line :
  saysMessage entry id parentId timestamp role text ->
  JSON_parse C line = Some entry ->
  JS.truthy id = true -> JS.trim id = id ->
  messageIdOf C line = Some id.
Proof.
  intros (_ & Htype & Hid & _) Hparse Htruthy Htrim.
  unfold messageIdOf, lineHasType, lineType. rewrite Hparse.
  destruct entry as [| | | | | |fields]; try discriminate.
  unfold fieldOf in Htype, Hid. rewrite Htype. simpl.
  unfold readString. rewrite Hid, Htrim, Htruthy. reflexivity.
Qed.

(** X28.  Turns are chained across appends: after a turn was appended to
    a transcript that has its header, the next append writes no header,
    and the [parentId] field of its user entry is the id of the assistant
    entry of that turn.  This holds when the lock, the read, the write
    and the release of the lock succeed, [JSON.stringify] gives the two
    entries written as one line each, without line breaks, that
    [JSON.parse] reads back, and the assistant's identifier is not blank
    and has no white space at its ends. *)
Theorem next_turn_is_chained_to_this_one transcript st disk existing next clock
    userEntry assistantEntry :
  let assistantId := randomUUID C (S (uuids st)) in
  let userLine := JSON_stringify C userEntry in
  let assistantLine := JSON_stringify C assistantEntry in
  lockError disk = None -> readError disk = None ->
  appendError disk = None -> releaseError disk = None ->
  content disk = Some existing ->
  existsb (lineHasType C "session") (transcriptLines existing) = true ->
  transcriptAdditions C transcript existing (now st) (uuids st)
  = [userEntry; assistantEntry] ->
  noLineBreak userLine = true -> noLineBreak assistantLine = true ->
  JSON_parse C (JS.trim userLine) = Some userEntry ->
  JSON_parse C (JS.trim assistantLine) = Some assistantEntry ->
  JS.truthy (JS.trim userLine) = true -> JS.truthy (JS.trim assistantLine) = true ->
  JS.truthy assistantId = true -> JS.trim assistantId = assistantId ->
  exists st1 written nextUser nextAssistant,
    appendTranscriptMessages C transcript st disk
    = (None, st1, mkDisk None None None None (Some written))
    /\ uuids st1 = S (S (uuids st))
    /\ transcriptAdditions C next written clock (uuids st1) = [nextUser; nextAssistant]
    /\ saysMessage nextUser (randomUUID C (uuids st1)) (Some assistantId)
         (toISOString C clock) "user" (userText next)
    /\ saysMessage nextAssistant (randomUUID C (S (uuids st1)))
         (Some (randomUUID C (uuids st1))) (toISOString C (nowAgain C clock))
         "assistant" (assistantText next).
Proof.
  intros assistantId userLine assistantLine
    Hlock Hread Happend Hrelease Hcontent Hheader Hadd Hub Hab Hup Hap Hut Hat Hid Htrim.
  pose proof (AgentFacts.transcriptAdditions_with_header C transcript existing (now st)
                (uuids st) Hheader) as Hadd'.
  rewrite Hadd in Hadd'. injection Hadd' as HuserEntry HassistantEntry.
  assert (Hlines : transcriptLines existing <> []).
  { intros Hnil. rewrite Hnil in Hheader. discriminate. }
  set (written := (existing
                   ++ (if JS.endsWithChar existing (ascii_of_nat 10) then "" else JS.LF)
                   ++ userLine ++ JS.LF ++ assistantLine ++ JS.LF)%string).
  assert (Hnew : transcriptLines written
                 = transcriptLines existing ++ [JS.trim userLine; JS.trim assistantLine])
    by (apply transcriptLines_two_more; assumption).
  assert (Hsession : existsb (lineHasType C "session") (transcriptLines written) = true).
  { rewrite Hnew, existsb_app, Hheader. reflexivity. }
  assert (Hlast : messageIdOf C (JS.trim assistantLine) = Some assistantId).
  { apply (saysMessage_id assistantEntry assistantId (Some (randomUUID C (uuids st)))
             (toISOString C (nowAgain C (now st))) "assistant" (assistantText transcript));
      try assumption.
    rewrite HassistantEntry. apply AgentFacts.messageEntry_says. }
  assert (Hids : lastOf (messageIds C (transcriptLines written)) = Some assistantId).
  { rewrite Hnew. change [JS.trim userLine; JS.trim assistantLine]
      with ([JS.trim userLine] ++ [JS.trim assistantLine]).
    rewrite app_assoc, AgentFacts.messageIds_app.
    cbn [messageIds]. rewrite Hlast. apply lastOf_snoc. }
  exists (mkState (nowAgain C (now st)) (log st) (S (S (uuids st))) (socketQueue st)
            (inbound st) (outbound st)), written.
  eexists _, _.
  split; [|split; [reflexivity|]].
  - unfold appendTranscriptMessages, afterRelease.
    rewrite Hlock, Hread, Happend, Hrelease, Hcontent.
    unfold transcriptAppended. rewrite Hadd.
    destruct (transcriptLines existing) as [|l ls]; [contradiction|].
    subst written. cbn [List.length Nat.eqb negb andb map JS.join app].
    destruct (JS.endsWithChar existing (ascii_of_nat 10)); cbn [negb];
      rewrite ?AttemptFacts.append_assoc; reflexivity.
  - cbn [uuids].
    rewrite (AgentFacts.transcriptAdditions_with_header C next written clock _ Hsession), Hids.
    split; [reflexivity|]. split; apply AgentFacts.messageEntry_says.
Qed.

End WithCollaborators.
End TranscriptFacts.


(** ** The claims on concrete runs *)

Module Runs.
Import Scenarios.

(** The defective server of the retry test: the second request asks for
    232 tokens. *)
Example defective_server_is_asked_for_232 :
  option_map (fun r => (openedTargets (log (snd r)), AttemptSpec.configsSent (log (snd r))))
    (Attempt.runLlmwsAttempt defectiveServer uuid renderInteger (attemptOn 5000) atStart)
  = Some ([endpoint; endpoint], [budget32; withMaxNewTokens budget32 (JS.Num 232)]).
Proof. vm_compute. reflexivity. Qed.

(** Beyond [2 ** 53] the budget and the total are the binary64 values
    nearest to the exact ones: with [tokens_in = 2 ** 53] and a budget of 1
    the retry asks for [2 ** 54], and [2 ** 53] tokens in and 1 out are
    [2 ** 53] in total. *)
Example large_counts_are_rounded :
  AttemptSpec.adjustedBudget (inject_Z (2 ^ 53)) 1 = JS.Num (inject_Z 18014398509481984)
  /\ AttemptSpec.tokenSum (Some (inject_Z (2 ^ 53))) (Some 1%Q)
     = JS.Num (inject_Z 9007199254740992).
Proof. vm_compute. split; reflexivity. Qed.

(** A socket that does not take the request ends the attempt with the
    error of the send, 7 ms after it opened: nothing is read after the
    welcome. *)
Example refused_request_ends_the_attempt :
  option_map (fun r => (fst r, log (snd r), now (snd r)))
    (Attempt.runLlmwsAttempt hangingUpServer uuid renderInteger (attemptOn 5000) atStart)
  = Some (inl socketNotOpen,
          [ActOpen endpoint; ActSend (HelloPayload None); ActRecv welcomeFrame; ActClose],
          7%Z).
Proof. vm_compute. reflexivity. Qed.

Lemma budget_retry_single_shot_witness :
  exists outcome st',
    Attempt.runLlmwsAttempt defectiveServer uuid renderInteger (attemptOn 5000) atStart
    = Some (outcome, st')
    /\ AttemptSpec.retriesAtMostOnce renderInteger (attemptOn 5000) atStart outcome st'.
Proof.
  destruct (Attempt.runLlmwsAttempt defectiveServer uuid renderInteger (attemptOn 5000) atStart)
    as [[outcome st']|] eqn:Hrun.
  - exists outcome, st'. split; [reflexivity|].
    apply (AttemptFacts.budget_retry_single_shot defectiveServer uuid renderInteger).
    exact Hrun.
  - exfalso. vm_compute in Hrun. discriminate.
Defined.

(** C1, counterexample to the claim as worded.  The start frame reports
    the numbers [tokens_in = 0] and [max_tokens = 0], so [max_tokens <=
    tokens_in], it is the first such frame of the call and a budget of 32
    is configured; yet the attempt does not restart: it reads on from the
    same socket, sends no second request and returns the reply. *)
Lemma start_without_tokens_is_not_retried :
  let run :=
    Attempt.runLlmwsAttempt emptyPromptServer uuid renderInteger (attemptOn 5000) atStart in
  readNumber (startFrame 0 0) "tokens_in" = Some 0%Q
  /\ readNumber (startFrame 0 0) "max_tokens" = Some 0%Q
  /\ Qle_bool 0 0 = true
  /\ option_map (fun r => AttemptSpec.streamFrames (log (snd r))) run
     = Some [startFrame 0 0; tokenFrame "ok"; doneFrame 1]
  /\ option_map (fun r => openedTargets (log (snd r))) run = Some [endpoint]
  /\ option_map (fun r => AttemptSpec.configsSent (log (snd r))) run = Some [budget32]
  /\ option_map (fun r => match fst r with
                          | inr result => Some (text result)
                          | inl _ => None
                          end) run = Some (Some "ok"%string).
Proof. vm_compute. repeat split. Qed.

Lemma attempt_text_is_token_concatenation_witness :
  exists result st',
    Attempt.runLlmwsAttempt helloServer uuid renderInteger (attemptOn 5000) atStart
    = Some (inr result, st')
    /\ text result = "hello world"%string
    /\ AttemptSpec.returnsTrimmedTokenText (attemptOn 5000) st' result.
Proof.
  destruct (Attempt.runLlmwsAttempt helloServer uuid renderInteger (attemptOn 5000) atStart)
    as [[[err|result] st']|] eqn:Hrun;
    [exfalso; vm_compute in Hrun; discriminate | | exfalso; vm_compute in Hrun; discriminate].
  exists result, st'. split; [reflexivity|]. split.
  - vm_compute in Hrun. injection Hrun as <- _. reflexivity.
  - apply (AttemptFacts.attempt_text_is_token_concatenation helloServer uuid renderInteger
             (attemptOn 5000) atStart).
    exact Hrun.
Defined.

Lemma attempt_usage_from_start_and_done_witness :
  exists result st',
    Attempt.runLlmwsAttempt helloServer uuid renderInteger (attemptOn 5000) atStart
    = Some (inr result, st')
    /\ usage result = Some (mkUsage (Some 10%Q) (Some 2%Q) (Some (JS.Num 12)))
    /\ AttemptSpec.reportsUsage (attemptOn 5000) st' result.
Proof.
  destruct (Attempt.runLlmwsAttempt helloServer uuid renderInteger (attemptOn 5000) atStart)
    as [[[err|result] st']|] eqn:Hrun;
    [exfalso; vm_compute in Hrun; discriminate | | exfalso; vm_compute in Hrun; discriminate].
  exists result, st'. split; [reflexivity|]. split.
  - vm_compute in Hrun. injection Hrun as <- _. reflexivity.
  - apply (AttemptFacts.attempt_usage_from_start_and_done helloServer uuid renderInteger
             (attemptOn 5000) atStart).
    exact Hrun.
Defined.

Lemma read_deadline_resets_in_stream_only_witness :
  let opened := snd (Attempt.openLlmwsSocket steadyStreamServer endpoint 8000 atStart) in
  exists exit st',
    Attempt.connectionBody uuid renderInteger (attemptOn 100) budget32 false opened
    = Some (exit, st')
    /\ now opened = 0%Z /\ now st' = 200%Z
    /\ AttemptSpec.keepsReadDeadlines (attemptOn 100) budget32 opened exit st'.
Proof.
  intros opened.
  destruct (Attempt.connectionBody uuid renderInteger (attemptOn 100) budget32 false opened)
    as [[exit st']|] eqn:Hbody; [|exfalso; vm_compute in Hbody; discriminate].
  exists exit, st'. split; [reflexivity|]. split; [reflexivity|].
  split; [vm_compute in Hbody; injection Hbody as _ <-; reflexivity|].
  apply (AttemptFacts.read_deadline_resets_in_stream_only uuid renderInteger
           (attemptOn 100) budget32 false opened).
  exact Hbody.
Defined.

(** C3, counterexample to the claim as worded.  With a read timeout of
    100 ms the server sends an init record 60 ms after the socket opened
    and the welcome 60 ms after that: the socket is never idle for 100 ms.
    The welcome loop still gives up at 100 ms, its second read having been
    allowed the 40 ms left of the deadline set at the start.  The same
    rhythm after the welcome is accepted by the stream loop, 200 ms long. *)
Lemma welcome_deadline_is_not_reset :
  option_map (fun r => (fst r, now (snd r), log (snd r)))
    (Attempt.runLlmwsAttempt steadyServer uuid renderInteger (attemptOn 100) atStart)
  = Some (inl (MessageQueue.readTimeoutError 40), 100%Z,
          [ActOpen endpoint; ActSend (HelloPayload None); ActRecv initFrame; ActClose])
  /\ option_map (fun r => (match fst r with
                           | inr result => Some (text result)
                           | inl _ => None
                           end, now (snd r)))
       (Attempt.runLlmwsAttempt steadyStreamServer uuid renderInteger (attemptOn 100) atStart)
     = Some (Some "ok"%string, 200%Z).
Proof. vm_compute. split; reflexivity. Qed.

Lemma fail_is_sticky_witness :
  let q := fst (MessageQueue.next MessageQueue.empty 7 1000) in
  let err := MessageQueue.socketClosedError 1006 "" in
  let ops := [MessageQueue.OpEvent (WsError (newError "late")); MessageQueue.OpNext 8 500] in
  let q2 := fst (MessageQueue.run (fst (MessageQueue.fail q err)) ops) in
  let tail := [("type", JStr "token"); ("data", JStr "tail")] in
  let buffered := fst (MessageQueue.push MessageQueue.empty tail) in
  let late := [MessageQueue.OpEvent (WsError (newError "late"))] in
  let q3 := fst (MessageQueue.run (fst (MessageQueue.fail buffered err)) late) in
  MessageQueue.queue q2 = []
  /\ snd (MessageQueue.fail q err) = [(7%nat, MessageQueue.Rejected err)]
  /\ MessageQueue.next q2 9 500 = (q2, MessageQueue.Now (MessageQueue.Rejected err))
  /\ MessageQueue.queue q3 = [tail]
  /\ MessageQueue.next q3 9 500
     = (MessageQueue.mk [] [] (Some err), MessageQueue.Now (MessageQueue.Resolved tail)).
Proof.
  intros q err ops q2 tail buffered late q3.
  destruct (MessageQueueFacts.fail_is_sticky q err ops) as (H1 & _ & _ & _ & _ & _ & H7 & _).
  split; [reflexivity|]. split; [exact H1|]. split; [apply H7; reflexivity|].
  split; [reflexivity|].
  destruct (MessageQueueFacts.fail_is_sticky buffered err late)
    as (_ & _ & _ & _ & _ & _ & _ & H8 & _).
  apply H8. reflexivity.
Defined.

Lemma failover_tries_targets_in_order_witness :
  let C := collaborators deadServers [] in
  let params := callOn [mkTarget closingUrl []; mkTarget refusingUrl []] in
  exists outcome st' disk',
    Agent.runLlmwsAgent C params atStart noFile = Some (outcome, st', disk')
    /\ AgentSpec.failsOver C params atStart noFile outcome st' disk'.
Proof.
  intros C params.
  destruct (Agent.runLlmwsAgent C params atStart noFile) as [[[outcome st'] disk']|] eqn:Hrun.
  - exists outcome, st', disk'. split; [reflexivity|].
    apply AgentFacts.failover_tries_targets_in_order. exact Hrun.
  - exfalso. vm_compute in Hrun. discriminate.
Defined.

(** C5, counterexample to the claim as worded.  The only target accepts
    the socket and closes it without a reason, so its error is
    [LLMWS socket closed (1006): ], ending in a space.  The failure raised
    is classified, yet its message does not contain the error string of
    the target: the space at its end is gone. *)
Lemma last_detail_loses_its_trailing_space :
  let run :=
    Agent.runLlmwsAgent (collaborators deadServers []) (callOn [mkTarget closingUrl []])
      atStart noFile in
  let detail := Agent.endpointError closingUrl (MessageQueue.socketClosedError 1006 "") in
  detail = "ws://127.0.0.1:9003: LLMWS socket closed (1006): "%string
  /\ option_map (fun r => match fst (fst r) with
                          | inl failure =>
                              Some (Agent.failoverMessage failure, Agent.reason failure,
                                    JS.includes (Agent.failoverMessage failure) detail)
                          | inr _ => None
                          end) run
     = Some (Some ("LLMWS endpoints failed: ws://127.0.0.1:9003: LLMWS socket closed (1006):"%string,
                   "timeout"%string, false)).
Proof. vm_compute. split; reflexivity. Qed.

Lemma lock_failure_is_logged_not_raised_witness :
  let C := collaborators twoServers [] in
  let params := callOn [visionTarget] in
  let lockErr := newError "session file locked (timeout 10000ms)" in
  exists attemptResult errors st1,
    Agent.lockError lockedFile = Some lockErr
    /\ Agent.tryTargets C params (Agent.targets (Agent.runtimeSettings params)) [] atStart
       = Some (Some attemptResult, errors, st1)
    /\ JS.truthy (Agent.stripReasoningTagsFromText C (text attemptResult)) = true
    /\ exists r,
         Agent.runLlmwsAgent C params atStart lockedFile
         = Some (inr r, logAction st1 (Agent.transcriptWarning lockErr), lockedFile)
         /\ Agent.payloads r = Some [Agent.stripReasoningTagsFromText C (text attemptResult)].
Proof.
  intros C params lockErr.
  destruct (Agent.tryTargets C params (Agent.targets (Agent.runtimeSettings params)) [] atStart)
    as [[[[attemptResult|] errors] st1]|] eqn:Htry;
    [| exfalso; vm_compute in Htry; discriminate | exfalso; vm_compute in Htry; discriminate].
  assert (Htruthy : JS.truthy (Agent.stripReasoningTagsFromText C (text attemptResult)) = true)
    by (vm_compute in Htry; injection Htry as <- _ _; reflexivity).
  exists attemptResult, errors, st1.
  split; [reflexivity|]. split; [reflexivity|]. split; [exact Htruthy|].
  exact (proj2 (AgentFacts.lock_failure_is_logged_not_raised C params atStart lockedFile
                  lockErr attemptResult errors st1 eq_refl Htry Htruthy)).
Defined.

(** C6, counterexample to the claim as worded.  The lock on the transcript
    is not obtained; the call does not fail: it returns the reply, logs a
    warning and leaves the file as it was. *)
Lemma lock_timeout_does_not_fail_the_call :
  option_map (fun r => (match fst (fst r) with
                        | inr result => Some (Agent.payloads result)
                        | inl _ => None
                        end,
                        List.last (log (snd (fst r))) ActClose,
                        snd r))
    (Agent.runLlmwsAgent (collaborators twoServers []) (callOn [visionTarget])
       atStart lockedFile)
  = Some (Some (Some ["vision-first"%string]),
          ActWarn "failed to persist llmws transcript: Error: session file locked (timeout 10000ms)",
          lockedFile).
Proof. vm_compute. reflexivity. Qed.

Lemma prompt_sections_in_order_witness :
  let request :=
    (Samples.historyBlock ++ JS.LF ++ JS.LF ++ Samples.memoryBlock ++ JS.LF ++ JS.LF
     ++ "Current user request:" ++ JS.LF ++ "analyze image")%string in
  exists result st' disk' delta,
    Agent.runLlmwsAgent (collaborators twoServers []) Samples.callWithSections atStart noFile
    = Some (inr result, st', disk')
    /\ log st' = log atStart ++ delta
    /\ openedTargets delta = [fastUrl; visionUrl]
    /\ Forall (eq request) (AgentSpec.userPromptsSent delta)
    /\ AgentSpec.userPromptsSent delta <> [].
Proof.
  intros request.
  destruct (Agent.runLlmwsAgent (collaborators twoServers []) Samples.callWithSections
              atStart noFile) as [[[[failure|result] st'] disk']|] eqn:Hrun;
    [exfalso; vm_compute in Hrun; discriminate | | exfalso; vm_compute in Hrun; discriminate].
  destruct (AgentFacts.prompt_sections_in_order (collaborators twoServers [])
              Samples.callWithSections atStart noFile (inr result) st' disk' Hrun)
    as (delta & Hlog & Hall & Hsome).
  exists result, st', disk', delta. split; [reflexivity|]. split; [exact Hlog|].
  split; [|split; [exact Hall | exact (Hsome result eq_refl)]].
  assert (Hdelta : delta = log st') by (rewrite Hlog; reflexivity).
  rewrite Hdelta. vm_compute in Hrun. injection Hrun as _ <- _. reflexivity.
Defined.

Lemma preferred_capabilities_order_targets_witness :
  let C := collaborators twoServers [] in
  let targets := [fastTarget; visionTarget; defaultTarget] in
  let preferred := ["vision"%string] in
  let preferredSet := Resolver.newSet (map Resolver.normalizeCapabilityTag preferred) in
  targets = [fastTarget] ++ visionTarget :: [defaultTarget]
  /\ Resolver.matchesAll preferredSet visionTarget = true
  /\ (forall t, In t ([fastTarget] ++ [defaultTarget]) ->
      Resolver.matchesAll preferredSet t = false)
  /\ resolvedTargets = Resolver.sortTargetsByCapabilities targets preferred
  /\ resolvedTargets = [visionTarget; fastTarget; defaultTarget]
  /\ exists outcome st' disk' attemptResult st2,
       Agent.runLlmwsAgent C (callOn resolvedTargets) atStart noFile
       = Some (outcome, st', disk')
       /\ Attempt.runLlmwsAttempt (Agent.network C) (Agent.randomUUID C)
            (Agent.numberToString C)
            (Agent.attemptParams (callOn resolvedTargets) (url visionTarget)) atStart
          = Some (inr attemptResult, st2)
       /\ exists delta,
            log st' = log atStart ++ delta
            /\ forall u, In u (openedTargets delta) -> u = url visionTarget.
Proof.
  intros C targets preferred preferredSet.
  assert (Hothers : forall t, In t ([fastTarget] ++ [defaultTarget]) ->
                      Resolver.matchesAll preferredSet t = false).
  { intros t [<- | [<- | []]]; reflexivity. }
  split; [reflexivity|]. split; [reflexivity|]. split; [exact Hothers|].
  split; [vm_compute; reflexivity|]. split; [vm_compute; reflexivity|].
  destruct (AgentFacts.preferred_capabilities_order_targets C targets preferred)
    as (_ & _ & _ & Hhead).
  destruct (Hhead [fastTarget] visionTarget [defaultTarget] eq_refl eq_refl Hothers)
    as (rest & Hsorted & Hcall).
  destruct (Agent.runLlmwsAgent C (callOn resolvedTargets) atStart noFile)
    as [[[outcome st'] disk']|] eqn:Hrun; [|exfalso; vm_compute in Hrun; discriminate].
  destruct (Attempt.runLlmwsAttempt (Agent.network C) (Agent.randomUUID C)
              (Agent.numberToString C)
              (Agent.attemptParams (callOn resolvedTargets) (url visionTarget)) atStart)
    as [[[err|attemptResult] st2]|] eqn:Hattempt;
    [exfalso; vm_compute in Hattempt; discriminate | |
     exfalso; vm_compute in Hattempt; discriminate].
  exists outcome, st', disk', attemptResult, st2.
  split; [reflexivity|]. split; [reflexivity|].
  assert (Hsettings : Agent.targets (Agent.runtimeSettings (callOn resolvedTargets))
                      = Resolver.sortTargetsByCapabilities targets preferred)
    by (vm_compute; reflexivity).
  exact (proj2 (Hcall (callOn resolvedTargets) atStart noFile outcome st' disk'
                  Hsettings Hrun) attemptResult st2 Hattempt).
Defined.

Lemma append_turn_adds_two_message_lines_witness :
  let C := transcriptCollaborators in
  Agent.lockError oldFile = None /\ Agent.readError oldFile = None
  /\ Agent.appendError oldFile = None /\ Agent.releaseError oldFile = None
  /\ Agent.content oldFile = Some oldTranscript
  /\ existsb (AgentSpec.lineHasType C "session") (Agent.transcriptLines oldTranscript) = true
  /\ AgentSpec.noLineBreak (stringify newUser) = true
  /\ AgentSpec.noLineBreak (stringify newAssistant) = true
  /\ parseKnown [oldHeader; oldUser; oldAssistant; newUser; newAssistant]
       (JS.trim (stringify newUser)) = Some newUser
  /\ parseKnown [oldHeader; oldUser; oldAssistant; newUser; newAssistant]
       (JS.trim (stringify newAssistant)) = Some newAssistant
  /\ JS.truthy (JS.trim (stringify newUser)) = true
  /\ JS.truthy (JS.trim (stringify newAssistant)) = true
  /\ AgentSpec.appendsTwoMessageLines C newTurn afterReply oldFile oldTranscript.
Proof.
  intros C. repeat (split; [vm_compute; reflexivity|]).
  apply AgentFacts.append_turn_adds_two_message_lines; vm_compute; reflexivity.
Defined.

(** A reply that cannot be written, or whose lock cannot be released, is
    returned all the same, with a warning in the log: the full disk is
    left as it was, and the file whose lock is gone has the new turn. *)
Example failed_append_is_a_warning :
  let C := collaborators twoServers [] in
  let reply := fun outcome : Agent.FailoverError + Agent.EmbeddedPiRunResult =>
                 match outcome with
                 | inr result => Agent.payloads result
                 | inl _ => None
                 end in
  option_map (fun r => (reply (fst (fst r)), last (log (snd (fst r))) ActClose, snd r))
    (Agent.runLlmwsAgent C (callOn [visionTarget]) atStart fullDisk)
  = Some (Some ["vision-first"], Agent.transcriptWarning noSpaceLeft, fullDisk)
  /\ option_map (fun r => (reply (fst (fst r)), last (log (snd (fst r))) ActClose,
                           match Agent.content (snd r) with
                           | Some text => List.length (Agent.transcriptLines text)
                           | None => 0%nat
                           end))
       (Agent.runLlmwsAgent C (callOn [visionTarget]) atStart staleLock)
     = Some (Some ["vision-first"], Agent.transcriptWarning lockLost, 3%nat).
Proof. vm_compute. split; reflexivity. Qed.

(** The transcript of the history test after one more turn: the header
    once, the two old messages and the two new ones, the new user entry
    chained to [m2]. *)
Example transcript_after_one_more_turn :
  let C := transcriptCollaborators in
  option_map (fun text => (filter (AgentSpec.lineHasType C "session")
                             (Agent.transcriptLines text),
                           filter (AgentSpec.lineHasType C "message")
                             (Agent.transcriptLines text)))
    (Agent.content (snd (Agent.appendTranscriptMessages C newTurn afterReply oldFile)))
  = Some ([stringify oldHeader],
          [stringify oldUser; stringify oldAssistant; stringify newUser;
           stringify newAssistant]).
Proof. vm_compute. reflexivity. Qed.

End Runs.

(** ** The further properties on concrete inputs *)

Module Checks.
Import Scenarios Samples.

Lemma dedupeCapabilityTags_distinct_normal_tags_witness :
  In "two-words"%string (Resolver.dedupeCapabilityTags [" Two  Words "; "two-words"]%string).
Proof.
  apply (proj1 (proj2 (ResolverLaws.dedupeCapabilityTags_distinct_normal_tags
                         [" Two  Words "; "two-words"]%string))).
  split; [discriminate|]. exists " Two  Words "%string. split; [left; reflexivity|].
  reflexivity.
Defined.

Lemma dedupeTargets_first_entry_wins_witness :
  exists before raw after,
    twiceTheSameServer = before ++ raw :: after
    /\ mkTarget "ws://127.0.0.1:9001" ["fast"%string]
       = mkTarget (Resolver.toWsUrl (url raw))
           (Resolver.dedupeCapabilityTags (capabilities raw))
    /\ forall b, In b before -> Resolver.toWsUrl (url b) <> "ws://127.0.0.1:9001"%string.
Proof.
  apply (proj2 (proj2 (ResolverLaws.dedupeTargets_first_entry_wins twiceTheSameServer))
           (mkTarget "ws://127.0.0.1:9001" ["fast"%string])).
  left. reflexivity.
Defined.

Lemma parseEnvPositiveInt_whole_or_fallback_witness :
  Settings.parseEnvPositiveInt (fun _ => Some "   "%string) numberOfHalf
    "OPENCLAW_LLMWS_CONTEXT_FILES_MAX_CHARS" 6000%Q
  = 6000%Q.
Proof.
  apply (proj1 (proj2 (SettingsFacts.parseEnvPositiveInt_whole_or_fallback
                         (fun _ => Some "   "%string) numberOfHalf
                         "OPENCLAW_LLMWS_CONTEXT_FILES_MAX_CHARS" 6000%Q))).
  intros value [= <-]. reflexivity.
Defined.

Lemma resolved_settings_are_in_range_witness :
  (Agent.connectTimeoutMs
     (Settings.resolveLlmwsRuntimeSettings halfBudgetEnv None "llmws" "qwen-8b" 120000%Q None)
   <= 8000)%Z.
Proof.
  apply (proj2 (proj2 (proj2 (proj2 (proj2
           (SettingsFacts.resolved_settings_are_in_range halfBudgetEnv None "llmws" "qwen-8b"
              120000%Q None))))));
    reflexivity.
Defined.

Lemma generation_budget_precedence_witness :
  max_new_tokens (Settings.resolveGenerationConfig snakeDefaults camelModelParams None)
  = Some (JS.Num 64).
Proof.
  apply (proj2 (proj2 (SettingsFacts.generation_budget_precedence
                         snakeDefaults camelModelParams)));
    reflexivity.
Defined.

Lemma toFailoverError_always_has_message_witness :
  Agent.reason
    (Agent.toFailoverError (collaborators deadServers [])
       (Agent.ThrownError (mkError " Quota exceeded after read timeout " (Some "ECONNRESET")))
       "llmws" "qwen-8b")
  = "rate_limit"%string
  /\ Agent.failoverMessage
       (Agent.toFailoverError (collaborators deadServers [])
          (Agent.ThrownError (mkError "   " None)) "llmws" "qwen-8b")
     = "LLMWS request failed"%string
  /\ Agent.reason
       (Agent.toFailoverError (collaborators deadServers [])
          (Agent.ThrownError (mkError "   " None)) "llmws" "qwen-8b")
     = "unknown"%string.
Proof.
  split; [|split].
  - apply (proj1 (proj2 (proj2 (proj2 (FailoverFacts.toFailoverError_always_has_message
                                          (collaborators deadServers [])
                                          (mkError " Quota exceeded after read timeout "
                                             (Some "ECONNRESET"))
                                          "llmws" "qwen-8b"))))).
    vm_compute. reflexivity.
  - exact (proj1 (proj2 (proj2 (FailoverFacts.toFailoverError_always_has_message
                                  (collaborators deadServers []) (mkError "   " None)
                                  "llmws" "qwen-8b")))).
  - rewrite (proj1 (proj2 (proj2 (proj2 (proj2
               (FailoverFacts.toFailoverError_always_has_message
                  (collaborators deadServers []) (mkError "   " None)
                  "llmws" "qwen-8b"))))));
      vm_compute; reflexivity.
Defined.

Lemma transport_errors_are_timeouts_witness :
  Agent.reason
    (Agent.toFailoverError (collaborators deadServers [])
       (Agent.ThrownError (MessageQueue.readTimeoutError 40)) "llmws" "qwen-8b")
  = "timeout"%string.
Proof.
  apply (proj1 (proj2 (FailoverFacts.transport_errors_are_timeouts
                         (collaborators deadServers []) "llmws" "qwen-8b"))).
  vm_compute. reflexivity.
Defined.

Lemma read_is_settled_by_its_timer_witness :
  exists s st',
    Socket.queueNext streaming 50 = (s, st')
    /\ (now st' = now streaming + Z.max 1 50)%Z
    /\ s = MessageQueue.Rejected (MessageQueue.readTimeoutError 50).
Proof.
  destruct (Socket.queueNext streaming 50) as [s st'] eqn:Hnext.
  exists s, st'. split; [reflexivity|].
  assert (Hclock : (now st' = now streaming + Z.max 1 50)%Z)
    by (vm_compute in Hnext; injection Hnext as _ <-; reflexivity).
  split; [exact Hclock|].
  destruct (ReadFacts.read_is_settled_by_its_timer streaming 50 s st' eq_refl Hnext)
    as (_ & _ & Htimer & _).
  exact (Htimer Hclock).
Defined.

Lemma successful_attempt_follows_protocol_witness :
  exists result st',
    Attempt.runLlmwsAttempt helloServer uuid renderInteger (attemptOn 5000) atStart
    = Some (inr result, st')
    /\ exists before config skipped welcome frames doneFrame sid,
         log st' = before
                   ++ ActOpen (Attempt.target (attemptOn 5000))
                   :: ActSend (Attempt.helloPayload (Attempt.resumeSessionId (attemptOn 5000)))
                   :: map ActRecv (skipped ++ [welcome])
                   ++ AttemptSpec.inferenceRequest (attemptOn 5000) config
                   :: map ActRecv (frames ++ [doneFrame]) ++ [ActClose]
         /\ Forall (fun m => Attempt.hasType m "welcome" = false) skipped
         /\ Attempt.hasType welcome "welcome" = true
         /\ Attempt.hasType doneFrame "done" = true
         /\ sessionId result = Some sid
         /\ (readString welcome "session_id" = Some sid
             \/ (readString welcome "session_id" = None
                 /\ exists k, uuids st' = S k /\ sid = uuid k)).
Proof.
  destruct (Attempt.runLlmwsAttempt helloServer uuid renderInteger (attemptOn 5000) atStart)
    as [[[err|result] st']|] eqn:Hrun;
    [exfalso; vm_compute in Hrun; discriminate | | exfalso; vm_compute in Hrun; discriminate].
  exists result, st'. split; [reflexivity|].
  apply (AttemptProtocol.successful_attempt_follows_protocol helloServer uuid renderInteger
           (attemptOn 5000) atStart).
  exact Hrun.
Defined.

Lemma retry_failed_error_is_unreachable_witness :
  exists err st',
    Attempt.runLlmwsAttempt steadyServer uuid renderInteger (attemptOn 100) atStart
    = Some (inl err, st')
    /\ exists config retried st0,
         Attempt.openLlmwsSocket steadyServer (Attempt.target (attemptOn 100))
           (Attempt.connectTimeoutMs (attemptOn 100)) st0
         = (Some err, st')
         \/ exists st1 st2,
              Attempt.openLlmwsSocket steadyServer (Attempt.target (attemptOn 100))
                (Attempt.connectTimeoutMs (attemptOn 100)) st0
              = (None, st1)
              /\ Attempt.connectionBody uuid renderInteger (attemptOn 100) config retried st1
                 = Some (Attempt.ConnThrow err, st2)
              /\ st' = Attempt.closeSocket st2.
Proof.
  destruct (Attempt.runLlmwsAttempt steadyServer uuid renderInteger (attemptOn 100) atStart)
    as [[[err|result] st']|] eqn:Hrun;
    [| exfalso; vm_compute in Hrun; discriminate | exfalso; vm_compute in Hrun; discriminate].
  exists err, st'. split; [reflexivity|].
  exact (proj2 (AttemptProtocol.retry_failed_error_is_unreachable steadyServer uuid
                  renderInteger 0 (attemptOn 100) atStart) err st' Hrun).
Defined.

Lemma history_block_keeps_to_its_limits_witness :
  exists history text older kept body,
    oldHistory = Some history
    /\ Some oldTranscript = Some text
    /\ History.parseLines (parseKnown [oldHeader; oldUser; oldAssistant]) (fun _ => false)
         (Agent.transcriptLines text) = older ++ kept
    /\ (1 <= Z.of_nat (List.length kept) <= 12)%Z
    /\ history = (HistorySpec.historyHeader ++ body)%string
    /\ (Clip.len body <= 12000)%Z
    /\ (body = JS.join (JS.LF ++ JS.LF) (map History.blockOf kept)
        \/ exists item,
             kept = [item]
             /\ body = (Clip.sliceTo (12000 - 1) (History.blockOf item)
                        ++ String ellipsisMark "")%string).
Proof.
  destruct oldHistory as [history|] eqn:Hold; [|exfalso; vm_compute in Hold; discriminate].
  destruct (proj1 (HistoryFacts.history_block_keeps_to_its_limits
                     (parseKnown [oldHeader; oldUser; oldAssistant]) (fun _ => false)
                     ellipsisMark (Some oldTranscript) 12 12000) history Hold)
    as (text & older & kept & body & H).
  exists history, text, older, kept, body. split; [reflexivity | exact H].
Defined.

Lemma history_block_shows_the_latest_turns_witness :
  exists history text older kept,
    shortHistory = Some history
    /\ Some oldTranscript = Some text
    /\ History.parseLines (parseKnown [oldHeader; oldUser; oldAssistant]) (fun _ => false)
         (Agent.transcriptLines text) = older ++ kept
    /\ kept <> []
    /\ (history = (HistorySpec.historyHeader
                   ++ JS.join (JS.LF ++ JS.LF) (map History.blockOf kept))%string
        \/ exists item,
             kept = [item] /\ (10 < Clip.len (History.blockOf item))%Z
             /\ history = (HistorySpec.historyHeader
                           ++ Clip.sliceTo (10 - 1) (History.blockOf item)
                           ++ String ellipsisMark "")%string
             /\ Clip.len (Clip.sliceTo (10 - 1) (History.blockOf item)
                          ++ String ellipsisMark "") = 10%Z).
Proof.
  destruct shortHistory as [history|] eqn:Hshort; [|exfalso; vm_compute in Hshort; discriminate].
  destruct (HistoryFacts.history_block_shows_the_latest_turns
              (parseKnown [oldHeader; oldUser; oldAssistant]) (fun _ => false)
              ellipsisMark (Some oldTranscript) 12 10 history Hshort)
    as (text & older & kept & H).
  exists history, text, older, kept. split; [reflexivity | exact H].
Defined.

Lemma context_files_keep_to_their_budget_witness :
  ContextFiles.clampEmbeddedContextFiles ellipsisMark twoContextFiles 6000%Q (1 # 2)%Q = [].
Proof.
  apply (proj2 (proj2 (BudgetFacts.context_files_keep_to_their_budget ellipsisMark
                         twoContextFiles 6000%Q (1 # 2)%Q))).
  right. reflexivity.
Defined.

Lemma memory_block_keeps_to_its_budget_witness :
  exists block,
    MemoryInjection.formatMemoryInjection ellipsisMark twoSnippets 50%Q (Some "Mem:"%string)
    = Some block
    /\ (Clip.len block <= Qfloor 50%Q)%Z.
Proof.
  destruct (MemoryInjection.formatMemoryInjection ellipsisMark twoSnippets 50%Q
              (Some "Mem:"%string)) as [block|] eqn:Hblock;
    [|exfalso; vm_compute in Hblock; discriminate].
  exists block. split; [reflexivity|].
  exact (proj1 (proj1 (BudgetFacts.memory_block_keeps_to_its_budget ellipsisMark twoSnippets
                         50%Q (Some "Mem:"%string)) block Hblock)).
Defined.

Lemma data_url_is_reduced_to_its_payload_witness :
  Media.normalizeImageBase64 ("data:image/png" ++ ";base64," ++ "AAAA") = "AAAA"%string.
Proof.
  apply (proj1 MediaFacts.data_url_is_reduced_to_its_payload); reflexivity.
Defined.

Lemma media_entries_are_numbered_by_position_witness :
  In [("type", JStr "image"); ("data", JStr "BBBB"); ("name", JStr "image-3.jpg")]
    (Media.buildMediaPayload (Some threeImages)).
Proof.
  apply (proj2 (MediaFacts.media_entries_are_numbered_by_position threeImages _)).
  exists 2%nat, (Media.mkImage (Some "BBBB"%string) (Some "image/JPEG"%string)).
  split; [reflexivity|]. split; [discriminate | reflexivity].
Defined.

Lemma call_only_appends_to_the_transcript_witness :
  exists outcome st' disk',
    Agent.runLlmwsAgent (collaborators twoServers []) (callOn [visionTarget]) atStart noFile
    = Some (outcome, st', disk')
    /\ match outcome with
       | inl _ => disk' = noFile
       | inr result =>
           match Agent.payloads result with
           | None => disk' = noFile
           | Some texts =>
               exists reply,
                 texts = [reply] /\ reply <> ""%string
                 /\ (disk' = noFile
                     \/ exists clock drawn,
                          Agent.content disk'
                          = Some (""
                                  ++ Agent.transcriptAppended (collaborators twoServers [])
                                       (Agent.mkTranscriptParams "session-1" "/workspace"
                                          "analyze image" reply)
                                       "" clock drawn)%string)
           end
       end.
Proof.
  destruct (Agent.runLlmwsAgent (collaborators twoServers []) (callOn [visionTarget])
              atStart noFile) as [[[outcome st'] disk']|] eqn:Hrun;
    [|exfalso; vm_compute in Hrun; discriminate].
  exists outcome, st', disk'. split; [reflexivity|].
  exact (TranscriptFacts.call_only_appends_to_the_transcript (collaborators twoServers [])
           (callOn [visionTarget]) atStart noFile outcome st' disk' Hrun).
Defined.

Lemma append_writes_the_missing_header_witness :
  let C := transcriptCollaborators in
  exists header userEntry assistantEntry,
    Agent.transcriptAdditions C newTurn "" 40 0 = [header; userEntry; assistantEntry]
    /\ AgentSpec.fieldOf header "type" = Some (JStr "session")
    /\ AgentSpec.fieldOf header "timestamp" = Some (JStr "T+40")
    /\ AgentSpec.fieldOf userEntry "parentId" = Some JNull
    /\ AgentSpec.fieldOf userEntry "timestamp" = Some (JStr "T+40")
    /\ AgentSpec.fieldOf assistantEntry "parentId" = Some (JStr "uuid-0")
    /\ AgentSpec.fieldOf assistantEntry "timestamp" = Some (JStr "T+41").
Proof.
  intros C.
  destruct (TranscriptFacts.append_writes_the_missing_header C newTurn afterReply noFile
              eq_refl eq_refl eq_refl eq_refl eq_refl)
    as (header & userEntry & assistantEntry & Hadd & Hheader & Huser & Hassistant & _).
  exists header, userEntry, assistantEntry. split; [exact Hadd|].
  destruct Hheader as (_ & Htype & _ & _ & Hstamp & _).
  destruct Huser as (_ & _ & _ & Hparent & Hustamp & _).
  destruct Hassistant as (_ & _ & _ & Haparent & Hastamp & _).
  repeat split; assumption.
Defined.

Lemma next_turn_is_chained_to_this_one_witness :
  let C := transcriptCollaborators in
  exists st1 written nextUser nextAssistant,
    Agent.appendTranscriptMessages C newTurn afterReply oldFile
    = (None, st1, Agent.mkDisk None None None None (Some written))
    /\ Agent.transcriptAdditions C newTurn written 99 (uuids st1) = [nextUser; nextAssistant]
    /\ AgentSpec.fieldOf nextUser "id" = Some (JStr "uuid-2")
    /\ AgentSpec.fieldOf nextUser "parentId" = Some (JStr "uuid-1")
    /\ AgentSpec.fieldOf nextAssistant "parentId" = Some (JStr "uuid-2").
Proof.
  intros C.
  destruct (TranscriptFacts.next_turn_is_chained_to_this_one C newTurn afterReply oldFile
              oldTranscript newTurn 99 newUser newAssistant)
    as (st1 & written & nextUser & nextAssistant & Happend & Hdrawn & Hadd & Huser
        & Hassistant);
    try (vm_compute; reflexivity).
  exists st1, written, nextUser, nextAssistant.
  split; [exact Happend|]. split; [exact Hadd|].
  rewrite Hdrawn in Huser, Hassistant.
  destruct Huser as (_ & _ & Hid & Hparent & _).
  destruct Hassistant as (_ & _ & _ & Haparent & _).
  repeat split; assumption.
Defined.

End Checks.
